(** * Kaviron Editor: narrative graph analysis and persistence engine

    A shallow embedding of [src/lib/utils.ts] (the graph analyzer and the
    IndexedDB persistence layer that follows it in the same file) and of the
    editor components that call it, together with the properties stated
    about them.

    Conventions of the model.
    - A JavaScript object used as a string-keyed map
      ([Record<string, Scene>], a parsed JSON document) is the association
      list of its own properties in the enumeration order of the object, the
      order [Object.keys], [Object.entries] and [JSON.stringify] follow:
      the names that are array indices in ascending order, then the other
      names in the order of their creation.
    - A property read [scenes[key]] goes through the prototype chain: the
      scenes are plain objects, and a name that is no own property but a
      member of [Object.prototype] reads as that member.
    - Strings are well-formed Unicode strings in UTF-8, one character of
      the string type per byte: equality of strings is equality of their
      code units, [trim] removes the white space and the line terminators of
      ECMAScript, and a line feed is one byte.
    - Object stores of the database are finite maps from the primary key to
      the stored record.
    - A promise-returning operation is a function from the database to an
      [outcome] (resolved with a value, or rejected with an exception) and the
      database left behind.
    - The browser platform (the JSON codec, the clock, storage failures) is
      a parameter of every operation.

    Limits of the model.
    - Numbers are integers.
    - Primary keys are strings, as every [id] of the schema is.
    - The timestamp of a snapshot is the instant its ISO string denotes.
    - The database is open at its current version: the four object stores
      and their indexes exist. *)

From Stdlib Require Import ZArith Lia Ascii String.
From stdpp Require Import gmap strings list pretty sorting.

#[local] Set Warnings "-register-all".

Local Open Scope string_scope.

(* ===================================================================== *)
(** * Graph analyzer ([isSceneReachable], [findBrokenLinks],
      [findUnreachableScenes]) *)
(* ===================================================================== *)

Module Analyzer.

(** [interface Scene] and its choices. *)
Record Choice := mkChoice { choice_text : string; nextScene : string }.

Record Scene := mkScene {
  scene_id : string;
  scene_title : string;
  scene_text : list string;
  choices : list Choice
}.

(** [Record<string, Scene>]: the own properties, in enumeration order. *)
Definition Scenes := list (string * Scene).

(** [Object.keys(scenes)] *)
Definition Object_keys (scenes : Scenes) : list string := map fst scenes.

(** The own property [key] of [scenes], [None] when there is none. *)
Fixpoint scene_at (scenes : Scenes) (key : string) : option Scene :=
  match scenes with
  | [] => None
  | (k, scene) :: rest => if decide (k = key) then Some scene else scene_at rest key
  end.

(** ** Property reads *)

(** The properties a plain object inherits from [Object.prototype] in a
    browser. Each of them is a function, or for [__proto__] the prototype
    object itself: a truthy value that has no [choices]. *)
Definition prototype_members : list string :=
  ["constructor"; "hasOwnProperty"; "isPrototypeOf"; "propertyIsEnumerable";
   "toLocaleString"; "toString"; "valueOf"; "__proto__";
   "__defineGetter__"; "__defineSetter__"; "__lookupGetter__"; "__lookupSetter__"].

(** What [scenes[key]] reads. *)
Inductive member :=
| Own (scene : Scene)     (* the scene stored under [key] *)
| Inherited               (* a member of [Object.prototype] *)
| Absent.                 (* [undefined] *)

(** [scenes[key]]: an own property shadows an inherited one. *)
Definition member_at (scenes : Scenes) (key : string) : member :=
  match scene_at scenes key with
  | Some scene => Own scene
  | None => if decide (key ∈ prototype_members) then Inherited else Absent
  end.

(** How a call of the analyzer ends. The one exception it can raise is the
    [TypeError] of [for (const choice of currentScene.choices)] when
    [currentScene.choices] is [undefined]. *)
Inductive completion (A : Type) :=
| Returns (value : A)
| ThrowsTypeError.
Arguments Returns {A} value.
Arguments ThrowsTypeError {A}.

#[global] Instance completion_eq_dec {A} `{EqDecision A} : EqDecision (completion A).
Proof. solve_decision. Defined.

(** ** Property creation *)

Definition digit_value (c : ascii) : option N :=
  let code := N_of_ascii c in
  if (48 <=? code)%N && (code <=? 57)%N then Some (code - 48)%N else None.

Fixpoint decimal (value : N) (s : string) : option N :=
  match s with
  | EmptyString => Some value
  | String c s' =>
      match digit_value c with
      | Some d => decimal (10 * value + d)%N s'
      | None => None
      end
  end.

(** The property names that are array indices: the canonical decimal
    strings of the integers below [2^32 - 1]. *)
Definition array_index (key : string) : option N :=
  match decimal 0 key with
  | Some n =>
      if bool_decide (pretty n = key) && (n <? 4294967295)%N then Some n else None
  | None => None
  end.

(** The place of a new own property [key] with respect to an existing one:
    array indices come first, in ascending order; every other name comes
    after all the properties there are. *)
Definition enumerated_before (key other : string) : bool :=
  match array_index key, array_index other with
  | Some i, Some j => (i <? j)%N
  | Some _, None => true
  | None, _ => false
  end.

(** Writing an own property that exists: it keeps its place. *)
Fixpoint replace_scene (scenes : Scenes) (key : string) (scene : Scene) : Scenes :=
  match scenes with
  | [] => []
  | (k, s) :: rest =>
      if decide (k = key) then (k, scene) :: rest
      else (k, s) :: replace_scene rest key scene
  end.

(** Creating an own property. *)
Fixpoint create_scene (scenes : Scenes) (key : string) (scene : Scene) : Scenes :=
  match scenes with
  | [] => [(key, scene)]
  | (k, s) :: rest =>
      if enumerated_before key k then (key, scene) :: (k, s) :: rest
      else (k, s) :: create_scene rest key scene
  end.

(** [{ ...scenes, [key]: scene }]: the copy has the properties of [scenes]
    in their order, and [key] is then written as a property of its own. *)
Definition set_scene (scenes : Scenes) (key : string) (scene : Scene) : Scenes :=
  if decide (key ∈ Object_keys scenes) then replace_scene scenes key scene
  else create_scene scenes key scene.

(** The object whose properties were written in the order of [inserted]. *)
Definition object_of (inserted : list (string * Scene)) : Scenes :=
  foldl (fun scenes entry => set_scene scenes entry.1 entry.2) [] inserted.

(** ** [isSceneReachable] *)

(** The [for (const choice of currentScene.choices)] loop of
    [isSceneReachable]. [None] is the early [return true]; otherwise the
    queue after the pushes. *)
Fixpoint scan_choices (sceneId : string) (visited : gset string)
    (queue : list string) (cs : list Choice) : option (list string) :=
  match cs with
  | [] => Some queue
  | choice :: cs' =>
      if decide (nextScene choice = sceneId) then None
      else scan_choices sceneId visited
             (if decide (nextScene choice ∈ visited) then queue
              else queue ++ [nextScene choice])
             cs'
  end.

(** The [while (queue.length > 0)] loop. One unit of fuel is one iteration;
    [None] means the fuel ran out before the loop ended. *)
Fixpoint bfs_loop (fuel : nat) (scenes : Scenes) (sceneId : string)
    (visited : gset string) (queue : list string) : option (completion bool) :=
  match fuel with
  | O => None
  | S fuel' =>
      match queue with
      | [] => Some (Returns false)
      | currentSceneId :: queue' =>
          if decide (currentSceneId ∈ visited)
          then bfs_loop fuel' scenes sceneId visited queue'
          else
            let visited' := {[currentSceneId]} ∪ visited in
            match member_at scenes currentSceneId with
            | Absent =>
                (* if (!currentScene) continue *)
                bfs_loop fuel' scenes sceneId visited' queue'
            | Inherited =>
                (* currentScene.choices is undefined: not iterable *)
                Some ThrowsTypeError
            | Own currentScene =>
                match scan_choices sceneId visited' queue' (choices currentScene) with
                | None => Some (Returns true)
                | Some queue'' => bfs_loop fuel' scenes sceneId visited' queue''
                end
            end
      end
  end.

(** Number of choices in the whole graph. *)
Definition total_choices (scenes : Scenes) : nat :=
  sum_list (map (fun entry => length (choices entry.2)) scenes).

(** The choices of the scenes not expanded yet: the pushes still to come. *)
Definition pending_choices (scenes : Scenes) (visited : gset string) : nat :=
  sum_list (map (fun entry => if decide (entry.1 ∈ visited) then 0
                              else length (choices entry.2)) scenes).

(** Iterations that always suffice (see [bfs_loop_enough_fuel]). *)
Definition fuel_bound (scenes : Scenes) : nat := S (S (total_choices scenes)).

Definition isSceneReachable (scenes : Scenes) (sceneId : string) : completion bool :=
  if decide (sceneId = "start") then Returns true
  else
    match bfs_loop (fuel_bound scenes) scenes sceneId ∅ ["start"] with
    | Some outcome => outcome
    | None => Returns false
    end.

(** ** [findBrokenLinks] *)

(** [{ sceneId, choiceIndex }] *)
Definition BrokenLink : Type := string * nat.

(** [scene.choices.forEach((choice, index) => ...)], pushing onto
    [brokenLinks] when [!scenes[choice.nextScene]]. *)
Fixpoint forEach_choice (scenes : Scenes) (sceneId : string) (index : nat)
    (cs : list Choice) (brokenLinks : list BrokenLink) : list BrokenLink :=
  match cs with
  | [] => brokenLinks
  | choice :: cs' =>
      forEach_choice scenes sceneId (S index) cs'
        (match member_at scenes (nextScene choice) with
         | Absent => brokenLinks ++ [(sceneId, index)]
         | Own _ | Inherited => brokenLinks
         end)
  end.

(** [Object.entries(scenes).forEach(([sceneId, scene]) => ...)] *)
Fixpoint forEach_scene (scenes : Scenes) (entries : list (string * Scene))
    (brokenLinks : list BrokenLink) : list BrokenLink :=
  match entries with
  | [] => brokenLinks
  | (sceneId, scene) :: rest =>
      forEach_scene scenes rest
        (forEach_choice scenes sceneId 0 (choices scene) brokenLinks)
  end.

Definition findBrokenLinks (scenes : Scenes) : list BrokenLink :=
  forEach_scene scenes scenes [].

(** ** [findUnreachableScenes] *)

(** [keys.filter((sceneId) => !isSceneReachable(scenes, sceneId))]: a call
    that throws ends the filter. *)
Fixpoint filter_unreachable (scenes : Scenes) (keys : list string)
    : completion (list string) :=
  match keys with
  | [] => Returns []
  | sceneId :: rest =>
      match isSceneReachable scenes sceneId with
      | ThrowsTypeError => ThrowsTypeError
      | Returns reachable =>
          match filter_unreachable scenes rest with
          | ThrowsTypeError => ThrowsTypeError
          | Returns unreachable =>
              Returns (if reachable then unreachable else sceneId :: unreachable)
          end
      end
  end.

Definition findUnreachableScenes (scenes : Scenes) : completion (list string) :=
  filter_unreachable scenes (Object_keys scenes).

(** ** What the properties speak of *)

(** A finite path of [choice.nextScene] edges that begins at ["start"]. *)
Inductive path_from_start (scenes : Scenes) : string -> Prop :=
| path_here : path_from_start scenes "start"
| path_step from scene choice :
    path_from_start scenes from ->
    scene_at scenes from = Some scene ->
    choice ∈ choices scene ->
    path_from_start scenes (nextScene choice).

(** No choice that can be met on a path from ["start"] leads to a name that
    reads as a member of [Object.prototype]. *)
Definition faultless (scenes : Scenes) : Prop :=
  forall name, path_from_start scenes name -> member_at scenes name <> Inherited.

(** The invariant of the traversal: ["start"] has been met, and every edge
    out of a visited scene leads to a scene other than the target that is
    visited or waiting in the queue. *)
Definition frontier_closed (scenes : Scenes) (sceneId : string)
    (visited : gset string) (queue : list string) : Prop :=
  ("start" ∈ visited \/ "start" ∈ queue) /\
  forall from scene choice,
    from ∈ visited -> scene_at scenes from = Some scene -> choice ∈ choices scene ->
    nextScene choice <> sceneId /\ (nextScene choice ∈ visited \/ nextScene choice ∈ queue).

(** The broken links of one scene, for the choices [cs] that start at
    position [index]. *)
Fixpoint broken_from (scenes : Scenes) (sceneId : string) (index : nat)
    (cs : list Choice) : list BrokenLink :=
  match cs with
  | [] => []
  | choice :: cs' =>
      match member_at scenes (nextScene choice) with
      | Absent => (sceneId, index) :: broken_from scenes sceneId (S index) cs'
      | Own _ | Inherited => broken_from scenes sceneId (S index) cs'
      end
  end.

(** The broken links of the scenes [entries], scene after scene. *)
Fixpoint broken_rows (scenes : Scenes) (entries : list (string * Scene)) : list BrokenLink :=
  match entries with
  | [] => []
  | entry :: rest => broken_from scenes entry.1 0 (choices entry.2) ++ broken_rows scenes rest
  end.

(** Position of a broken link in a sequence of scene ids: the scene's place
    among them, then the choice's place in the array. For the keys of the
    scenes this is the order of the iteration. *)
Definition link_ordered (keys : list string) (a b : BrokenLink) : Prop :=
  exists p q, keys !! p = Some a.1 /\ keys !! q = Some b.1 /\
              (p < q \/ (p = q /\ a.2 < b.2)).

Definition link_before (scenes : Scenes) : relation BrokenLink :=
  link_ordered (Object_keys scenes).

(** The first place of each name of a sequence. *)
Fixpoint first_occurrences (names : list string) : list string :=
  match names with
  | [] => []
  | name :: rest => name :: filter (fun other => other <> name) (first_occurrences rest)
  end.

(** The graph [start -> A -> B -> A] with a dangling choice to ["ghost"]. *)
Definition cyclic_scenes : Scenes :=
  [ ("start", mkScene "start" "Start" [] [mkChoice "go" "A"]);
    ("A", mkScene "A" "A" [] [mkChoice "on" "B"; mkChoice "lost" "ghost"]);
    ("B", mkScene "B" "B" [] [mkChoice "back" "A"]);
    ("island", mkScene "island" "Island" [] [mkChoice "swim" "start"]) ].

(** The graph [start -> A -> B -> A] with a choice of [B] that leads to
    ["constructor"], a scene that does not exist. *)
Definition haunted_scenes : Scenes :=
  [ ("start", mkScene "start" "Start" [] [mkChoice "go" "A"]);
    ("A", mkScene "A" "A" [] [mkChoice "on" "B"]);
    ("B", mkScene "B" "B" [] [mkChoice "back" "A"; mkChoice "lost" "constructor"]);
    ("island", mkScene "island" "Island" [] [mkChoice "swim" "start"]) ].

(** Two scenes with a dangling choice each, the second one created under
    an array index. *)
Definition numbered_scenes : list (string * Scene) :=
  [ ("start", mkScene "start" "Start" [] [mkChoice "lost" "ghost"]);
    ("7", mkScene "7" "Seven" [] [mkChoice "lost" "ghost"]) ].

End Analyzer.

(* ===================================================================== *)
(** * JavaScript values and exceptions *)
(* ===================================================================== *)

Module JS.

(** The values a JSON document, an argument or a stored record can be.
    Numbers are the integers. *)
Inductive jsval :=
| JUndefined
| JNull
| JBool (b : bool)
| JNum (n : Z)
| JStr (s : string)
| JArr (items : list jsval)
| JObj (props : list (string * jsval)).

(** What a [throw] or a rejected promise carries. *)
Inductive exn :=
| Error (message : string)          (* [new Error(message)] *)
| TypeError                         (* raised by the engine *)
| SyntaxError                       (* raised by [JSON.parse] *)
| DataError                         (* IndexedDB: the key is not a valid key *)
| ConstraintError                   (* IndexedDB: [add] on an existing key *)
| DOMException (message : string)   (* any other failed request *)
| ErrorFrom (prefix : string) (cause : exn).
                                    (* [new Error(prefix + cause.message)] *)

(** [new Error(prefix + error.message)] *)
Definition rethrow (prefix : string) (error : exn) : exn :=
  match error with
  | Error message | DOMException message => Error (prefix ++ message)
  | _ => ErrorFrom prefix error
  end.

(** Synchronous code that may throw. *)
Inductive result (A : Type) :=
| Return (a : A)
| Throw (e : exn).
Arguments Return {A} a.
Arguments Throw {A} e.

Definition bind {A B} (r : result A) (k : A -> result B) : result B :=
  match r with
  | Return a => k a
  | Throw e => Throw e
  end.

(** [!!v] *)
Definition truthy (v : jsval) : bool :=
  match v with
  | JUndefined | JNull => false
  | JBool b => b
  | JNum n => negb (n =? 0)%Z
  | JStr s => negb (bool_decide (s = EmptyString))
  | JArr _ | JObj _ => true
  end.

(** [props[name]] of an object. *)
Fixpoint own_property (props : list (string * jsval)) (name : string) : jsval :=
  match props with
  | [] => JUndefined
  | (k, v) :: rest => if decide (k = name) then v else own_property rest name
  end.

(** [v.name], for the property names this module reads ([id], [title],
    [scenes], [start], [text], [choices], [nextScene]): none of them is
    defined on a primitive or an array. *)
Definition get (v : jsval) (name : string) : result jsval :=
  match v with
  | JUndefined | JNull => Throw TypeError
  | JObj props => Return (own_property props name)
  | _ => Return JUndefined
  end.

(** [{ ...props, name: v }] and [object.name = v]: an existing key keeps
    its place. *)
Fixpoint set_property (props : list (string * jsval)) (name : string) (v : jsval)
    : list (string * jsval) :=
  match props with
  | [] => [(name, v)]
  | (k, w) :: rest =>
      if decide (k = name) then (k, v) :: rest
      else (k, w) :: set_property rest name v
  end.

(** [const { name, ...rest } = props] *)
Definition rest_without (name : string) (props : list (string * jsval))
    : list (string * jsval) :=
  filter (fun entry => entry.1 <> name) props.

(** The white space and the line terminators of ECMAScript, each in its
    UTF-8 encoding. *)
Definition white_space : list (list ascii) :=
  [ ["009"%char]; ["010"%char]; ["011"%char]; ["012"%char]; ["013"%char]; [" "%char];
    ["194"%char; "160"%char];                 (* U+00A0 *)
    ["225"%char; "154"%char; "128"%char];     (* U+1680 *)
    ["226"%char; "128"%char; "128"%char];     (* U+2000 *)
    ["226"%char; "128"%char; "129"%char];
    ["226"%char; "128"%char; "130"%char];
    ["226"%char; "128"%char; "131"%char];
    ["226"%char; "128"%char; "132"%char];
    ["226"%char; "128"%char; "133"%char];
    ["226"%char; "128"%char; "134"%char];
    ["226"%char; "128"%char; "135"%char];
    ["226"%char; "128"%char; "136"%char];
    ["226"%char; "128"%char; "137"%char];
    ["226"%char; "128"%char; "138"%char];     (* U+200A *)
    ["226"%char; "128"%char; "168"%char];     (* U+2028 *)
    ["226"%char; "128"%char; "169"%char];     (* U+2029 *)
    ["226"%char; "128"%char; "175"%char];     (* U+202F *)
    ["226"%char; "129"%char; "159"%char];     (* U+205F *)
    ["227"%char; "128"%char; "128"%char];     (* U+3000 *)
    ["239"%char; "187"%char; "191"%char] ].   (* U+FEFF *)

(** [s] without the bytes [code] it begins with. *)
Fixpoint without_prefix (code : list ascii) (s : string) : option string :=
  match code, s with
  | [], _ => Some s
  | c :: code', String c' s' => if decide (c = c') then without_prefix code' s' else None
  | _ :: _, EmptyString => None
  end.

(** [s] without the first of the [codes] it begins with. *)
Fixpoint without_first (codes : list (list ascii)) (s : string) : option string :=
  match codes with
  | [] => None
  | code :: codes' =>
      match without_prefix code s with
      | Some s' => Some s'
      | None => without_first codes' s
      end
  end.

(** Removing [codes] from the beginning of [s], at most [fuel] times. *)
Fixpoint strip (codes : list (list ascii)) (fuel : nat) (s : string) : string :=
  match fuel with
  | O => s
  | S fuel' =>
      match without_first codes s with
      | Some s' => strip codes fuel' s'
      | None => s
      end
  end.

(** [s.trimStart()]: every removal takes a byte at least. *)
Definition trimStart (s : string) : string := strip white_space (String.length s) s.

(** [s.trimEnd()]: in well-formed UTF-8 the bytes of a character at the end
    of a string are that character. *)
Definition trimEnd (s : string) : string :=
  String.rev (strip (map reverse white_space) (String.length s) (String.rev s)).

(** [s.trim()] *)
Definition trim (s : string) : string := trimEnd (trimStart s).

(** [!v || v.trim() === '']; calling [trim] on a value that is not a string
    is a [TypeError]. *)
Definition missing_or_blank (v : jsval) : result bool :=
  if negb (truthy v) then Return true
  else match v with
       | JStr s => Return (bool_decide (trim s = EmptyString))
       | _ => Throw TypeError
       end.

Fixpoint string_chars (s : string) : list jsval :=
  match s with
  | EmptyString => []
  | String c s' => JStr (String c EmptyString) :: string_chars s'
  end.

(** [Object.entries(v)] for a truthy [v]. *)
Definition Object_entries (v : jsval) : list (string * jsval) :=
  match v with
  | JObj props => props
  | JArr items => imap (fun i item => (pretty i, item)) items
  | JStr s => imap (fun i item => (pretty i, item)) (string_chars s)
  | _ => []
  end.

(** [Object.keys(v)] *)
Definition Object_keys (v : jsval) : list string := map fst (Object_entries v).

(** [Array.isArray(v)] *)
Definition Array_isArray (v : jsval) : bool :=
  match v with JArr _ => true | _ => false end.

(** [items.forEach((item, index) => body)], where [body] may throw. *)
Fixpoint forEach_from {A} (index : nat) (body : A -> nat -> result unit)
    (items : list A) : result unit :=
  match items with
  | [] => Return tt
  | item :: rest => bind (body item index) (fun _ => forEach_from (S index) body rest)
  end.

Definition forEach {A} (items : list A) (body : A -> nat -> result unit) : result unit :=
  forEach_from 0 body items.

(** [request.error?.message || "Unknown error"] *)
Definition message_or_unknown (message : string) : string :=
  if decide (message = EmptyString) then "Unknown error" else message.

End JS.

Notation "'do' x <- c ; k" := (JS.bind c (fun x => k))
  (at level 10, x name, c at level 100, k at level 200).

(* ===================================================================== *)
(** * Persistence engine (the IndexedDB half of [utils.ts]) *)
(* ===================================================================== *)

Module Db.
Import JS.

(** ** Validation *)

(** The body of [scene.choices.forEach((choice, index) => ...)]. *)
Definition validateChoice (sceneId : string) (choice : jsval) (index : nat) : result unit :=
  do text <- get choice "text";
  do blank <- missing_or_blank text;
  if (blank : bool) then
    Throw (Error ("Choice text is required for choice " ++ pretty index
                    ++ " in scene '" ++ sceneId ++ "'"))
  else
  do next <- get choice "nextScene";
  do blank <- missing_or_blank next;
  if (blank : bool) then
    Throw (Error ("Next scene is required for choice " ++ pretty index
                    ++ " in scene '" ++ sceneId ++ "'"))
  else Return tt.

(** The body of [Object.entries(episode.scenes).forEach(([sceneId, scene]) => ...)]. *)
Definition validateScene (entry : string * jsval) (_ : nat) : result unit :=
  let sceneId := entry.1 in
  let scene := entry.2 in
  do id <- get scene "id";
  do blank <- missing_or_blank id;
  if (blank : bool) then
    Throw (Error ("Scene ID is required for scene '" ++ sceneId ++ "'"))
  else
  do title <- get scene "title";
  do blank <- missing_or_blank title;
  if (blank : bool) then
    Throw (Error ("Scene title is required for scene '" ++ sceneId ++ "'"))
  else
  do text <- get scene "text";
  if negb (Array_isArray text) then
    Throw (Error ("Scene text must be an array for scene '" ++ sceneId ++ "'"))
  else
  do cs <- get scene "choices";
  match cs with
  | JArr items => forEach items (validateChoice sceneId)
  | _ => Throw (Error ("Scene choices must be an array for scene '" ++ sceneId ++ "'"))
  end.

Definition validateEpisode (episode : jsval) : result unit :=
  do title <- get episode "title";
  do blank <- missing_or_blank title;
  if (blank : bool) then Throw (Error "Episode title is required")
  else
  do scenes <- get episode "scenes";
  if negb (truthy scenes) || bool_decide (length (Object_keys scenes) = 0) then
    Throw (Error "Episode must have at least one scene")
  else
  do start <- get scenes "start";
  if negb (truthy start) then Throw (Error "Episode must have a 'start' scene")
  else forEach (Object_entries scenes) validateScene.

(** ** The database *)

(** [interface Snapshot]. [timestamp] is the instant whose ISO rendering
    the stored record holds; [type] is empty when the stored record has
    none. *)
Record Snapshot := mkSnapshot {
  snapshot_id : string;
  episodeId : string;
  data : string;
  timestamp : Z;
  type : string
}.

(** The object stores, each keyed by the [id] of its records. A stored
    episode or campaign is the property list of the stored object. *)
Record DB := mkDB {
  episodes : gmap string (list (string * jsval));
  campaigns : gmap string (list (string * jsval));
  snapshots : gmap string Snapshot
}.

Inductive store := EPISODES_STORE | CAMPAIGNS_STORE | SNAPSHOTS_STORE.

Inductive request :=
| Put (s : store)
| Add (s : store)
| Get (s : store)
| Delete (s : store)
| OpenCursor (s : store).

(** What the browser provides: the JSON codec ([JSON_stringify space v] is
    [JSON.stringify(v, null, space)]), the clock ([now] in milliseconds and
    its ISO rendering), and the failures of the storage layer: [open_error]
    is the rejection of [getDatabase], [request_error r] the message of the
    error a request of kind [r] fails with. *)
Record Platform := mkPlatform {
  JSON_stringify : nat -> jsval -> string;
  JSON_parse : string -> option jsval;
  toISOString : Z -> string;
  now : Z;
  open_error : option exn;
  request_error : request -> option string
}.

(** How a promise settles. *)
Inductive outcome :=
| Resolved (value : jsval)
| Rejected (reason : exn).

(** A read-write transaction in flight: the stores as its requests have
    left them, and whether a request failed with no handler cancelling
    the error event, which aborts the transaction. *)
Record Txn := mkTxn { stores : DB; aborted : bool }.

Definition begin (db : DB) : Txn := mkTxn db false.
Definition abort (t : Txn) : Txn := mkTxn (stores t) true.

(** The database once the transaction is over: an aborted transaction
    leaves it as it was. *)
Definition finish (db : DB) (t : Txn) : DB :=
  if aborted t then db else stores t.

(** A value usable as a primary key. Ids are strings throughout the
    schema; keys of other types are not part of the model. *)
Definition valid_key (v : jsval) : option string :=
  match v with JStr s => Some s | _ => None end.

(** A successful write request on one of the stores. *)
Definition with_episodes (t : Txn)
    (f : gmap string (list (string * jsval)) -> gmap string (list (string * jsval))) : Txn :=
  mkTxn (mkDB (f (episodes (stores t))) (campaigns (stores t)) (snapshots (stores t)))
        (aborted t).

Definition with_campaigns (t : Txn)
    (f : gmap string (list (string * jsval)) -> gmap string (list (string * jsval))) : Txn :=
  mkTxn (mkDB (episodes (stores t)) (f (campaigns (stores t))) (snapshots (stores t)))
        (aborted t).

Definition with_snapshots (t : Txn) (f : gmap string Snapshot -> gmap string Snapshot) : Txn :=
  mkTxn (mkDB (episodes (stores t)) (campaigns (stores t)) (f (snapshots (stores t))))
        (aborted t).

(** [index.openCursor(IDBKeyRange.only(episodeId))] on the [episodeId]
    index of the snapshots store: the records of that episode, by primary
    key. *)
Definition snapshots_of (snaps : gmap string Snapshot) (id : string) : list Snapshot :=
  map snd
    (merge_sort (fun a b => String.le a.1 b.1)
       (filter (fun entry => episodeId entry.2 = id) (map_to_list snaps))).

(** ** Snapshot retention *)

(** [{ id, timestamp, type }] *)
Record SnapshotInfo := mkInfo {
  info_id : string;
  info_timestamp : Z;
  info_type : string
}.

(** [{ id: value.id, timestamp: value.timestamp, type: value.type || "auto-save" }] *)
Definition info_of (value : Snapshot) : SnapshotInfo :=
  mkInfo (snapshot_id value) (timestamp value)
         (if decide (type value = EmptyString) then "auto-save" else type value).

(** [Array.prototype.sort(compare)]: a stable sort; [compare a b > 0]
    puts [b] first. *)
Fixpoint sort_insert {A} (compare : A -> A -> Z) (a : A) (sorted : list A) : list A :=
  match sorted with
  | [] => [a]
  | b :: rest =>
      if (0 <? compare a b)%Z then b :: sort_insert compare a rest
      else a :: sorted
  end.

Definition sort {A} (compare : A -> A -> Z) (items : list A) : list A :=
  foldr (sort_insert compare) [] items.

(** [(a, b) => new Date(b.timestamp).getTime() - new Date(a.timestamp).getTime()] *)
Definition newest_first (a b : SnapshotInfo) : Z :=
  (info_timestamp b - info_timestamp a)%Z.

(** The order [newest_first] sorts into: no later element is more recent. *)
Definition not_older (a b : SnapshotInfo) : Prop :=
  (info_timestamp b <= info_timestamp a)%Z.

(** [snapshotsStore.delete(id)], a request without handlers. *)
Definition delete_snapshot (P : Platform) (t : Txn) (id : string) : Txn :=
  match request_error P (Delete SNAPSHOTS_STORE) with
  | Some _ => abort t
  | None => with_snapshots t (delete id)
  end.

Definition cleanupSnapshots (P : Platform) (episodeId : string) (t : Txn)
    : result unit * Txn :=
  match request_error P (OpenCursor SNAPSHOTS_STORE) with
  | Some message => (Throw (DOMException message), abort t)
  | None =>
      let snapshots := map info_of (snapshots_of (snapshots (stores t)) episodeId) in
      let snapshots := sort newest_first snapshots in
      let autoSaves := filter (fun s => info_type s = "auto-save") snapshots in
      let manualSaves := filter (fun s => info_type s = "manual-save") snapshots in
      if (10 <? length autoSaves)%nat then
        let toDelete := drop 10 autoSaves in
        (Return tt, foldl (fun t snapshot => delete_snapshot P t (info_id snapshot)) t toDelete)
      else (Return tt, t)
  end.

(** ** Episode operations *)

(** [snapshotsStore.add(snapshot)] *)
Definition add_snapshot (P : Platform) (t : Txn) (snapshot : Snapshot) : result Txn :=
  match request_error P (Add SNAPSHOTS_STORE) with
  | Some message => Throw (DOMException message)
  | None =>
      match snapshots (stores t) !! snapshot_id snapshot with
      | Some _ => Throw ConstraintError
      | None => Return (with_snapshots t (insert (snapshot_id snapshot) snapshot))
      end
  end.

Definition saveEpisode (P : Platform) (episode : jsval) (db : DB) : outcome * DB :=
  match episode with
  | JObj props =>
      let id := own_property props "id" in
      if negb (truthy id) then (Rejected (Error "Invalid episode data: Missing ID"), db)
      else
        (* try { validateEpisode(episode) } catch { console.warn(...) } *)
        let continue_after (_ : result unit) : outcome * DB :=
          match open_error P with
          | Some error => (Rejected error, db)
          | None =>
              let episodeWithTimestamp :=
                set_property props "lastModified" (JStr (toISOString P (now P))) in
              match valid_key id with
              | None => (Rejected (rethrow "Failed to save episode: " DataError), db)
              | Some key =>
                  match request_error P (Put EPISODES_STORE) with
                  | Some message =>
                      (Rejected (Error ("Failed to save episode: " ++ message_or_unknown message)),
                       db)
                  | None =>
                      let t := with_episodes (begin db) (insert key episodeWithTimestamp) in
                      let snapshotId := key ++ "-" ++ pretty (now P) in
                      let snapshot :=
                        mkSnapshot snapshotId key
                          (JSON_stringify P 0 (JObj episodeWithTimestamp))
                          (now P) "auto-save" in
                      match add_snapshot P t snapshot with
                      | Throw _ =>
                          (* console.warn(...); resolve(episode.id) *)
                          (Resolved id, finish db (abort t))
                      | Return t =>
                          (* resolve(episode.id) whether the cleanup resolves or rejects *)
                          (Resolved id, finish db (cleanupSnapshots P key t).2)
                      end
                  end
              end
          end in
        continue_after (validateEpisode episode)
  | _ =>
      (* [!episode], or a value that has no [id] *)
      (Rejected (Error "Invalid episode data: Missing ID"), db)
  end.

Definition getEpisode (P : Platform) (id : jsval) (db : DB) : outcome :=
  if negb (truthy id) then Rejected (Error "Episode ID is required")
  else
    match open_error P with
    | Some error => Rejected error
    | None =>
        match valid_key id with
        | None => Rejected (rethrow "Failed to get episode: " DataError)
        | Some key =>
            match request_error P (Get EPISODES_STORE) with
            | Some message =>
                Rejected (Error ("Failed to get episode: " ++ message_or_unknown message))
            | None =>
                (* resolve(request.result || null) *)
                match episodes db !! key with
                | Some props => Resolved (JObj props)
                | None => Resolved JNull
                end
            end
        end
    end.

Definition deleteEpisode (P : Platform) (id : jsval) (db : DB) : outcome * DB :=
  if negb (truthy id) then (Rejected (Error "Episode ID is required"), db)
  else
    match open_error P with
    | Some error => (Rejected error, db)
    | None =>
        match valid_key id with
        | None => (Rejected (rethrow "Failed to delete episode: " DataError), db)
        | Some key =>
            match request_error P (Delete EPISODES_STORE) with
            | Some message =>
                (Rejected (Error ("Failed to delete episode: " ++ message_or_unknown message)),
                 db)
            | None =>
                let t := with_episodes (begin db) (delete key) in
                match request_error P (OpenCursor SNAPSHOTS_STORE) with
                | Some _ =>
                    (* console.warn(...); resolve() *)
                    (Resolved JUndefined, finish db (abort t))
                | None =>
                    let t :=
                      foldl (fun t value => delete_snapshot P t (snapshot_id value)) t
                        (snapshots_of (snapshots (stores t)) key) in
                    if aborted t then
                      (* transaction.onerror, before transaction.error is set *)
                      (Rejected (Error ("Transaction error: " ++ message_or_unknown EmptyString)),
                       finish db t)
                    else (Resolved JUndefined, finish db t)
                end
            end
        end
    end.

Definition createManualSnapshot (P : Platform) (episodeId : jsval) (db : DB)
    : outcome * DB :=
  if negb (truthy episodeId) then (Rejected (Error "Episode ID is required"), db)
  else
    match getEpisode P episodeId db with
    | Rejected error => (Rejected error, db)
    | Resolved episode =>
        if negb (truthy episode) then (Rejected (Error "Episode not found"), db)
        else
          match open_error P, valid_key episodeId with
          | Some error, _ => (Rejected error, db)
          | None, None => (Rejected (rethrow "Failed to create manual snapshot: " DataError), db)
          | None, Some key =>
              let snapshotId := key ++ "-manual-" ++ pretty (now P) in
              let snapshot :=
                mkSnapshot snapshotId key (JSON_stringify P 0 episode) (now P) "manual-save" in
              match add_snapshot P (begin db) snapshot with
              | Throw error => (Rejected error, db)
              | Return t => (Resolved (JStr snapshotId), finish db t)
              end
          end
    end.

Definition restoreEpisodeFromSnapshot (P : Platform) (snapshotId : jsval) (db : DB)
    : outcome * DB :=
  if negb (truthy snapshotId) then (Rejected (Error "Snapshot ID is required"), db)
  else
    match open_error P with
    | Some error => (Rejected error, db)
    | None =>
        match valid_key snapshotId with
        | None =>
            (Rejected (rethrow "Failed to restore episode from snapshot: " DataError), db)
        | Some key =>
            match request_error P (Get SNAPSHOTS_STORE) with
            | Some message =>
                (Rejected (Error ("Failed to get snapshot: " ++ message_or_unknown message)), db)
            | None =>
                match snapshots db !! key with
                | None => (Rejected (Error "Snapshot not found"), db)
                | Some found =>
                    (* try { ... } catch { reject(new Error("Failed to parse snapshot data")) } *)
                    match JSON_parse P (data found) with
                    | Some (JObj props) =>
                        let episode :=
                          set_property props "lastModified" (JStr (toISOString P (now P))) in
                        match valid_key (own_property episode "id") with
                        | None => (Rejected (Error "Failed to parse snapshot data"), db)
                        | Some episode_key =>
                            match request_error P (Put EPISODES_STORE) with
                            | Some message =>
                                (Rejected (Error ("Failed to restore episode: "
                                                    ++ message_or_unknown message)), db)
                            | None =>
                                (Resolved (own_property episode "id"),
                                 finish db (with_episodes (begin db) (insert episode_key episode)))
                            end
                        end
                    | _ => (Rejected (Error "Failed to parse snapshot data"), db)
                    end
                end
            end
        end
    end.

(** ** Campaign operations *)

Definition getCampaign (P : Platform) (id : jsval) (db : DB) : outcome :=
  if negb (truthy id) then Rejected (Error "Campaign ID is required")
  else
    match open_error P with
    | Some error => Rejected error
    | None =>
        match valid_key id with
        | None => Rejected (rethrow "Failed to get campaign: " DataError)
        | Some key =>
            match request_error P (Get CAMPAIGNS_STORE) with
            | Some message =>
                Rejected (Error ("Failed to get campaign: " ++ message_or_unknown message))
            | None =>
                match campaigns db !! key with
                | Some props => Resolved (JObj props)
                | None => Resolved JNull
                end
            end
        end
    end.

Definition deleteCampaign (P : Platform) (id : jsval) (db : DB) : outcome * DB :=
  if negb (truthy id) then (Rejected (Error "Campaign ID is required"), db)
  else
    match open_error P with
    | Some error => (Rejected error, db)
    | None =>
        match valid_key id with
        | None => (Rejected (rethrow "Failed to delete campaign: " DataError), db)
        | Some key =>
            match request_error P (Delete CAMPAIGNS_STORE) with
            | Some message =>
                (Rejected (Error ("Failed to delete campaign: " ++ message_or_unknown message)),
                 db)
            | None =>
                (Resolved JUndefined, finish db (with_campaigns (begin db) (delete key)))
            end
        end
    end.

(** ** Import and export *)

Definition importEpisodeFromJSON (P : Platform) (jsonString : string) (db : DB)
    : outcome * DB :=
  let attempt :=
    match JSON_parse P jsonString with
    | None => (Rejected SyntaxError, db)
    | Some episode =>
        match validateEpisode episode with
        | Throw error => (Rejected error, db)
        | Return _ => saveEpisode P episode db
        end
    end in
  match attempt with
  | (Rejected error, db') => (Rejected (rethrow "Failed to import episode: " error), db')
  | settled => settled
  end.

Definition exportEpisodeToJSON (P : Platform) (id : jsval) (db : DB) : outcome :=
  if negb (truthy id) then Rejected (Error "Episode ID is required")
  else
    match getEpisode P id db with
    | Rejected error => Rejected error
    | Resolved (JObj episode) =>
        (* const { lastModified, ...exportEpisode } = episode *)
        let exportEpisode := rest_without "lastModified" episode in
        Resolved (JStr (JSON_stringify P 2 (JObj exportEpisode)))
    | Resolved _ => Rejected (Error "Episode not found")
    end.

(** ** Notions used to state the properties *)

(** The storage layer opens and answers every request. *)
Definition storage_works (P : Platform) : Prop :=
  open_error P = None /\ forall r, request_error P r = None.

(** The same platform at another instant. *)
Definition at_time (P : Platform) (t : Z) : Platform :=
  mkPlatform (JSON_stringify P) (JSON_parse P) (toISOString P) t
             (open_error P) (request_error P).

(** [keyPath: "id"]: a record is stored under its own [id]. *)
Definition keyed_by_id (db : DB) : Prop :=
  (forall key props, episodes db !! key = Some props -> own_property props "id" = JStr key) /\
  (forall key value, snapshots db !! key = Some value -> snapshot_id value = key).

(** The type the retention policy reads off a stored snapshot. *)
Definition snapshot_type (value : Snapshot) : string := info_type (info_of value).

(** How many snapshots of [episode] with the given type a store holds. *)
Definition count_snapshots (snaps : gmap string Snapshot) (episode kind : string) : nat :=
  size (filter (fun entry : string * Snapshot =>
                  episodeId entry.2 = episode /\ snapshot_type entry.2 = kind) snaps).

(** The episode record [saveEpisode] writes, and its auto-save snapshot. *)
Definition stamped (P : Platform) (props : list (string * jsval)) : list (string * jsval) :=
  set_property props "lastModified" (JStr (toISOString P (now P))).

Definition auto_save (P : Platform) (key : string) (props : list (string * jsval)) : Snapshot :=
  mkSnapshot (key ++ "-" ++ pretty (now P)) key
             (JSON_stringify P 0 (JObj (stamped P props))) (now P) "auto-save".

(** The structural defects of an episode, each stated on its own: the title
    is missing or blank; the scene set is missing or empty; it has no
    ["start"] scene; the text or the choices of a scene are not an array; the
    text or the target of a choice is missing or blank. *)
Definition title_missing (episode : jsval) : Prop :=
  exists title, get episode "title" = Return title /\ missing_or_blank title = Return true.

Definition scenes_missing (episode : jsval) : Prop :=
  exists scenes,
    get episode "scenes" = Return scenes /\
    (truthy scenes = false \/ Object_keys scenes = []).

Definition start_scene_missing (episode : jsval) : Prop :=
  exists scenes start,
    get episode "scenes" = Return scenes /\ get scenes "start" = Return start /\
    truthy start = false.

Definition choice_defect (choice : jsval) : Prop :=
  (exists text, get choice "text" = Return text /\ missing_or_blank text = Return true) \/
  (exists next, get choice "nextScene" = Return next /\ missing_or_blank next = Return true).

Definition scene_defect (scene : jsval) : Prop :=
  (exists text, get scene "text" = Return text /\ Array_isArray text = false) \/
  (exists cs, get scene "choices" = Return cs /\ Array_isArray cs = false) \/
  (exists items choice,
     get scene "choices" = Return (JArr items) /\ choice ∈ items /\ choice_defect choice).

Definition structural_defect (episode : jsval) : Prop :=
  title_missing episode \/ scenes_missing episode \/ start_scene_missing episode \/
  exists scenes entry,
    get episode "scenes" = Return scenes /\ entry ∈ Object_entries scenes /\
    scene_defect entry.2.

(** The auto-saves of [episode] as the retention policy lists them, newest
    first, and those beyond the ten most recent. *)
Definition listed_auto_saves (snaps : gmap string Snapshot) (episode : string)
    : list SnapshotInfo :=
  filter (fun s => info_type s = "auto-save")
         (sort newest_first (map info_of (snapshots_of snaps episode))).

Definition expired_auto_saves (snaps : gmap string Snapshot) (episode : string)
    : list SnapshotInfo :=
  drop 10 (listed_auto_saves snaps episode).

End Db.

(* ===================================================================== *)
(** * A reference platform

    An executable instance of [Db.Platform], used to run the operations on
    concrete data: a JSON printer and parser for the documents of the model,
    the ISO rendering of an instant, and a storage layer without failures. *)
(* ===================================================================== *)

Module Reference.
Import JS.

Local Open Scope char_scope.

Definition hex_digit (n : N) : ascii :=
  match n with
  | 0%N => "0" | 1%N => "1" | 2%N => "2" | 3%N => "3" | 4%N => "4"
  | 5%N => "5" | 6%N => "6" | 7%N => "7" | 8%N => "8" | 9%N => "9"
  | 10%N => "a" | 11%N => "b" | 12%N => "c" | 13%N => "d" | 14%N => "e"
  | _ => "f"
  end.

Definition hex_value (c : ascii) : option N :=
  let n := N_of_ascii c in
  if ((48 <=? n) && (n <=? 57))%N then Some (n - 48)%N
  else if ((97 <=? n) && (n <=? 102))%N then Some (n - 87)%N
  else if ((65 <=? n) && (n <=? 70))%N then Some (n - 55)%N
  else None.

(** The characters of a string literal, escaped as [JSON.stringify] does. *)
Fixpoint quote_chars (s : string) : string :=
  match s with
  | EmptyString => EmptyString
  | String c s' =>
      let n := N_of_ascii c in
      let rest := quote_chars s' in
      if Ascii.eqb c "034" then String "\" (String "034" rest)
      else if Ascii.eqb c "\" then String "\" (String "\" rest)
      else if (n =? 8)%N then String "\" (String "b" rest)
      else if (n =? 9)%N then String "\" (String "t" rest)
      else if (n =? 10)%N then String "\" (String "n" rest)
      else if (n =? 12)%N then String "\" (String "f" rest)
      else if (n =? 13)%N then String "\" (String "r" rest)
      else if (n <? 32)%N then
        String "\" (String "u" (String "0" (String "0"
          (String (hex_digit (n / 16)) (String (hex_digit (n mod 16)) rest)))))
      else String c rest
  end.

Definition quote (s : string) : string :=
  String "034" (quote_chars s ++ String "034" EmptyString)%string.

Definition spaces (n : nat) : string := string_of_list_ascii (repeat " " n).
Definition newline : string := String "010" EmptyString.

Fixpoint join (sep : string) (parts : list string) : string :=
  match parts with
  | [] => EmptyString
  | [part] => part
  | part :: rest => (part ++ sep ++ join sep rest)%string
  end.

(** Brackets around the members of an array or object at nesting [depth]. *)
Definition enclose (space depth : nat) (opening closing : string) (members : list string)
    : string :=
  match members with
  | [] => (opening ++ closing)%string
  | _ =>
      if (space =? 0)%nat then (opening ++ join "," members ++ closing)%string
      else (opening ++ newline ++ spaces (space * S depth)
            ++ join ("," ++ newline ++ spaces (space * S depth)) members
            ++ newline ++ spaces (space * depth) ++ closing)%string
  end.

(** [JSON.stringify(v, null, space)] for a value nested at [depth]; an
    [undefined] array item prints as [null], an [undefined] property is
    left out. *)
Fixpoint print (space depth : nat) (v : jsval) : string :=
  match v with
  | JUndefined | JNull => "null"
  | JBool true => "true"
  | JBool false => "false"
  | JNum n => pretty n
  | JStr s => quote s
  | JArr items => enclose space depth "[" "]" (map (print space (S depth)) items)
  | JObj props =>
      enclose space depth "{" "}"
        ((fix members (props : list (string * jsval)) : list string :=
            match props with
            | [] => []
            | (_, JUndefined) :: rest => members rest
            | (k, w) :: rest =>
                (quote k ++ (if (space =? 0)%nat then ":" else ": ")
                   ++ print space (S depth) w)%string :: members rest
            end) props)
  end.

Definition stringify (space : nat) (v : jsval) : string := print space 0 v.

Definition is_ws (c : ascii) : bool :=
  Ascii.eqb c " " || Ascii.eqb c "009" || Ascii.eqb c "010" || Ascii.eqb c "013".

Fixpoint skip_ws (cs : list ascii) : list ascii :=
  match cs with
  | c :: rest => if is_ws c then skip_ws rest else cs
  | [] => []
  end.

(** The rest of a string literal after its opening quote; [acc] holds the
    characters read so far, last first. *)
Fixpoint read_string (cs : list ascii) (acc : list ascii) : option (string * list ascii) :=
  match cs with
  | [] => None
  | "034" :: rest => Some (string_of_list_ascii (rev acc), rest)
  | "\" :: "034" :: rest => read_string rest ("034" :: acc)
  | "\" :: "\" :: rest => read_string rest ("\" :: acc)
  | "\" :: "/" :: rest => read_string rest ("/" :: acc)
  | "\" :: "b" :: rest => read_string rest ("008" :: acc)
  | "\" :: "t" :: rest => read_string rest ("009" :: acc)
  | "\" :: "n" :: rest => read_string rest ("010" :: acc)
  | "\" :: "f" :: rest => read_string rest ("012" :: acc)
  | "\" :: "r" :: rest => read_string rest ("013" :: acc)
  | "\" :: "u" :: "0" :: "0" :: h :: l :: rest =>
      match hex_value h, hex_value l with
      | Some a, Some b => read_string rest (ascii_of_N (16 * a + b) :: acc)
      | _, _ => None
      end
  | "\" :: _ => None
  | c :: rest => if (N_of_ascii c <? 32)%N then None else read_string rest (c :: acc)
  end.

Definition digit_value (c : ascii) : option Z :=
  let n := N_of_ascii c in
  if ((48 <=? n) && (n <=? 57))%N then Some (Z.of_N (n - 48)) else None.

Fixpoint read_digits (cs : list ascii) (acc : Z) : Z * list ascii :=
  match cs with
  | c :: rest =>
      match digit_value c with
      | Some d => read_digits rest (10 * acc + d)%Z
      | None => (acc, cs)
      end
  | [] => (acc, [])
  end.

(** A JSON value at the head of [cs], and what follows it. *)
Fixpoint read_value (fuel : nat) (cs : list ascii) : option (jsval * list ascii) :=
  match fuel with
  | O => None
  | S fuel =>
      match skip_ws cs with
      | "n" :: "u" :: "l" :: "l" :: rest => Some (JNull, rest)
      | "t" :: "r" :: "u" :: "e" :: rest => Some (JBool true, rest)
      | "f" :: "a" :: "l" :: "s" :: "e" :: rest => Some (JBool false, rest)
      | "034" :: rest =>
          match read_string rest [] with
          | Some (s, rest) => Some (JStr s, rest)
          | None => None
          end
      | "[" :: rest =>
          match skip_ws rest with
          | "]" :: rest => Some (JArr [], rest)
          | _ => read_items fuel rest []
          end
      | "{" :: rest =>
          match skip_ws rest with
          | "}" :: rest => Some (JObj [], rest)
          | _ => read_members fuel rest []
          end
      | "-" :: c :: rest =>
          match digit_value c with
          | Some _ => let '(n, rest) := read_digits (c :: rest) 0 in Some (JNum (- n), rest)
          | None => None
          end
      | c :: rest =>
          match digit_value c with
          | Some _ => let '(n, rest) := read_digits (c :: rest) 0 in Some (JNum n, rest)
          | None => None
          end
      | [] => None
      end
  end
with read_items (fuel : nat) (cs : list ascii) (acc : list jsval)
    : option (jsval * list ascii) :=
  match fuel with
  | O => None
  | S fuel =>
      match read_value fuel cs with
      | Some (v, rest) =>
          match skip_ws rest with
          | "," :: rest => read_items fuel rest (v :: acc)
          | "]" :: rest => Some (JArr (rev (v :: acc)), rest)
          | _ => None
          end
      | None => None
      end
  end
with read_members (fuel : nat) (cs : list ascii) (acc : list (string * jsval))
    : option (jsval * list ascii) :=
  match fuel with
  | O => None
  | S fuel =>
      match skip_ws cs with
      | "034" :: rest =>
          match read_string rest [] with
          | Some (k, rest) =>
              match skip_ws rest with
              | ":" :: rest =>
                  match read_value fuel rest with
                  | Some (v, rest) =>
                      match skip_ws rest with
                      | "," :: rest => read_members fuel rest ((k, v) :: acc)
                      | "}" :: rest => Some (JObj (rev ((k, v) :: acc)), rest)
                      | _ => None
                      end
                  | None => None
                  end
              | _ => None
              end
          | None => None
          end
      | _ => None
      end
  end.

(** [JSON.parse(text)]; [None] is a [SyntaxError]. *)
Definition parse (text : string) : option jsval :=
  let cs := list_ascii_of_string text in
  match read_value (S (length cs)) cs with
  | Some (v, rest) => match skip_ws rest with [] => Some v | _ => None end
  | None => None
  end.

Local Open Scope Z_scope.

(** [n] in decimal, padded with zeros to [width] digits. *)
Definition padded (width : nat) (n : Z) : string :=
  let digits := pretty n in
  (string_of_list_ascii (repeat "0"%char (width - String.length digits)) ++ digits)%string.

(** [new Date(ms).toISOString()] for the years 0000 to 9999. *)
Definition iso (ms : Z) : string :=
  let day := ms / 86400000 in
  let rem := ms mod 86400000 in
  let z := day + 719468 in
  let era := z / 146097 in
  let doe := z - era * 146097 in
  let yoe := (doe - doe / 1460 + doe / 36524 - doe / 146096) / 365 in
  let doy := doe - (365 * yoe + yoe / 4 - yoe / 100) in
  let mp := (5 * doy + 2) / 153 in
  let d := doy - (153 * mp + 2) / 5 + 1 in
  let m := if mp <? 10 then mp + 3 else mp - 9 in
  let y := yoe + era * 400 + (if m <=? 2 then 1 else 0) in
  (padded 4 y ++ "-" ++ padded 2 m ++ "-" ++ padded 2 d ++ "T"
     ++ padded 2 (rem / 3600000) ++ ":" ++ padded 2 (rem / 60000 mod 60) ++ ":"
     ++ padded 2 (rem / 1000 mod 60) ++ "." ++ padded 3 (rem mod 1000) ++ "Z")%string.

(** A browser whose storage never fails, at the instant [t]. *)
Definition browser (t : Z) : Db.Platform :=
  Db.mkPlatform stringify parse iso t None (fun _ => None).

(** The same browser with the request kind [r] failing. *)
Definition failing (r : Db.request) (message : string) (t : Z) : Db.Platform :=
  Db.mkPlatform stringify parse iso t None
    (fun r' => match r, r' with
               | Db.Put a, Db.Put b | Db.Add a, Db.Add b | Db.Get a, Db.Get b
               | Db.Delete a, Db.Delete b | Db.OpenCursor a, Db.OpenCursor b =>
                   match a, b with
                   | Db.EPISODES_STORE, Db.EPISODES_STORE
                   | Db.CAMPAIGNS_STORE, Db.CAMPAIGNS_STORE
                   | Db.SNAPSHOTS_STORE, Db.SNAPSHOTS_STORE => Some message
                   | _, _ => None
                   end
               | _, _ => None
               end).

Definition empty_db : Db.DB := Db.mkDB ∅ ∅ ∅.

Local Open Scope string_scope.

(** A well-formed episode, and the database after saving it at instant 1000. *)
Definition sample_props : list (string * jsval) :=
  [("id", JStr "ep-1"); ("title", JStr "First Contact");
   ("author", JStr "A. Writer");
   ("scenes",
    JObj [("start",
           JObj [("id", JStr "start"); ("title", JStr "Bridge");
                 ("text", JArr [JStr "Red alert."; JStr "Shields up."]);
                 ("choices",
                  JArr [JObj [("text", JStr "Hail them");
                              ("nextScene", JStr "start")]])])])].

Definition sample_episode : jsval := JObj sample_props.

Definition sample_db : Db.DB := (Db.saveEpisode (browser 1000) sample_episode empty_db).2.

(** An episode with two defects: a blank title and no ["start"] scene. *)
Definition defective_props : list (string * jsval) :=
  [("id", JStr "ep-bad"); ("title", JStr " ");
   ("scenes",
    JObj [("bridge",
           JObj [("id", JStr "bridge"); ("title", JStr "Bridge");
                 ("text", JArr []); ("choices", JArr [])])])].

Definition defective_episode : jsval := JObj defective_props.

Definition defective_db : Db.DB :=
  (Db.saveEpisode (browser 1000) defective_episode empty_db).2.

(** A store holding 15 auto-saves (instants 1 to 15) and 3 manual saves of
    the sample episode. *)
Definition stored_snapshot (kind : string) (t : Z) : string * Db.Snapshot :=
  let id := ("ep-1-" ++ kind ++ "-" ++ pretty t)%string in
  (id, Db.mkSnapshot id "ep-1" (stringify 0 sample_episode) t kind).

Definition crowded_db : Db.DB :=
  Db.mkDB (Db.episodes sample_db) ∅
    (list_to_map (map (stored_snapshot "auto-save") (map Z.of_nat (seq 1 15))
                  ++ map (stored_snapshot "manual-save") [20; 21; 22])%list).

End Reference.

(* ===================================================================== *)
(** * The rest of the persistence engine: listings, campaigns, backup and
      settings *)
(* ===================================================================== *)

Module Store.
Import JS Db.

(** ** Listings *)

(** A promise of a typed value. *)
Inductive promise (A : Type) :=
| Fulfilled (value : A)
| Failed (reason : exn).
Arguments Fulfilled {A} value.
Arguments Failed {A} reason.

(** [store.getAll()]: the records by primary key. The read request shares
    the failure of the [get] requests on the same store. *)
Definition getAll (records : gmap string (list (string * jsval))) : list jsval :=
  map (fun entry => JObj entry.2)
      (merge_sort (fun a b => String.le a.1 b.1) (map_to_list records)).

Definition getAllEpisodes (P : Platform) (db : DB) : outcome :=
  match open_error P with
  | Some error => Rejected error
  | None =>
      match request_error P (Get EPISODES_STORE) with
      | Some message =>
          Rejected (Error ("Failed to get episodes: " ++ message_or_unknown message))
      | None => Resolved (JArr (getAll (episodes db)))
      end
  end.

Definition getAllCampaigns (P : Platform) (db : DB) : outcome :=
  match open_error P with
  | Some error => Rejected error
  | None =>
      match request_error P (Get CAMPAIGNS_STORE) with
      | Some message =>
          Rejected (Error ("Failed to get campaigns: " ++ message_or_unknown message))
      | None => Resolved (JArr (getAll (campaigns db)))
      end
  end.

(** [index.getAll(IDBKeyRange.only(episodeId))], mapped to
    [{ id, timestamp, type }] and sorted, newest first. *)
Definition getEpisodeSnapshots (P : Platform) (episodeId : jsval) (db : DB)
    : promise (list SnapshotInfo) :=
  if negb (truthy episodeId) then Failed (Error "Episode ID is required")
  else
    match open_error P with
    | Some error => Failed error
    | None =>
        match valid_key episodeId with
        | None => Failed (rethrow "Failed to get snapshots: " DataError)
        | Some key =>
            match request_error P (Get SNAPSHOTS_STORE) with
            | Some message =>
                Failed (Error ("Failed to get snapshots: " ++ message_or_unknown message))
            | None =>
                let snapshots := map info_of (snapshots_of (snapshots db) key) in
                Fulfilled (sort newest_first snapshots)
            end
        end
    end.

(** ** Campaigns *)

(** The body of [campaign.episodes.forEach((episode, index) => ...)]. *)
Definition validateCampaignEpisode (episode : jsval) (index : nat) : result unit :=
  do title <- get episode "title";
  do blank <- missing_or_blank title;
  if (blank : bool) then
    Throw (Error ("Episode title is required for episode " ++ pretty index))
  else
  do description <- get episode "description";
  do blank <- missing_or_blank description;
  if (blank : bool) then
    Throw (Error ("Episode description is required for episode " ++ pretty index))
  else
  do order <- get episode "order";
  match order with
  | JNum _ => Return tt
  | _ => Throw (Error ("Episode order must be a number for episode " ++ pretty index))
  end.

Definition validateCampaign (campaign : jsval) : result unit :=
  do title <- get campaign "title";
  do blank <- missing_or_blank title;
  if (blank : bool) then Throw (Error "Campaign title is required")
  else
  do author <- get campaign "author";
  do blank <- missing_or_blank author;
  if (blank : bool) then Throw (Error "Campaign author is required")
  else
  do description <- get campaign "description";
  do blank <- missing_or_blank description;
  if (blank : bool) then Throw (Error "Campaign description is required")
  else
  do episodes <- get campaign "episodes";
  match episodes with
  | JArr items =>
      if bool_decide (length items = 0) then
        Throw (Error "Campaign must have at least one episode")
      else forEach items validateCampaignEpisode
  | _ => Throw (Error "Campaign must have at least one episode")
  end.

Definition saveCampaign (P : Platform) (campaign : jsval) (db : DB) : outcome * DB :=
  match campaign with
  | JObj props =>
      let id := own_property props "id" in
      if negb (truthy id) then (Rejected (Error "Invalid campaign data: Missing ID"), db)
      else
        (* try { validateCampaign(campaign) } catch { console.warn(...) } *)
        let continue_after (_ : result unit) : outcome * DB :=
          match open_error P with
          | Some error => (Rejected error, db)
          | None =>
              let campaignWithTimestamp :=
                set_property props "lastModified" (JStr (toISOString P (now P))) in
              match valid_key id with
              | None => (Rejected (rethrow "Failed to save campaign: " DataError), db)
              | Some key =>
                  match request_error P (Put CAMPAIGNS_STORE) with
                  | Some message =>
                      (Rejected (Error ("Failed to save campaign: "
                                          ++ message_or_unknown message)), db)
                  | None =>
                      (Resolved id,
                       finish db (with_campaigns (begin db) (insert key campaignWithTimestamp)))
                  end
              end
          end in
        continue_after (validateCampaign campaign)
  | _ =>
      (* [!campaign], or a value that has no [id] *)
      (Rejected (Error "Invalid campaign data: Missing ID"), db)
  end.

Definition importCampaignFromJSON (P : Platform) (jsonString : string) (db : DB)
    : outcome * DB :=
  let attempt :=
    match JSON_parse P jsonString with
    | None => (Rejected SyntaxError, db)
    | Some campaign =>
        match validateCampaign campaign with
        | Throw error => (Rejected error, db)
        | Return _ => saveCampaign P campaign db
        end
    end in
  match attempt with
  | (Rejected error, db') => (Rejected (rethrow "Failed to import campaign: " error), db')
  | settled => settled
  end.

Definition exportCampaignToJSON (P : Platform) (id : jsval) (db : DB) : outcome :=
  if negb (truthy id) then Rejected (Error "Campaign ID is required")
  else
    match getCampaign P id db with
    | Rejected error => Rejected error
    | Resolved (JObj campaign) =>
        (* const { lastModified, ...exportCampaign } = campaign *)
        let exportCampaign := rest_without "lastModified" campaign in
        Resolved (JStr (JSON_stringify P 2 (JObj exportCampaign)))
    | Resolved _ => Rejected (Error "Campaign not found")
    end.

(** ** Backup and restore *)

Definition DB_VERSION : Z := 1.

(** [{ version: DB_VERSION, timestamp: new Date().toISOString(), episodes,
    campaigns }] *)
Definition backup_document (P : Platform) (episodes campaigns : jsval) : jsval :=
  JObj [("version", JNum DB_VERSION);
        ("timestamp", JStr (toISOString P (now P)));
        ("episodes", episodes);
        ("campaigns", campaigns)].

(** [Promise.all([getAllEpisodes(), getAllCampaigns()])]: when both reads
    fail, the rejection of the first one is taken. *)
Definition backupAllData (P : Platform) (db : DB) : outcome :=
  match getAllEpisodes P db, getAllCampaigns P db with
  | Rejected error, _ | Resolved _, Rejected error =>
      Rejected (rethrow "Failed to backup data: " error)
  | Resolved episodes, Resolved campaigns =>
      Resolved (JStr (JSON_stringify P 2 (backup_document P episodes campaigns)))
  end.

(** The values [for (const item of v)] runs through, for a truthy [v]. *)
Definition iterate (v : jsval) : result (list jsval) :=
  match v with
  | JArr items => Return items
  | JStr s => Return (string_chars s)
  | _ => Throw TypeError
  end.

(** [for (const item of items) { await save(item) }]: the saves run one after
    the other, the [step]-th at the instant [clock step]; the first rejection
    ends the loop. *)
Fixpoint await_each (save : Z -> jsval -> DB -> outcome * DB) (clock : nat -> Z)
    (step : nat) (items : list jsval) (db : DB) : result unit * DB :=
  match items with
  | [] => (Return tt, db)
  | item :: rest =>
      match save (clock step) item db with
      | (Rejected error, db') => (Throw error, db')
      | (Resolved _, db') => await_each save clock (S step) rest db'
      end
  end.

Definition restoreFromBackup (P : Platform) (clock : nat -> Z) (backupJson : string) (db : DB)
    : outcome * DB :=
  let attempt : result unit * DB :=
    match JSON_parse P backupJson with
    | None => (Throw SyntaxError, db)
    | Some backup =>
        match get backup "episodes", get backup "campaigns" with
        | Throw error, _ | Return _, Throw error => (Throw error, db)
        | Return episodes, Return campaigns =>
            if negb (truthy episodes) || negb (truthy campaigns) then
              (Throw (Error "Invalid backup format"), db)
            else
              match iterate episodes with
              | Throw error => (Throw error, db)
              | Return items =>
                  match await_each (fun t => saveEpisode (at_time P t)) clock 0 items db with
                  | (Throw error, db') => (Throw error, db')
                  | (Return _, db') =>
                      match iterate campaigns with
                      | Throw error => (Throw error, db')
                      | Return more =>
                          await_each (fun t => saveCampaign (at_time P t)) clock
                                     (length items) more db'
                      end
                  end
              end
        end
    end in
  match attempt with
  | (Throw error, db') => (Rejected (rethrow "Failed to restore from backup: " error), db')
  | (Return _, db') => (Resolved JUndefined, db')
  end.

(** ** Settings *)

(** The settings store, keyed by [id] like the others. The failure of its
    requests is an argument of the operations. *)
Abbreviation Settings := (gmap string (list (string * jsval))).

(** [{ ...target, ...source }] *)
Definition spread (target : list (string * jsval)) (source : jsval) : list (string * jsval) :=
  foldl (fun props entry => set_property props entry.1 entry.2) target (Object_entries source).

Definition saveSettings (P : Platform) (put_error : option string) (settings : jsval)
    (store : Settings) : outcome * Settings :=
  match open_error P with
  | Some error => (Rejected error, store)
  | None =>
      let settingsWithTimestamp :=
        set_property (spread [("id", JStr "app-settings")] settings)
                     "lastModified" (JStr (toISOString P (now P))) in
      match valid_key (own_property settingsWithTimestamp "id") with
      | None => (Rejected (rethrow "Failed to save settings: " DataError), store)
      | Some key =>
          match put_error with
          | Some message =>
              (Rejected (Error ("Failed to save settings: " ++ message_or_unknown message)),
               store)
          | None => (Resolved JUndefined, <[key := settingsWithTimestamp]> store)
          end
      end
  end.

Definition getSettings (P : Platform) (get_error : option string) (store : Settings) : outcome :=
  match open_error P with
  | Some error => Rejected error
  | None =>
      match get_error with
      | Some message =>
          Rejected (Error ("Failed to get settings: " ++ message_or_unknown message))
      | None =>
          (* resolve(request.result || {}) *)
          match store !! "app-settings" with
          | Some props => Resolved (JObj props)
          | None => Resolved (JObj [])
          end
      end
  end.

(** [checkDatabaseConnection], past the support check: [open_failed] is the
    open request ending in an error or blocked. The test record goes to the
    settings store. *)
Definition checkDatabaseConnection (P : Platform) (open_failed : bool)
    (put_error : option string) (store : Settings) : bool * Settings :=
  if open_failed then (false, store)
  else
    let testData := [("id", JStr "connection-test"); ("timestamp", JNum (now P))] in
    match put_error with
    | Some _ => (false, store)
    | None => (true, <["connection-test" := testData]> store)
    end.

(** ** Sessions: operations one after the other *)

(** A call of one of the operations that write to the database. *)
Inductive operation :=
| SaveEpisode (episode : jsval)
| DeleteEpisode (id : jsval)
| CreateManualSnapshot (episodeId : jsval)
| RestoreEpisodeFromSnapshot (snapshotId : jsval)
| ImportEpisodeFromJSON (jsonString : string)
| SaveCampaign (campaign : jsval)
| DeleteCampaign (id : jsval)
| ImportCampaignFromJSON (jsonString : string)
| RestoreFromBackup (clock : nat -> Z) (backupJson : string).

Definition perform (P : Platform) (op : operation) (db : DB) : outcome * DB :=
  match op with
  | SaveEpisode episode => saveEpisode P episode db
  | DeleteEpisode id => deleteEpisode P id db
  | CreateManualSnapshot episodeId => createManualSnapshot P episodeId db
  | RestoreEpisodeFromSnapshot snapshotId => restoreEpisodeFromSnapshot P snapshotId db
  | ImportEpisodeFromJSON jsonString => importEpisodeFromJSON P jsonString db
  | SaveCampaign campaign => saveCampaign P campaign db
  | DeleteCampaign id => deleteCampaign P id db
  | ImportCampaignFromJSON jsonString => importCampaignFromJSON P jsonString db
  | RestoreFromBackup clock backupJson => restoreFromBackup P clock backupJson db
  end.

(** The database after a session: each call with the platform as it is at
    that moment (its clock, its failures). *)
Definition session (calls : list (Platform * operation)) (db : DB) : DB :=
  foldl (fun db call => (perform call.1 call.2 db).2) db calls.

(** No character of [s] is a dash. *)
Fixpoint dashless (s : string) : Prop :=
  match s with
  | EmptyString => True
  | String c rest => c <> "-"%char /\ dashless rest
  end.

(** No episode has more than ten auto-saves. *)
Definition bounded_history (db : DB) : Prop :=
  forall episode, count_snapshots (snapshots db) episode "auto-save" <= 10.

End Store.

(* ===================================================================== *)
(** * The helpers of [utils.ts]: ids, paragraphs, the debounced call *)
(* ===================================================================== *)

Module Utils.

(** ** [generateId] *)

(** The digits of [Number.prototype.toString(36)]. *)
Definition alphabet : list ascii :=
  list_ascii_of_string "0123456789abcdefghijklmnopqrstuvwxyz".

Definition digit36 (d : N) : ascii :=
  match alphabet !! N.to_nat d with
  | Some c => c
  | None => "0"%char
  end.

(** The digits of [n] in base 36, the most significant first. [fuel] bounds
    their number. *)
Fixpoint digits36 (fuel : nat) (n : N) : list N :=
  match fuel with
  | O => []
  | S fuel' =>
      if (n <? 36)%N then [n]
      else (digits36 fuel' (n / 36)%N ++ [(n mod 36)%N])%list
  end.

(** [n.toString(36)] for an integer [n]. *)
Definition toString36 (n : Z) : string :=
  let digits (m : N) :=
    string_of_list_ascii (map digit36 (digits36 (S (N.to_nat (N.log2 m))) m)) in
  match n with
  | Z0 => "0"
  | Zpos p => digits (Npos p)
  | Zneg p => "-" ++ digits (Npos p)
  end.

(** [s.substring(start, end)] for [start <= end]. *)
Definition substring (start finish : nat) (s : string) : string :=
  string_of_list_ascii (take (finish - start) (drop start (list_ascii_of_string s))).

(** [`${prefix}${Date.now().toString(36)}-${Math.random().toString(36).substring(2, 9)}`]:
    [now] is [Date.now()], [random] the text [Math.random().toString(36)]. *)
Definition generateId (now : Z) (random : string) (prefix : string) : string :=
  prefix ++ toString36 now ++ "-" ++ substring 2 9 random.

(** ** [splitIntoParagraphs] *)

Definition LF : ascii := "010"%char.

(** [text.split(/\n\n+/)] for a text that is not empty: the pieces between
    the maximal runs of two or more line feeds, as the first piece and the
    ones after it. [in_separator] tells that the characters just read are a
    match of the pattern, which further line feeds extend. *)
Fixpoint split (in_separator : bool) (text : string) : string * list string :=
  match text with
  | EmptyString => (EmptyString, [])
  | String c rest =>
      if in_separator && bool_decide (c = LF) then split true rest
      else
        match bool_decide (c = LF), rest with
        | true, String c' rest' =>
            if bool_decide (c' = LF) then
              let (piece, pieces) := split true rest' in (EmptyString, piece :: pieces)
            else
              let (piece, pieces) := split false rest in (String c piece, pieces)
        | _, _ =>
            let (piece, pieces) := split false rest in (String c piece, pieces)
        end
  end.

Definition splitIntoParagraphs (text : string) : list string :=
  if decide (text = EmptyString) then []
  else let (piece, pieces) := split false text in piece :: pieces.

(** [paragraphs.join(separator)] *)
Fixpoint join (separator : string) (paragraphs : list string) : string :=
  match paragraphs with
  | [] => EmptyString
  | [paragraph] => paragraph
  | paragraph :: rest => paragraph ++ separator ++ join separator rest
  end.

Definition blank_line : string := String LF (String LF EmptyString).

(** [text] with every run of two or more line feeds cut down to two. *)
Fixpoint collapse (in_separator : bool) (text : string) : string :=
  match text with
  | EmptyString => EmptyString
  | String c rest =>
      if in_separator && bool_decide (c = LF) then collapse true rest
      else
        match bool_decide (c = LF), rest with
        | true, String c' rest' =>
            if bool_decide (c' = LF) then String LF (String LF (collapse true rest'))
            else String c (collapse false rest)
        | _, _ => String c (collapse false rest)
        end
  end.

(** [text] has no run of three line feeds. *)
Fixpoint no_triple_line_feed (text : string) : Prop :=
  match text with
  | EmptyString => True
  | String c rest =>
      ~ (exists rest', text = String LF (String LF (String LF rest'))) /\
      no_triple_line_feed rest
  end.

(** [text] has no two line feeds in a row. *)
Fixpoint no_blank_line (text : string) : Prop :=
  match text with
  | EmptyString => True
  | String c rest =>
      ~ (exists rest', text = String LF (String LF rest')) /\ no_blank_line rest
  end.

(** ** [debounce] *)

(** What [debounce(func, wait)] returns, with the timers of the browser it
    has set: [timeout] is the variable of the closure, [timers] the pending
    timers with the arguments their [later] will pass on, [next_timer] the id
    the next [setTimeout] returns, [calls] the calls of [func] so far. *)
Record Debounced (A : Type) := mkDebounced {
  timeout : option nat;
  timers : gmap nat A;
  next_timer : nat;
  calls : list A
}.
Arguments mkDebounced {A}.
Arguments timeout {A}.
Arguments timers {A}.
Arguments next_timer {A}.
Arguments calls {A}.

Definition debounce {A} : Debounced A := mkDebounced None ∅ 0 [].

(** A call of the debounced function. *)
Definition invoke {A} (args : A) (d : Debounced A) : Debounced A :=
  (* if (timeout !== null) clearTimeout(timeout) *)
  let timers' := match timeout d with
                 | Some id => delete id (timers d)
                 | None => timers d
                 end in
  (* timeout = setTimeout(later, wait) *)
  mkDebounced (Some (next_timer d)) (<[next_timer d := args]> timers')
              (S (next_timer d)) (calls d).

(** The browser runs the timer [id], if it is still pending: [later]. *)
Definition expire {A} (id : nat) (d : Debounced A) : Debounced A :=
  match timers d !! id with
  | None => d
  | Some args =>
      (* timeout = null; func(...args) *)
      mkDebounced None (delete id (timers d)) (next_timer d) (calls d ++ [args])
  end.

Inductive event (A : Type) :=
| Invoke (args : A)
| Expire (id : nat).
Arguments Invoke {A} args.
Arguments Expire {A} id.

Definition react {A} (d : Debounced A) (e : event A) : Debounced A :=
  match e with
  | Invoke args => invoke args d
  | Expire id => expire id d
  end.

(** The arguments of the calls among the events. *)
Definition invoked {A} (events : list (event A)) : list A :=
  omap (fun e => match e with Invoke args => Some args | Expire _ => None end) events.

End Utils.

(* ===================================================================== *)
(** * The documents of the schema and their templates *)
(* ===================================================================== *)

Module Schema.
Import Analyzer JS.

(** [interface Episode]; [lastModified] is optional. *)
Record Episode := mkEpisode {
  id : string;
  title : string;
  author : string;
  description : string;
  stardate : string;
  shipName : string;
  scenes : Scenes;
  lastModified : option string
}.

(** The JavaScript values of the typed documents, properties in the order of
    the object literals of the source. *)
Definition choice_value (choice : Choice) : jsval :=
  JObj [("text", JStr (choice_text choice)); ("nextScene", JStr (nextScene choice))].

Definition scene_value (scene : Scene) : jsval :=
  JObj [("id", JStr (scene_id scene)); ("title", JStr (scene_title scene));
        ("text", JArr (map JStr (scene_text scene)));
        ("choices", JArr (map choice_value (choices scene)))].

Definition scenes_value (scenes : Scenes) : jsval :=
  JObj (map (fun entry => (entry.1, scene_value entry.2)) scenes).

Definition episode_props (episode : Episode) : list (string * jsval) :=
  ([("id", JStr (id episode)); ("title", JStr (title episode));
   ("author", JStr (author episode)); ("description", JStr (description episode));
   ("stardate", JStr (stardate episode)); ("shipName", JStr (shipName episode));
   ("scenes", scenes_value (scenes episode))]
  ++ match lastModified episode with
     | Some stamp => [("lastModified", JStr stamp)]
     | None => []
     end)%list.

Definition episode_value (episode : Episode) : jsval := JObj (episode_props episode).

(** The test of the editor on a required string [s]: [!s], or [s.trim()] is
    the empty string. *)
Definition blank (s : string) : bool := bool_decide (trim s = EmptyString).

(** [createNewEpisodeTemplate()], [id] being what [generateId("ep-")]
    returned. *)
Definition createNewEpisodeTemplate (id : string) : Episode :=
  mkEpisode id "New Episode" "Your Name" "A brief description of your episode."
    "12345.6" "USS Enterprise NCC-1701"
    [("start",
      mkScene "start" "Starting Location"
        ["This is the first paragraph of your episode.";
         "This is the second paragraph. You can add as many as you need."]
        [mkChoice "This is the first choice the player can make." "scene-two"]);
     ("scene-two",
      mkScene "scene-two" "Second Scene"
        ["This is the content of your second scene."]
        [mkChoice "Go back to start" "start"])]
    None.

(** [createNewCampaignTemplate()], [id] being what [generateId("camp-")]
    returned. *)
Definition createNewCampaignTemplate (id : string) : jsval :=
  JObj [("id", JStr id); ("title", JStr "New Campaign"); ("author", JStr "Your Name");
        ("description", JStr "A brief description of your campaign.");
        ("version", JStr "1.0");
        ("episodes",
         JArr [JObj [("episodeId", JStr EmptyString); ("title", JStr "First Episode");
                     ("description", JStr "The first episode in your campaign.");
                     ("order", JNum 1)]])].

End Schema.

(* ===================================================================== *)
(** * The scene builder ([scene-builder.tsx]) *)
(* ===================================================================== *)

Module SceneBuilder.
Import Analyzer.

(** [delete scenes[key]]: an own property goes, nothing else. *)
Definition delete_scene (scenes : list (string * Scene)) (key : string) : Scenes :=
  filter (fun entry => entry.1 <> key) scenes.

(** The handlers give the scenes they pass to [onChange]; a handler that
    returns early gives the scenes as they are. [newSceneId] is what
    [generateId("scene-")] returned.

    The handlers that read [scenes[sceneId]] give [None] when [sceneId] is
    no scene but the name of a member of [Object.prototype]: the guard
    [if (!scenes[sceneId]) return] lets it pass, and the handler then throws
    a [TypeError] (on [...scenes[sceneId].choices]) or stores under that name
    an object that is not a scene. The component passes the id of a scene it
    rendered. *)
Definition handleAddScene (newSceneId : string) (scenes : Scenes) : Scenes :=
  let newScene :=
    mkScene newSceneId "New Scene" ["Enter your scene text here."]
            [mkChoice "Continue" "start"] in
  set_scene scenes newSceneId newScene.

Definition handleDeleteScene (sceneId : string) (scenes : Scenes) : Scenes :=
  if decide (sceneId = "start") then scenes
  else delete_scene scenes sceneId.

Definition handleDuplicateScene (newSceneId sceneId : string) (scenes : Scenes)
    : option Scenes :=
  match member_at scenes sceneId with
  | Absent => Some scenes
  | Inherited => None
  | Own sourceScene =>
      let newScene :=
        mkScene newSceneId (scene_title sourceScene ++ " (Copy)")%string
                (scene_text sourceScene) (choices sourceScene) in
      Some (set_scene scenes newSceneId newScene)
  end.

(** [field] and [value] of [handleSceneChange], for the fields of a scene. *)
Inductive scene_field :=
| Id (value : string)
| Title (value : string)
| Text (value : list string)
| Choices (value : list Choice).

(** [{ ...scene, [field]: value }] *)
Definition with_field (scene : Scene) (update : scene_field) : Scene :=
  match update with
  | Id value => mkScene value (scene_title scene) (scene_text scene) (choices scene)
  | Title value => mkScene (scene_id scene) value (scene_text scene) (choices scene)
  | Text value => mkScene (scene_id scene) (scene_title scene) value (choices scene)
  | Choices value => mkScene (scene_id scene) (scene_title scene) (scene_text scene) value
  end.

Definition handleSceneChange (sceneId : string) (update : scene_field) (scenes : Scenes)
    : option Scenes :=
  match member_at scenes sceneId with
  | Absent => Some scenes
  | Inherited => None
  | Own scene => Some (set_scene scenes sceneId (with_field scene update))
  end.

Definition handleTextChange (sceneId : string) (text : string) (scenes : Scenes)
    : option Scenes :=
  match member_at scenes sceneId with
  | Absent => Some scenes
  | Inherited | Own _ =>
      let paragraphs :=
        if decide (JS.trim text = EmptyString) then [EmptyString]
        else Utils.splitIntoParagraphs text in
      handleSceneChange sceneId (Text paragraphs) scenes
  end.

Definition handleAddChoice (sceneId : string) (scenes : Scenes) : option Scenes :=
  match member_at scenes sceneId with
  | Absent => Some scenes
  | Inherited => None
  | Own scene =>
      Some (set_scene scenes sceneId
              (with_field scene
                 (Choices (choices scene ++ [mkChoice "New choice" "start"])%list)))
  end.

(** [updatedChoices.splice(choiceIndex, 1)] *)
Definition handleDeleteChoice (sceneId : string) (choiceIndex : nat) (scenes : Scenes)
    : option Scenes :=
  match member_at scenes sceneId with
  | Absent => Some scenes
  | Inherited => None
  | Own scene =>
      Some (set_scene scenes sceneId
              (with_field scene (Choices (delete choiceIndex (choices scene)))))
  end.

(** [field] and [value] of [handleChoiceChange]. *)
Inductive choice_field :=
| ChoiceText (value : string)
| NextScene (value : string).

Definition with_choice_field (choice : Choice) (update : choice_field) : Choice :=
  match update with
  | ChoiceText value => mkChoice value (nextScene choice)
  | NextScene value => mkChoice (choice_text choice) value
  end.

(** [None] also when [choiceIndex] is not the index of a choice. The source
    then builds an array holding a choice with one property only, which is
    not a value of this model; the component passes the index of a choice it
    rendered. *)
Definition handleChoiceChange (sceneId : string) (choiceIndex : nat) (update : choice_field)
    (scenes : Scenes) : option Scenes :=
  match member_at scenes sceneId with
  | Absent => Some scenes
  | Inherited => None
  | Own scene =>
      match choices scene !! choiceIndex with
      | None => None
      | Some choice =>
          Some (set_scene scenes sceneId
                  (with_field scene
                     (Choices (<[choiceIndex := with_choice_field choice update]>
                                 (choices scene)))))
      end
  end.

(** The edits of a session with the scene builder. *)
Inductive edit :=
| AddScene (newSceneId : string)
| DeleteScene (sceneId : string)
| DuplicateScene (newSceneId sceneId : string)
| SceneChange (sceneId : string) (update : scene_field)
| TextChange (sceneId : string) (text : string)
| AddChoice (sceneId : string)
| DeleteChoice (sceneId : string) (choiceIndex : nat)
| ChoiceChange (sceneId : string) (choiceIndex : nat) (update : choice_field).

Definition apply_edit (e : edit) (scenes : Scenes) : option Scenes :=
  match e with
  | AddScene newSceneId => Some (handleAddScene newSceneId scenes)
  | DeleteScene sceneId => Some (handleDeleteScene sceneId scenes)
  | DuplicateScene newSceneId sceneId => handleDuplicateScene newSceneId sceneId scenes
  | SceneChange sceneId update => handleSceneChange sceneId update scenes
  | TextChange sceneId text => handleTextChange sceneId text scenes
  | AddChoice sceneId => handleAddChoice sceneId scenes
  | DeleteChoice sceneId choiceIndex => handleDeleteChoice sceneId choiceIndex scenes
  | ChoiceChange sceneId choiceIndex update =>
      handleChoiceChange sceneId choiceIndex update scenes
  end.

Fixpoint apply_edits (edits : list edit) (scenes : Scenes) : option Scenes :=
  match edits with
  | [] => Some scenes
  | e :: rest =>
      match apply_edit e scenes with
      | None => None
      | Some scenes' => apply_edits rest scenes'
      end
  end.

(** Some choice of some scene leads to [target]. *)
Definition targeted (scenes : Scenes) (target : string) : Prop :=
  exists entry choice, entry ∈ scenes /\ choice ∈ choices entry.2 /\ nextScene choice = target.

End SceneBuilder.

(* ===================================================================== *)
(** * The story tester *)
(* ===================================================================== *)

Module StoryTester.
Import Analyzer.

(** The state of the component once the episode is loaded:
    [currentSceneId] and [history] ([{ sceneId, choiceText }]). *)
Record Tester := mkTester {
  currentSceneId : string;
  history : list (string * string)
}.

Definition loaded : Tester := mkTester "start" [].

(** [if (!currentScene) return] tests [episode.scenes[currentSceneId]]. *)
Definition handleChoiceClick (scenes : Scenes) (st : Tester) (choice : Choice) : Tester :=
  match member_at scenes (currentSceneId st) with
  | Absent => st
  | Own _ | Inherited =>
      mkTester (nextScene choice)
               (history st ++ [(currentSceneId st, choice_text choice)])%list
  end.

Definition handleRestart (st : Tester) : Tester := mkTester "start" [].

(** The clicks the rendered scenes allow: each choice clicked is one of the
    buttons of the scene shown at that moment. *)
Fixpoint playable (scenes : Scenes) (st : Tester) (clicks : list Choice) : Prop :=
  match clicks with
  | [] => True
  | choice :: rest =>
      (exists currentScene,
         scene_at scenes (currentSceneId st) = Some currentScene /\
         choice ∈ choices currentScene) /\
      playable scenes (handleChoiceClick scenes st choice) rest
  end.

End StoryTester.

(* ===================================================================== *)
(** * The episode editor ([validateEpisode] and [handleSave] of the
      component) *)
(* ===================================================================== *)

Module EpisodeEditor.
Import Analyzer JS Db Schema.

(** [scene.choices.forEach((choice) => { if (!sceneIds.has(choice.nextScene))
    brokenLinks = true })] *)
Definition scan_scene (sceneIds : gset string) (brokenLinks : bool) (cs : list Choice) : bool :=
  foldl (fun brokenLinks choice =>
           if decide (nextScene choice ∈ sceneIds) then brokenLinks else true)
        brokenLinks cs.

(** [Object.entries(ep.scenes).forEach(([sceneId, scene]) => ...)] *)
Definition scan_scenes (scenes : Scenes) : bool :=
  let sceneIds : gset string := list_to_set (Analyzer.Object_keys scenes) in
  foldl (fun brokenLinks entry => scan_scene sceneIds brokenLinks (choices entry.2))
        false scenes.

(** [errors.push(message)] *)
Definition push (errors : list string) (message : string) : list string :=
  (errors ++ [message])%list.

(** The [errors] of [validateEpisode], which returns [errors.length === 0]. *)
Definition validationErrors (ep : Episode) : list string :=
  let errors : list string := [] in
  let errors := if blank (title ep) then push errors "Episode title is required" else errors in
  let errors := if blank (author ep) then push errors "Author name is required" else errors in
  let errors :=
    if blank (description ep) then push errors "Episode description is required"
    else errors in
  if bool_decide (length (Analyzer.Object_keys (scenes ep)) = 0) then
    push errors "Episode must have at least one scene"
  else
    let errors :=
      match member_at (scenes ep) "start" with
      | Absent => push errors "Episode must have a 'start' scene"
      | Own _ | Inherited => errors
      end in
    if scan_scenes (scenes ep) then push errors "Episode contains broken scene links"
    else errors.

Definition validateEpisode (ep : Episode) : bool :=
  bool_decide (length (validationErrors ep) = 0).

(** What [handleSave] tells the user. *)
Inductive notice :=
| Nothing
| ValidationError
| Saved
| Failure (reason : exn).

(** [handleSave]: the save happens at the instant of [P], the manual
    snapshot at [later]. *)
Definition handleSave (P : Platform) (later : Z) (episode : option Episode) (db : DB)
    : notice * DB :=
  match episode with
  | None => (Nothing, db)
  | Some ep =>
      if negb (validateEpisode ep) then (ValidationError, db)
      else
        match saveEpisode P (episode_value ep) db with
        | (Rejected error, db') => (Failure error, db')
        | (Resolved _, db') =>
            match createManualSnapshot (at_time P later) (JStr (id ep)) db' with
            | (Rejected error, db'') => (Failure error, db'')
            | (Resolved _, db'') => (Saved, db'')
            end
        end
  end.

(** The debounced auto-save: [saveEpisode(episodeToSave)], no validation. *)
Definition autoSave (P : Platform) (episodeToSave : Episode) (db : DB) : DB :=
  (saveEpisode P (episode_value episodeToSave) db).2.

End EpisodeEditor.

(* ===================================================================== *)
(** * The episodes of a campaign ([CampaignEpisodeManager]) *)
(* ===================================================================== *)

Module CampaignManager.
Import JS.

(** The campaign episodes are objects that the handlers change in place:
    the heap holds them by reference, an array is a list of references.
    [campaignEpisodes] is the array the component was given; what a handler
    passes to [onChange] is the array of the state it returns. *)
Record State := mkState {
  heap : gmap nat (list (string * jsval));
  campaignEpisodes : list nat
}.

(** [episode.name] of the object behind [ref]. *)
Definition field (h : gmap nat (list (string * jsval))) (ref : nat) (name : string) : jsval :=
  match h !! ref with
  | Some episode => own_property episode name
  | None => JUndefined
  end.

(** [updatedEpisodes.forEach((episode, idx) => { episode.order = idx + 1 })],
    from the index [idx] on. *)
Fixpoint renumber (idx : nat) (refs : list nat) (h : gmap nat (list (string * jsval)))
    : gmap nat (list (string * jsval)) :=
  match refs with
  | [] => h
  | ref :: rest =>
      renumber (S idx) rest
        (alter (fun episode => set_property episode "order" (JNum (Z.of_nat idx + 1))) ref h)
  end.

(** [availableEpisodes.find((ep) => ep.id === episodeId)] *)
Definition find_episode (episodeId : string) (availableEpisodes : list (list (string * jsval)))
    : option (list (string * jsval)) :=
  List.find (fun ep => match own_property ep "id" with
                       | JStr id => bool_decide (id = episodeId)
                       | _ => false
                       end)
            availableEpisodes.

Definition handleSelectEpisode (episodeId : string)
    (availableEpisodes : list (list (string * jsval))) (st : State) : State :=
  match find_episode episodeId availableEpisodes with
  | None => st
  | Some episode =>
      let newCampaignEpisode :=
        [("episodeId", own_property episode "id");
         ("title", own_property episode "title");
         ("description", own_property episode "description");
         ("order", JNum (Z.of_nat (length (campaignEpisodes st)) + 1))] in
      let ref := fresh (dom (heap st)) in
      mkState (<[ref := newCampaignEpisode]> (heap st)) (campaignEpisodes st ++ [ref])
  end.

Definition handleRemoveEpisode (index : nat) (st : State) : State :=
  (* const updatedEpisodes = [...campaignEpisodes]; updatedEpisodes.splice(index, 1) *)
  let updatedEpisodes := delete index (campaignEpisodes st) in
  mkState (renumber 0 updatedEpisodes (heap st)) updatedEpisodes.

Inductive direction := up | down.

(** [None]: [index] is not an index of the array, which the source then
    extends with [undefined] entries before it fails on one of them; the
    component passes the index of an episode it rendered. *)
Definition handleMoveEpisode (index : nat) (dir : direction) (st : State) : option State :=
  if match dir with
     | up => bool_decide (index = 0)
     | down => bool_decide (S index = length (campaignEpisodes st))
     end
  then Some st
  else
    let newIndex := match dir with up => index - 1 | down => index + 1 end in
    match campaignEpisodes st !! index, campaignEpisodes st !! newIndex with
    | Some temp, Some other =>
        let updatedEpisodes :=
          <[newIndex := temp]> (<[index := other]> (campaignEpisodes st)) in
        Some (mkState (renumber 0 updatedEpisodes (heap st)) updatedEpisodes)
    | _, _ => None
    end.

(** The [order] fields of an array, read in a heap. *)
Definition orders (h : gmap nat (list (string * jsval))) (refs : list nat) : list jsval :=
  map (fun ref => field h ref "order") refs.

(** [1, 2, ..., n] *)
Definition positions (n : nat) : list jsval :=
  map (fun i => JNum (Z.of_nat i + 1)) (seq 0 n).

(** The references of the array are distinct objects of the heap. *)
Definition well_formed (st : State) : Prop :=
  NoDup (campaignEpisodes st) /\
  forall ref, ref ∈ campaignEpisodes st -> is_Some (heap st !! ref).

(** What the user does in the manager: picks an episode in the dialog,
    removes a row, moves a row. *)
Inductive action :=
| Select (episodeId : string) (availableEpisodes : list (list (string * jsval)))
| Remove (index : nat)
| Move (index : nat) (dir : direction).

Definition act (a : action) (st : State) : option State :=
  match a with
  | Select episodeId availableEpisodes => Some (handleSelectEpisode episodeId availableEpisodes st)
  | Remove index => Some (handleRemoveEpisode index st)
  | Move index dir => handleMoveEpisode index dir st
  end.

(** The actions one after the other, each on the array the one before
    passed on. *)
Fixpoint run (actions : list action) (st : State) : option State :=
  match actions with
  | [] => Some st
  | a :: rest =>
      match act a st with
      | Some st' => run rest st'
      | None => None
      end
  end.

(** A campaign without episodes. *)
Definition no_episodes : State := mkState ∅ [].

End CampaignManager.

(* ===================================================================== *)
(** * More data to run the operations on *)
(* ===================================================================== *)

Module Samples.
Import JS Db Store Reference.

Local Open Scope Z_scope.

(** A campaign of one episode, and the sample database with it, saved at
    instant 1500. *)
Definition sample_campaign_props : list (string * jsval) :=
  [("id", JStr "camp-1"); ("title", JStr "Five Year Mission");
   ("author", JStr "A. Writer"); ("description", JStr "The episodes in order.");
   ("version", JStr "1.0");
   ("episodes",
    JArr [JObj [("episodeId", JStr "ep-1"); ("title", JStr "First Contact");
                ("description", JStr "Where it begins."); ("order", JNum 1)]])].

Definition sample_campaign : jsval := JObj sample_campaign_props.

Definition campaign_db : DB := (saveCampaign (browser 1500) sample_campaign sample_db).2.

(** The clock of a restore: one millisecond per save, from instant 6000. *)
Definition restore_clock (step : nat) : Z := 6000 + Z.of_nat step.

(** A backup whose second episode has no id. *)
Definition broken_backup : jsval :=
  JObj [("episodes", JArr [sample_episode; JObj [("title", JStr "No id")]]);
        ("campaigns", JArr [sample_campaign])].

(** Settings as the settings panel holds them. *)
Definition sample_settings : list (string * jsval) :=
  [("authorName", JStr "A. Writer"); ("defaultShipName", JStr "USS Enterprise NCC-1701");
   ("autoSaveInterval", JNum 10); ("darkMode", JBool true)].

(** A session with the scene builder on the cyclic graph. *)
Definition sample_edits : list SceneBuilder.edit :=
  [SceneBuilder.AddScene "scene-new";
   SceneBuilder.DeleteScene "start";
   SceneBuilder.DeleteScene "B";
   SceneBuilder.TextChange "A" "Red alert.";
   SceneBuilder.ChoiceChange "A" 0 (SceneBuilder.NextScene "scene-new");
   SceneBuilder.SceneChange "start" (SceneBuilder.Title "Bridge")].

(** Three campaign episodes whose [order] fields are out of step. *)
Definition sample_manager : CampaignManager.State :=
  CampaignManager.mkState
    (list_to_map
       [(0%nat, [("episodeId", JStr "ep-1"); ("title", JStr "One"); ("order", JNum 7)]);
        (1%nat, [("episodeId", JStr "ep-2"); ("title", JStr "Two"); ("order", JNum 7)]);
        (2%nat, [("episodeId", JStr "ep-3"); ("title", JStr "Three"); ("order", JNum 9)])])
    [0%nat; 1%nat; 2%nat].

(** The episodes the dialog of the manager offers, and a session with it. *)
Definition available_episodes : list (list (string * jsval)) :=
  [[("id", JStr "ep-1"); ("title", JStr "One"); ("description", JStr "The first.")];
   [("id", JStr "ep-2"); ("title", JStr "Two"); ("description", JStr "The second.")];
   [("id", JStr "ep-3"); ("title", JStr "Three"); ("description", JStr "The third.")]].

Definition sample_actions : list CampaignManager.action :=
  [CampaignManager.Select "ep-1" available_episodes;
   CampaignManager.Select "ep-2" available_episodes;
   CampaignManager.Select "ghost" available_episodes;
   CampaignManager.Move 1 CampaignManager.up;
   CampaignManager.Select "ep-3" available_episodes;
   CampaignManager.Remove 1;
   CampaignManager.Move 1 CampaignManager.down].

(** The template of a new episode whose title is one no-break space
    (U+00A0, two bytes in UTF-8). *)
Definition untitled_episode : Schema.Episode :=
  Schema.mkEpisode "ep-new" (String "194" (String "160" EmptyString)) "Your Name"
    "A brief description of your episode." "12345.6" "USS Enterprise NCC-1701"
    (Schema.scenes (Schema.createNewEpisodeTemplate "ep-new")) None.

End Samples.

(* ===================================================================== *)
(** * Properties of the graph analyzer *)
(* ===================================================================== *)

Section AnalyzerFacts.
Import Analyzer.

Variable scenes : Scenes.

Lemma scene_at_elem_of key scene :
  scene_at scenes key = Some scene -> (key, scene) ∈ scenes.
Proof.
  induction scenes as [|[k s] rest IH]; simpl; [done|].
  case_decide as Hk; intros Hs.
  - simplify_eq. left.
  - right. auto.
Qed.

Lemma scene_at_None key :
  scene_at scenes key = None <-> key ∉ Object_keys scenes.
Proof.
  unfold Object_keys. induction scenes as [|[k s] rest IH]; simpl.
  - split; [intros _; apply not_elem_of_nil | done].
  - case_decide; subst.
    + split; [done | intros []; left].
    + rewrite IH, not_elem_of_cons. naive_solver.
Qed.

Lemma scene_at_NoDup key scene :
  NoDup (Object_keys scenes) -> (key, scene) ∈ scenes -> scene_at scenes key = Some scene.
Proof.
  unfold Object_keys. induction scenes as [|[k s] rest IH]; simpl.
  - intros _ H. by apply elem_of_nil in H.
  - rewrite NoDup_cons. intros [Hk Hnd] Hin.
    apply elem_of_cons in Hin as [Heq | Hin].
    + simplify_eq. by rewrite decide_True.
    + case_decide; [|by auto].
      subst. exfalso. apply Hk. apply list_elem_of_fmap. by exists (key, scene).
Qed.

(** ** Property reads *)

Lemma member_at_Own key scene :
  member_at scenes key = Own scene <-> scene_at scenes key = Some scene.
Proof.
  unfold member_at. destruct (scene_at scenes key); [naive_solver|].
  case_decide; naive_solver.
Qed.

Lemma member_at_Absent key :
  member_at scenes key = Absent <->
  (key ∉ Object_keys scenes) /\ (key ∉ prototype_members).
Proof.
  unfold member_at. destruct (scene_at scenes key) eqn:Hat.
  - split; [done|]. intros [Hout _]. apply scene_at_None in Hout. congruence.
  - apply scene_at_None in Hat. case_decide; naive_solver.
Qed.

Lemma member_at_Inherited key :
  member_at scenes key = Inherited <->
  (key ∉ Object_keys scenes) /\ key ∈ prototype_members.
Proof.
  unfold member_at. destruct (scene_at scenes key) eqn:Hat.
  - split; [done|]. intros [Hout _]. apply scene_at_None in Hout. congruence.
  - apply scene_at_None in Hat. case_decide; naive_solver.
Qed.

(** A name that is no member of [Object.prototype] reads as an own
    property or as [undefined]. *)
Lemma member_at_plain key :
  key ∉ prototype_members ->
  member_at scenes key = match scene_at scenes key with
                         | Some scene => Own scene
                         | None => Absent
                         end.
Proof. intros Hplain. unfold member_at. destruct (scene_at scenes key); [done|]. by rewrite decide_False. Qed.

(** ** The inner loop *)

Lemma scan_choices_found sceneId visited queue cs :
  scan_choices sceneId visited queue cs = None ->
  exists choice, choice ∈ cs /\ nextScene choice = sceneId.
Proof.
  revert queue. induction cs as [|c cs IH]; intros queue; simpl; [done|].
  case_decide.
  - intros _. exists c. split; [left | done].
  - intros H'. apply IH in H' as (c' & Hin & Heq). exists c'. split; [by right | done].
Qed.

Lemma scan_choices_pushed sceneId visited queue cs queue' :
  scan_choices sceneId visited queue cs = Some queue' ->
  (forall choice, choice ∈ cs ->
     nextScene choice <> sceneId /\ (nextScene choice ∈ visited \/ nextScene choice ∈ queue'))
  /\ (forall y, y ∈ queue -> y ∈ queue')
  /\ (forall y, y ∈ queue' -> y ∈ queue \/ exists choice, choice ∈ cs /\ nextScene choice = y)
  /\ length queue' <= length queue + length cs.
Proof.
  revert queue. induction cs as [|c cs IH]; intros queue; simpl.
  - intros [= <-]. split; [|split; [|split]]; [|auto|auto|lia].
    intros ? Hin. by apply elem_of_nil in Hin.
  - case_decide as Hc; [done|]. intros Hscan.
    apply IH in Hscan as (Hcs & Hsub & Horigin & Hlen).
    split; [|split; [|split]].
    + intros c' Hc'. apply elem_of_cons in Hc' as [-> | Hc']; [| by apply Hcs].
      split; [done|].
      case_decide; [by left|]. right. apply Hsub, elem_of_app. right. left.
    + intros y Hy. apply Hsub. case_decide; [done|]. apply elem_of_app. by left.
    + intros y Hy. apply Horigin in Hy as [Hy | (c' & Hin & Heq)].
      * case_decide; [by left|].
        apply elem_of_app in Hy as [Hy | Hy]; [by left|].
        apply list_elem_of_singleton in Hy. right. exists c. split; [left | done].
      * right. exists c'. split; [by right | done].
    + case_decide; [lia|]. rewrite length_app in Hlen. simpl in Hlen. lia.
Qed.

End AnalyzerFacts.

Section BfsFacts.
Import Analyzer.

Variable scenes : Scenes.
Variable sceneId : string.

(** ** Termination: the fuel that suffices *)

Lemma pending_choices_mono (visited visited' : gset string) :
  visited ⊆ visited' ->
  pending_choices scenes visited' <= pending_choices scenes visited.
Proof.
  intros Hsub. unfold pending_choices.
  induction scenes as [|[k s] rest IH]; simpl; [lia|].
  repeat case_decide; try lia. exfalso. set_solver.
Qed.

Lemma pending_choices_visit (visited : gset string) key scene :
  scene_at scenes key = Some scene ->
  key ∉ visited ->
  pending_choices scenes ({[key]} ∪ visited) + length (choices scene)
    <= pending_choices scenes visited.
Proof.
  intros Hat Hfresh. unfold pending_choices.
  induction scenes as [|[k s] rest IH]; simpl in *; [done|].
  case_decide as Hk.
  - simplify_eq. rewrite decide_True by set_solver. rewrite decide_False by done.
    assert (sum_list (map (fun entry : string * Scene =>
              if decide (entry.1 ∈ {[key]} ∪ visited) then 0 else length (choices entry.2)) rest)
            <= sum_list (map (fun entry : string * Scene =>
              if decide (entry.1 ∈ visited) then 0 else length (choices entry.2)) rest)) as Hle.
    { clear. induction rest as [|[k' s'] rest IH]; simpl; [lia|].
      repeat case_decide; try lia. exfalso. set_solver. }
    lia.
  - specialize (IH Hat).
    repeat case_decide; try lia. exfalso. set_solver.
Qed.

Lemma pending_choices_total : pending_choices scenes ∅ = total_choices scenes.
Proof.
  unfold pending_choices, total_choices.
  induction scenes as [|[k s] rest IH]; simpl; [done|].
  rewrite decide_False by set_solver. by rewrite IH.
Qed.

Lemma bfs_loop_enough_fuel fuel visited queue :
  length queue + pending_choices scenes visited < fuel ->
  exists outcome, bfs_loop fuel scenes sceneId visited queue = Some outcome.
Proof.
  revert visited queue. induction fuel as [|fuel IH]; intros visited queue Hfuel; [lia|].
  simpl. destruct queue as [|current queue]; [by eexists|].
  simpl in Hfuel. case_decide as Hvisited.
  - apply IH. lia.
  - destruct (member_at scenes current) as [scene| |] eqn:Hat.
    + apply member_at_Own in Hat.
      destruct (scan_choices sceneId ({[current]} ∪ visited) queue (choices scene))
        as [queue'|] eqn:Hscan; [|by eexists].
      apply scan_choices_pushed in Hscan as (_ & _ & _ & Hlen).
      pose proof (pending_choices_visit visited current scene Hat Hvisited).
      apply IH. lia.
    + by eexists.
    + apply IH.
      pose proof (pending_choices_mono visited ({[current]} ∪ visited)) as Hmono.
      specialize (Hmono ltac:(set_solver)). lia.
Qed.

Lemma bfs_loop_more_fuel fuel extra visited queue outcome :
  bfs_loop fuel scenes sceneId visited queue = Some outcome ->
  bfs_loop (fuel + extra) scenes sceneId visited queue = Some outcome.
Proof.
  revert visited queue. induction fuel as [|fuel IH]; intros visited queue; simpl; [done|].
  destruct queue as [|current queue]; [done|].
  case_decide; [by apply IH|].
  destruct (member_at scenes current) as [scene| |]; [|done|by apply IH].
  destruct (scan_choices _ _ _ _); [by apply IH | done].
Qed.

(** ** Soundness: what the loop finds is on a path, and so is the name it
       faults on *)

Lemma bfs_loop_sound fuel visited queue :
  (forall y, y ∈ queue -> path_from_start scenes y) ->
  bfs_loop fuel scenes sceneId visited queue = Some (Returns true) ->
  path_from_start scenes sceneId.
Proof.
  revert visited queue. induction fuel as [|fuel IH]; intros visited queue Hqueue; simpl; [done|].
  destruct queue as [|current queue]; [done|].
  assert (path_from_start scenes current) as Hcurrent by (apply Hqueue; left).
  assert (forall y, y ∈ queue -> path_from_start scenes y) as Hrest
    by (intros y Hy; apply Hqueue; by right).
  case_decide; [by apply IH|].
  destruct (member_at scenes current) as [scene| |] eqn:Hat; [|done|by apply IH].
  apply member_at_Own in Hat.
  destruct (scan_choices _ _ _ _) as [queue'|] eqn:Hscan.
  - apply IH. intros y Hy.
    apply scan_choices_pushed in Hscan as (_ & _ & Horigin & _).
    apply Horigin in Hy as [Hy | (choice & Hin & <-)]; [by apply Hrest|].
    by eapply path_step.
  - intros _. apply scan_choices_found in Hscan as (choice & Hin & <-).
    by eapply path_step.
Qed.

Lemma bfs_loop_fault fuel visited queue :
  (forall y, y ∈ queue -> path_from_start scenes y) ->
  bfs_loop fuel scenes sceneId visited queue = Some ThrowsTypeError ->
  exists name, path_from_start scenes name /\ member_at scenes name = Inherited.
Proof.
  revert visited queue. induction fuel as [|fuel IH]; intros visited queue Hqueue; simpl; [done|].
  destruct queue as [|current queue]; [done|].
  assert (path_from_start scenes current) as Hcurrent by (apply Hqueue; left).
  assert (forall y, y ∈ queue -> path_from_start scenes y) as Hrest
    by (intros y Hy; apply Hqueue; by right).
  case_decide; [by apply IH|].
  destruct (member_at scenes current) as [scene| |] eqn:Hat; [|by exists current|by apply IH].
  apply member_at_Own in Hat.
  destruct (scan_choices _ _ _ _) as [queue'|] eqn:Hscan; [|done].
  apply IH. intros y Hy.
  apply scan_choices_pushed in Hscan as (_ & _ & Horigin & _).
  apply Horigin in Hy as [Hy | (choice & Hin & <-)]; [by apply Hrest|].
  by eapply path_step.
Qed.

(** ** Completeness: what the loop misses is on no path, and it has read
       every name that is on one *)

Lemma bfs_loop_complete fuel visited queue :
  sceneId <> "start" ->
  frontier_closed scenes sceneId visited queue ->
  (forall y, y ∈ visited -> member_at scenes y <> Inherited) ->
  bfs_loop fuel scenes sceneId visited queue = Some (Returns false) ->
  ~ path_from_start scenes sceneId /\ faultless scenes.
Proof.
  intros Hstart. revert visited queue.
  induction fuel as [|fuel IH]; intros visited queue [Hroot Hclosed] Hread; simpl; [done|].
  destruct queue as [|current queue].
  - intros _.
    assert (forall y, path_from_start scenes y -> y ∈ visited) as Hall.
    { intros y Hy. induction Hy as [|from scene choice _ IHfrom Hat Hin].
      - destruct Hroot as [|Hnil]; [done | by apply elem_of_nil in Hnil].
      - destruct (Hclosed from scene choice IHfrom Hat Hin) as [_ [|Hnil]];
          [done | by apply elem_of_nil in Hnil]. }
    split; [|intros y Hy; by apply Hread, Hall].
    intros Hpath.
    inversion Hpath as [Heq | from scene choice Hfrom Hat Hin Heq]; [done|].
    apply Hall in Hfrom.
    destruct (Hclosed from scene choice Hfrom Hat Hin) as [Hne _]. done.
  - case_decide as Hvisited.
    + apply IH; [|done]. split.
      * destruct Hroot as [|Hq]; [by left|].
        apply elem_of_cons in Hq as [-> | Hq]; [by left | by right].
      * intros from scene choice Hfrom Hat Hin.
        destruct (Hclosed from scene choice Hfrom Hat Hin) as [Hne [|Hq]];
          split; [done | by left | done |].
        apply elem_of_cons in Hq as [-> | Hq]; [by left | by right].
    + destruct (member_at scenes current) as [scene| |] eqn:Hmember; [| done |].
      * pose proof Hmember as Hat. apply member_at_Own in Hat.
        destruct (scan_choices _ _ _ _) as [queue'|] eqn:Hscan; [|done].
        apply scan_choices_pushed in Hscan as (Hcs & Hsub & _ & _).
        apply IH.
        -- split.
           ++ destruct Hroot as [|Hq]; [left; set_solver|].
              apply elem_of_cons in Hq as [-> | Hq]; [left; set_solver | right; by apply Hsub].
           ++ intros from scene' choice Hfrom Hat' Hin.
              apply elem_of_union in Hfrom as [Hfrom | Hfrom].
              ** apply elem_of_singleton in Hfrom as ->. simplify_eq. by apply Hcs.
              ** destruct (Hclosed from scene' choice Hfrom Hat' Hin) as [Hne [|Hq]];
                   split; [done | left; set_solver | done |].
                 apply elem_of_cons in Hq as [-> | Hq];
                   [left; set_solver | right; by apply Hsub].
        -- intros y [->%elem_of_singleton | Hy]%elem_of_union; [congruence | by apply Hread].
      * apply IH.
        -- split.
           ++ destruct Hroot as [|Hq]; [left; set_solver|].
              apply elem_of_cons in Hq as [-> | Hq]; [left; set_solver | by right].
           ++ intros from scene' choice Hfrom Hat' Hin.
              apply elem_of_union in Hfrom as [Hfrom | Hfrom].
              ** apply elem_of_singleton in Hfrom as ->.
                 apply member_at_Own in Hat'. congruence.
              ** destruct (Hclosed from scene' choice Hfrom Hat' Hin) as [Hne [|Hq]];
                   split; [done | left; set_solver | done |].
                 apply elem_of_cons in Hq as [-> | Hq]; [left; set_solver | by right].
        -- intros y [->%elem_of_singleton | Hy]%elem_of_union; [congruence | by apply Hread].
Qed.

Lemma bfs_from_start_settles :
  exists outcome, bfs_loop (fuel_bound scenes) scenes sceneId ∅ ["start"] = Some outcome.
Proof.
  apply bfs_loop_enough_fuel. rewrite pending_choices_total. unfold fuel_bound. simpl. lia.
Qed.

(** What each way [isSceneReachable] can end says of the graph. *)
Lemma isSceneReachable_true :
  isSceneReachable scenes sceneId = Returns true -> path_from_start scenes sceneId.
Proof.
  unfold isSceneReachable. case_decide as Hstart; [subst; intros _; constructor|].
  destruct bfs_from_start_settles as [outcome Hfound]. rewrite Hfound. intros ->.
  eapply bfs_loop_sound; [|exact Hfound].
  intros y Hy. apply list_elem_of_singleton in Hy as ->. constructor.
Qed.

Lemma isSceneReachable_false :
  isSceneReachable scenes sceneId = Returns false ->
  ~ path_from_start scenes sceneId /\ faultless scenes.
Proof.
  unfold isSceneReachable. case_decide as Hstart; [done|].
  destruct bfs_from_start_settles as [outcome Hfound]. rewrite Hfound. intros ->.
  eapply bfs_loop_complete; [done | | | exact Hfound].
  - split; [right; left|]. intros from ? ? Hfrom. set_solver.
  - intros y Hy. set_solver.
Qed.

Lemma isSceneReachable_throws :
  isSceneReachable scenes sceneId = ThrowsTypeError ->
  sceneId <> "start" /\
  exists name, path_from_start scenes name /\ member_at scenes name = Inherited.
Proof.
  unfold isSceneReachable. case_decide as Hstart; [done|].
  destruct bfs_from_start_settles as [outcome Hfound]. rewrite Hfound. intros ->.
  split; [done|]. eapply bfs_loop_fault; [|exact Hfound].
  intros y Hy. apply list_elem_of_singleton in Hy as ->. constructor.
Qed.

(** On a graph where no path leads to an inherited name the traversal
    returns, with the truth. *)
Lemma isSceneReachable_path :
  faultless scenes ->
  exists reachable,
    isSceneReachable scenes sceneId = Returns reachable /\
    (reachable = true <-> path_from_start scenes sceneId).
Proof.
  intros Hfaultless.
  destruct (isSceneReachable scenes sceneId) as [[|]|] eqn:Hcall.
  - exists true. split; [done|]. split; [intros _; by apply isSceneReachable_true | done].
  - exists false. split; [done|]. split; [done|].
    intros Hpath. apply isSceneReachable_false in Hcall as [Hnone _]. by destruct Hnone.
  - apply isSceneReachable_throws in Hcall as (_ & name & Hpath & Hinherited).
    by apply Hfaultless in Hpath.
Qed.

End BfsFacts.

Section BrokenLinkFacts.
Import Analyzer.

Variable scenes : Scenes.

Lemma forEach_choice_broken_from sceneId index cs brokenLinks :
  forEach_choice scenes sceneId index cs brokenLinks
  = (brokenLinks ++ broken_from scenes sceneId index cs)%list.
Proof.
  revert index brokenLinks. induction cs as [|c cs IH]; intros index brokenLinks; simpl.
  - by rewrite app_nil_r.
  - rewrite IH. destruct (member_at scenes (nextScene c)); [done|done|].
    by rewrite <- app_assoc.
Qed.

Lemma forEach_scene_broken_rows entries brokenLinks :
  forEach_scene scenes entries brokenLinks
  = (brokenLinks ++ broken_rows scenes entries)%list.
Proof.
  revert brokenLinks. induction entries as [|[k s] rest IH]; intros brokenLinks; simpl.
  - by rewrite app_nil_r.
  - by rewrite IH, forEach_choice_broken_from, <- app_assoc.
Qed.

Lemma findBrokenLinks_rows : findBrokenLinks scenes = broken_rows scenes scenes.
Proof. unfold findBrokenLinks. by rewrite forEach_scene_broken_rows. Qed.

Lemma elem_of_broken_from link sceneId index cs :
  link ∈ broken_from scenes sceneId index cs <->
  link.1 = sceneId /\ index <= link.2 /\
  exists choice, cs !! (link.2 - index) = Some choice /\
                 member_at scenes (nextScene choice) = Absent.
Proof.
  revert index. induction cs as [|c cs IH]; intros index; simpl.
  - split; [intros H; by apply elem_of_nil in H | intros (_ & _ & ? & ? & _); done].
  - assert (link ∈ broken_from scenes sceneId (S index) cs <->
            link.1 = sceneId /\ index < link.2 /\
            exists choice, (c :: cs) !! (link.2 - index) = Some choice /\
                           member_at scenes (nextScene choice) = Absent) as Htail.
    { rewrite IH. split.
      - intros (? & ? & choice & Hat & ?). split; [done|]. split; [lia|].
        exists choice. split; [|done].
        replace (link.2 - index) with (S (link.2 - S index)) by lia. done.
      - intros (? & ? & choice & Hat & ?). split; [done|]. split; [lia|].
        exists choice. split; [|done].
        replace (link.2 - index) with (S (link.2 - S index)) in Hat by lia. done. }
    assert (member_at scenes (nextScene c) <> Absent ->
            (link ∈ broken_from scenes sceneId (S index) cs <->
             link.1 = sceneId /\ index <= link.2 /\
             exists choice, (c :: cs) !! (link.2 - index) = Some choice /\
                            member_at scenes (nextScene choice) = Absent)) as Hkept.
    { intros Hc. rewrite Htail. split.
      - intros (? & ? & ?). split; [done|]. split; [lia | done].
      - intros (? & Hle & choice & Hat & Hnone). split; [done|].
        destruct (decide (link.2 = index)) as [Heq|].
        + rewrite Heq, Nat.sub_diag in Hat. simpl in Hat. congruence.
        + split; [lia|]. by exists choice. }
    destruct (member_at scenes (nextScene c)) eqn:Hc; [by apply Hkept | by apply Hkept |].
    rewrite elem_of_cons, Htail. split.
    + intros [-> | (? & ? & ?)].
      * simpl. split; [done|]. split; [done|]. exists c.
        by rewrite Nat.sub_diag.
      * split; [done|]. split; [lia | done].
    + intros (Hid & Hle & choice & Hat & Hnone).
      destruct (decide (link.2 = index)) as [Heq|].
      * left. destruct link; simpl in *. by subst.
      * right. split; [done|]. split; [lia|]. by exists choice.
Qed.

Lemma broken_from_sorted (R : relation BrokenLink) sceneId index cs :
  (forall j k, index <= j -> j < k -> R (sceneId, j) (sceneId, k)) ->
  StronglySorted R (broken_from scenes sceneId index cs).
Proof.
  revert index. induction cs as [|c cs IH]; intros index HR; simpl; [constructor|].
  assert (StronglySorted R (broken_from scenes sceneId (S index) cs)) as Hrest.
  { apply IH. intros j k ? ?. apply HR; lia. }
  destruct (member_at scenes (nextScene c)); [done|done|].
  apply StronglySorted_cons. split; [|done].
  apply Forall_forall. intros [sid k] Hin.
  apply elem_of_broken_from in Hin as (Hsid & Hle & _). simpl in *. subst.
  apply HR; lia.
Qed.

Lemma elem_of_broken_rows link entries :
  link ∈ broken_rows scenes entries <->
  exists n scene, entries !! n = Some (link.1, scene) /\
                  link ∈ broken_from scenes link.1 0 (choices scene).
Proof.
  induction entries as [|[k s] rest IH]; simpl.
  - split; [intros H; by apply elem_of_nil in H | intros (? & ? & ? & _); done].
  - rewrite elem_of_app, IH. split.
    + intros [Hin | (n & scene & Hat & Hin)].
      * exists 0, s. simpl.
        pose proof Hin as Hin'. apply elem_of_broken_from in Hin' as (<- & _). done.
      * by exists (S n), scene.
    + intros ([|n] & scene & Hat & Hin); simpl in Hat.
      * left. by simplify_eq.
      * right. by exists n, scene.
Qed.

Lemma broken_rows_sorted prefix entries :
  scenes = (prefix ++ entries)%list ->
  StronglySorted (link_before scenes) (broken_rows scenes entries).
Proof.
  revert prefix. induction entries as [|[k s] rest IH]; intros prefix Heq; simpl; [constructor|].
  assert (Object_keys scenes !! length prefix = Some k) as Hk.
  { unfold Object_keys. rewrite Heq, map_app. simpl.
    rewrite lookup_app_r by (by rewrite length_map).
    by rewrite length_map, Nat.sub_diag. }
  apply StronglySorted_app_2.
  - intros a b Ha Hb.
    apply elem_of_broken_from in Ha as (Ha & _).
    apply elem_of_broken_rows in Hb as (n & scene & Hat & _).
    exists (length prefix), (length prefix + S n). split; [by rewrite Ha|]. split; [|left; lia].
    unfold Object_keys. rewrite Heq, map_app. simpl.
    rewrite lookup_app_r by (rewrite length_map; lia).
    rewrite length_map.
    replace (length prefix + S n - length prefix) with (S n) by lia. simpl.
    rewrite list_lookup_fmap, Hat. done.
  - apply broken_from_sorted. intros j l _ Hlt.
    exists (length prefix), (length prefix). simpl. split; [done|]. split; [done|]. right. done.
  - apply (IH (prefix ++ [(k, s)])%list). by rewrite <- app_assoc.
Qed.

(** The links [findBrokenLinks] reports, for an object. *)
Lemma elem_of_findBrokenLinks sceneId choiceIndex :
  NoDup (Object_keys scenes) ->
  (sceneId, choiceIndex) ∈ findBrokenLinks scenes <->
  exists scene choice,
    scene_at scenes sceneId = Some scene /\
    choices scene !! choiceIndex = Some choice /\
    member_at scenes (nextScene choice) = Absent.
Proof.
  intros Hkeys. rewrite findBrokenLinks_rows, elem_of_broken_rows. simpl. split.
  - intros (n & scene & Hat & Hin).
    apply elem_of_broken_from in Hin as (_ & _ & choice & Hchoice & Hnone).
    simpl in Hchoice. rewrite Nat.sub_0_r in Hchoice.
    exists scene, choice. split; [|done].
    apply scene_at_NoDup; [done|]. by eapply list_elem_of_lookup_2.
  - intros (scene & choice & Hat & Hchoice & Hnone).
    apply scene_at_elem_of, list_elem_of_lookup_1 in Hat as [n Hn].
    exists n, scene. split; [done|].
    apply elem_of_broken_from. simpl. split; [done|]. split; [lia|].
    exists choice. by rewrite Nat.sub_0_r.
Qed.

End BrokenLinkFacts.

Section EnumerationFacts.
Import Analyzer.

(** ** Writing a property *)

Lemma array_index_pretty key n : array_index key = Some n -> key = pretty n.
Proof.
  unfold array_index. destruct (decimal 0 key) as [m|]; [|done].
  destruct (bool_decide (pretty m = key)) eqn:Hcanonical; [|done].
  apply bool_decide_eq_true in Hcanonical. cbn [andb]. case_match; [|done]. by intros [= <-].
Qed.

Lemma array_index_inj a b n : array_index a = Some n -> array_index b = Some n -> a = b.
Proof. intros Ha%array_index_pretty Hb%array_index_pretty. by subst. Qed.

Lemma enumerated_before_name key other :
  array_index key = None -> enumerated_before key other = false.
Proof. intros Hname. unfold enumerated_before. by rewrite Hname. Qed.

Lemma replace_scene_keys scenes key scene :
  Object_keys (replace_scene scenes key scene) = Object_keys scenes.
Proof.
  unfold Object_keys. induction scenes as [|[k s] rest IH]; [done|]. cbn [replace_scene].
  case_decide; cbn [map fst]; [done|]. by rewrite IH.
Qed.

Lemma scene_at_replace_same scenes key scene :
  key ∈ Object_keys scenes -> scene_at (replace_scene scenes key scene) key = Some scene.
Proof.
  unfold Object_keys. induction scenes as [|[k s] rest IH]; cbn [map fst replace_scene].
  - by intros ?%elem_of_nil.
  - intros Hin. destruct (decide (k = key)) as [->|Hne]; cbn [scene_at].
    + by rewrite decide_True.
    + rewrite decide_False by done. apply IH. apply elem_of_cons in Hin as [|]; [congruence|done].
Qed.

Lemma scene_at_replace_other scenes key scene other :
  other <> key -> scene_at (replace_scene scenes key scene) other = scene_at scenes other.
Proof.
  intros Hother. induction scenes as [|[k s] rest IH]; [done|]. cbn [replace_scene].
  destruct (decide (k = key)) as [->|Hne]; cbn [scene_at].
  - by rewrite !decide_False.
  - by rewrite IH.
Qed.

(** A new property goes after the array indices below it and before the
    other properties. *)
Lemma create_scene_split scenes key scene :
  exists before after,
    scenes = (before ++ after)%list /\
    create_scene scenes key scene = (before ++ (key, scene) :: after)%list /\
    Forall (fun entry => enumerated_before key entry.1 = false) before /\
    (forall entry, head after = Some entry -> enumerated_before key entry.1 = true).
Proof.
  induction scenes as [|[k s] rest IH]; cbn [create_scene].
  - exists [], []. by repeat split.
  - destruct (enumerated_before key k) eqn:Hbefore.
    + exists [], ((k, s) :: rest). repeat split; [constructor|]. by intros entry [= <-].
    + destruct IH as (before & after & -> & -> & Hlow & Hhigh).
      exists ((k, s) :: before), after. repeat split; [|done]. by constructor.
Qed.

Lemma create_scene_name scenes key scene :
  array_index key = None -> create_scene scenes key scene = (scenes ++ [(key, scene)])%list.
Proof.
  intros Hname. induction scenes as [|[k s] rest IH]; [done|]. cbn [create_scene].
  rewrite enumerated_before_name by done. by rewrite IH.
Qed.

Lemma scene_at_app (scenes more : Scenes) key :
  scene_at (scenes ++ more)%list key
  = match scene_at scenes key with Some scene => Some scene | None => scene_at more key end.
Proof.
  induction scenes as [|[k s] rest IH]; [done|]. cbn [app scene_at]. by case_decide.
Qed.

Lemma scene_at_create_same scenes key scene :
  key ∉ Object_keys scenes -> scene_at (create_scene scenes key scene) key = Some scene.
Proof.
  intros Hfresh. destruct (create_scene_split scenes key scene)
    as (before & after & Hscenes & -> & _).
  rewrite scene_at_app. cbn [scene_at]. rewrite decide_True by done.
  destruct (scene_at before key) eqn:Hat; [|done].
  exfalso. apply Hfresh. rewrite Hscenes. unfold Object_keys. rewrite map_app, elem_of_app.
  left. apply scene_at_elem_of in Hat. apply list_elem_of_fmap. by eexists (_, _).
Qed.

Lemma scene_at_create_other scenes key scene other :
  other <> key -> scene_at (create_scene scenes key scene) other = scene_at scenes other.
Proof.
  intros Hother. destruct (create_scene_split scenes key scene)
    as (before & after & -> & -> & _).
  rewrite !scene_at_app. cbn [scene_at]. by rewrite decide_False.
Qed.

Lemma scene_at_set_same scenes key scene : scene_at (set_scene scenes key scene) key = Some scene.
Proof.
  unfold set_scene. case_decide; [by apply scene_at_replace_same | by apply scene_at_create_same].
Qed.

Lemma scene_at_set_other scenes key scene other :
  other <> key -> scene_at (set_scene scenes key scene) other = scene_at scenes other.
Proof.
  intros Hother. unfold set_scene.
  case_decide; [by apply scene_at_replace_other | by apply scene_at_create_other].
Qed.

Lemma member_at_set_other scenes key scene other :
  other <> key -> member_at (set_scene scenes key scene) other = member_at scenes other.
Proof. intros Hother. unfold member_at. by rewrite scene_at_set_other. Qed.

(** The keys of the scenes after a write: those there were, and the new
    one. *)
Lemma set_scene_keys scenes key scene other :
  other ∈ Object_keys (set_scene scenes key scene) <-> other = key \/ other ∈ Object_keys scenes.
Proof.
  unfold set_scene. case_decide as Hkey.
  - rewrite replace_scene_keys. naive_solver.
  - destruct (create_scene_split scenes key scene) as (before & after & -> & -> & _).
    unfold Object_keys. rewrite !map_app. cbn [map fst].
    rewrite !elem_of_app, elem_of_cons. naive_solver.
Qed.

Lemma set_scene_NoDup scenes key scene :
  NoDup (Object_keys scenes) -> NoDup (Object_keys (set_scene scenes key scene)).
Proof.
  unfold set_scene. case_decide as Hkey; [by rewrite replace_scene_keys|].
  destruct (create_scene_split scenes key scene) as (before & after & -> & -> & _).
  unfold Object_keys in *. rewrite !map_app in *. cbn [map fst].
  intros Hnodup. apply NoDup_app in Hnodup as (Hbefore & Hsplit & Hafter).
  apply NoDup_app. split; [done|]. split.
  - intros other Hin. rewrite not_elem_of_cons. split; [|by apply Hsplit].
    intros ->. apply Hkey. apply elem_of_app. by left.
  - apply NoDup_cons. split; [|done]. intros Hin. apply Hkey. apply elem_of_app. by right.
Qed.

(** A name that is no array index goes to the end. *)
Lemma set_scene_fresh scenes key scene :
  key ∉ Object_keys scenes -> array_index key = None ->
  set_scene scenes key scene = (scenes ++ [(key, scene)])%list.
Proof.
  intros Hfresh Hname. unfold set_scene. rewrite decide_False by done.
  by apply create_scene_name.
Qed.

End EnumerationFacts.

Section CreationOrder.
Import Analyzer.

(** Array indices in ascending order. *)
Local Abbreviation index_lt :=
  (fun a b : string =>
     exists i j, array_index a = Some i /\ array_index b = Some j /\ (i < j)%N).

Local Abbreviation is_name := (fun key : string => array_index key = None).

Lemma elem_of_first_occurrences names name :
  name ∈ first_occurrences names <-> name ∈ names.
Proof.
  induction names as [|first rest IH]; [done|]. cbn [first_occurrences].
  rewrite !elem_of_cons, list_elem_of_filter, IH.
  destruct (decide (name = first)); naive_solver.
Qed.

Lemma first_occurrences_NoDup names : NoDup (first_occurrences names).
Proof.
  induction names as [|first rest IH]; [constructor|]. cbn [first_occurrences].
  apply NoDup_cons. split; [|by apply NoDup_filter].
  rewrite list_elem_of_filter. naive_solver.
Qed.

Lemma first_occurrences_snoc names name :
  first_occurrences (names ++ [name])
  = if decide (name ∈ names) then first_occurrences names
    else (first_occurrences names ++ [name])%list.
Proof.
  induction names as [|first rest IH].
  - cbn. by rewrite decide_False by apply not_elem_of_nil.
  - cbn [app first_occurrences]. rewrite IH.
    destruct (decide (name ∈ rest)) as [Hin|Hout].
    + rewrite decide_True; [done|]. apply elem_of_cons. by right.
    + rewrite filter_app, filter_cons, filter_nil.
      destruct (decide (name = first)) as [->|Hne].
      * rewrite decide_False by naive_solver. rewrite decide_True by (apply elem_of_cons; by left).
        by rewrite app_nil_r.
      * rewrite decide_True by done. rewrite decide_False; [done|].
        rewrite elem_of_cons. naive_solver.
Qed.

Lemma object_of_snoc inserted key scene :
  object_of (inserted ++ [(key, scene)]) = set_scene (object_of inserted) key scene.
Proof. unfold object_of. by rewrite foldl_snoc. Qed.

Lemma object_of_elem_of inserted key :
  key ∈ Object_keys (object_of inserted) <-> key ∈ map fst inserted.
Proof.
  induction inserted as [|[k s] inserted IH] using rev_ind; [done|].
  rewrite object_of_snoc, set_scene_keys, IH, map_app, elem_of_app. cbn [map fst].
  rewrite list_elem_of_singleton. naive_solver.
Qed.

Lemma object_of_NoDup inserted : NoDup (Object_keys (object_of inserted)).
Proof.
  induction inserted as [|[k s] inserted IH] using rev_ind; [constructor|].
  rewrite object_of_snoc. by apply set_scene_NoDup.
Qed.

(** A scene of the object is the last one written under its key. *)
Lemma object_of_scene_at inserted key :
  scene_at (object_of inserted) key = scene_at (reverse inserted) key.
Proof.
  induction inserted as [|[k s] inserted IH] using rev_ind; [done|].
  rewrite object_of_snoc, reverse_snoc. cbn [scene_at].
  destruct (decide (k = key)) as [->|Hne].
  - apply scene_at_set_same.
  - by rewrite scene_at_set_other.
Qed.

(** The enumeration order of an object: the array indices, ascending, then
    the other names in the order they were first written. *)
Lemma object_of_keys inserted :
  exists indices,
    Object_keys (object_of inserted)
    = (indices ++ first_occurrences (filter is_name (map fst inserted)))%list /\
    StronglySorted index_lt indices /\
    forall key, key ∈ indices <-> key ∈ map fst inserted /\ is_Some (array_index key).
Proof.
  induction inserted as [|[k s] inserted IH] using rev_ind.
  { exists []. split; [done|]. split; [constructor|]. intros key. split.
    - by intros ?%elem_of_nil.
    - by intros [?%elem_of_nil _]. }
  destruct IH as (indices & Hkeys & Hsorted & Hindices).
  rewrite object_of_snoc, map_app, filter_app. cbn [map fst].
  assert (forall key, key ∈ first_occurrences (filter is_name (map fst inserted)) <->
                      key ∈ map fst inserted /\ array_index key = None) as Hnames.
  { intros key. rewrite elem_of_first_occurrences, list_elem_of_filter. naive_solver. }
  destruct (decide (k ∈ Object_keys (object_of inserted))) as [Hold|Hnew].
  - (* an own property keeps its place *)
    exists indices. unfold set_scene. rewrite decide_True by done.
    rewrite replace_scene_keys, Hkeys.
    pose proof (proj1 (object_of_elem_of inserted k) Hold) as Hinserted.
    split; [|split; [done|]].
    + f_equal. rewrite filter_cons, filter_nil. case_decide as Hname; [|by rewrite app_nil_r].
      rewrite first_occurrences_snoc. rewrite decide_True; [done|].
      apply list_elem_of_filter. by split.
    + intros key. rewrite Hindices, elem_of_app, list_elem_of_singleton.
      split; [naive_solver|]. intros [[Hin| ->] Hindex]; by split.
  - assert (k ∉ map fst inserted) as Hfresh by (by rewrite <- object_of_elem_of).
    destruct (array_index k) as [i|] eqn:Hk.
    + (* a new array index goes to its place among the indices *)
      unfold set_scene. rewrite decide_False by done.
      destruct (create_scene_split (object_of inserted) k s)
        as (before & after & Hobject & -> & Hlow & Hhigh).
      rewrite filter_cons, filter_nil. rewrite decide_False by (by rewrite Hk).
      rewrite app_nil_r.
      assert (Object_keys (object_of inserted) = (map fst before ++ map fst after)%list)
        as Hsplit by (unfold Object_keys; by rewrite Hobject, map_app).
      assert (forall key, key ∈ map fst before ->
                exists j, array_index key = Some j /\ (j < i)%N) as Hbefore.
      { intros key ([key' scene'] & -> & Hin)%list_elem_of_fmap.
        rewrite Forall_forall in Hlow. specialize (Hlow _ Hin). cbn [fst] in *.
        unfold enumerated_before in Hlow. rewrite Hk in Hlow.
        destruct (array_index key') as [j|] eqn:Hj; [|done].
        exists j. split; [done|]. apply N.ltb_ge in Hlow.
        assert (j <> i) as Hne.
        { intros ->. apply Hnew. rewrite Hsplit, elem_of_app. left.
          rewrite (array_index_inj k key' i Hk Hj). apply list_elem_of_fmap. by eexists (_, _). }
        lia. }
      rewrite Hsplit in Hkeys. apply app_eq_inv in Hkeys as [(more & Hbefore' & Hrest)|(more & -> & Hafter)].
      * (* the split cannot fall among the names *)
        destruct more as [|name more].
        -- rewrite app_nil_r in Hbefore'. cbn [app] in Hrest.
           exists (indices ++ [k])%list. split; [|split].
           ++ unfold Object_keys. rewrite map_app. cbn [map fst].
              rewrite Hbefore', <- Hrest, <- app_assoc. done.
           ++ apply StronglySorted_app. split; [|split; [done|repeat constructor]].
              intros a b Ha ->%list_elem_of_singleton.
              destruct (Hbefore a) as (j & Hj & Hlt); [by rewrite Hbefore'|].
              by exists j, i.
           ++ intros key. rewrite !elem_of_app, list_elem_of_singleton, Hindices.
              split; [|naive_solver]. intros [[Hin Hindex]| ->]; [naive_solver|].
              split; [by right|]. by rewrite Hk.
        -- exfalso. destruct (Hbefore name) as (j & Hj & _).
           { rewrite Hbefore', elem_of_app. right. apply elem_of_cons. by left. }
           assert (name ∈ first_occurrences (filter is_name (map fst inserted))) as Hname.
           { rewrite Hrest. apply elem_of_app. left. apply elem_of_cons. by left. }
           apply Hnames in Hname as [_ Hname]. congruence.
      * exists (map fst before ++ k :: more)%list. split; [|split].
        -- unfold Object_keys. rewrite map_app. cbn [map fst]. rewrite Hafter.
           by rewrite <- app_assoc.
        -- apply StronglySorted_app in Hsorted as (Hcross & Hsorted1 & Hsorted2).
           assert (Forall (index_lt k) more) as Habove.
           { destruct more as [|first more]; [constructor|].
             destruct after as [|[first' scene'] after]; [done|].
             cbn [map fst app] in Hafter. injection Hafter as -> Hafter.
             specialize (Hhigh _ eq_refl). cbn [fst] in Hhigh.
             unfold enumerated_before in Hhigh. rewrite Hk in Hhigh.
             destruct (array_index first) as [j|] eqn:Hj.
             - apply N.ltb_lt in Hhigh. constructor; [by exists i, j|].
               apply StronglySorted_cons in Hsorted2 as [Hrest _].
               eapply Forall_impl; [exact Hrest|]. intros key (j' & j'' & Hj' & Hj'' & Hlt).
               exists i, j''. split; [done|]. split; [done|]. simplify_eq. lia.
             - exfalso. assert (first ∈ (map fst before ++ first :: more)%list) as Hin
                 by (apply elem_of_app; right; apply elem_of_cons; by left).
               apply Hindices in Hin as [_ [? ?]]. congruence. }
           apply StronglySorted_app. split; [|split; [done|]].
           ++ intros a b Ha [->|Hb]%elem_of_cons; [|by apply Hcross].
              destruct (Hbefore a Ha) as (j & Hj & Hlt). by exists j, i.
           ++ apply StronglySorted_cons. by split.
        -- intros key. rewrite !elem_of_app, !elem_of_cons, elem_of_nil.
           specialize (Hindices key). rewrite elem_of_app in Hindices.
           split.
           ++ intros [Hin|[->|Hin]]; [naive_solver| |naive_solver].
              split; [by right; left|]. by rewrite Hk.
           ++ intros [[Hin|[->|[]]] Hindex]; [|naive_solver].
              destruct (proj2 Hindices (conj Hin Hindex)); naive_solver.
    + (* a new name goes to the end *)
      exists indices. rewrite set_scene_fresh by done.
      unfold Object_keys in *. rewrite map_app, Hkeys. cbn [map fst].
      rewrite filter_cons, filter_nil, decide_True by done.
      rewrite first_occurrences_snoc.
      rewrite decide_False by (rewrite list_elem_of_filter; naive_solver).
      split; [by rewrite app_assoc|]. split; [done|].
      intros key. rewrite Hindices, elem_of_app, list_elem_of_singleton.
      split; [naive_solver|]. intros [[Hin| ->] Hindex]; [done|].
      rewrite Hk in Hindex. by destruct Hindex.
Qed.

Lemma filter_names keys : Forall is_name keys -> filter is_name keys = keys.
Proof.
  induction 1 as [|key keys Hkey _ IH]; [done|].
  rewrite filter_cons, decide_True by done. by rewrite IH.
Qed.

(** Without array indices among the keys the enumeration order is the
    order of creation. *)
Lemma object_of_names inserted :
  Forall is_name (map fst inserted) ->
  Object_keys (object_of inserted) = first_occurrences (map fst inserted).
Proof.
  intros Hnames. destruct (object_of_keys inserted) as (indices & -> & _ & Hindices).
  destruct indices as [|key indices].
  - cbn [app]. f_equal. by apply filter_names.
  - exfalso. destruct (proj1 (Hindices key)) as [Hin [? Hindex]]; [apply elem_of_cons; by left|].
    rewrite Forall_forall in Hnames. rewrite Hnames in Hindex by done. done.
Qed.

End CreationOrder.

Section UnreachableFacts.
Import Analyzer.

Variable scenes : Scenes.

(** The filter returns when every call does, with the keys for which the
    call returned [false]. *)
Lemma filter_unreachable_Returns keys unreachable :
  filter_unreachable scenes keys = Returns unreachable <->
  Forall (fun key => isSceneReachable scenes key <> ThrowsTypeError) keys /\
  unreachable = filter (fun key => isSceneReachable scenes key = Returns false) keys.
Proof.
  revert unreachable. induction keys as [|key keys IH]; intros unreachable; cbn [filter_unreachable].
  - split; [by intros [= <-] | by intros [_ ->]].
  - rewrite Forall_cons, filter_cons.
    destruct (filter_unreachable scenes keys) as [rest|] eqn:Hrest.
    + destruct (proj1 (IH rest) eq_refl) as [Hall ->].
      destruct (isSceneReachable scenes key) as [[|]|] eqn:Hcall.
      * rewrite decide_False by done. split; [intros [= <-]; by repeat split | by intros [_ ->]].
      * rewrite decide_True by done. split; [intros [= <-]; by repeat split | by intros [_ ->]].
      * split; [done|]. by intros [[? _] _].
    + assert (~ Forall (fun key => isSceneReachable scenes key <> ThrowsTypeError) keys)
        as Hthrows.
      { intros Hkeys. by pose proof (proj2 (IH _) (conj Hkeys eq_refl)). }
      destruct (isSceneReachable scenes key) as [reachable|]; split; try done;
        by intros [[_ ?] _].
Qed.

Lemma filter_unreachable_Throws keys :
  filter_unreachable scenes keys = ThrowsTypeError <->
  Exists (fun key => isSceneReachable scenes key = ThrowsTypeError) keys.
Proof.
  induction keys as [|key keys IH]; cbn [filter_unreachable].
  - split; [done | by intros ?%Exists_nil].
  - rewrite Exists_cons. destruct (isSceneReachable scenes key) as [reachable|]; [|naive_solver].
    destruct (filter_unreachable scenes keys); naive_solver.
Qed.

(** A path from ["start"] ends at ["start"] or at the target of a choice. *)
Lemma path_targets target :
  path_from_start scenes target ->
  target = "start" \/
  target ∈ flat_map (fun entry : string * Scene => map nextScene (choices entry.2)) scenes.
Proof.
  intros [|from scene choice _ Hat Hin]; [by left|]. right.
  apply list_elem_of_In, in_flat_map. exists (from, scene). split.
  - apply list_elem_of_In. by apply scene_at_elem_of.
  - apply list_elem_of_In, list_elem_of_fmap. by exists choice.
Qed.

End UnreachableFacts.

Section AnalyzerTheorems.
Import Analyzer.

(** X30. What the traversal does on every scene graph. For every graph,
    cyclic or not, and every target id, the loop of [isSceneReachable] ends
    within [fuel_bound scenes] iterations: it returns [true] only for an id
    that a path of choices leads to from ["start"], it returns [false] only
    for an id that no path leads to, and it throws (a [TypeError]) only when
    a path leads to a name that is no scene but a member of
    [Object.prototype]. An id met in the queue whose read gives [undefined]
    is marked visited and skipped. So on a graph where no path leads to such
    a name, [findUnreachableScenes] returns, never includes ["start"], and a
    scene is absent from the result exactly when a path leads to it. *)
Theorem traversal_outcomes (scenes : Scenes) (sceneId : string) :
  (exists outcome,
     (forall fuel, fuel_bound scenes <= fuel ->
                   bfs_loop fuel scenes sceneId ∅ ["start"] = Some outcome) /\
     isSceneReachable scenes sceneId
     = if decide (sceneId = "start") then Returns true else outcome) /\
  (isSceneReachable scenes sceneId = Returns true -> path_from_start scenes sceneId) /\
  (isSceneReachable scenes sceneId = Returns false -> ~ path_from_start scenes sceneId) /\
  (isSceneReachable scenes sceneId = ThrowsTypeError ->
     exists name, path_from_start scenes name /\
                  (name ∉ Object_keys scenes) /\ name ∈ prototype_members) /\
  (forall fuel visited queue ghost,
     member_at scenes ghost = Absent -> ghost ∉ visited ->
     bfs_loop (S fuel) scenes sceneId visited (ghost :: queue)
     = bfs_loop fuel scenes sceneId ({[ghost]} ∪ visited) queue) /\
  (faultless scenes ->
   exists unreachable,
     findUnreachableScenes scenes = Returns unreachable /\
     ("start" ∉ unreachable) /\
     forall id, id ∈ Object_keys scenes ->
       (id ∉ unreachable <-> path_from_start scenes id)).
Proof.
  split; [|split; [|split; [|split; [|split]]]].
  - destruct (bfs_from_start_settles scenes sceneId) as [outcome Hfound].
    exists outcome. split.
    + intros fuel Hfuel.
      replace fuel with (fuel_bound scenes + (fuel - fuel_bound scenes)) by lia.
      by apply bfs_loop_more_fuel.
    + unfold isSceneReachable. by rewrite Hfound.
  - apply isSceneReachable_true.
  - intros Hcall. by apply isSceneReachable_false in Hcall as [? _].
  - intros Hcall. apply isSceneReachable_throws in Hcall as (_ & name & Hpath & Hinherited).
    exists name. split; [done|]. by apply member_at_Inherited.
  - intros fuel visited queue ghost Hnone Hfresh. simpl.
    rewrite decide_False by done. by rewrite Hnone.
  - intros Hfaultless. eexists. split; [|split].
    + apply filter_unreachable_Returns. split; [|reflexivity].
      apply Forall_forall. intros key _.
      by destruct (isSceneReachable_path scenes key Hfaultless) as (reachable & -> & _).
    + rewrite list_elem_of_filter. by intros [Hcall _].
    + intros id Hkey. rewrite list_elem_of_filter.
      destruct (isSceneReachable_path scenes id Hfaultless) as (reachable & -> & Hreachable).
      destruct reachable; naive_solver.
Qed.

(** C3. On the graph [start -> A -> B -> A] in which a choice of [B] leads
    to ["constructor"], a scene that does not exist, the scene ["island"] is
    a scene no path leads to, yet it is not in the result of
    [findUnreachableScenes]: there is no result, the search for ["island"]
    throws a [TypeError]. *)
Theorem findUnreachableScenes_faults :
  ("island" ∈ Object_keys haunted_scenes) /\
  ~ path_from_start haunted_scenes "island" /\
  isSceneReachable haunted_scenes "island" = ThrowsTypeError /\
  findUnreachableScenes haunted_scenes = ThrowsTypeError.
Proof.
  split; [|split; [|split]].
  - apply (bool_decide_unpack _). by vm_compute.
  - intros [Hstart|Htarget]%path_targets; [done|].
    revert Htarget. apply (bool_decide_unpack _). by vm_compute.
  - by vm_compute.
  - by vm_compute.
Qed.

(** C9. On the same cyclic graph the choice of [B] to ["constructor"] names
    no scene, and it is not skipped: whatever the fuel, the traversal for a
    target it does not find ends with a [TypeError]. *)
Theorem dangling_choice_faults :
  scene_at haunted_scenes "B"
  = Some (mkScene "B" "B" [] [mkChoice "back" "A"; mkChoice "lost" "constructor"]) /\
  scene_at haunted_scenes "constructor" = None /\
  (forall fuel, fuel_bound haunted_scenes <= fuel ->
     bfs_loop fuel haunted_scenes "nowhere" ∅ ["start"] = Some ThrowsTypeError) /\
  isSceneReachable haunted_scenes "nowhere" = ThrowsTypeError.
Proof.
  split; [done|]. split; [done|]. split; [|by vm_compute].
  intros fuel Hfuel.
  replace fuel with (fuel_bound haunted_scenes + (fuel - fuel_bound haunted_scenes)) by lia.
  apply bfs_loop_more_fuel. by vm_compute.
Qed.

(** C4. For every scene object, whatever the order in which its scenes
    were created: a pair (sceneId, choiceIndex) whose choice leads to a key
    of the scenes, or to a name that [Object.prototype] does not have, is in
    the output of [findBrokenLinks] if and only if that target is not a key
    of the scenes, and every pair of the output is a choice whose target is
    not a key. The output follows the enumeration order of the object, then
    the order of the choices; and the enumeration order is: the keys that
    are array indices, ascending, then the other keys in the order of their
    creation. *)
Theorem findBrokenLinks_correct (inserted : list (string * Scene)) :
  (forall sceneId choiceIndex scene choice,
     scene_at (object_of inserted) sceneId = Some scene ->
     choices scene !! choiceIndex = Some choice ->
     nextScene choice ∈ Object_keys (object_of inserted) \/
     nextScene choice ∉ prototype_members ->
     ((sceneId, choiceIndex) ∈ findBrokenLinks (object_of inserted) <->
      nextScene choice ∉ Object_keys (object_of inserted))) /\
  (forall sceneId choiceIndex,
     (sceneId, choiceIndex) ∈ findBrokenLinks (object_of inserted) ->
     exists scene choice,
       scene_at (object_of inserted) sceneId = Some scene /\
       choices scene !! choiceIndex = Some choice /\
       nextScene choice ∉ Object_keys (object_of inserted)) /\
  StronglySorted (link_ordered (Object_keys (object_of inserted)))
    (findBrokenLinks (object_of inserted)) /\
  (exists indices,
     Object_keys (object_of inserted)
     = (indices
        ++ first_occurrences (filter (fun key => array_index key = None)
                                     (map fst inserted)))%list /\
     StronglySorted
       (fun a b => exists i j,
          array_index a = Some i /\ array_index b = Some j /\ (i < j)%N) indices /\
     forall key, key ∈ indices <-> key ∈ map fst inserted /\ is_Some (array_index key)) /\
  (Forall (fun key => array_index key = None) (map fst inserted) ->
   Object_keys (object_of inserted) = first_occurrences (map fst inserted)) /\
  (forall key, scene_at (object_of inserted) key = scene_at (reverse inserted) key).
Proof.
  pose proof (object_of_NoDup inserted) as Hkeys.
  split; [|split; [|split; [|split; [|split]]]].
  - intros sceneId choiceIndex scene choice Hat Hchoice Htarget.
    rewrite elem_of_findBrokenLinks by done. split.
    + intros (scene' & choice' & Hat' & Hchoice' & Habsent). simplify_eq.
      by apply member_at_Absent in Habsent as [? _].
    + intros Hout. exists scene, choice. split; [done|]. split; [done|].
      apply member_at_Absent. split; [done|]. by destruct Htarget.
  - intros sceneId choiceIndex Hin. apply elem_of_findBrokenLinks in Hin; [|done].
    destruct Hin as (scene & choice & Hat & Hchoice & Habsent).
    exists scene, choice. split; [done|]. split; [done|].
    by apply member_at_Absent in Habsent as [? _].
  - rewrite findBrokenLinks_rows. by apply (broken_rows_sorted (object_of inserted) []).
  - apply object_of_keys.
  - apply object_of_names.
  - apply object_of_scene_at.
Qed.

(** C4: in an object whose scenes were created in the order [start], [7],
    each with a dangling choice, the output begins with the link of [7]. It
    does not follow the order of creation. *)
Lemma findBrokenLinks_order_counterexample :
  map fst numbered_scenes = ["start"; "7"] /\
  findBrokenLinks (object_of numbered_scenes) = [("7", 0); ("start", 0)] /\
  ~ StronglySorted (link_ordered (map fst numbered_scenes))
      (findBrokenLinks (object_of numbered_scenes)).
Proof.
  split; [done|]. split; [by vm_compute|].
  replace (findBrokenLinks (object_of numbered_scenes)) with [("7", 0); ("start", 0)]
    by (by vm_compute).
  intros Hsorted. apply StronglySorted_cons in Hsorted as [Hfirst _].
  apply Forall_cons in Hfirst as [(p & q & Hp & Hq & Horder) _].
  cbn [fst snd] in *.
  destruct p as [|[|p]]; try done. destruct q as [|[|q]]; try done. lia.
Qed.

(** The choices [findBrokenLinks] passes over: on the graph
    [start -> A -> B -> A] the choice of [B] to ["constructor"] leads to no
    scene and is not reported. *)
Lemma findBrokenLinks_misses_inherited_names :
  ("constructor" ∉ Object_keys haunted_scenes) /\
  scene_at haunted_scenes "B"
  = Some (mkScene "B" "B" [] [mkChoice "back" "A"; mkChoice "lost" "constructor"]) /\
  findBrokenLinks haunted_scenes = [].
Proof.
  split; [|by split]. apply (bool_decide_unpack _). by vm_compute.
Qed.

End AnalyzerTheorems.

(** * Properties of the persistence engine *)
(* ===================================================================== *)

Section ArgumentChecks.
Import JS Db.

Variable P : Platform.
Variable db : DB.

(** C10. Called with an empty or missing identifier (any falsy value:
    [undefined], [null], the empty string), [saveEpisode] (the episode
    itself missing, or its [id]), [getEpisode], [deleteEpisode],
    [createManualSnapshot] and [restoreEpisodeFromSnapshot] reject with an
    explicit error, whatever the state of the storage layer, and leave the
    database untouched. *)
Theorem missing_id_rejected (id : jsval) :
  truthy id = false ->
  (forall episode,
     truthy episode = false \/ get episode "id" = Return id ->
     saveEpisode P episode db = (Rejected (Error "Invalid episode data: Missing ID"), db)) /\
  getEpisode P id db = Rejected (Error "Episode ID is required") /\
  deleteEpisode P id db = (Rejected (Error "Episode ID is required"), db) /\
  createManualSnapshot P id db = (Rejected (Error "Episode ID is required"), db) /\
  restoreEpisodeFromSnapshot P id db = (Rejected (Error "Snapshot ID is required"), db).
Proof.
  intros Hfalsy. split; [|split; [|split; [|split]]].
  - intros episode [Hmissing | Hid].
    + destruct episode; simpl in Hmissing; try done.
    + destruct episode; simpl in Hid; try done.
      injection Hid as Hid. unfold saveEpisode. by rewrite Hid, Hfalsy.
  - unfold getEpisode. by rewrite Hfalsy.
  - unfold deleteEpisode. by rewrite Hfalsy.
  - unfold createManualSnapshot. by rewrite Hfalsy.
  - unfold restoreEpisodeFromSnapshot. by rewrite Hfalsy.
Qed.

End ArgumentChecks.

(** C10 for the empty string as the id. *)
Lemma missing_id_rejected_witness :
  JS.truthy (JS.JStr EmptyString) = false /\
  Db.getEpisode (Reference.browser 0) (JS.JStr EmptyString) Reference.sample_db
  = Db.Rejected (JS.Error "Episode ID is required").
Proof.
  split; [reflexivity|].
  exact (proj1 (proj2 (missing_id_rejected (Reference.browser 0) Reference.sample_db
                         (JS.JStr EmptyString) eq_refl))).
Defined.

Section StoreFacts.
Import JS Db.

Lemma lookup_fold_delete {A V} (f : A -> string) (items : list A) (m : gmap string V) key :
  foldl (fun m item => delete (f item) m) m items !! key
  = if decide (key ∈ map f items) then None else m !! key.
Proof.
  revert m. induction items as [|item items IH]; intros m.
  - cbn [foldl map]. case_decide as Hin; [by apply elem_of_nil in Hin | done].
  - cbn [foldl map]. rewrite IH. destruct (decide (key = f item)) as [->|Hne].
    + rewrite lookup_delete_eq.
      repeat case_decide; try done; exfalso; set_solver.
    + rewrite lookup_delete_ne by done.
      repeat case_decide; try done; exfalso; set_solver.
Qed.

Lemma elem_of_snapshots_of (snaps : gmap string Snapshot) id value :
  value ∈ snapshots_of snaps id <->
  exists key, snaps !! key = Some value /\ episodeId value = id.
Proof.
  unfold snapshots_of. rewrite list_elem_of_fmap. split.
  - intros ([key v] & -> & Hin). rewrite merge_sort_Permutation in Hin.
    apply list_elem_of_filter in Hin as [Hid Hin]. apply elem_of_map_to_list in Hin.
    by exists key.
  - intros (key & Hat & Hid). exists (key, value). split; [done|].
    rewrite merge_sort_Permutation. apply list_elem_of_filter. split; [done|].
    by apply elem_of_map_to_list.
Qed.

End StoreFacts.

Section TransactionFacts.
Import JS Db.

Variable P : Platform.
Hypothesis Hworks : storage_works P.

Lemma fold_delete_snapshot {A} (f : A -> string) (items : list A) (t : Txn) :
  foldl (fun t item => delete_snapshot P t (f item)) t items
  = mkTxn (mkDB (episodes (stores t)) (campaigns (stores t))
                (foldl (fun snaps item => delete (f item) snaps) (snapshots (stores t)) items))
          (aborted t).
Proof.
  revert t. induction items as [|item items IH]; intros [[e c s] a]; simpl; [done|].
  rewrite IH. unfold delete_snapshot. by rewrite (proj2 Hworks).
Qed.

End TransactionFacts.

Section LookupAndDelete.
Import JS Db.

Variable P : Platform.
Hypothesis Hworks : storage_works P.

Lemma truthy_key key : key <> EmptyString -> truthy (JStr key) = true.
Proof. intros Hkey. simpl. by rewrite bool_decide_false. Qed.

Lemma deleteEpisode_works key db :
  key <> EmptyString ->
  deleteEpisode P (JStr key) db
  = (Resolved JUndefined,
     mkDB (delete key (episodes db)) (campaigns db)
          (foldl (fun snaps value => delete (snapshot_id value) snaps)
                 (snapshots db) (snapshots_of (snapshots db) key))).
Proof.
  intros Hkey. destruct Hworks as [Hopen Hrequests].
  unfold deleteEpisode. rewrite truthy_key by done. simpl.
  rewrite Hopen, !Hrequests. by rewrite (fold_delete_snapshot P Hworks).
Qed.

Lemma deleteCampaign_works key db :
  key <> EmptyString ->
  deleteCampaign P (JStr key) db
  = (Resolved JUndefined, mkDB (episodes db) (delete key (campaigns db)) (snapshots db)).
Proof.
  intros Hkey. destruct Hworks as [Hopen Hrequests].
  unfold deleteCampaign. rewrite truthy_key by done. simpl.
  by rewrite Hopen, !Hrequests.
Qed.

(** C8. With a working storage layer, [deleteEpisode(id)] removes the
    episode record and every snapshot whose [episodeId] is [id] (none is
    left), and leaves the other episodes, the snapshots of other episodes
    and the campaigns as they were; [deleteCampaign(id)] removes the
    campaign record only. *)
Theorem delete_cascade key db :
  keyed_by_id db -> key <> EmptyString ->
  (exists db',
     deleteEpisode P (JStr key) db = (Resolved JUndefined, db') /\
     episodes db' = delete key (episodes db) /\
     campaigns db' = campaigns db /\
     (forall k value, snapshots db' !! k = Some value -> episodeId value <> key) /\
     (forall k value, snapshots db' !! k = Some value <->
                      snapshots db !! k = Some value /\ episodeId value <> key)) /\
  (exists db',
     deleteCampaign P (JStr key) db = (Resolved JUndefined, db') /\
     campaigns db' = delete key (campaigns db) /\
     episodes db' = episodes db /\
     snapshots db' = snapshots db).
Proof.
  intros [_ Hkeyed] Hkey. split.
  - eexists. split; [by apply deleteEpisode_works|]. simpl.
    assert (forall k value,
              foldl (fun snaps v => delete (snapshot_id v) snaps) (snapshots db)
                    (snapshots_of (snapshots db) key) !! k = Some value <->
              snapshots db !! k = Some value /\ episodeId value <> key) as Hleft.
    { intros k value. rewrite lookup_fold_delete. case_decide as Hin.
      - split; [done|]. intros [Hat Hother]. exfalso.
        apply list_elem_of_fmap in Hin as (v & -> & Hv).
        apply elem_of_snapshots_of in Hv as (k' & Hat' & Hid).
        pose proof (Hkeyed _ _ Hat') as Hk'. rewrite Hk' in Hat. congruence.
      - split; [|by intros [? _]]. intros Hat. split; [done|]. intros Hid.
        apply Hin, list_elem_of_fmap. exists value. split; [by rewrite (Hkeyed _ _ Hat)|].
        apply elem_of_snapshots_of. by exists k. }
    split; [done|]. split; [done|]. split; [|done].
    intros k value Hat. by apply Hleft in Hat as [_ ?].
  - eexists. split; [by apply deleteCampaign_works|]. done.
Qed.

(** C6, as the code has it. For a non-empty id unknown to the store and a
    working storage layer: [getEpisode] and [getCampaign] resolve to [null];
    [restoreEpisodeFromSnapshot] rejects with "Snapshot not found";
    [deleteEpisode] and [deleteCampaign] resolve without any error, the
    episode and campaign stores left as they were. *)
Theorem unknown_id_outcomes key db :
  key <> EmptyString ->
  episodes db !! key = None -> campaigns db !! key = None -> snapshots db !! key = None ->
  getEpisode P (JStr key) db = Resolved JNull /\
  getCampaign P (JStr key) db = Resolved JNull /\
  restoreEpisodeFromSnapshot P (JStr key) db = (Rejected (Error "Snapshot not found"), db) /\
  (exists db', deleteEpisode P (JStr key) db = (Resolved JUndefined, db') /\
               episodes db' = episodes db /\ campaigns db' = campaigns db) /\
  deleteCampaign P (JStr key) db = (Resolved JUndefined, db).
Proof.
  intros Hkey Hepisode Hcampaign Hsnapshot. destruct Hworks as [Hopen Hrequests].
  split; [|split; [|split; [|split]]].
  - unfold getEpisode. rewrite truthy_key by done. simpl.
    by rewrite Hopen, Hrequests, Hepisode.
  - unfold getCampaign. rewrite truthy_key by done. simpl.
    by rewrite Hopen, Hrequests, Hcampaign.
  - unfold restoreEpisodeFromSnapshot. rewrite truthy_key by done. simpl.
    by rewrite Hopen, Hrequests, Hsnapshot.
  - eexists. split; [by apply deleteEpisode_works|]. simpl.
    split; [by apply delete_id | done].
  - rewrite deleteCampaign_works by done. rewrite delete_id by done. by destruct db.
Qed.

End LookupAndDelete.

Section SaveFacts.
Import JS Db.

Variable P : Platform.
Hypothesis Hworks : storage_works P.

Lemma cleanupSnapshots_works key t :
  cleanupSnapshots P key t
  = (Return tt,
     mkTxn (mkDB (episodes (stores t)) (campaigns (stores t))
                 (foldl (fun snaps s => delete (info_id s) snaps) (snapshots (stores t))
                        (expired_auto_saves (snapshots (stores t)) key)))
           (aborted t)).
Proof.
  unfold cleanupSnapshots, expired_auto_saves, listed_auto_saves.
  rewrite (proj2 Hworks).
  destruct (10 <? _)%nat eqn:Hlen.
  - by rewrite (fold_delete_snapshot P Hworks).
  - apply Nat.ltb_ge in Hlen. rewrite drop_ge by done. by destruct t as [[? ? ?] ?].
Qed.

Lemma saveEpisode_works props key db :
  own_property props "id" = JStr key ->
  key <> EmptyString ->
  snapshots db !! snapshot_id (auto_save P key props) = None ->
  saveEpisode P (JObj props) db
  = (Resolved (JStr key),
     mkDB (<[key := stamped P props]> (episodes db)) (campaigns db)
          (foldl (fun snaps s => delete (info_id s) snaps)
                 (<[snapshot_id (auto_save P key props) := auto_save P key props]> (snapshots db))
                 (expired_auto_saves
                    (<[snapshot_id (auto_save P key props) := auto_save P key props]>
                       (snapshots db))
                    key))).
Proof.
  intros Hid Hkey Hfresh. destruct Hworks as [Hopen Hrequests].
  unfold saveEpisode. rewrite Hid, truthy_key by done. simpl.
  rewrite Hopen. unfold add_snapshot. rewrite !Hrequests. simpl.
  simpl in Hfresh. rewrite Hfresh. rewrite cleanupSnapshots_works. done.
Qed.

End SaveFacts.

Section SortFacts.
Import JS Db.

Lemma sort_insert_Permutation {A} (compare : A -> A -> Z) a (sorted : list A) :
  sort_insert compare a sorted ≡ₚ a :: sorted.
Proof.
  induction sorted as [|b rest IH]; simpl; [done|].
  destruct (0 <? compare a b)%Z; [|done].
  rewrite IH. apply Permutation_swap.
Qed.

Lemma sort_Permutation {A} (compare : A -> A -> Z) (items : list A) :
  sort compare items ≡ₚ items.
Proof.
  unfold sort. induction items as [|a items IH]; simpl; [done|].
  by rewrite sort_insert_Permutation, IH.
Qed.

Lemma sort_insert_newest_first a sorted :
  StronglySorted not_older sorted ->
  StronglySorted not_older (sort_insert newest_first a sorted).
Proof.
  induction sorted as [|b rest IH]; simpl; intros Hsorted.
  - repeat constructor.
  - apply StronglySorted_cons in Hsorted as [Hb Hrest].
    destruct (0 <? newest_first a b)%Z eqn:Hcmp.
    + apply Z.ltb_lt in Hcmp. apply StronglySorted_cons. split; [|by apply IH].
      rewrite sort_insert_Permutation. constructor; [|done].
      unfold not_older, newest_first in *. lia.
    + apply Z.ltb_ge in Hcmp. apply StronglySorted_cons. split.
      * constructor; [unfold not_older, newest_first in *; lia|].
        eapply Forall_impl; [exact Hb|]. intros c Hc.
        unfold not_older, newest_first in *. lia.
      * by apply StronglySorted_cons.
Qed.

Lemma sort_newest_first items : StronglySorted not_older (sort newest_first items).
Proof.
  unfold sort. induction items as [|a items IH]; simpl; [constructor|].
  by apply sort_insert_newest_first.
Qed.

Lemma StronglySorted_filter {A} (R : relation A) (Q : A -> Prop)
    `{forall x, Decision (Q x)} (l : list A) :
  StronglySorted R l -> StronglySorted R (filter Q l).
Proof.
  induction l as [|x l IH]; [done|]. intros Hsorted.
  apply StronglySorted_cons in Hsorted as [Hx Hl].
  rewrite filter_cons. case_decide; [|by apply IH].
  apply StronglySorted_cons. split; [|by apply IH].
  apply Forall_forall. intros y Hy. apply list_elem_of_filter in Hy as [_ Hy].
  rewrite Forall_forall in Hx. by apply Hx.
Qed.

End SortFacts.

Section RetentionFacts.
Import JS Db.

Variable snaps : gmap string Snapshot.
Variable episode : string.
Hypothesis Hkeyed : forall key value, snaps !! key = Some value -> snapshot_id value = key.

Lemma snapshots_of_NoDup : NoDup (snapshots_of snaps episode).
Proof.
  unfold snapshots_of. apply NoDup_fmap_2_strong.
  - intros [k v] [k' v'] Hin Hin' Heq. simpl in Heq. subst v'.
    rewrite merge_sort_Permutation in Hin, Hin'.
    apply list_elem_of_filter in Hin as [_ Hin]. apply list_elem_of_filter in Hin' as [_ Hin'].
    apply elem_of_map_to_list in Hin, Hin'.
    apply Hkeyed in Hin, Hin'. congruence.
  - rewrite merge_sort_Permutation. apply NoDup_filter, NoDup_map_to_list.
Qed.

Lemma elem_of_listed_auto_saves info :
  info ∈ listed_auto_saves snaps episode <->
  exists value, snaps !! info_id info = Some value /\ info = info_of value /\
                episodeId value = episode /\ snapshot_type value = "auto-save".
Proof.
  unfold listed_auto_saves. rewrite list_elem_of_filter, sort_Permutation, list_elem_of_fmap.
  split.
  - intros (Hauto & value & -> & Hin).
    apply elem_of_snapshots_of in Hin as (key & Hat & Hid).
    exists value. split; [|done]. simpl. by rewrite (Hkeyed _ _ Hat).
  - intros (value & Hat & -> & Hid & Hauto). split; [done|].
    exists value. split; [done|]. apply elem_of_snapshots_of. by eexists.
Qed.

Lemma listed_auto_saves_NoDup : NoDup (map info_id (listed_auto_saves snaps episode)).
Proof.
  apply NoDup_fmap_2_strong.
  - intros a b Ha Hb Heq.
    apply elem_of_listed_auto_saves in Ha as (va & Hva & -> & _).
    apply elem_of_listed_auto_saves in Hb as (vb & Hvb & -> & _).
    rewrite Heq in Hva. congruence.
  - unfold listed_auto_saves. apply NoDup_filter. rewrite sort_Permutation.
    apply NoDup_fmap_2_strong; [|apply snapshots_of_NoDup].
    intros a b Ha Hb Heq.
    apply elem_of_snapshots_of in Ha as (ka & Hka & _).
    apply elem_of_snapshots_of in Hb as (kb & Hkb & _).
    assert (snapshot_id a = snapshot_id b) as Hids by (by apply (f_equal info_id) in Heq).
    pose proof (Hkeyed _ _ Hka) as Ea. pose proof (Hkeyed _ _ Hkb) as Eb.
    assert (ka = kb) as -> by congruence. congruence.
Qed.

Lemma listed_auto_saves_sorted :
  StronglySorted not_older (listed_auto_saves snaps episode).
Proof. apply StronglySorted_filter, sort_newest_first. Qed.

Lemma elem_of_listed_ids key :
  key ∈ map info_id (listed_auto_saves snaps episode) <->
  exists value, snaps !! key = Some value /\
                episodeId value = episode /\ snapshot_type value = "auto-save".
Proof.
  rewrite list_elem_of_fmap. split.
  - intros (info & -> & Hin). apply elem_of_listed_auto_saves in Hin as (v & ? & ? & ? & ?).
    by exists v.
  - intros (v & Hat & Hid & Hauto). exists (info_of v).
    split; [simpl; by rewrite (Hkeyed _ _ Hat)|].
    apply elem_of_listed_auto_saves. exists v. simpl. by rewrite (Hkeyed _ _ Hat).
Qed.

Lemma count_listed_auto_saves :
  count_snapshots snaps episode "auto-save" = length (listed_auto_saves snaps episode).
Proof.
  unfold count_snapshots.
  rewrite <- (length_map info_id), <- (size_list_to_set (C := gset string))
    by apply listed_auto_saves_NoDup.
  rewrite <- (size_dom (D := gset string)). f_equal. apply set_eq. intros key.
  rewrite elem_of_dom, elem_of_list_to_set, elem_of_listed_ids.
  unfold is_Some. setoid_rewrite map_lookup_filter_Some. simpl. naive_solver.
Qed.

End RetentionFacts.

Section RetainedFacts.
Import JS Db.

Variable snaps : gmap string Snapshot.
Variable episode : string.
Hypothesis Hkeyed : forall key value, snaps !! key = Some value -> snapshot_id value = key.

(** The store once the expired auto-saves are deleted. *)
Local Abbreviation retained :=
  (foldl (fun snaps s => delete (info_id s) snaps) snaps (expired_auto_saves snaps episode)).
Local Abbreviation listed := (listed_auto_saves snaps episode).

Lemma listed_ids_split key :
  key ∈ map info_id (take 10 listed) <->
  key ∈ map info_id listed /\ key ∉ map info_id (expired_auto_saves snaps episode).
Proof.
  unfold expired_auto_saves.
  pose proof (listed_auto_saves_NoDup snaps episode Hkeyed) as Hnodup.
  rewrite <- (take_drop 10 listed) in Hnodup at 1.
  rewrite map_app in Hnodup. apply NoDup_app in Hnodup as (_ & Hdisjoint & _).
  split.
  - intros Hin. split; [|by apply Hdisjoint].
    rewrite <- (take_drop 10 listed), map_app. apply elem_of_app. by left.
  - intros [Hin Hout]. rewrite <- (take_drop 10 listed), map_app in Hin.
    apply elem_of_app in Hin as [|]; done.
Qed.

Lemma lookup_retained key value :
  retained !! key = Some value <->
  snaps !! key = Some value /\ key ∉ map info_id (expired_auto_saves snaps episode).
Proof. rewrite lookup_fold_delete. case_decide; naive_solver. Qed.

Lemma retained_other key value :
  snaps !! key = Some value ->
  ~ (episodeId value = episode /\ snapshot_type value = "auto-save") ->
  retained !! key = Some value.
Proof.
  intros Hat Hother. apply lookup_retained. split; [done|]. intros Hin.
  assert (key ∈ map info_id listed) as Hlisted.
  { unfold expired_auto_saves in Hin. rewrite <- (take_drop 10 listed), map_app.
    apply elem_of_app. by right. }
  apply elem_of_listed_ids in Hlisted as (v & Hv & ? & ?); [|done].
  apply Hother. by simplify_eq.
Qed.

Lemma count_retained_auto_saves :
  count_snapshots retained episode "auto-save"
  = min 10 (count_snapshots snaps episode "auto-save").
Proof.
  rewrite (count_listed_auto_saves snaps episode Hkeyed), <- length_take.
  unfold count_snapshots.
  rewrite <- (length_map info_id), <- (size_list_to_set (C := gset string)).
  - rewrite <- (size_dom (D := gset string)). f_equal. apply set_eq. intros key.
    rewrite elem_of_dom, elem_of_list_to_set, listed_ids_split, elem_of_listed_ids by done.
    unfold is_Some. setoid_rewrite map_lookup_filter_Some.
    setoid_rewrite lookup_retained. simpl. naive_solver.
  - pose proof (listed_auto_saves_NoDup snaps episode Hkeyed) as Hnodup.
    rewrite <- (take_drop 10 listed), map_app in Hnodup.
    by apply NoDup_app in Hnodup as (? & _).
Qed.

Lemma count_retained_other kind :
  kind <> "auto-save" ->
  count_snapshots retained episode kind = count_snapshots snaps episode kind.
Proof.
  intros Hkind. unfold count_snapshots. f_equal. apply map_eq. intros key.
  apply option_eq. intros value. rewrite !map_lookup_filter_Some, lookup_retained. simpl.
  split; [naive_solver|]. intros [Hat [Hid Htype]]. split; [|done].
  apply lookup_retained, retained_other; [done|]. intros [_ Hauto]. congruence.
Qed.

Lemma retained_newest key value key' value' :
  retained !! key = Some value ->
  episodeId value = episode -> snapshot_type value = "auto-save" ->
  snaps !! key' = Some value' ->
  episodeId value' = episode -> snapshot_type value' = "auto-save" ->
  retained !! key' = None ->
  (timestamp value' <= timestamp value)%Z.
Proof.
  intros Hkept Hid Hauto Hat' Hid' Hauto' Hgone.
  apply lookup_retained in Hkept as [Hat Hout].
  assert (key ∈ map info_id (take 10 listed)) as Hin.
  { apply listed_ids_split. split; [|done]. apply elem_of_listed_ids; [done|]. by exists value. }
  assert (key' ∈ map info_id (expired_auto_saves snaps episode)) as Hin'.
  { destruct (decide (key' ∈ map info_id (expired_auto_saves snaps episode))); [done|].
    assert (retained !! key' = Some value') by (by apply lookup_retained). congruence. }
  apply list_elem_of_fmap in Hin as (info & -> & Hinfo).
  apply list_elem_of_fmap in Hin' as (info' & -> & Hinfo').
  pose proof (listed_auto_saves_sorted snaps episode) as Hsorted.
  rewrite <- (take_drop 10 listed) in Hsorted.
  pose proof (StronglySorted_app_1_elem_of _ _ _ _ _ Hsorted Hinfo Hinfo') as Horder.
  assert (info ∈ listed) as Hl by (eapply elem_of_sublist; [done | apply sublist_take]).
  assert (info' ∈ listed) as Hl' by (eapply elem_of_sublist; [done | apply sublist_drop]).
  apply elem_of_listed_auto_saves in Hl as (v & Hv & -> & _); [|done].
  apply elem_of_listed_auto_saves in Hl' as (v' & Hv' & -> & _); [|done].
  unfold not_older in Horder. simpl in *. by simplify_eq.
Qed.

End RetainedFacts.

Section SaveInvariant.
Import JS Db.

Variable P : Platform.
Hypothesis Hworks : storage_works P.

Lemma own_property_set_other props name name' v :
  name <> name' -> own_property (set_property props name v) name' = own_property props name'.
Proof.
  intros Hne. induction props as [|[k w] rest IH]; simpl.
  - by rewrite decide_False.
  - destruct (decide (k = name)) as [->|]; simpl.
    + by rewrite !decide_False.
    + case_decide; [done | apply IH].
Qed.

Lemma inserted_keyed (snaps : gmap string Snapshot) key props :
  (forall k value, snaps !! k = Some value -> snapshot_id value = k) ->
  forall k value,
    <[snapshot_id (auto_save P key props) := auto_save P key props]> snaps !! k = Some value ->
    snapshot_id value = k.
Proof.
  intros Hkeyed k value Hat. apply lookup_insert_Some in Hat as [[<- <-] | [_ Hat]]; [done|].
  by apply Hkeyed.
Qed.

Lemma count_inserted_auto_save (snaps : gmap string Snapshot) key props :
  snaps !! snapshot_id (auto_save P key props) = None ->
  count_snapshots (<[snapshot_id (auto_save P key props) := auto_save P key props]> snaps)
                  key "auto-save"
  = S (count_snapshots snaps key "auto-save").
Proof.
  intros Hfresh. unfold count_snapshots.
  rewrite map_filter_insert_True by done.
  rewrite map_size_insert_None; [done|].
  apply map_lookup_filter_None. by left.
Qed.

Lemma count_inserted_other (snaps : gmap string Snapshot) key props kind :
  kind <> "auto-save" ->
  snaps !! snapshot_id (auto_save P key props) = None ->
  count_snapshots (<[snapshot_id (auto_save P key props) := auto_save P key props]> snaps)
                  key kind
  = count_snapshots snaps key kind.
Proof.
  intros Hkind Hfresh. unfold count_snapshots.
  rewrite map_filter_insert_not'; [done | | by rewrite Hfresh].
  simpl. unfold snapshot_type. simpl. intros [_ Hauto]. congruence.
Qed.

(** Fewer than ten auto-saves: the retention policy deletes nothing. *)
Lemma nothing_expires (snaps : gmap string Snapshot) episode :
  (forall k value, snaps !! k = Some value -> snapshot_id value = k) ->
  count_snapshots snaps episode "auto-save" <= 10 ->
  expired_auto_saves snaps episode = [].
Proof.
  intros Hkeyed Hcount. unfold expired_auto_saves. apply drop_ge.
  by rewrite <- count_listed_auto_saves.
Qed.

End SaveInvariant.

Section Retention.
Import JS Db.

Variable P : Platform.
Hypothesis Hworks : storage_works P.

(** C5. A save that inserts its auto-save snapshot (working storage, fresh
    snapshot id) leaves, for that episode: every snapshot that is not one of
    its auto-saves (manual saves, other episodes) untouched; of its
    auto-saves, the new one included, the 10 most recent by timestamp and
    none of the older ones. From 15 auto-saves and 3 manual saves the save
    leaves 10 auto-saves and the 3 manual saves, 13 snapshots. *)
Theorem retention_after_save db props key :
  keyed_by_id db ->
  own_property props "id" = JStr key ->
  key <> EmptyString ->
  snapshots db !! snapshot_id (auto_save P key props) = None ->
  exists db',
    saveEpisode P (JObj props) db = (Resolved (JStr key), db') /\
    (forall k value, snapshots db' !! k = Some value ->
       value = auto_save P key props \/ snapshots db !! k = Some value) /\
    (forall k value, snapshots db !! k = Some value ->
       ~ (episodeId value = key /\ snapshot_type value = "auto-save") ->
       snapshots db' !! k = Some value) /\
    count_snapshots (snapshots db') key "auto-save"
    = min 10 (S (count_snapshots (snapshots db) key "auto-save")) /\
    count_snapshots (snapshots db') key "manual-save"
    = count_snapshots (snapshots db) key "manual-save" /\
    (forall k value k' value',
       snapshots db' !! k = Some value ->
       episodeId value = key -> snapshot_type value = "auto-save" ->
       snapshots db !! k' = Some value'
         \/ (k' = snapshot_id (auto_save P key props) /\ value' = auto_save P key props) ->
       episodeId value' = key -> snapshot_type value' = "auto-save" ->
       snapshots db' !! k' = None ->
       (timestamp value' <= timestamp value)%Z) /\
    (count_snapshots (snapshots db) key "auto-save" = 15 ->
     count_snapshots (snapshots db) key "manual-save" = 3 ->
     count_snapshots (snapshots db') key "auto-save" = 10 /\
     count_snapshots (snapshots db') key "manual-save" = 3 /\
     count_snapshots (snapshots db') key "auto-save"
       + count_snapshots (snapshots db') key "manual-save" = 13).
Proof.
  intros [_ Hkeyed] Hid Hkey Hfresh.
  eexists. split; [by apply saveEpisode_works|]. cbn [snapshots].
  pose proof (inserted_keyed P (snapshots db) key props Hkeyed) as Hinserted.
  assert (count_snapshots
            (foldl (fun snaps s => delete (info_id s) snaps)
               (<[snapshot_id (auto_save P key props) := auto_save P key props]> (snapshots db))
               (expired_auto_saves
                  (<[snapshot_id (auto_save P key props) := auto_save P key props]>
                     (snapshots db)) key))
            key "auto-save"
          = min 10 (S (count_snapshots (snapshots db) key "auto-save"))) as Hautos.
  { rewrite count_retained_auto_saves by done.
    by rewrite (count_inserted_auto_save P (snapshots db) key props). }
  assert (count_snapshots
            (foldl (fun snaps s => delete (info_id s) snaps)
               (<[snapshot_id (auto_save P key props) := auto_save P key props]> (snapshots db))
               (expired_auto_saves
                  (<[snapshot_id (auto_save P key props) := auto_save P key props]>
                     (snapshots db)) key))
            key "manual-save"
          = count_snapshots (snapshots db) key "manual-save") as Hmanuals.
  { rewrite count_retained_other by done.
    by rewrite (count_inserted_other P (snapshots db) key props). }
  split; [|split; [|split; [|split; [|split]]]].
  - intros k value Hat. apply lookup_retained in Hat as [Hat _].
    apply lookup_insert_Some in Hat as [[_ <-] | [_ Hat]]; [by left | by right].
  - intros k value Hat Hother. apply retained_other; [done | | done].
    rewrite lookup_insert_ne; [done|]. intros <-. congruence.
  - done.
  - done.
  - intros k value k' value' Hkept Hep Hauto Hwas Hep' Hauto' Hgone.
    eapply retained_newest; [exact Hinserted | exact Hkept | done | done | | done | done | exact Hgone].
    destruct Hwas as [Hat | [-> ->]]; [|apply lookup_insert_eq].
    rewrite lookup_insert_ne; [done|]. intros <-. congruence.
  - intros H15 H3. rewrite Hautos, Hmanuals, H15, H3. done.
Qed.

End Retention.

Section ObjectFacts.
Import JS.

Lemma rest_without_set name props v :
  rest_without name (set_property props name v) = rest_without name props.
Proof.
  unfold rest_without. induction props as [|[k w] rest IH]; simpl.
  - rewrite filter_cons, decide_False; [done | simpl; by intros []].
  - destruct (decide (k = name)) as [->|Hne].
    + rewrite !filter_cons. simpl. by rewrite !decide_False by (by intros []).
    + rewrite !filter_cons. simpl. rewrite !decide_True by done. by rewrite IH.
Qed.

Lemma rest_without_idemp name props :
  rest_without name (rest_without name props) = rest_without name props.
Proof.
  unfold rest_without. induction props as [|[k w] rest IH]; [done|].
  rewrite filter_cons. simpl. case_decide; [|done].
  rewrite filter_cons. simpl. rewrite decide_True by done. by rewrite IH.
Qed.

Lemma rest_without_absent name props : name ∉ map fst (rest_without name props).
Proof.
  unfold rest_without. intros Hin. apply list_elem_of_fmap in Hin as ([k w] & -> & Hin).
  apply list_elem_of_filter in Hin as [Hne _]. done.
Qed.

Lemma own_property_rest_other name name' props :
  name <> name' -> own_property (rest_without name props) name' = own_property props name'.
Proof.
  intros Hne. unfold rest_without. induction props as [|[k w] rest IH]; [done|].
  rewrite filter_cons. simpl. destruct (decide (k = name)) as [->|Hk].
  - rewrite decide_False by (by intros []). rewrite decide_False by done. apply IH.
  - rewrite decide_True by done. simpl. case_decide; [done | apply IH].
Qed.

End ObjectFacts.

Section ValidationFacts.
Import JS Db.

Lemma get_defined v name x other :
  get v name = Return x -> exists y, get v other = Return y.
Proof. destruct v; simpl; try done; by eexists. Qed.

Lemma forEach_from_throws {A} (body : A -> nat -> result unit) items item index :
  item ∈ items ->
  (forall i, exists e, body item i = Throw e) ->
  exists e, forEach_from index body items = Throw e.
Proof.
  intros Hin Hthrows. revert index.
  induction items as [|first rest IH]; intros index; [by apply elem_of_nil in Hin|].
  simpl. apply elem_of_cons in Hin as [<- | Hin].
  - destruct (Hthrows index) as [e ->]. by eexists.
  - destruct (body first index); simpl; [by apply IH | by eexists].
Qed.

Lemma validateChoice_throws sceneId choice index :
  choice_defect choice -> exists e, validateChoice sceneId choice index = Throw e.
Proof.
  unfold validateChoice. intros [(text & Htext & Hblank) | (next & Hnext & Hblank)].
  - rewrite Htext. simpl. rewrite Hblank. simpl. by eexists.
  - destruct (get_defined _ _ _ "text" Hnext) as [text ->]. simpl.
    destruct (missing_or_blank text) as [[]|]; simpl; try by eexists.
    rewrite Hnext. simpl. rewrite Hblank. simpl. by eexists.
Qed.

Lemma validateScene_throws sceneId scene index :
  scene_defect scene -> exists e, validateScene (sceneId, scene) index = Throw e.
Proof.
  unfold validateScene. cbn [fst snd]. intros Hdefect.
  assert (exists x, get scene "text" = Return x \/ get scene "choices" = Return x) as [x Hx].
  { destruct Hdefect as [(x & ? & _) | [(x & ? & _) | (items & _ & ? & _)]]; eauto. }
  assert (forall name, exists y, get scene name = Return y) as Hget.
  { intros name. destruct Hx as [Hx | Hx]; by eapply get_defined. }
  destruct (Hget "id") as [id ->]. simpl.
  destruct (missing_or_blank id) as [[]|]; simpl; try by eexists.
  destruct (Hget "title") as [title ->]. simpl.
  destruct (missing_or_blank title) as [[]|]; simpl; try by eexists.
  destruct (Hget "text") as [text Htext]. rewrite Htext. simpl.
  destruct (Array_isArray text) eqn:Harray; simpl; [|by eexists].
  destruct (Hget "choices") as [cs Hcs]. rewrite Hcs. simpl.
  destruct Hdefect as [(text' & Htext' & Hno) | [(cs' & Hcs' & Hno) | (items & choice & Hitems & Hin & Hchoice)]].
  - congruence.
  - assert (cs' = cs) as -> by congruence. destruct cs; try done; by eexists.
  - assert (cs = JArr items) as -> by congruence.
    apply (forEach_from_throws _ _ choice); [done|].
    intros i. by apply validateChoice_throws.
Qed.

(** An episode with a structural defect does not pass validation. *)
Lemma validateEpisode_throws episode :
  structural_defect episode -> exists e, validateEpisode episode = Throw e.
Proof.
  unfold validateEpisode. intros Hdefect.
  assert (forall name, exists y, get episode name = Return y) as Hget.
  { intros name.
    destruct Hdefect as [(x & Hx & _) | [(x & Hx & _) | [(x & ? & Hx & _) | (x & ? & Hx & _)]]];
      by eapply get_defined. }
  destruct (Hget "title") as [title Htitle]. rewrite Htitle. simpl.
  destruct (missing_or_blank title) as [[]|] eqn:Hblank; simpl; try by eexists.
  destruct (Hget "scenes") as [scenes Hscenes]. rewrite Hscenes. simpl.
  destruct (negb (truthy scenes) || bool_decide (length (Object_keys scenes) = 0))
    eqn:Hnone; [by eexists|].
  apply orb_false_iff in Hnone as [Htruthy Hkeys].
  apply negb_false_iff in Htruthy. apply bool_decide_eq_false in Hkeys.
  assert (exists start, get scenes "start" = Return start) as [start Hstart].
  { destruct scenes; simpl in *; try done; by eexists. }
  rewrite Hstart. simpl.
  destruct (truthy start) eqn:Hstart_truthy; simpl; [|by eexists].
  destruct Hdefect as [(t & Ht & Hb) | [(sc & Hsc & Hempty) | [(sc & st & Hsc & Hst & Hno)
                       | (sc & entry & Hsc & Hin & Hscene)]]].
  - congruence.
  - assert (sc = scenes) as -> by congruence. destruct Hempty as [|Hnil]; [congruence|].
    by rewrite Hnil in Hkeys.
  - assert (sc = scenes) as -> by congruence. congruence.
  - assert (sc = scenes) as -> by congruence.
    apply (forEach_from_throws _ _ entry); [done|].
    intros i. destruct entry as [sceneId scene]. by apply validateScene_throws.
Qed.

End ValidationFacts.

Section SaveTheorems.
Import JS Db.

Variable P : Platform.

Lemma storage_works_at_time t : storage_works P -> storage_works (at_time P t).
Proof. by intros [? ?]. Qed.

Lemma saveEpisode_constraint props key db existing :
  storage_works P ->
  own_property props "id" = JStr key ->
  key <> EmptyString ->
  snapshots db !! snapshot_id (auto_save P key props) = Some existing ->
  saveEpisode P (JObj props) db = (Resolved (JStr key), db).
Proof.
  intros [Hopen Hrequests] Hid Hkey Htaken.
  unfold saveEpisode. rewrite Hid, truthy_key by done. simpl.
  rewrite Hopen. unfold add_snapshot. rewrite !Hrequests. simpl.
  simpl in Htaken. by rewrite Htaken.
Qed.

(** C2, as the code has it. [saveEpisode] issues the episode upsert and the
    snapshot insert in one transaction. If the upsert fails, [saveEpisode]
    fails and the database is as it was. If the upsert succeeds,
    [saveEpisode] returns the episode id, also when the snapshot insert or
    the cleanup fails (the failure is only logged). If every request
    succeeds, the stamped episode record is committed, and with it the
    auto-save snapshot unless the retention policy has it expire (which takes
    ten auto-saves already stored). *)
Theorem save_transaction_outcomes db props key :
  open_error P = None ->
  own_property props "id" = JStr key ->
  key <> EmptyString ->
  (forall message,
     request_error P (Put EPISODES_STORE) = Some message ->
     saveEpisode P (JObj props) db
     = (Rejected (Error ("Failed to save episode: " ++ message_or_unknown message)), db)) /\
  (request_error P (Put EPISODES_STORE) = None ->
   (saveEpisode P (JObj props) db).1 = Resolved (JStr key)) /\
  (storage_works P -> keyed_by_id db ->
   snapshots db !! snapshot_id (auto_save P key props) = None ->
   exists db',
     saveEpisode P (JObj props) db = (Resolved (JStr key), db') /\
     episodes db' !! key = Some (stamped P props) /\
     (count_snapshots (snapshots db) key "auto-save" < 10 ->
      snapshots db' !! snapshot_id (auto_save P key props) = Some (auto_save P key props))).
Proof.
  intros Hopen Hid Hkey. split; [|split].
  - intros message Hput. unfold saveEpisode. rewrite Hid, truthy_key by done. simpl.
    by rewrite Hopen, Hput.
  - intros Hput. unfold saveEpisode. rewrite Hid, truthy_key by done. simpl.
    rewrite Hopen, Hput. by destruct (add_snapshot _ _ _).
  - intros Hworks [_ Hkeyed] Hfresh.
    eexists. split; [by apply saveEpisode_works|]. cbn [episodes snapshots].
    split; [apply lookup_insert_eq|]. intros Hcount.
    rewrite nothing_expires; [apply lookup_insert_eq | by apply inserted_keyed |].
    rewrite (count_inserted_auto_save P (snapshots db) key props) by done. lia.
Qed.

(** C1, as the code has it. [importEpisodeFromJSON] refuses every episode
    with a structural defect: [validateEpisode] throws, the import rejects
    with that one error, the first violation in the order of the checks (a
    missing or blank title is reported whatever else is wrong), and the
    database is left as it was. [saveEpisode] logs the finding and persists
    the record all the same. *)
Theorem validation_outcomes db text episode :
  JSON_parse P text = Some episode ->
  structural_defect episode ->
  (exists error,
     validateEpisode episode = Throw error /\
     importEpisodeFromJSON P text db
     = (Rejected (rethrow "Failed to import episode: " error), db) /\
     (title_missing episode -> error = Error "Episode title is required")) /\
  (forall props key,
     episode = JObj props -> own_property props "id" = JStr key -> key <> EmptyString ->
     storage_works P -> snapshots db !! snapshot_id (auto_save P key props) = None ->
     exists db',
       saveEpisode P episode db = (Resolved (JStr key), db') /\
       episodes db' !! key = Some (stamped P props)).
Proof.
  intros Hparse Hdefect. split.
  - destruct (validateEpisode_throws episode Hdefect) as [error Hthrow].
    exists error. split; [done|]. split.
    + unfold importEpisodeFromJSON. by rewrite Hparse, Hthrow.
    + intros (title & Htitle & Hblank). unfold validateEpisode in Hthrow.
      rewrite Htitle in Hthrow. simpl in Hthrow. rewrite Hblank in Hthrow. simpl in Hthrow.
      congruence.
  - intros props key -> Hid Hkey Hworks Hfresh.
    eexists. split; [by apply saveEpisode_works|]. apply lookup_insert_eq.
Qed.

End SaveTheorems.

Section RoundTrip.
Import JS Db.

Variable P : Platform.
Hypothesis Hworks : storage_works P.

Variable db : DB.
Variable key : string.
Variable props : list (string * jsval).

(** [const { lastModified, ...exportEpisode } = episode] *)
Local Abbreviation exportEpisode := (rest_without "lastModified" props).

Lemma validateEpisode_export :
  validateEpisode (JObj exportEpisode) = validateEpisode (JObj props).
Proof.
  unfold validateEpisode, get. by rewrite !own_property_rest_other.
Qed.

(** C7, as the code has it. With a working storage layer, on a platform
    whose JSON codec reads back the exported document, for a stored episode:
    the export holds no [lastModified] property. If the episode passes
    [validateEpisode], importing the export succeeds, and exporting again
    (whenever the import and the second export take place) gives the very
    same text. If it fails [validateEpisode] ([saveEpisode] stores such
    episodes), the import of its export is refused with the error of the
    validation and stores nothing. *)
Theorem export_import_roundtrip t_import t_export :
  episodes db !! key = Some props ->
  own_property props "id" = JStr key ->
  key <> EmptyString ->
  JSON_parse P (JSON_stringify P 2 (JObj exportEpisode)) = Some (JObj exportEpisode) ->
  ("lastModified" ∉ map fst exportEpisode) /\
  exportEpisodeToJSON P (JStr key) db
  = Resolved (JStr (JSON_stringify P 2 (JObj exportEpisode))) /\
  (validateEpisode (JObj props) = Return tt ->
   exists db',
     importEpisodeFromJSON (at_time P t_import) (JSON_stringify P 2 (JObj exportEpisode)) db
     = (Resolved (JStr key), db') /\
     exportEpisodeToJSON (at_time P t_export) (JStr key) db'
     = Resolved (JStr (JSON_stringify P 2 (JObj exportEpisode)))) /\
  (forall error,
     validateEpisode (JObj props) = Throw error ->
     importEpisodeFromJSON (at_time P t_import) (JSON_stringify P 2 (JObj exportEpisode)) db
     = (Rejected (rethrow "Failed to import episode: " error), db)).
Proof.
  intros Hstored Hid Hkey Hcodec. destruct Hworks as [Hopen Hrequests].
  assert (forall t stored, episodes stored !! key = Some props \/
                           (exists v, episodes stored !! key
                                      = Some (set_property exportEpisode "lastModified" v)) ->
            exportEpisodeToJSON (at_time P t) (JStr key) stored
            = Resolved (JStr (JSON_stringify P 2 (JObj exportEpisode)))) as Hexport.
  { intros t stored Hat. unfold exportEpisodeToJSON, getEpisode.
    rewrite truthy_key by done. simpl. rewrite Hopen, Hrequests.
    destruct Hat as [-> | [v ->]]; [done|].
    by rewrite rest_without_set, rest_without_idemp. }
  split; [apply rest_without_absent|]. split; [|split].
  - specialize (Hexport (now P) db (or_introl Hstored)). by destruct P.
  - intros Hvalid. rewrite <- validateEpisode_export in Hvalid.
    assert (own_property exportEpisode "id" = JStr key) as Hid'
      by (by rewrite own_property_rest_other).
    unfold importEpisodeFromJSON. cbn [JSON_parse at_time]. rewrite Hcodec, Hvalid.
    destruct (snapshots db !! snapshot_id (auto_save (at_time P t_import) key exportEpisode))
      as [existing|] eqn:Hfresh.
    + rewrite (saveEpisode_constraint (at_time P t_import) exportEpisode key db existing);
        [|by apply storage_works_at_time | done | done | done].
      eexists. split; [done|]. apply Hexport. by left.
    + rewrite (saveEpisode_works (at_time P t_import) (storage_works_at_time P t_import Hworks)
                 exportEpisode key db); [|done..].
      eexists. split; [done|]. apply Hexport. right. eexists. cbn [episodes].
      apply lookup_insert_eq.
  - intros error Hinvalid. rewrite <- validateEpisode_export in Hinvalid.
    unfold importEpisodeFromJSON. cbn [JSON_parse at_time]. by rewrite Hcodec, Hinvalid.
Qed.

End RoundTrip.

(* ===================================================================== *)
(** * An invariant of the database: records sit under their own id *)
(* ===================================================================== *)

Section KeyedInvariant.
Import JS Db.

Variable P : Platform.

Lemma finish_keyed db t : keyed_by_id db -> keyed_by_id (stores t) -> keyed_by_id (finish db t).
Proof. intros Hdb Ht. unfold finish. by destruct (aborted t). Qed.

Lemma delete_snapshot_keyed t id :
  keyed_by_id (stores t) -> keyed_by_id (stores (delete_snapshot P t id)).
Proof.
  intros [He Hs]. unfold delete_snapshot. destruct (request_error P _); [done|].
  split; [done|]. simpl. intros k value Hat.
  apply lookup_delete_Some in Hat as [_ Hat]. by apply Hs.
Qed.

Lemma fold_delete_snapshot_keyed {A} (f : A -> string) (items : list A) t :
  keyed_by_id (stores t) ->
  keyed_by_id (stores (foldl (fun t item => delete_snapshot P t (f item)) t items)).
Proof.
  revert t. induction items as [|item items IH]; intros t Ht; [done|].
  simpl. by apply IH, delete_snapshot_keyed.
Qed.

Lemma add_snapshot_keyed t snapshot t' :
  keyed_by_id (stores t) -> add_snapshot P t snapshot = Return t' -> keyed_by_id (stores t').
Proof.
  intros [He Hs]. unfold add_snapshot. destruct (request_error P _); [done|].
  destruct (snapshots (stores t) !! snapshot_id snapshot); [done|].
  intros [= <-]. split; [done|]. simpl. intros k value Hat.
  apply lookup_insert_Some in Hat as [[<- <-] | [_ Hat]]; [done | by apply Hs].
Qed.

Lemma cleanupSnapshots_keyed key t :
  keyed_by_id (stores t) -> keyed_by_id (stores (cleanupSnapshots P key t).2).
Proof.
  intros Ht. unfold cleanupSnapshots. destruct (request_error P _); [done|].
  destruct (10 <? _)%nat; [|done]. by apply fold_delete_snapshot_keyed.
Qed.

Lemma put_episode_keyed db key props :
  keyed_by_id db -> own_property props "id" = JStr key ->
  keyed_by_id (stores (with_episodes (begin db) (insert key props))).
Proof.
  intros [He Hs] Hid. split; [|done]. simpl. intros k stored Hat.
  apply lookup_insert_Some in Hat as [[<- <-] | [_ Hat]]; [done | by apply He].
Qed.

(** Whatever the platform does, each operation keeps the invariant. *)
Lemma saveEpisode_keyed_any episode db :
  keyed_by_id db -> keyed_by_id (saveEpisode P episode db).2.
Proof.
  intros Hdb. destruct episode as [| | | | |items|props]; try done.
  unfold saveEpisode.
  destruct (truthy (own_property props "id")); [|done]. simpl.
  destruct (open_error P); [done|].
  destruct (own_property props "id") as [| | | |key| |] eqn:Hid; try done. simpl.
  destruct (request_error P (Put EPISODES_STORE)); [done|].
  assert (keyed_by_id (stores (with_episodes (begin db) (insert key (stamped P props)))))
    as Hput.
  { apply put_episode_keyed; [done|]. unfold stamped. by rewrite own_property_set_other. }
  destruct (add_snapshot P _ _) as [t'|] eqn:Hadd; simpl.
  - apply finish_keyed; [done|]. apply cleanupSnapshots_keyed.
    by eapply add_snapshot_keyed.
  - by apply finish_keyed.
Qed.

Lemma createManualSnapshot_keyed episodeId db :
  keyed_by_id db -> keyed_by_id (createManualSnapshot P episodeId db).2.
Proof.
  intros Hdb. unfold createManualSnapshot.
  destruct (truthy episodeId); [|done]. simpl.
  destruct (getEpisode P episodeId db) as [episode|]; [|done].
  destruct (truthy episode); [|done]. simpl.
  destruct (open_error P); [done|]. destruct (valid_key episodeId); [|done].
  destruct (add_snapshot P _ _) as [t'|] eqn:Hadd; [|done]. simpl.
  apply finish_keyed; [done|]. eapply add_snapshot_keyed; [|exact Hadd]. exact Hdb.
Qed.

Lemma restoreEpisodeFromSnapshot_keyed snapshotId db :
  keyed_by_id db -> keyed_by_id (restoreEpisodeFromSnapshot P snapshotId db).2.
Proof.
  intros Hdb. unfold restoreEpisodeFromSnapshot.
  destruct (truthy snapshotId); [|done]. simpl.
  destruct (open_error P); [done|]. destruct (valid_key snapshotId); [|done].
  destruct (request_error P (Get SNAPSHOTS_STORE)); [done|].
  destruct (snapshots db !! _) as [found|]; [|done].
  destruct (JSON_parse P (data found)) as [[| | | | | |props]|]; try done.
  destruct (valid_key _) as [episode_key|] eqn:Hkey; [|done].
  destruct (request_error P (Put EPISODES_STORE)); [done|]. cbn [snd].
  apply finish_keyed; [done|]. apply put_episode_keyed; [done|].
  by destruct (own_property _ "id"); simplify_eq/=.
Qed.

Lemma deleteEpisode_keyed id db :
  keyed_by_id db -> keyed_by_id (deleteEpisode P id db).2.
Proof.
  intros Hdb. unfold deleteEpisode.
  destruct (truthy id); [|done]. simpl.
  destruct (open_error P); [done|]. destruct (valid_key id) as [key|]; [|done].
  destruct (request_error P (Delete EPISODES_STORE)); [done|].
  assert (keyed_by_id (stores (with_episodes (begin db) (delete key)))) as Hdeleted.
  { destruct Hdb as [He Hs]. split; [|done]. simpl. intros k stored Hat.
    apply lookup_delete_Some in Hat as [_ Hat]. by apply He. }
  destruct (request_error P (OpenCursor SNAPSHOTS_STORE)); [by apply finish_keyed|].
  destruct (aborted _); cbn [snd];
    (apply finish_keyed; [done|]; by apply fold_delete_snapshot_keyed).
Qed.

Lemma deleteCampaign_keyed id db :
  keyed_by_id db -> keyed_by_id (deleteCampaign P id db).2.
Proof.
  intros Hdb. unfold deleteCampaign.
  destruct (truthy id); [|done]. simpl.
  destruct (open_error P); [done|]. destruct (valid_key id) as [key|]; [|done].
  by destruct (request_error P (Delete CAMPAIGNS_STORE)).
Qed.

End KeyedInvariant.

(* ===================================================================== *)

(** * The properties on concrete data *)
(* ===================================================================== *)

Section Concrete.
Import JS Db Reference.
Local Open Scope Z_scope.

Lemma browser_works t : storage_works (browser t).
Proof. by split. Qed.

Lemma empty_db_keyed : keyed_by_id empty_db.
Proof. split; intros k v Hat; simpl in Hat; by rewrite lookup_empty in Hat. Qed.

Lemma sample_db_keyed : keyed_by_id sample_db.
Proof. apply saveEpisode_keyed_any, empty_db_keyed. Qed.

Lemma defective_db_keyed : keyed_by_id defective_db.
Proof. apply saveEpisode_keyed_any, empty_db_keyed. Qed.

Lemma crowded_db_keyed : keyed_by_id crowded_db.
Proof.
  split; [apply sample_db_keyed|].
  intros k value Hat. apply elem_of_list_to_map_2 in Hat.
  apply elem_of_app in Hat as [Hat | Hat];
    apply list_elem_of_fmap in Hat as (t & Heq & _); by inversion Heq.
Qed.

(** C1: an episode with a blank title and no ["start"] scene is persisted by
    [saveEpisode]; importing it fails with the title violation alone. *)
Lemma validation_not_enforced_counterexample :
  title_missing defective_episode /\
  start_scene_missing defective_episode /\
  saveEpisode (browser 1000) defective_episode empty_db
  = (Resolved (JStr "ep-bad"), defective_db) /\
  episodes defective_db !! "ep-bad" = Some (stamped (browser 1000) defective_props) /\
  importEpisodeFromJSON (browser 1000) (stringify 2 defective_episode) empty_db
  = (Rejected (Error "Failed to import episode: Episode title is required"), empty_db).
Proof.
  split; [|split; [|split; [|split]]].
  - exists (JStr " "). by vm_compute.
  - eexists _, JUndefined. by vm_compute.
  - by vm_compute.
  - by vm_compute.
  - by vm_compute.
Qed.

(** C2: the snapshot insert fails after the upsert; [saveEpisode] returns the
    episode id although no snapshot of this save is committed (the aborted
    transaction leaves the database as it was). *)
Lemma save_not_atomic_counterexample :
  saveEpisode (failing (Add SNAPSHOTS_STORE) "QuotaExceededError" 2000)
              sample_episode sample_db
  = (Resolved (JStr "ep-1"), sample_db) /\
  snapshots sample_db !! snapshot_id (auto_save (browser 2000) "ep-1" sample_props) = None.
Proof. split; by vm_compute. Qed.

(** The same happens with no injected failure, when the episode is saved
    twice within one millisecond: the second snapshot id is taken. *)
Example save_twice_same_instant :
  saveEpisode (browser 1000) (JObj (set_property sample_props "title" (JStr "Second Draft")))
              sample_db
  = (Resolved (JStr "ep-1"), sample_db).
Proof. by vm_compute. Qed.

(** C6: deleting an id the store does not know resolves; no not-found
    condition is raised. *)
Lemma unknown_id_delete_counterexample :
  episodes sample_db !! "ghost" = None /\
  campaigns sample_db !! "ghost" = None /\
  deleteEpisode (browser 2000) (JStr "ghost") sample_db = (Resolved JUndefined, sample_db) /\
  deleteCampaign (browser 2000) (JStr "ghost") sample_db = (Resolved JUndefined, sample_db).
Proof. repeat split; by vm_compute. Qed.

(** C7: a stored episode with a blank title is exported, and the import of
    that export is refused. *)
Lemma roundtrip_counterexample :
  episodes defective_db !! "ep-bad" = Some (stamped (browser 1000) defective_props) /\
  exportEpisodeToJSON (browser 2000) (JStr "ep-bad") defective_db
  = Resolved (JStr (stringify 2 defective_episode)) /\
  importEpisodeFromJSON (browser 3000) (stringify 2 defective_episode) defective_db
  = (Rejected (Error "Failed to import episode: Episode title is required"), defective_db).
Proof. repeat split; by vm_compute. Qed.

(** The retention scenario, run: 15 auto-saves (instants 1 to 15) and 3
    manual saves, one more save at instant 100; 13 snapshots are left, the
    auto-saves of instants 1 to 6 are gone. *)
Example retention_scenario :
  size (snapshots crowded_db) = 18%nat /\
  size (snapshots (saveEpisode (browser 100) sample_episode crowded_db).2) = 13%nat /\
  map (fun t => bool_decide (is_Some (snapshots
                                        (saveEpisode (browser 100) sample_episode crowded_db).2
                                      !! (stored_snapshot "auto-save" t).1)))
      (map Z.of_nat (seq 1 15))
  = [false; false; false; false; false; false;
     true; true; true; true; true; true; true; true; true] /\
  bool_decide (is_Some (snapshots (saveEpisode (browser 100) sample_episode crowded_db).2
                        !! "ep-1-100")) = true.
Proof. repeat split; by vm_compute. Qed.

End Concrete.

Section Witnesses.
Import JS Db Reference.
Local Open Scope Z_scope.

(** C1 on the defective episode: its import is refused with the title
    violation. *)
Lemma validation_outcomes_witness :
  JSON_parse (browser 1000) (stringify 2 defective_episode) = Some defective_episode /\
  structural_defect defective_episode /\
  exists error,
    validateEpisode defective_episode = Throw error /\
    importEpisodeFromJSON (browser 1000) (stringify 2 defective_episode) empty_db
    = (Rejected (rethrow "Failed to import episode: " error), empty_db).
Proof.
  assert (JSON_parse (browser 1000) (stringify 2 defective_episode) = Some defective_episode)
    as Hparse by (by vm_compute).
  assert (structural_defect defective_episode) as Hdefect.
  { left. exists (JStr " "). by vm_compute. }
  split; [exact Hparse|]. split; [exact Hdefect|].
  destruct (proj1 (validation_outcomes (browser 1000) empty_db _ _ Hparse Hdefect))
    as (error & Hthrow & Himport & _).
  exists error. by split.
Defined.

(** C2 on the sample database: a second save of the sample episode returns
    its id. *)
Lemma save_transaction_outcomes_witness :
  open_error (browser 2000) = None /\
  own_property sample_props "id" = JStr "ep-1" /\
  "ep-1" <> EmptyString /\
  (saveEpisode (browser 2000) sample_episode sample_db).1 = Resolved (JStr "ep-1").
Proof.
  assert ("ep-1" <> EmptyString) as Hkey by done.
  split; [reflexivity|]. split; [reflexivity|]. split; [exact Hkey|].
  exact (proj1 (proj2 (save_transaction_outcomes (browser 2000) sample_db sample_props "ep-1"
                         eq_refl eq_refl Hkey)) eq_refl).
Defined.

(** C5 on the crowded store: 15 auto-saves and 3 manual saves, one more save,
    10 and 3 are left. *)
Lemma retention_after_save_witness :
  storage_works (browser 100) /\
  keyed_by_id crowded_db /\
  own_property sample_props "id" = JStr "ep-1" /\
  "ep-1" <> EmptyString /\
  snapshots crowded_db !! snapshot_id (auto_save (browser 100) "ep-1" sample_props) = None /\
  count_snapshots (snapshots crowded_db) "ep-1" "auto-save" = 15%nat /\
  count_snapshots (snapshots crowded_db) "ep-1" "manual-save" = 3%nat /\
  exists db',
    saveEpisode (browser 100) sample_episode crowded_db = (Resolved (JStr "ep-1"), db') /\
    count_snapshots (snapshots db') "ep-1" "auto-save" = 10%nat /\
    count_snapshots (snapshots db') "ep-1" "manual-save" = 3%nat.
Proof.
  assert ("ep-1" <> EmptyString) as Hkey by done.
  assert (snapshots crowded_db !! snapshot_id (auto_save (browser 100) "ep-1" sample_props)
          = None) as Hfresh by (by vm_compute).
  assert (count_snapshots (snapshots crowded_db) "ep-1" "auto-save" = 15%nat) as H15
    by (by vm_compute).
  assert (count_snapshots (snapshots crowded_db) "ep-1" "manual-save" = 3%nat) as H3
    by (by vm_compute).
  split; [apply browser_works|]. split; [apply crowded_db_keyed|].
  split; [reflexivity|]. split; [exact Hkey|]. split; [exact Hfresh|].
  split; [exact H15|]. split; [exact H3|].
  destruct (retention_after_save (browser 100) (browser_works 100) crowded_db sample_props
              "ep-1" crowded_db_keyed eq_refl Hkey Hfresh)
    as (db' & Hsave & _ & _ & _ & _ & _ & Hscenario).
  exists db'. split; [exact Hsave|].
  destruct (Hscenario H15 H3) as (Hautos & Hmanuals & _). by split.
Defined.

(** C6 on the sample database, for the unknown id [ghost]. *)
Lemma unknown_id_outcomes_witness :
  storage_works (browser 2000) /\
  "ghost" <> EmptyString /\
  episodes sample_db !! "ghost" = None /\
  campaigns sample_db !! "ghost" = None /\
  snapshots sample_db !! "ghost" = None /\
  getEpisode (browser 2000) (JStr "ghost") sample_db = Resolved JNull /\
  restoreEpisodeFromSnapshot (browser 2000) (JStr "ghost") sample_db
  = (Rejected (Error "Snapshot not found"), sample_db) /\
  deleteCampaign (browser 2000) (JStr "ghost") sample_db = (Resolved JUndefined, sample_db).
Proof.
  assert ("ghost" <> EmptyString) as Hkey by done.
  assert (episodes sample_db !! "ghost" = None) as He by (by vm_compute).
  assert (campaigns sample_db !! "ghost" = None) as Hc by (by vm_compute).
  assert (snapshots sample_db !! "ghost" = None) as Hs by (by vm_compute).
  split; [apply browser_works|]. split; [exact Hkey|].
  split; [exact He|]. split; [exact Hc|]. split; [exact Hs|].
  destruct (unknown_id_outcomes (browser 2000) (browser_works 2000) "ghost" sample_db
              Hkey He Hc Hs) as (Hget & _ & Hrestore & _ & Hdelete).
  by repeat split.
Defined.

(** C7 on the sample database: the sample episode is exported at instant
    2000, imported at 3000 and exported again at 4000. *)
Lemma export_import_roundtrip_witness :
  storage_works (browser 2000) /\
  episodes sample_db !! "ep-1" = Some (stamped (browser 1000) sample_props) /\
  own_property (stamped (browser 1000) sample_props) "id" = JStr "ep-1" /\
  "ep-1" <> EmptyString /\
  JSON_parse (browser 2000)
    (JSON_stringify (browser 2000) 2
       (JObj (rest_without "lastModified" (stamped (browser 1000) sample_props))))
  = Some (JObj (rest_without "lastModified" (stamped (browser 1000) sample_props))) /\
  validateEpisode (JObj (stamped (browser 1000) sample_props)) = Return tt /\
  exists db',
    importEpisodeFromJSON (at_time (browser 2000) 3000)
      (JSON_stringify (browser 2000) 2
         (JObj (rest_without "lastModified" (stamped (browser 1000) sample_props))))
      sample_db
    = (Resolved (JStr "ep-1"), db') /\
    exportEpisodeToJSON (at_time (browser 2000) 4000) (JStr "ep-1") db'
    = exportEpisodeToJSON (browser 2000) (JStr "ep-1") sample_db.
Proof.
  assert ("ep-1" <> EmptyString) as Hkey by done.
  assert (episodes sample_db !! "ep-1" = Some (stamped (browser 1000) sample_props))
    as Hstored by (by vm_compute).
  assert (JSON_parse (browser 2000)
            (JSON_stringify (browser 2000) 2
               (JObj (rest_without "lastModified" (stamped (browser 1000) sample_props))))
          = Some (JObj (rest_without "lastModified" (stamped (browser 1000) sample_props))))
    as Hcodec by (by vm_compute).
  assert (validateEpisode (JObj (stamped (browser 1000) sample_props)) = Return tt)
    as Hvalid by (by vm_compute).
  split; [apply browser_works|]. split; [exact Hstored|]. split; [reflexivity|].
  split; [exact Hkey|]. split; [exact Hcodec|]. split; [exact Hvalid|].
  destruct (export_import_roundtrip (browser 2000) (browser_works 2000) sample_db "ep-1"
              (stamped (browser 1000) sample_props) 3000 4000
              Hstored eq_refl Hkey Hcodec)
    as (_ & Hfirst & Hvalid_case & _).
  destruct (Hvalid_case Hvalid) as (db' & Himport & Hsecond).
  exists db'. split; [exact Himport|]. by rewrite Hfirst, Hsecond.
Defined.

(** C8 on the crowded store: deleting the sample episode leaves none of its
    18 snapshots. *)
Lemma delete_cascade_witness :
  storage_works (browser 2000) /\
  keyed_by_id crowded_db /\
  "ep-1" <> EmptyString /\
  exists db',
    deleteEpisode (browser 2000) (JStr "ep-1") crowded_db = (Resolved JUndefined, db') /\
    episodes db' = delete "ep-1" (episodes crowded_db) /\
    campaigns db' = campaigns crowded_db /\
    forall k value, snapshots db' !! k = Some value -> episodeId value <> "ep-1".
Proof.
  assert ("ep-1" <> EmptyString) as Hkey by done.
  split; [apply browser_works|]. split; [apply crowded_db_keyed|]. split; [exact Hkey|].
  destruct (delete_cascade (browser 2000) (browser_works 2000) "ep-1" crowded_db
              crowded_db_keyed Hkey) as [(db' & Hdelete & He & Hc & Hnone & _) _].
  exists db'. by repeat split.
Defined.

End Witnesses.

(* ===================================================================== *)
(** * Listings and recovery *)
(* ===================================================================== *)

Section Listing.
Import JS Db Store.

Variable P : Platform.
Hypothesis Hworks : storage_works P.

(** X1. With a working storage layer, [getEpisodeSnapshots(id)] lists
    exactly the snapshots of that episode (auto-saves and manual saves
    alike), each once, the most recent first; an episode without snapshots
    gives the empty list. *)
Theorem snapshots_listed_newest_first key db :
  keyed_by_id db -> key <> EmptyString ->
  exists infos,
    getEpisodeSnapshots P (JStr key) db = Fulfilled infos /\
    StronglySorted not_older infos /\
    NoDup (map info_id infos) /\
    (forall info, info ∈ infos <->
       exists value, snapshots db !! info_id info = Some value /\
                     episodeId value = key /\ info = info_of value) /\
    ((forall k value, snapshots db !! k = Some value -> episodeId value <> key) ->
     infos = []).
Proof.
  intros [_ Hkeyed] Hkey. destruct Hworks as [Hopen Hrequests].
  eexists. split.
  { unfold getEpisodeSnapshots. rewrite truthy_key by done. simpl.
    by rewrite Hopen, Hrequests. }
  assert (forall info,
            info ∈ sort newest_first (map info_of (snapshots_of (snapshots db) key)) <->
            exists value, snapshots db !! info_id info = Some value /\
                          episodeId value = key /\ info = info_of value) as Helem.
  { intros info. rewrite sort_Permutation, list_elem_of_fmap. split.
    - intros (value & -> & Hin). apply elem_of_snapshots_of in Hin as (k & Hat & Hid).
      exists value. simpl. by rewrite (Hkeyed _ _ Hat).
    - intros (value & Hat & Hid & ->). exists value. split; [done|].
      apply elem_of_snapshots_of. by eexists. }
  split; [apply sort_newest_first|]. split; [|split; [exact Helem|]].
  - rewrite sort_Permutation, <- list_fmap_compose.
    apply NoDup_fmap_2_strong; [|by apply snapshots_of_NoDup].
    intros a b Ha Hb Heq. simpl in Heq.
    apply elem_of_snapshots_of in Ha as (ka & Hka & _).
    apply elem_of_snapshots_of in Hb as (kb & Hkb & _).
    pose proof (Hkeyed _ _ Hka) as Ea. pose proof (Hkeyed _ _ Hkb) as Eb.
    assert (ka = kb) as -> by congruence. congruence.
  - intros Hnone.
    destruct (sort newest_first (map info_of (snapshots_of (snapshots db) key)))
      as [|info rest] eqn:Hlist; [done|].
    assert (info ∈ info :: rest) as Hin by (apply elem_of_cons; by left).
    apply Helem in Hin as (value & Hat & Hid & _). by destruct (Hnone _ _ Hat).
Qed.

End Listing.

(* ===================================================================== *)
(** * What the operations do whatever the storage layer does *)
(* ===================================================================== *)

Section AnyPlatform.
Import JS Db Store.

Variable P : Platform.

Lemma fold_delete_snapshot_aborted {A} (f : A -> string) (items : list A) (t : Txn) :
  aborted t = true ->
  aborted (foldl (fun t item => delete_snapshot P t (f item)) t items) = true.
Proof.
  revert t. induction items as [|item items IH]; intros t Ht; [done|].
  simpl. apply IH. unfold delete_snapshot. by destruct (request_error P _).
Qed.

Lemma fold_delete_snapshot_cases {A} (f : A -> string) (items : list A) (t : Txn) :
  aborted (foldl (fun t item => delete_snapshot P t (f item)) t items) = true \/
  foldl (fun t item => delete_snapshot P t (f item)) t items
  = mkTxn (mkDB (episodes (stores t)) (campaigns (stores t))
                (foldl (fun snaps item => delete (f item) snaps) (snapshots (stores t)) items))
          (aborted t).
Proof.
  destruct (request_error P (Delete SNAPSHOTS_STORE)) as [message|] eqn:Hdelete.
  - destruct items as [|item items]; [right; by destruct t as [[? ? ?] ?]|].
    left. simpl. apply fold_delete_snapshot_aborted.
    unfold delete_snapshot. by rewrite Hdelete.
  - right. revert t. induction items as [|item items IH]; intros [[e c s] a]; simpl; [done|].
    rewrite IH. unfold delete_snapshot. by rewrite Hdelete.
Qed.

Lemma cleanupSnapshots_cases key t :
  aborted (cleanupSnapshots P key t).2 = true \/
  (cleanupSnapshots P key t).2
  = mkTxn (mkDB (episodes (stores t)) (campaigns (stores t))
               (foldl (fun snaps s => delete (info_id s) snaps) (snapshots (stores t))
                      (expired_auto_saves (snapshots (stores t)) key)))
          (aborted t).
Proof.
  unfold cleanupSnapshots, expired_auto_saves, listed_auto_saves.
  destruct (request_error P (OpenCursor SNAPSHOTS_STORE)); [by left|].
  destruct (10 <? _)%nat eqn:Hlen.
  - apply fold_delete_snapshot_cases.
  - right. apply Nat.ltb_ge in Hlen. rewrite drop_ge by done. by destruct t as [[? ? ?] ?].
Qed.

(** A save leaves the database as it was, or commits the stamped record, the
    auto-save and the retention together. *)
Lemma saveEpisode_cases episode db :
  (saveEpisode P episode db).2 = db \/
  exists props key,
    episode = JObj props /\ own_property props "id" = JStr key /\ key <> EmptyString /\
    snapshots db !! snapshot_id (auto_save P key props) = None /\
    saveEpisode P episode db
    = (Resolved (JStr key),
       mkDB (<[key := stamped P props]> (episodes db)) (campaigns db)
            (foldl (fun snaps s => delete (info_id s) snaps)
                   (<[snapshot_id (auto_save P key props) := auto_save P key props]> (snapshots db))
                   (expired_auto_saves
                      (<[snapshot_id (auto_save P key props) := auto_save P key props]>
                         (snapshots db))
                      key))).
Proof.
  destruct episode as [| | | | |items|props]; try by left.
  unfold saveEpisode.
  destruct (truthy (own_property props "id")) eqn:Htruthy; [|by left]. simpl.
  destruct (open_error P); [by left|].
  destruct (own_property props "id") as [| | | |key| |] eqn:Hid; try by left. simpl.
  destruct (request_error P (Put EPISODES_STORE)); [by left|].
  unfold add_snapshot. destruct (request_error P (Add SNAPSHOTS_STORE)); [by left|].
  cbn [stores with_episodes begin snapshots snapshot_id].
  destruct (snapshots db !! (key ++ "-" ++ pretty (now P))) eqn:Hfresh; [by left|].
  match goal with |- context [cleanupSnapshots P key ?t] =>
    destruct (cleanupSnapshots_cases key t) as [Haborted | Hdone] end.
  - left. cbn [snd]. unfold finish. by rewrite Haborted.
  - right. exists props, key. split; [done|]. split; [done|]. split.
    { intros ->. simpl in Htruthy. done. }
    split; [done|]. rewrite Hdone. done.
Qed.

Lemma saveEpisode_rejected episode db reason db' :
  saveEpisode P episode db = (Rejected reason, db') -> db' = db.
Proof.
  destruct (saveEpisode_cases episode db) as [Hsame | (props & key & _ & _ & _ & _ & ->)].
  - intros Heq. rewrite Heq in Hsame. done.
  - done.
Qed.

End AnyPlatform.

Section CountFacts.
Import JS Db Store.

Lemma count_snapshots_subseteq (small large : gmap string Snapshot) episode kind :
  small ⊆ large -> count_snapshots small episode kind <= count_snapshots large episode kind.
Proof. intros Hsub. unfold count_snapshots. by apply map_subseteq_size, map_filter_subseteq_mono. Qed.

Lemma fold_delete_subseteq {A V} (f : A -> string) (items : list A) (m : gmap string V) :
  foldl (fun m item => delete (f item) m) m items ⊆ m.
Proof.
  apply map_subseteq_spec. intros key value. rewrite lookup_fold_delete.
  by case_decide.
Qed.

(** Counting the snapshots of one episode is blind to an insertion for
    another episode or of another type. *)
Lemma count_inserted_unrelated (snaps : gmap string Snapshot) id value episode kind :
  snaps !! id = None ->
  ~ (episodeId value = episode /\ snapshot_type value = kind) ->
  count_snapshots (<[id := value]> snaps) episode kind = count_snapshots snaps episode kind.
Proof.
  intros Hfresh Hother. unfold count_snapshots.
  rewrite map_filter_insert_not'; [done | done | by rewrite Hfresh].
Qed.

Lemma count_retained_unrelated (snaps : gmap string Snapshot) episode other kind :
  (forall key value, snaps !! key = Some value -> snapshot_id value = key) ->
  other <> episode ->
  count_snapshots (foldl (fun snaps s => delete (info_id s) snaps) snaps
                         (expired_auto_saves snaps episode)) other kind
  = count_snapshots snaps other kind.
Proof.
  intros Hkeyed Hother. unfold count_snapshots. f_equal. apply map_eq. intros key.
  apply option_eq. intros value. rewrite !map_lookup_filter_Some, lookup_retained. simpl.
  split; [naive_solver|]. intros [Hat [Hid Htype]]. split; [|done].
  apply lookup_retained, retained_other; [done | done |]. intros [Hsame _]. congruence.
Qed.

End CountFacts.

Section Frames.
Import JS Db Store.

Variable P : Platform.

(** X4. Whatever the storage layer does, saving an episode changes no
    campaign and no other episode, and deletes no snapshot other than
    auto-saves of the episode saved: manual saves and the snapshots of other
    episodes all stay. *)
Theorem save_spares_the_rest episode db :
  keyed_by_id db ->
  campaigns (saveEpisode P episode db).2 = campaigns db /\
  (forall k, get episode "id" <> Return (JStr k) ->
     episodes (saveEpisode P episode db).2 !! k = episodes db !! k) /\
  (forall k value,
     snapshots db !! k = Some value ->
     get episode "id" <> Return (JStr (episodeId value)) \/ snapshot_type value <> "auto-save" ->
     snapshots (saveEpisode P episode db).2 !! k = Some value).
Proof.
  intros [_ Hkeyed].
  destruct (saveEpisode_cases P episode db)
    as [-> | (props & key & -> & Hid & Hkey & Hfresh & ->)]; [done|].
  cbn [snd episodes campaigns snapshots]. split; [done|]. split.
  - intros k Hk. rewrite lookup_insert_ne; [done|]. intros <-. apply Hk. simpl. by rewrite Hid.
  - intros k value Hat Hother. apply retained_other.
    + by apply inserted_keyed.
    + rewrite lookup_insert_ne; [done|]. intros <-. congruence.
    + intros [Hep Hauto]. destruct Hother as [Hother | Hother]; [|done].
      apply Hother. simpl. by rewrite Hid, Hep.
Qed.

Lemma saveEpisode_bounded episode db :
  keyed_by_id db -> bounded_history db -> bounded_history (saveEpisode P episode db).2.
Proof.
  intros [_ Hkeyed] Hbounded.
  destruct (saveEpisode_cases P episode db)
    as [-> | (props & key & -> & Hid & Hkey & Hfresh & ->)]; [done|].
  intros episode. cbn [snd snapshots].
  pose proof (inserted_keyed P (snapshots db) key props Hkeyed) as Hinserted.
  destruct (decide (episode = key)) as [->|Hother].
  - rewrite count_retained_auto_saves by done. lia.
  - rewrite count_retained_unrelated by done.
    rewrite count_inserted_unrelated; [apply Hbounded | done |].
    simpl. intros [Hsame _]. congruence.
Qed.

Lemma saveEpisode_keeps_keys episode db :
  (forall k, is_Some (episodes db !! k) -> is_Some (episodes (saveEpisode P episode db).2 !! k)) /\
  campaigns (saveEpisode P episode db).2 = campaigns db.
Proof.
  destruct (saveEpisode_cases P episode db)
    as [-> | (props & key & -> & Hid & Hkey & Hfresh & ->)]; [done|].
  cbn [snd episodes campaigns]. split; [|done]. intros k Hk.
  destruct (decide (k = key)) as [->|Hne].
  - rewrite lookup_insert_eq. by eexists.
  - by rewrite lookup_insert_ne.
Qed.

Lemma deleteEpisode_frame id db :
  campaigns (deleteEpisode P id db).2 = campaigns db /\
  episodes (deleteEpisode P id db).2 ⊆ episodes db /\
  snapshots (deleteEpisode P id db).2 ⊆ snapshots db.
Proof.
  unfold deleteEpisode.
  destruct (truthy id); [|done]. simpl.
  destruct (open_error P); [done|]. destruct (valid_key id) as [key|]; [|done].
  destruct (request_error P (Delete EPISODES_STORE)); [done|].
  destruct (request_error P (OpenCursor SNAPSHOTS_STORE)); [done|].
  match goal with |- context [foldl ?g ?t ?items] =>
    destruct (fold_delete_snapshot_cases P snapshot_id items t) as [Haborted | Hdone] end.
  - rewrite Haborted. cbn [snd]. unfold finish. by rewrite Haborted.
  - rewrite Hdone. cbn [aborted begin with_episodes snd finish stores episodes campaigns snapshots].
    split; [done|]. split; [apply delete_subseteq | apply fold_delete_subseteq].
Qed.

Lemma deleteEpisode_rejected id db reason db' :
  deleteEpisode P id db = (Rejected reason, db') -> db' = db.
Proof.
  unfold deleteEpisode.
  destruct (truthy id); [|by intros [= _ <-]]. simpl.
  destruct (open_error P); [by intros [= _ <-]|].
  destruct (valid_key id) as [key|]; [|by intros [= _ <-]].
  destruct (request_error P (Delete EPISODES_STORE)); [by intros [= _ <-]|].
  destruct (request_error P (OpenCursor SNAPSHOTS_STORE)); [done|].
  destruct (aborted _) eqn:Haborted; [|done].
  intros [= _ <-]. unfold finish. by rewrite Haborted.
Qed.

Lemma createManualSnapshot_frame episodeId db :
  episodes (createManualSnapshot P episodeId db).2 = episodes db /\
  campaigns (createManualSnapshot P episodeId db).2 = campaigns db /\
  ((createManualSnapshot P episodeId db).2 = db \/
   exists id value,
     snapshots db !! id = None /\ type value = "manual-save" /\
     snapshots (createManualSnapshot P episodeId db).2 = <[id := value]> (snapshots db)).
Proof.
  unfold createManualSnapshot.
  destruct (truthy episodeId); [|by auto]. simpl.
  destruct (getEpisode P episodeId db) as [episode|]; [|by auto].
  destruct (truthy episode); [|by auto]. simpl.
  destruct (open_error P); [by auto|]. destruct (valid_key episodeId) as [key|]; [|by auto].
  unfold add_snapshot. destruct (request_error P (Add SNAPSHOTS_STORE)); [by auto|].
  cbn [stores begin snapshots snapshot_id].
  destruct (snapshots db !! _) eqn:Hfresh; [by auto|].
  cbn [snd finish with_snapshots aborted begin stores episodes campaigns snapshots].
  split; [done|]. split; [done|]. right. eexists _, _. split; [exact Hfresh|]. split; [|reflexivity]. reflexivity.
Qed.

Lemma createManualSnapshot_rejected episodeId db reason db' :
  createManualSnapshot P episodeId db = (Rejected reason, db') -> db' = db.
Proof.
  unfold createManualSnapshot.
  destruct (truthy episodeId); [|by intros [= _ <-]]. simpl.
  destruct (getEpisode P episodeId db) as [episode|]; [|by intros [= _ <-]].
  destruct (truthy episode); [|by intros [= _ <-]]. simpl.
  destruct (open_error P); [by intros [= _ <-]|].
  destruct (valid_key episodeId) as [key|]; [|by intros [= _ <-]].
  destruct (add_snapshot P _ _); [done | by intros [= _ <-]].
Qed.

Lemma restoreEpisodeFromSnapshot_frame snapshotId db :
  snapshots (restoreEpisodeFromSnapshot P snapshotId db).2 = snapshots db /\
  campaigns (restoreEpisodeFromSnapshot P snapshotId db).2 = campaigns db /\
  exists key, forall k, k <> key ->
    episodes (restoreEpisodeFromSnapshot P snapshotId db).2 !! k = episodes db !! k.
Proof.
  assert (forall db' : DB, db' = db ->
            snapshots db' = snapshots db /\ campaigns db' = campaigns db /\
            exists key : string, forall k, k <> key -> episodes db' !! k = episodes db !! k)
    as Hsame.
  { intros db' ->. split; [done|]. split; [done|]. by exists EmptyString. }
  unfold restoreEpisodeFromSnapshot.
  destruct (truthy snapshotId); [|by apply Hsame]. simpl.
  destruct (open_error P); [by apply Hsame|]. destruct (valid_key snapshotId); [|by apply Hsame].
  destruct (request_error P (Get SNAPSHOTS_STORE)); [by apply Hsame|].
  destruct (snapshots db !! _) as [found|]; [|by apply Hsame].
  destruct (JSON_parse P (data found)) as [[| | | | | |props]|]; try by apply Hsame.
  destruct (valid_key _) as [episode_key|] eqn:Hkey; [|by apply Hsame].
  destruct (request_error P (Put EPISODES_STORE)); [by apply Hsame|].
  cbn [snd finish with_episodes aborted begin stores episodes campaigns snapshots].
  split; [done|]. split; [done|]. exists episode_key. intros k Hk.
  by rewrite lookup_insert_ne.
Qed.

Lemma restoreEpisodeFromSnapshot_rejected snapshotId db reason db' :
  restoreEpisodeFromSnapshot P snapshotId db = (Rejected reason, db') -> db' = db.
Proof.
  unfold restoreEpisodeFromSnapshot.
  destruct (truthy snapshotId); [|by intros [= _ <-]]. simpl.
  destruct (open_error P); [by intros [= _ <-]|].
  destruct (valid_key snapshotId); [|by intros [= _ <-]].
  destruct (request_error P (Get SNAPSHOTS_STORE)); [by intros [= _ <-]|].
  destruct (snapshots db !! _) as [found|]; [|by intros [= _ <-]].
  destruct (JSON_parse P (data found)) as [[| | | | | |props]|]; try by intros [= _ <-].
  destruct (valid_key _) as [episode_key|] eqn:Hkey; [|by intros [= _ <-]].
  destruct (request_error P (Put EPISODES_STORE)); [by intros [= _ <-] | done].
Qed.

Lemma saveCampaign_cases campaign db :
  (saveCampaign P campaign db).2 = db /\
  (forall value, (saveCampaign P campaign db).1 <> Resolved value) \/
  exists props key,
    campaign = JObj props /\ own_property props "id" = JStr key /\ key <> EmptyString /\
    saveCampaign P campaign db
    = (Resolved (JStr key),
       mkDB (episodes db) (<[key := stamped P props]> (campaigns db)) (snapshots db)).
Proof.
  destruct campaign as [| | | | |items|props]; try by left.
  unfold saveCampaign.
  destruct (truthy (own_property props "id")) eqn:Htruthy; [|by left]. simpl.
  destruct (open_error P); [by left|].
  destruct (own_property props "id") as [| | | |key| |] eqn:Hid; try by left. simpl.
  destruct (request_error P (Put CAMPAIGNS_STORE)); [by left|].
  right. exists props, key. split; [done|]. split; [done|]. split; [|done].
  intros ->. simpl in Htruthy. done.
Qed.

Lemma saveCampaign_frame campaign db :
  episodes (saveCampaign P campaign db).2 = episodes db /\
  snapshots (saveCampaign P campaign db).2 = snapshots db /\
  (forall k, is_Some (campaigns db !! k) ->
             is_Some (campaigns (saveCampaign P campaign db).2 !! k)).
Proof.
  destruct (saveCampaign_cases campaign db)
    as [[-> _] | (props & key & -> & Hid & Hkey & ->)]; [done|].
  cbn [snd episodes campaigns snapshots]. split; [done|]. split; [done|]. intros k Hk.
  destruct (decide (k = key)) as [->|Hne].
  - rewrite lookup_insert_eq. by eexists.
  - by rewrite lookup_insert_ne.
Qed.

Lemma saveCampaign_rejected campaign db reason db' :
  saveCampaign P campaign db = (Rejected reason, db') -> db' = db.
Proof.
  destruct (saveCampaign_cases campaign db)
    as [[Hsame _] | (props & key & _ & _ & _ & ->)]; [|done].
  intros Heq. by rewrite Heq in Hsame.
Qed.

Lemma deleteCampaign_frame id db :
  episodes (deleteCampaign P id db).2 = episodes db /\
  snapshots (deleteCampaign P id db).2 = snapshots db.
Proof.
  unfold deleteCampaign.
  destruct (truthy id); [|done]. simpl.
  destruct (open_error P); [done|]. destruct (valid_key id) as [key|]; [|done].
  by destruct (request_error P (Delete CAMPAIGNS_STORE)).
Qed.

Lemma deleteCampaign_rejected id db reason db' :
  deleteCampaign P id db = (Rejected reason, db') -> db' = db.
Proof.
  unfold deleteCampaign.
  destruct (truthy id); [|by intros [= _ <-]]. simpl.
  destruct (open_error P); [by intros [= _ <-]|].
  destruct (valid_key id) as [key|]; [|by intros [= _ <-]].
  destruct (request_error P (Delete CAMPAIGNS_STORE)); [by intros [= _ <-] | done].
Qed.

(** An import is the save of the parsed document, or leaves the database as
    it was. *)
Lemma importEpisodeFromJSON_cases jsonString db :
  (importEpisodeFromJSON P jsonString db).2 = db \/
  exists episode,
    JSON_parse P jsonString = Some episode /\ validateEpisode episode = Return tt /\
    (importEpisodeFromJSON P jsonString db).2 = (saveEpisode P episode db).2.
Proof.
  unfold importEpisodeFromJSON.
  destruct (JSON_parse P jsonString) as [episode|]; [|by left].
  destruct (validateEpisode episode) as [[]|] eqn:Hvalid; [|by left].
  right. exists episode. split; [done|]. split; [done|].
  by destruct (saveEpisode P episode db) as [[|] ?].
Qed.

Lemma importCampaignFromJSON_cases jsonString db :
  (importCampaignFromJSON P jsonString db).2 = db \/
  exists campaign,
    JSON_parse P jsonString = Some campaign /\ validateCampaign campaign = Return tt /\
    (importCampaignFromJSON P jsonString db).2 = (saveCampaign P campaign db).2.
Proof.
  unfold importCampaignFromJSON.
  destruct (JSON_parse P jsonString) as [campaign|]; [|by left].
  destruct (validateCampaign campaign) as [[]|] eqn:Hvalid; [|by left].
  right. exists campaign. split; [done|]. split; [done|].
  by destruct (saveCampaign P campaign db) as [[|] ?].
Qed.

Lemma importEpisodeFromJSON_rejected jsonString db reason db' :
  importEpisodeFromJSON P jsonString db = (Rejected reason, db') -> db' = db.
Proof.
  unfold importEpisodeFromJSON.
  destruct (JSON_parse P jsonString) as [episode|]; [|by intros [= _ <-]].
  destruct (validateEpisode episode) as [[]|]; [|by intros [= _ <-]].
  destruct (saveEpisode P episode db) as [[value|error] db''] eqn:Hsave; [done|].
  intros [= _ <-]. by eapply saveEpisode_rejected.
Qed.

Lemma importCampaignFromJSON_rejected jsonString db reason db' :
  importCampaignFromJSON P jsonString db = (Rejected reason, db') -> db' = db.
Proof.
  unfold importCampaignFromJSON.
  destruct (JSON_parse P jsonString) as [campaign|]; [|by intros [= _ <-]].
  destruct (validateCampaign campaign) as [[]|]; [|by intros [= _ <-]].
  destruct (saveCampaign P campaign db) as [[value|error] db''] eqn:Hsave; [done|].
  intros [= _ <-]. by eapply saveCampaign_rejected.
Qed.

End Frames.

Section RestoreLoop.
Import JS Db Store.

Lemma await_each_invariant (I : DB -> Prop) save clock step items db :
  (forall t item db, I db -> I (save t item db).2) ->
  I db -> I (await_each save clock step items db).2.
Proof.
  intros Hsave. revert step db. induction items as [|item rest IH]; intros step db Hdb; [done|].
  simpl. pose proof (Hsave (clock step) item db Hdb) as Hnext.
  destruct (save (clock step) item db) as [[value|error] db']; [by apply IH | done].
Qed.

Lemma restoreFromBackup_invariant (I : DB -> Prop) P clock backupJson db :
  (forall t episode db, I db -> I (saveEpisode (at_time P t) episode db).2) ->
  (forall t campaign db, I db -> I (saveCampaign (at_time P t) campaign db).2) ->
  I db -> I (restoreFromBackup P clock backupJson db).2.
Proof.
  intros Hepisode Hcampaign Hdb. unfold restoreFromBackup.
  destruct (JSON_parse P backupJson) as [backup|]; [|done].
  destruct (get backup "episodes") as [episodes|]; [|done].
  destruct (get backup "campaigns") as [campaigns|]; [|done].
  destruct (negb (truthy episodes) || negb (truthy campaigns)); [done|].
  destruct (iterate episodes) as [items|]; [|done].
  pose proof (await_each_invariant I (fun t => saveEpisode (at_time P t)) clock 0 items db
                Hepisode Hdb) as Hloop.
  destruct (await_each _ clock 0 items db) as [[[]|error] db']; [|done].
  destruct (iterate campaigns) as [more|]; [|done].
  pose proof (await_each_invariant I (fun t => saveCampaign (at_time P t)) clock
                (length items) more db' Hcampaign Hloop) as Hloop'.
  by destruct (await_each _ clock (length items) more db') as [[[]|error] db''].
Qed.

End RestoreLoop.

(* ===================================================================== *)
(** * Invariants of a session *)
(* ===================================================================== *)

Section SessionInvariants.
Import JS Db Store.

Lemma keyed_same_stores db db' :
  episodes db' = episodes db -> snapshots db' = snapshots db ->
  keyed_by_id db -> keyed_by_id db'.
Proof. intros He Hs [? ?]. split; by rewrite ?He, ?Hs. Qed.

Lemma bounded_same_snapshots db db' :
  snapshots db' = snapshots db -> bounded_history db -> bounded_history db'.
Proof. intros Hs Hbounded episode. rewrite Hs. apply Hbounded. Qed.

Lemma bounded_subseteq db db' :
  snapshots db' ⊆ snapshots db -> bounded_history db -> bounded_history db'.
Proof.
  intros Hsub Hbounded episode.
  etrans; [by apply count_snapshots_subseteq | apply Hbounded].
Qed.

(** The two invariants together: records sit under their own id, and no
    episode has more than ten auto-saves. *)
Local Abbreviation sound db := (keyed_by_id db /\ bounded_history db).

Lemma saveEpisode_sound P episode db : sound db -> sound (saveEpisode P episode db).2.
Proof.
  intros [Hkeyed Hbounded]. split; [by apply saveEpisode_keyed_any | by apply saveEpisode_bounded].
Qed.

Lemma saveCampaign_sound P campaign db : sound db -> sound (saveCampaign P campaign db).2.
Proof.
  intros [Hkeyed Hbounded]. destruct (saveCampaign_frame P campaign db) as (He & Hs & _).
  split; [by eapply keyed_same_stores | by eapply bounded_same_snapshots].
Qed.

Lemma perform_sound P op db : sound db -> sound (perform P op db).2.
Proof.
  intros Hsound. pose proof Hsound as [Hkeyed Hbounded].
  destruct op as [episode|id|episodeId|snapshotId|jsonString|campaign|id|jsonString
                  |clock backupJson]; cbn [perform].
  - by apply saveEpisode_sound.
  - split; [by apply deleteEpisode_keyed|].
    destruct (deleteEpisode_frame P id db) as (_ & _ & Hsub). by eapply bounded_subseteq.
  - split; [by apply createManualSnapshot_keyed|].
    destruct (createManualSnapshot_frame P episodeId db)
      as (_ & _ & [-> | (sid & value & Hfresh & Htype & Hsnaps)]); [done|].
    intros episode. rewrite Hsnaps, count_inserted_unrelated; [apply Hbounded | done |].
    unfold snapshot_type, info_of. simpl. rewrite Htype. simpl. by intros [_ ?].
  - split; [by apply restoreEpisodeFromSnapshot_keyed|].
    destruct (restoreEpisodeFromSnapshot_frame P snapshotId db) as (Hs & _).
    by eapply bounded_same_snapshots.
  - destruct (importEpisodeFromJSON_cases P jsonString db) as [-> | (episode & _ & _ & ->)];
      [done | by apply saveEpisode_sound].
  - by apply saveCampaign_sound.
  - destruct (deleteCampaign_frame P id db) as (He & Hs).
    split; [by eapply keyed_same_stores | by eapply bounded_same_snapshots].
  - destruct (importCampaignFromJSON_cases P jsonString db) as [-> | (campaign & _ & _ & ->)];
      [done | by apply saveCampaign_sound].
  - apply (restoreFromBackup_invariant (fun db => sound db)); [| | done].
    + intros t episode db'. apply saveEpisode_sound.
    + intros t campaign db'. apply saveCampaign_sound.
Qed.

(** X2. Over any session (any calls of the writing operations, in any
    order, with any arguments, the storage layer failing when and where it
    likes), a database in which every record sits under its own id and no
    episode has more than ten auto-saves stays so. *)
Theorem session_keeps_history_bounded calls db :
  keyed_by_id db -> bounded_history db ->
  keyed_by_id (session calls db) /\ bounded_history (session calls db).
Proof.
  intros Hkeyed Hbounded. unfold session.
  assert (sound db) as Hsound by done. clear Hkeyed Hbounded.
  revert db Hsound. induction calls as [|[P op] calls IH]; intros db Hsound; [done|].
  simpl. by apply IH, perform_sound.
Qed.

(** X3. A call that rejects leaves the database as it was: no operation but
    [restoreFromBackup] (whose saves are separate transactions) commits part
    of its work and then fails. *)
Theorem rejected_call_changes_nothing P op db reason db' :
  (forall clock backupJson, op <> RestoreFromBackup clock backupJson) ->
  perform P op db = (Rejected reason, db') ->
  db' = db.
Proof.
  intros Hop.
  destruct op as [episode|id|episodeId|snapshotId|jsonString|campaign|id|jsonString
                  |clock backupJson]; cbn [perform].
  - apply saveEpisode_rejected.
  - apply deleteEpisode_rejected.
  - apply createManualSnapshot_rejected.
  - apply restoreEpisodeFromSnapshot_rejected.
  - apply importEpisodeFromJSON_rejected.
  - apply saveCampaign_rejected.
  - apply deleteCampaign_rejected.
  - apply importCampaignFromJSON_rejected.
  - by destruct (Hop clock backupJson).
Qed.

End SessionInvariants.

Section StoreFrames.
Import JS Db Store.

Variable P : Platform.
Variable db : DB.

(** X5. Whatever the storage layer does and whatever the argument:
    [deleteEpisode] changes no campaign and adds no record;
    [createManualSnapshot] changes no episode and no campaign and removes no
    snapshot; [restoreEpisodeFromSnapshot] changes no snapshot, no campaign
    and at most one episode; [saveCampaign], [importCampaignFromJSON] and
    [deleteCampaign] change no episode and no snapshot. *)
Theorem operations_keep_to_their_stores :
  (forall id,
     campaigns (deleteEpisode P id db).2 = campaigns db /\
     episodes (deleteEpisode P id db).2 ⊆ episodes db /\
     snapshots (deleteEpisode P id db).2 ⊆ snapshots db) /\
  (forall episodeId,
     episodes (createManualSnapshot P episodeId db).2 = episodes db /\
     campaigns (createManualSnapshot P episodeId db).2 = campaigns db /\
     snapshots db ⊆ snapshots (createManualSnapshot P episodeId db).2) /\
  (forall snapshotId,
     snapshots (restoreEpisodeFromSnapshot P snapshotId db).2 = snapshots db /\
     campaigns (restoreEpisodeFromSnapshot P snapshotId db).2 = campaigns db /\
     exists key, forall k, k <> key ->
       episodes (restoreEpisodeFromSnapshot P snapshotId db).2 !! k = episodes db !! k) /\
  (forall campaign,
     episodes (saveCampaign P campaign db).2 = episodes db /\
     snapshots (saveCampaign P campaign db).2 = snapshots db) /\
  (forall jsonString,
     episodes (importCampaignFromJSON P jsonString db).2 = episodes db /\
     snapshots (importCampaignFromJSON P jsonString db).2 = snapshots db) /\
  (forall id,
     episodes (deleteCampaign P id db).2 = episodes db /\
     snapshots (deleteCampaign P id db).2 = snapshots db).
Proof.
  split; [|split; [|split; [|split; [|split]]]].
  - intros id. apply deleteEpisode_frame.
  - intros episodeId.
    destruct (createManualSnapshot_frame P episodeId db)
      as (He & Hc & [-> | (id & value & Hfresh & _ & ->)]); [done|].
    split; [done|]. split; [done|]. by apply insert_subseteq.
  - intros snapshotId. apply restoreEpisodeFromSnapshot_frame.
  - intros campaign. destruct (saveCampaign_frame P campaign db) as (? & ? & _). done.
  - intros jsonString.
    destruct (importCampaignFromJSON_cases P jsonString db) as [-> | (campaign & _ & _ & ->)];
      [done|].
    destruct (saveCampaign_frame P campaign db) as (? & ? & _). done.
  - intros id. apply deleteCampaign_frame.
Qed.

End StoreFrames.

(* ===================================================================== *)
(** * Recovery: snapshots bring an episode back *)
(* ===================================================================== *)

Section Recovery.
Import JS Db Store.

Variable P : Platform.
Hypothesis Hworks : storage_works P.

Lemma append_not_empty (a b : string) : a <> EmptyString -> a ++ b <> EmptyString.
Proof. by destruct a. Qed.

Lemma set_property_twice props name v w :
  set_property (set_property props name v) name w = set_property props name w.
Proof.
  induction props as [|[k x] rest IH]; simpl.
  - by rewrite decide_True.
  - destruct (decide (k = name)) as [->|Hne]; simpl.
    + by rewrite decide_True.
    + rewrite decide_False by done. by rewrite IH.
Qed.

(** Restoring a stored snapshot whose data parses to an episode. *)
Lemma restore_stored_snapshot t db snapshotId found props key :
  snapshotId <> EmptyString ->
  snapshots db !! snapshotId = Some found ->
  JSON_parse P (data found) = Some (JObj props) ->
  own_property props "id" = JStr key ->
  restoreEpisodeFromSnapshot (at_time P t) (JStr snapshotId) db
  = (Resolved (JStr key),
     mkDB (<[key := stamped (at_time P t) props]> (episodes db)) (campaigns db) (snapshots db)).
Proof.
  intros Hid Hfound Hparse Hkey. destruct Hworks as [Hopen Hrequests].
  unfold restoreEpisodeFromSnapshot. rewrite truthy_key by done.
  cbn [negb open_error at_time valid_key request_error JSON_parse toISOString now].
  rewrite Hopen, !Hrequests, Hfound, Hparse.
  rewrite own_property_set_other by done. rewrite Hkey. done.
Qed.

(** X6. A manual snapshot brings the episode back. With a working storage
    layer and a JSON codec that reads the stored episode back,
    [createManualSnapshot] adds one snapshot and nothing else; whatever
    happens to the episode afterwards (edited, deleted), as long as that
    snapshot is still stored, [restoreEpisodeFromSnapshot] puts the episode
    record back as it was when the snapshot was taken, with a new
    [lastModified], and touches nothing else. *)
Theorem manual_snapshot_restores db key props t_restore :
  episodes db !! key = Some props ->
  own_property props "id" = JStr key ->
  key <> EmptyString ->
  JSON_parse P (JSON_stringify P 0 (JObj props)) = Some (JObj props) ->
  snapshots db !! (key ++ "-manual-" ++ pretty (now P)) = None ->
  exists snapshotId saved,
    createManualSnapshot P (JStr key) db
    = (Resolved (JStr snapshotId),
       mkDB (episodes db) (campaigns db) (<[snapshotId := saved]> (snapshots db))) /\
    episodeId saved = key /\ type saved = "manual-save" /\ timestamp saved = now P /\
    forall later,
      snapshots later !! snapshotId = Some saved ->
      restoreEpisodeFromSnapshot (at_time P t_restore) (JStr snapshotId) later
      = (Resolved (JStr key),
         mkDB (<[key := set_property props "lastModified" (JStr (toISOString P t_restore))]>
                 (episodes later))
              (campaigns later) (snapshots later)).
Proof.
  intros Hstored Hid Hkey Hcodec Hfresh. pose proof Hworks as [Hopen Hrequests].
  eexists _, _. split; [|split; [|split; [|split]]].
  - unfold createManualSnapshot, getEpisode. rewrite truthy_key by done. simpl.
    rewrite Hopen, Hrequests, Hstored. simpl. unfold add_snapshot.
    rewrite Hrequests. cbn [stores begin snapshots snapshot_id]. rewrite Hfresh. done.
  - done.
  - done.
  - done.
  - intros later Hlater.
    exact (restore_stored_snapshot t_restore later _ _ props key
             (append_not_empty _ _ Hkey) Hlater Hcodec Hid).
Qed.

(** X7. An auto-save brings the episode back, too. After a save that
    commits its auto-save (working storage, a codec that reads the stamped
    record back), restoring that auto-save at a later instant, whatever
    became of the episode in between, stores the record a save of the same
    episode at that instant would store. *)
Theorem auto_save_restores db key props t_restore :
  keyed_by_id db ->
  own_property props "id" = JStr key ->
  key <> EmptyString ->
  JSON_parse P (JSON_stringify P 0 (JObj (stamped P props))) = Some (JObj (stamped P props)) ->
  snapshots db !! snapshot_id (auto_save P key props) = None ->
  count_snapshots (snapshots db) key "auto-save" < 10 ->
  exists db',
    saveEpisode P (JObj props) db = (Resolved (JStr key), db') /\
    snapshots db' !! snapshot_id (auto_save P key props) = Some (auto_save P key props) /\
    forall later,
      snapshots later !! snapshot_id (auto_save P key props) = Some (auto_save P key props) ->
      restoreEpisodeFromSnapshot (at_time P t_restore)
        (JStr (snapshot_id (auto_save P key props))) later
      = (Resolved (JStr key),
         mkDB (<[key := stamped (at_time P t_restore) props]> (episodes later))
              (campaigns later) (snapshots later)).
Proof.
  intros [_ Hkeyed] Hid Hkey Hcodec Hfresh Hcount.
  eexists. split; [by apply saveEpisode_works|]. cbn [snapshots]. split.
  - rewrite nothing_expires; [apply lookup_insert_eq | by apply inserted_keyed |].
    rewrite (count_inserted_auto_save P (snapshots db) key props) by done. lia.
  - intros later Hlater.
    assert (own_property (stamped P props) "id" = JStr key) as Hid'
      by (unfold stamped; by rewrite own_property_set_other).
    etrans; [exact (restore_stored_snapshot t_restore later _ _ (stamped P props) key
                      (append_not_empty _ _ Hkey) Hlater Hcodec Hid')|].
    unfold stamped. by rewrite set_property_twice.
Qed.

End Recovery.

(* ===================================================================== *)
(** * Campaigns *)
(* ===================================================================== *)

Section Campaigns.
Import JS Db Store.

Variable P : Platform.
Hypothesis Hworks : storage_works P.

Lemma own_property_set_same props name v :
  own_property (set_property props name v) name = v.
Proof.
  induction props as [|[k w] rest IH]; cbn [set_property own_property].
  - by rewrite decide_True.
  - destruct (decide (k = name)) as [->|Hne]; cbn [own_property].
    + by rewrite decide_True.
    + by rewrite decide_False.
Qed.

Lemma saveCampaign_works props key db :
  own_property props "id" = JStr key ->
  key <> EmptyString ->
  saveCampaign P (JObj props) db
  = (Resolved (JStr key),
     mkDB (episodes db) (<[key := stamped P props]> (campaigns db)) (snapshots db)).
Proof.
  intros Hid Hkey. destruct Hworks as [Hopen Hrequests].
  unfold saveCampaign. rewrite Hid, truthy_key by done. simpl.
  by rewrite Hopen, Hrequests.
Qed.

Lemma getCampaign_works key db :
  key <> EmptyString ->
  getCampaign P (JStr key) db
  = Resolved (match campaigns db !! key with Some props => JObj props | None => JNull end).
Proof.
  intros Hkey. destruct Hworks as [Hopen Hrequests].
  unfold getCampaign. rewrite truthy_key by done. simpl.
  rewrite Hopen, Hrequests. by destruct (campaigns db !! key).
Qed.

(** X8. With a working storage layer, [saveCampaign] stores the campaign
    under its id whether it passes [validateCampaign] or not: [getCampaign]
    then returns the record that was saved, with its [lastModified] stamp and
    every other property as given; a second save under the same id replaces
    the first; the other campaigns read as before. *)
Theorem campaign_save_then_get db props key :
  own_property props "id" = JStr key ->
  key <> EmptyString ->
  exists db',
    saveCampaign P (JObj props) db = (Resolved (JStr key), db') /\
    getCampaign P (JStr key) db' = Resolved (JObj (stamped P props)) /\
    own_property (stamped P props) "lastModified" = JStr (toISOString P (now P)) /\
    (forall name, name <> "lastModified" ->
       own_property (stamped P props) name = own_property props name) /\
    (forall other, other <> key ->
       getCampaign P (JStr other) db' = getCampaign P (JStr other) db) /\
    (forall t props',
       own_property props' "id" = JStr key ->
       exists db'',
         saveCampaign (at_time P t) (JObj props') db' = (Resolved (JStr key), db'') /\
         getCampaign P (JStr key) db'' = Resolved (JObj (stamped (at_time P t) props')) /\
         size (campaigns db'') = size (campaigns db')).
Proof.
  intros Hid Hkey. eexists. split; [by apply saveCampaign_works|].
  split; [|split; [|split; [|split]]].
  - rewrite getCampaign_works by done. cbn [campaigns]. by rewrite lookup_insert_eq.
  - apply own_property_set_same.
  - intros name Hname. unfold stamped. by rewrite own_property_set_other.
  - intros other Hother. destruct (decide (other = EmptyString)) as [->|Hne]; [done|].
    rewrite !getCampaign_works by done. cbn [campaigns]. by rewrite lookup_insert_ne.
  - intros t props' Hid'. eexists. split.
    + unfold saveCampaign. rewrite Hid', truthy_key by done. simpl.
      destruct Hworks as [Hopen Hrequests]. by rewrite Hopen, Hrequests.
    + split.
      * rewrite getCampaign_works by done. cbn [campaigns finish with_campaigns begin stores aborted].
        by rewrite lookup_insert_eq.
      * cbn [campaigns finish with_campaigns begin stores aborted].
        rewrite !map_size_insert, lookup_insert_eq. done.
Qed.

End Campaigns.

Section CampaignRoundTrip.
Import JS Db Store.

Variable P : Platform.
Hypothesis Hworks : storage_works P.

Variable db : DB.
Variable key : string.
Variable props : list (string * jsval).

(** [const { lastModified, ...exportCampaign } = campaign] *)
Local Abbreviation exportCampaign := (rest_without "lastModified" props).

Lemma validateCampaign_export :
  validateCampaign (JObj exportCampaign) = validateCampaign (JObj props).
Proof.
  unfold validateCampaign, get. by rewrite !own_property_rest_other.
Qed.

(** X9. Campaigns travel through export and import. For a stored campaign
    that passes [validateCampaign], on a platform whose JSON codec reads back
    what it printed: the export holds no [lastModified] property; importing it
    (at any instant) succeeds, stores the exported properties with a new
    stamp, and changes no episode and no snapshot; exporting again gives the
    very same text. *)
Theorem campaign_export_import_roundtrip t_import t_export :
  campaigns db !! key = Some props ->
  own_property props "id" = JStr key ->
  key <> EmptyString ->
  JSON_parse P (JSON_stringify P 2 (JObj exportCampaign)) = Some (JObj exportCampaign) ->
  validateCampaign (JObj props) = Return tt ->
  ("lastModified" ∉ map fst exportCampaign) /\
  exportCampaignToJSON P (JStr key) db
  = Resolved (JStr (JSON_stringify P 2 (JObj exportCampaign))) /\
  importCampaignFromJSON (at_time P t_import) (JSON_stringify P 2 (JObj exportCampaign)) db
  = (Resolved (JStr key),
     mkDB (episodes db)
          (<[key := stamped (at_time P t_import) exportCampaign]> (campaigns db))
          (snapshots db)) /\
  exportCampaignToJSON (at_time P t_export) (JStr key)
    (importCampaignFromJSON (at_time P t_import)
       (JSON_stringify P 2 (JObj exportCampaign)) db).2
  = Resolved (JStr (JSON_stringify P 2 (JObj exportCampaign))).
Proof.
  intros Hstored Hid Hkey Hcodec Hvalid. pose proof Hworks as [Hopen Hrequests].
  rewrite <- validateCampaign_export in Hvalid.
  assert (own_property exportCampaign "id" = JStr key) as Hid'
    by (by rewrite own_property_rest_other).
  assert (importCampaignFromJSON (at_time P t_import)
            (JSON_stringify P 2 (JObj exportCampaign)) db
          = (Resolved (JStr key),
             mkDB (episodes db)
                  (<[key := stamped (at_time P t_import) exportCampaign]> (campaigns db))
                  (snapshots db))) as Himport.
  { unfold importCampaignFromJSON. cbn [JSON_parse at_time]. rewrite Hcodec, Hvalid.
    by rewrite (saveCampaign_works (at_time P t_import)
                  (storage_works_at_time P t_import Hworks) exportCampaign key db). }
  split; [apply rest_without_absent|]. split; [|split; [exact Himport|]].
  - unfold exportCampaignToJSON. rewrite truthy_key by done. cbn [negb].
    rewrite getCampaign_works by done. by rewrite Hstored.
  - rewrite Himport. cbn [snd].
    unfold exportCampaignToJSON. rewrite truthy_key by done. cbn [negb].
    rewrite (getCampaign_works (at_time P t_export)
               (storage_works_at_time P t_export Hworks)) by done.
    cbn [campaigns]. rewrite lookup_insert_eq. cbn [JSON_stringify at_time].
    unfold stamped. by rewrite rest_without_set, rest_without_idemp.
Qed.

End CampaignRoundTrip.

(* ===================================================================== *)
(** * Snapshot ids *)
(* ===================================================================== *)

Section SnapshotIds.
Import Store.

Lemma pretty_N_go_dashless x s : dashless s -> dashless (pretty_N_go x s).
Proof.
  revert s. induction (N.lt_wf_0 x) as [x _ IH]; intros s Hs.
  assert (x = 0 \/ 0 < x)%N as [->|Hpos] by lia.
  - by rewrite pretty_N_go_0.
  - rewrite pretty_N_go_step by done. apply IH; [by apply N.div_lt|].
    split; [|done]. unfold pretty_N_char. by repeat case_match.
Qed.

Lemma pretty_Z_dashless (t : Z) : (0 <= t)%Z -> dashless (pretty t).
Proof.
  intros Ht. destruct t as [|p|p]; [by repeat split | | lia].
  unfold pretty, pretty_Z, pretty, pretty_positive, pretty, pretty_N.
  case_decide; [done|]. by apply pretty_N_go_dashless.
Qed.

(** The text after the last dash determines the text before it. *)
Lemma dash_suffix_inj (a b u v : string) :
  dashless u -> dashless v ->
  a ++ String "-" u = b ++ String "-" v -> a = b /\ u = v.
Proof.
  assert (forall w x, dashless (w ++ String "-" x) -> False) as Hdash.
  { intros w x. induction w as [|e w IH]; [by intros [? _] | by intros [_ ?]]. }
  intros Hu Hv. revert b. induction a as [|c a IH]; intros [|d b] Heq.
  - by injection Heq.
  - change (String "-" u = String d (b ++ String "-" v)) in Heq.
    injection Heq as _ Heq. rewrite Heq in Hu. by destruct (Hdash _ _ Hu).
  - change (String c (a ++ String "-" u) = String "-" v) in Heq.
    injection Heq as _ Heq. rewrite <- Heq in Hv. by destruct (Hdash _ _ Hv).
  - change (String c (a ++ String "-" u) = String d (b ++ String "-" v)) in Heq.
    injection Heq as -> Heq. apply IH in Heq as [-> ->]. done.
Qed.

(** Two auto-saves carry the same id only if they are of the same episode
    and the same instant. *)
Lemma auto_save_id_inj (key key' : string) (t t' : Z) :
  (0 <= t)%Z -> (0 <= t')%Z ->
  key ++ "-" ++ pretty t = key' ++ "-" ++ pretty t' -> key = key' /\ t = t'.
Proof.
  intros Ht Ht' Heq.
  change (key ++ String "-" (pretty t) = key' ++ String "-" (pretty t')) in Heq.
  apply dash_suffix_inj in Heq as [-> Heq]; [|by apply pretty_Z_dashless..].
  split; [done|]. by apply (inj pretty).
Qed.

End SnapshotIds.

(* ===================================================================== *)
(** * Backup and restore *)
(* ===================================================================== *)

Section RestoreLoops.
Import JS Db Store.

Variable P : Platform.
Hypothesis Hworks : storage_works P.

Variable clock : nat -> Z.
Hypothesis Hclock : forall step, (0 <= clock step)%Z.

(** The episode loop over records with distinct ids whose auto-save ids are
    free: each one is stored, nothing else changes. *)
Lemma await_each_episodes (records : list (string * list (string * jsval))) step db :
  NoDup (map fst records) ->
  (forall r, r ∈ records -> r.1 <> EmptyString /\ own_property r.2 "id" = JStr r.1) ->
  (forall i r, records !! i = Some r ->
     snapshots db !! (r.1 ++ "-" ++ pretty (clock (step + i))) = None) ->
  exists db',
    await_each (fun t => saveEpisode (at_time P t)) clock step
               (map (fun r => JObj r.2) records) db = (Return tt, db') /\
    campaigns db' = campaigns db /\
    (forall i r, records !! i = Some r ->
       episodes db' !! r.1 = Some (stamped (at_time P (clock (step + i))) r.2)) /\
    (forall k, k ∉ map fst records -> episodes db' !! k = episodes db !! k).
Proof.
  revert step db. induction records as [|r rest IH]; intros step db Hnodup Hvalid Hfresh.
  { exists db. split; [done|]. split; [done|]. split; [|done]. by intros i r. }
  apply NoDup_cons in Hnodup as [Hr Hnodup].
  destruct (Hvalid r) as [Hkey Hid]; [apply elem_of_cons; by left|].
  pose proof (Hfresh 0 r eq_refl) as Hfresh0. rewrite Nat.add_0_r in Hfresh0.
  cbn [map await_each].
  rewrite (saveEpisode_works (at_time P (clock step))
             (storage_works_at_time P (clock step) Hworks) r.2 r.1 db Hid Hkey Hfresh0).
  match goal with |- context [await_each _ _ _ _ ?db1] =>
    destruct (IH (S step) db1) as (db' & Hloop & Hcampaigns & Hstored & Hframe) end.
  - done.
  - intros r' Hr'. apply Hvalid, elem_of_cons. by right.
  - intros i r' Hat. cbn [snapshots].
    eapply lookup_weaken_None; [|apply fold_delete_subseteq].
    rewrite lookup_insert_ne.
    + replace (S step + i) with (step + S i) by lia. by apply (Hfresh (S i) r').
    + cbn [snapshot_id auto_save now at_time]. intros Heq.
      apply auto_save_id_inj in Heq as [Heq _]; [|done..].
      apply Hr. rewrite Heq. apply list_elem_of_fmap. exists r'. split; [done|].
      by eapply list_elem_of_lookup_2.
  - exists db'. split; [done|]. split; [done|]. split.
    + intros [|i] r' Hat; simpl in Hat.
      * injection Hat as <-. rewrite Nat.add_0_r, Hframe by done. cbn [episodes].
        apply lookup_insert_eq.
      * replace (step + S i) with (S step + i) by lia. by apply Hstored.
    + intros k Hk. rewrite Hframe.
      * cbn [episodes]. rewrite lookup_insert_ne; [done|]. intros <-.
        apply Hk. cbn [map]. apply elem_of_cons. by left.
      * intros Hin. apply Hk. cbn [map]. apply elem_of_cons. by right.
Qed.

Lemma await_each_campaigns (records : list (string * list (string * jsval))) step db :
  NoDup (map fst records) ->
  (forall r, r ∈ records -> r.1 <> EmptyString /\ own_property r.2 "id" = JStr r.1) ->
  exists db',
    await_each (fun t => saveCampaign (at_time P t)) clock step
               (map (fun r => JObj r.2) records) db = (Return tt, db') /\
    episodes db' = episodes db /\ snapshots db' = snapshots db /\
    (forall i r, records !! i = Some r ->
       campaigns db' !! r.1 = Some (stamped (at_time P (clock (step + i))) r.2)) /\
    (forall k, k ∉ map fst records -> campaigns db' !! k = campaigns db !! k).
Proof.
  revert step db. induction records as [|r rest IH]; intros step db Hnodup Hvalid.
  { exists db. split; [done|]. split; [done|]. split; [done|]. split; [|done]. by intros i r. }
  apply NoDup_cons in Hnodup as [Hr Hnodup].
  destruct (Hvalid r) as [Hkey Hid]; [apply elem_of_cons; by left|].
  cbn [map await_each].
  rewrite (saveCampaign_works (at_time P (clock step))
             (storage_works_at_time P (clock step) Hworks) r.2 r.1 db Hid Hkey).
  match goal with |- context [await_each _ _ _ _ ?db1] =>
    destruct (IH (S step) db1) as (db' & Hloop & Hepisodes & Hsnapshots & Hstored & Hframe) end.
  - done.
  - intros r' Hr'. apply Hvalid, elem_of_cons. by right.
  - exists db'. split; [done|]. split; [done|]. split; [done|]. split.
    + intros [|i] r' Hat; simpl in Hat.
      * injection Hat as <-. rewrite Nat.add_0_r, Hframe by done. cbn [campaigns].
        apply lookup_insert_eq.
      * replace (step + S i) with (S step + i) by lia. by apply Hstored.
    + intros k Hk. rewrite Hframe.
      * cbn [campaigns]. rewrite lookup_insert_ne; [done|]. intros <-.
        apply Hk. cbn [map]. apply elem_of_cons. by left.
      * intros Hin. apply Hk. cbn [map]. apply elem_of_cons. by right.
Qed.

End RestoreLoops.

Section GetAll.
Import JS Db Store.

Variable records : gmap string (list (string * jsval)).

(** The records [getAll] returns, with their keys. *)
Local Abbreviation listed :=
  (merge_sort (fun a b : string * list (string * jsval) => String.le a.1 b.1)
              (map_to_list records)).

Lemma getAll_listed : getAll records = map (fun r => JObj r.2) listed.
Proof. done. Qed.

Lemma listed_NoDup : NoDup (map fst listed).
Proof. rewrite merge_sort_Permutation. apply NoDup_fst_map_to_list. Qed.

Lemma elem_of_listed r : r ∈ listed <-> records !! r.1 = Some r.2.
Proof. rewrite merge_sort_Permutation. destruct r. apply elem_of_map_to_list. Qed.

Lemma elem_of_listed_keys k : k ∈ map fst listed <-> is_Some (records !! k).
Proof.
  rewrite list_elem_of_fmap. split.
  - intros (r & -> & Hin). apply elem_of_listed in Hin. by eexists.
  - intros [props Hat]. exists (k, props). split; [done|]. by apply elem_of_listed.
Qed.

End GetAll.

Section BackupRoundTrip.
Import JS Db Store.

Lemma backup_episodes (version timestamp episodes campaigns : jsval) :
  own_property [("version", version); ("timestamp", timestamp);
                ("episodes", episodes); ("campaigns", campaigns)] "episodes" = episodes.
Proof. reflexivity. Qed.

Lemma backup_campaigns (version timestamp episodes campaigns : jsval) :
  own_property [("version", version); ("timestamp", timestamp);
                ("episodes", episodes); ("campaigns", campaigns)] "campaigns" = campaigns.
Proof. reflexivity. Qed.

Variable P : Platform.
Hypothesis Hworks : storage_works P.

Variable clock : nat -> Z.
Hypothesis Hclock : forall step, (0 <= clock step)%Z.

(** X10. A backup restores. With a working storage layer, for a source
    database whose records sit under their own, non-empty ids and a JSON codec
    that reads the backup document back: [backupAllData] resolves with the
    document, and [restoreFromBackup] of it, into a target database where the
    auto-save ids of these episodes are free (an empty database, say),
    resolves; afterwards every episode and every campaign of the source is in
    the target with the properties it had and a new [lastModified], and the
    records of the target under other ids are as they were. *)
Theorem backup_restores source target :
  (forall k props, episodes source !! k = Some props ->
     k <> EmptyString /\ own_property props "id" = JStr k) ->
  (forall k props, campaigns source !! k = Some props ->
     k <> EmptyString /\ own_property props "id" = JStr k) ->
  JSON_parse P (JSON_stringify P 2
                  (backup_document P (JArr (getAll (episodes source)))
                                     (JArr (getAll (campaigns source)))))
  = Some (backup_document P (JArr (getAll (episodes source)))
                            (JArr (getAll (campaigns source)))) ->
  (forall k step, is_Some (episodes source !! k) ->
     snapshots target !! (k ++ "-" ++ pretty (clock step)) = None) ->
  exists backupJson target',
    backupAllData P source = Resolved (JStr backupJson) /\
    restoreFromBackup P clock backupJson target = (Resolved JUndefined, target') /\
    (forall k props, episodes source !! k = Some props ->
       exists step, episodes target' !! k = Some (stamped (at_time P (clock step)) props)) /\
    (forall k props, campaigns source !! k = Some props ->
       exists step, campaigns target' !! k = Some (stamped (at_time P (clock step)) props)) /\
    (forall k, episodes source !! k = None -> episodes target' !! k = episodes target !! k) /\
    (forall k, campaigns source !! k = None -> campaigns target' !! k = campaigns target !! k).
Proof.
  intros Hepisodes Hcampaigns Hcodec Hfree. pose proof Hworks as [Hopen Hrequests].
  assert (backupAllData P source
          = Resolved (JStr (JSON_stringify P 2
              (backup_document P (JArr (getAll (episodes source)))
                                 (JArr (getAll (campaigns source))))))) as Hbackup.
  { unfold backupAllData, getAllEpisodes, getAllCampaigns. by rewrite Hopen, !Hrequests. }
  pose proof Hcodec as Hparse.
  destruct (await_each_episodes P Hworks clock Hclock
              (merge_sort (fun a b : string * list (string * jsval) => String.le a.1 b.1)
                          (map_to_list (episodes source))) 0 target)
    as (db1 & Hloop1 & Hc1 & Hstored1 & Hframe1).
  { apply listed_NoDup. }
  { intros r Hr. apply elem_of_listed in Hr. by apply Hepisodes. }
  { intros i r Hat. apply Hfree. apply list_elem_of_lookup_2, elem_of_listed in Hat.
    by eexists. }
  destruct (await_each_campaigns P Hworks clock
              (merge_sort (fun a b : string * list (string * jsval) => String.le a.1 b.1)
                          (map_to_list (campaigns source)))
              (length (getAll (episodes source))) db1)
    as (db2 & Hloop2 & He2 & Hs2 & Hstored2 & Hframe2).
  { apply listed_NoDup. }
  { intros r Hr. apply elem_of_listed in Hr. by apply Hcampaigns. }
  eexists _, db2. split; [exact Hbackup|]. split; [|split; [|split; [|split]]].
  - unfold restoreFromBackup. rewrite Hparse. unfold backup_document. cbn [get].
    rewrite (backup_episodes _ _ _ _ : own_property _ "episodes" = _).
    rewrite (backup_campaigns _ _ _ _ : own_property _ "campaigns" = _).
    cbn [truthy negb orb iterate].
    change (map _ (merge_sort _ (map_to_list (episodes source))))
      with (getAll (episodes source)) in Hloop1, Hloop2.
    change (map _ (merge_sort _ (map_to_list (campaigns source))))
      with (getAll (campaigns source)) in Hloop2.
    rewrite Hloop1. cbv beta iota. by rewrite Hloop2.
  - intros k props Hat. rewrite He2.
    assert ((k, props) ∈ merge_sort
              (fun a b : string * list (string * jsval) => String.le a.1 b.1)
              (map_to_list (episodes source))) as Hin by (by apply elem_of_listed).
    apply list_elem_of_lookup_1 in Hin as [i Hi]. exists (0 + i).
    by apply (Hstored1 i (k, props)).
  - intros k props Hat.
    assert ((k, props) ∈ merge_sort
              (fun a b : string * list (string * jsval) => String.le a.1 b.1)
              (map_to_list (campaigns source))) as Hin by (by apply elem_of_listed).
    apply list_elem_of_lookup_1 in Hin as [i Hi]. eexists.
    by apply (Hstored2 i (k, props)).
  - intros k Hnone. rewrite He2. apply Hframe1. rewrite elem_of_listed_keys, Hnone.
    by intros [? ?].
  - intros k Hnone. rewrite Hframe2, Hc1; [done|]. rewrite elem_of_listed_keys, Hnone.
    by intros [? ?].
Qed.

End BackupRoundTrip.

Section RestoreEdges.
Import JS Db Store.

Variable P : Platform.
Variable clock : nat -> Z.

(** X11. Whatever the storage layer does, [restoreFromBackup] merges: it
    removes no episode and no campaign of the database (records missing from
    the backup stay). A text that is not JSON, and a document without
    [episodes] or without [campaigns], are refused with the database left as
    it was. *)
Theorem restore_merges backupJson db :
  (forall k, is_Some (episodes db !! k) ->
             is_Some (episodes (restoreFromBackup P clock backupJson db).2 !! k)) /\
  (forall k, is_Some (campaigns db !! k) ->
             is_Some (campaigns (restoreFromBackup P clock backupJson db).2 !! k)) /\
  (JSON_parse P backupJson = None ->
   restoreFromBackup P clock backupJson db
   = (Rejected (ErrorFrom "Failed to restore from backup: " SyntaxError), db)) /\
  (forall backup episodes campaigns,
     JSON_parse P backupJson = Some backup ->
     get backup "episodes" = Return episodes -> get backup "campaigns" = Return campaigns ->
     truthy episodes = false \/ truthy campaigns = false ->
     restoreFromBackup P clock backupJson db
     = (Rejected (Error "Failed to restore from backup: Invalid backup format"), db)).
Proof.
  assert ((forall k, is_Some (episodes db !! k) ->
                     is_Some (episodes (restoreFromBackup P clock backupJson db).2 !! k)) /\
          (forall k, is_Some (campaigns db !! k) ->
                     is_Some (campaigns (restoreFromBackup P clock backupJson db).2 !! k)))
    as [Hepisodes Hcampaigns].
  { apply (restoreFromBackup_invariant
             (fun db' => (forall k, is_Some (episodes db !! k) -> is_Some (episodes db' !! k)) /\
                         (forall k, is_Some (campaigns db !! k) -> is_Some (campaigns db' !! k)))).
    - intros t episode db' [He Hc].
      destruct (saveEpisode_keeps_keys (at_time P t) episode db') as [He' Hc'].
      split; [intros k Hk; by apply He', He | by rewrite Hc'].
    - intros t campaign db' [He Hc].
      destruct (saveCampaign_frame (at_time P t) campaign db') as (He' & _ & Hc').
      split; [by rewrite He' | intros k Hk; by apply Hc', Hc].
    - done. }
  split; [done|]. split; [done|]. split.
  - intros Hparse. unfold restoreFromBackup. by rewrite Hparse.
  - intros backup episodes campaigns Hparse He Hc Hfalsy.
    unfold restoreFromBackup. rewrite Hparse, He, Hc.
    by destruct Hfalsy as [-> | ->]; rewrite ?orb_true_r.
Qed.

End RestoreEdges.

Section RestoreStops.
Import JS Db Store.

Variable P : Platform.
Hypothesis Hworks : storage_works P.

Variable clock : nat -> Z.
Hypothesis Hclock : forall step, (0 <= clock step)%Z.

Lemma own_property_head name v rest : own_property ((name, v) :: rest) name = v.
Proof. cbn [own_property]. by rewrite decide_True. Qed.

Lemma own_property_tail k name v rest :
  k <> name -> own_property ((k, v) :: rest) name = own_property rest name.
Proof. intros Hne. cbn [own_property]. by rewrite decide_False. Qed.

Lemma await_each_app save step (items more : list jsval) db :
  await_each save clock step (items ++ more) db
  = match await_each save clock step items db with
    | (Return _, db') => await_each save clock (step + length items) more db'
    | failed => failed
    end.
Proof.
  revert step db. induction items as [|item items IH]; intros step db; cbn [app await_each length].
  - by rewrite Nat.add_0_r.
  - destruct (save (clock step) item db) as [[value|error] db']; [|done].
    rewrite IH. by replace (S step + length items) with (step + S (length items)) by lia.
Qed.

(** X12. A restore is not one transaction. When the backup lists, after
    some well-formed episodes, an episode without an id, [restoreFromBackup]
    rejects with the error of that save; the episodes listed before it are
    stored all the same, those listed after it and all the campaigns of the
    backup are not processed. *)
Theorem restore_stops_at_first_failure
    (records : list (string * list (string * jsval))) bad rest campaigns backupJson db :
  JSON_parse P backupJson
  = Some (JObj [("episodes", JArr (map (fun r => JObj r.2) records ++ bad :: rest));
                ("campaigns", JArr campaigns)]) ->
  NoDup (map fst records) ->
  (forall r, r ∈ records -> r.1 <> EmptyString /\ own_property r.2 "id" = JStr r.1) ->
  (forall i r, records !! i = Some r ->
     snapshots db !! (r.1 ++ "-" ++ pretty (clock i)) = None) ->
  get bad "id" = Return JUndefined ->
  exists db',
    restoreFromBackup P clock backupJson db
    = (Rejected (Error "Failed to restore from backup: Invalid episode data: Missing ID"), db') /\
    (forall i r, records !! i = Some r ->
       episodes db' !! r.1 = Some (stamped (at_time P (clock i)) r.2)) /\
    (forall k, k ∉ map fst records -> episodes db' !! k = episodes db !! k) /\
    Db.campaigns db' = Db.campaigns db.
Proof.
  intros Hparse Hnodup Hvalid Hfresh Hbad.
  destruct (await_each_episodes P Hworks clock Hclock records 0 db Hnodup Hvalid Hfresh)
    as (db' & Hloop & Hcampaigns & Hstored & Hframe).
  exists db'. split; [|done].
  unfold restoreFromBackup. rewrite Hparse. cbn [get].
  rewrite own_property_head, own_property_tail, own_property_head by done.
  cbn [truthy negb orb iterate]. rewrite await_each_app, Hloop. cbn [await_each].
  assert (saveEpisode (at_time P (clock (0 + length (map (fun r => JObj r.2) records)))) bad db'
          = (Rejected (Error "Invalid episode data: Missing ID"), db')) as ->; [|done].
  destruct bad as [| | | | |items|props]; try done.
  injection Hbad as Hbad. unfold saveEpisode. by rewrite Hbad.
Qed.

End RestoreStops.

(* ===================================================================== *)
(** * Settings *)
(* ===================================================================== *)

Section SettingsFacts.
Import JS Db Store.

Lemma own_property_absent props name :
  name ∉ map fst props -> own_property props name = JUndefined.
Proof.
  induction props as [|[k v] rest IH]; [done|]. cbn [map own_property fst].
  intros Hout. rewrite decide_False; [apply IH|]; set_solver.
Qed.

(** A property of [{ ...target, ...source }] is the property of the source
    when the source has it, and of the target otherwise. *)
Lemma own_property_spread target props name :
  NoDup (map fst props) ->
  own_property (spread target (JObj props)) name
  = if decide (name ∈ map fst props) then own_property props name
    else own_property target name.
Proof.
  unfold spread. cbn [Object_entries]. revert target.
  induction props as [|[k v] rest IH]; intros target Hnodup.
  - cbn [foldl map]. by rewrite decide_False by apply not_elem_of_nil.
  - cbn [map fst] in Hnodup. apply NoDup_cons in Hnodup as [Hk Hnodup].
    cbn [foldl fst snd map own_property]. rewrite IH by done.
    destruct (decide (k = name)) as [->|Hne].
    + rewrite decide_False by done. rewrite decide_True by (apply elem_of_cons; by left).
      apply own_property_set_same.
    + case_decide as Hin.
      * rewrite decide_True by (apply elem_of_cons; by right). done.
      * rewrite decide_False by (rewrite elem_of_cons; naive_solver).
        by apply own_property_set_other.
Qed.

End SettingsFacts.

Section SettingsTheorems.
Import JS Db Store.

Variable P : Platform.
Hypothesis Hopen : open_error P = None.

(** X13. Settings are read back as saved, under one fixed id. With the
    store answering, [saveSettings] of an object that has no [id] property of
    its own (or the id ["app-settings"]) resolves, and [getSettings] then
    returns a record with every property as saved, the id ["app-settings"]
    and the [lastModified] stamp; the other records of the settings store,
    the connection test record among them, are untouched. An object that
    carries another [id] is stored under that id instead, and [getSettings]
    keeps returning what it returned before. *)
Theorem settings_save_then_get props store :
  NoDup (map fst props) ->
  ("id" ∉ map fst props \/ own_property props "id" = JStr "app-settings"
   -> exists record,
        saveSettings P None (JObj props) store
        = (Resolved JUndefined, <["app-settings" := record]> store) /\
        getSettings P None (<["app-settings" := record]> store) = Resolved (JObj record) /\
        own_property record "id" = JStr "app-settings" /\
        own_property record "lastModified" = JStr (toISOString P (now P)) /\
        (forall name, name ∈ map fst props -> name <> "lastModified" ->
           own_property record name = own_property props name) /\
        (forall key, key <> "app-settings" ->
           <["app-settings" := record]> store !! key = store !! key)) /\
  (forall other, own_property props "id" = JStr other -> other <> "app-settings" ->
     exists record,
       saveSettings P None (JObj props) store
       = (Resolved JUndefined, <[other := record]> store) /\
       getSettings P None (<[other := record]> store) = getSettings P None store).
Proof.
  intros Hnodup.
  assert (own_property
            (set_property (spread [("id", JStr "app-settings")] (JObj props))
                          "lastModified" (JStr (toISOString P (now P)))) "id"
          = if decide ("id" ∈ map fst props) then own_property props "id"
            else JStr "app-settings") as Hid.
  { rewrite own_property_set_other by done. by rewrite own_property_spread. }
  split.
  - intros Hown.
    assert (own_property
              (set_property (spread [("id", JStr "app-settings")] (JObj props))
                            "lastModified" (JStr (toISOString P (now P)))) "id"
            = JStr "app-settings") as Hid'.
    { rewrite Hid. case_decide as Hin; [|done]. by destruct Hown. }
    eexists. split; [|split; [|split; [|split; [|split]]]].
    + unfold saveSettings. by rewrite Hopen, Hid'.
    + unfold getSettings. by rewrite Hopen, lookup_insert_eq.
    + exact Hid'.
    + apply own_property_set_same.
    + intros name Hin Hname. rewrite own_property_set_other by done.
      rewrite own_property_spread by done. by rewrite decide_True.
    + intros key Hkey. by rewrite lookup_insert_ne.
  - intros other Hother Hne. eexists. split.
    + unfold saveSettings. rewrite Hopen, Hid.
      rewrite decide_True; [by rewrite Hother|].
      destruct (decide ("id" ∈ map fst props)) as [|Hout]; [done|].
      by rewrite own_property_absent in Hother.
    + unfold getSettings. rewrite Hopen. by rewrite lookup_insert_ne.
Qed.

(** The connection check writes its test record under its own id: it
    never changes what [getSettings] returns, whether the check succeeds or
    not. *)
Lemma connection_check_spares_settings open_failed put_error get_error store :
  getSettings P get_error (checkDatabaseConnection P open_failed put_error store).2
  = getSettings P get_error store.
Proof.
  unfold checkDatabaseConnection. destruct open_failed; [done|].
  destruct put_error; [done|]. cbn [snd]. unfold getSettings.
  rewrite Hopen. destruct get_error; [done|]. by rewrite lookup_insert_ne.
Qed.

End SettingsTheorems.

(* ===================================================================== *)
(** * The list of all episodes *)
(* ===================================================================== *)

Section ListingFacts.
Import JS Db Store.

Lemma elem_of_getAll records props :
  JObj props ∈ getAll records <-> exists k, records !! k = Some props.
Proof.
  unfold getAll. rewrite list_elem_of_fmap. split.
  - intros ([k props'] & [= ->] & Hin). rewrite merge_sort_Permutation in Hin.
    apply elem_of_map_to_list in Hin. by exists k.
  - intros [k Hat]. exists (k, props). split; [done|]. rewrite merge_sort_Permutation.
    by apply elem_of_map_to_list.
Qed.

Lemma length_getAll records : length (getAll records) = size records.
Proof.
  unfold getAll. rewrite length_map, merge_sort_Permutation. apply length_map_to_list.
Qed.

End ListingFacts.

Section ListingTheorems.
Import JS Db Store.

Variable P : Platform.
Hypothesis Hworks : storage_works P.

(** X28. The list of all episodes is the store. With a working storage
    layer and the records stored under their ids, [getAllEpisodes] resolves
    with one entry per stored episode; an episode is in the list exactly when
    [getEpisode] returns it for its id. After [saveEpisode] the list holds
    the stamped record saved, and the same episodes under other ids as before;
    after [deleteEpisode] it holds the episodes it held, without the one
    deleted. *)
Theorem episodes_listed_as_stored db :
  keyed_by_id db ->
  exists items,
    getAllEpisodes P db = Resolved (JArr items) /\
    length items = size (episodes db) /\
    (forall key props, key <> EmptyString ->
       getEpisode P (JStr key) db = Resolved (JObj props) <->
       JObj props ∈ items /\ own_property props "id" = JStr key) /\
    (forall key props,
       own_property props "id" = JStr key -> key <> EmptyString ->
       snapshots db !! snapshot_id (auto_save P key props) = None ->
       exists items',
         getAllEpisodes P (saveEpisode P (JObj props) db).2 = Resolved (JArr items') /\
         JObj (stamped P props) ∈ items' /\
         forall other, own_property other "id" <> JStr key ->
           JObj other ∈ items' <-> JObj other ∈ items) /\
    (forall key, key <> EmptyString ->
       exists items',
         getAllEpisodes P (deleteEpisode P (JStr key) db).2 = Resolved (JArr items') /\
         forall props,
           JObj props ∈ items' <->
           JObj props ∈ items /\ own_property props "id" <> JStr key).
Proof.
  intros [Hkeyed _]. pose proof Hworks as [Hopen Hrequests].
  assert (forall db', getAllEpisodes P db' = Resolved (JArr (getAll (episodes db')))) as Hall.
  { intros db'. unfold getAllEpisodes. by rewrite Hopen, Hrequests. }
  exists (getAll (episodes db)). split; [apply Hall|]. split; [apply length_getAll|].
  split; [|split].
  - intros key props Hkey. unfold getEpisode. rewrite truthy_key by done.
    cbn [negb valid_key]. rewrite Hopen, Hrequests. rewrite elem_of_getAll. split.
    + destruct (episodes db !! key) as [stored|] eqn:Hat; [|done].
      intros [= ->]. split; [by exists key|]. by apply Hkeyed.
    + intros [[k Hat] Hid]. pose proof (Hkeyed _ _ Hat) as Hid'.
      rewrite Hid in Hid'. injection Hid' as ->. by rewrite Hat.
  - intros key props Hid Hkey Hfresh. eexists. split; [apply Hall|].
    rewrite (saveEpisode_works P Hworks props key db Hid Hkey Hfresh). cbn [snd episodes].
    split.
    + apply elem_of_getAll. exists key. apply lookup_insert_eq.
    + intros other Hother. rewrite !elem_of_getAll. split; intros [k Hat]; exists k.
      * destruct (decide (k = key)) as [->|Hne].
        -- rewrite lookup_insert_eq in Hat. injection Hat as <-.
           unfold stamped in Hother. rewrite own_property_set_other in Hother by done. done.
        -- by rewrite lookup_insert_ne in Hat.
      * rewrite lookup_insert_ne; [done|]. intros <-. by apply Hother, Hkeyed.
  - intros key Hkey. eexists. split; [apply Hall|].
    rewrite (deleteEpisode_works P Hworks key db Hkey). cbn [snd episodes].
    intros props. rewrite !elem_of_getAll. split.
    + intros [k [Hne Hat]%lookup_delete_Some]. split; [by exists k|].
      rewrite (Hkeyed _ _ Hat). by intros [= ->].
    + intros [[k Hat] Hother]. exists k. apply lookup_delete_Some. split; [|done].
      intros <-. by apply Hother, Hkeyed.
Qed.

End ListingTheorems.

(* ===================================================================== *)
(** * Generated ids *)
(* ===================================================================== *)

Section Base36.
Import Store Utils.

(** The number a list of base-36 digits denotes. *)
Local Abbreviation value := (foldl (fun acc d => acc * 36 + d)%N 0%N).

Lemma digits36_spec fuel n :
  (n < 36 ^ N.of_nat fuel)%N ->
  value (digits36 fuel n) = n /\ Forall (fun d => d < 36)%N (digits36 fuel n).
Proof.
  revert n. induction fuel as [|fuel IH]; intros n Hn.
  { cbn in Hn. split; [cbn; lia | constructor]. }
  cbn [digits36]. destruct (n <? 36)%N eqn:Hsmall.
  - apply N.ltb_lt in Hsmall. split; [done | by repeat constructor].
  - apply N.ltb_ge in Hsmall.
    destruct (IH (n / 36)%N) as [Hvalue Hdigits].
    { apply N.Div0.div_lt_upper_bound.
      by rewrite Nat2N.inj_succ, N.pow_succ_r' in Hn. }
    split.
    + rewrite foldl_app. cbn [foldl]. rewrite Hvalue.
      pose proof (N.div_mod n 36). lia.
    + apply Forall_app. split; [done|]. repeat constructor. by apply N.mod_lt.
Qed.

Lemma enough_digits n : (n < 36 ^ N.of_nat (S (N.to_nat (N.log2 n))))%N.
Proof.
  rewrite Nat2N.inj_succ, N2Nat.id.
  destruct (decide (n = 0)%N) as [->|Hpos]; [done|].
  pose proof (N.log2_spec n) as [_ Hlt]; [lia|].
  eapply N.lt_le_trans; [exact Hlt|]. apply N.pow_le_mono_l. lia.
Qed.

Lemma alphabet_NoDup : NoDup alphabet.
Proof. apply (bool_decide_unpack _). by vm_compute. Qed.

Lemma alphabet_dashless : Forall (fun c => c <> "-"%char) alphabet.
Proof. apply (bool_decide_unpack _). by vm_compute. Qed.

Lemma digit36_alphabet d : (d < 36)%N -> alphabet !! N.to_nat d = Some (digit36 d).
Proof.
  intros Hd. unfold digit36.
  destruct (alphabet !! N.to_nat d) eqn:Hat; [done|].
  apply lookup_ge_None in Hat. change (length alphabet) with 36%nat in Hat. lia.
Qed.

Lemma digit36_inj d e : (d < 36)%N -> (e < 36)%N -> digit36 d = digit36 e -> d = e.
Proof.
  intros Hd He Heq.
  pose proof (digit36_alphabet d Hd) as Hat. pose proof (digit36_alphabet e He) as Hat'.
  rewrite Heq in Hat.
  pose proof (NoDup_lookup _ _ _ _ alphabet_NoDup Hat Hat'). lia.
Qed.

Lemma map_digit36_inj ds es :
  Forall (fun d => d < 36)%N ds -> Forall (fun d => d < 36)%N es ->
  map digit36 ds = map digit36 es -> ds = es.
Proof.
  intros Hds. revert es. induction Hds as [|d ds Hd Hds IH]; intros [|e es] Hes Heq; try done.
  apply Forall_cons in Hes as [He Hes]. injection Heq as Hhead Htail.
  f_equal; [by apply digit36_inj | by apply IH].
Qed.

Lemma toString36_digits n :
  (0 <= n)%Z ->
  toString36 n
  = string_of_list_ascii
      (map digit36 (digits36 (S (N.to_nat (N.log2 (Z.to_N n)))) (Z.to_N n))).
Proof. intros Hn. destruct n as [|p|p]; [done | done | lia]. Qed.

Lemma toString36_inj n m : (0 <= n)%Z -> (0 <= m)%Z -> toString36 n = toString36 m -> n = m.
Proof.
  intros Hn Hm. rewrite !toString36_digits by done. intros Heq.
  apply (f_equal list_ascii_of_string) in Heq.
  rewrite !list_ascii_of_string_of_list_ascii in Heq.
  destruct (digits36_spec _ _ (enough_digits (Z.to_N n))) as [Hvn Hdn].
  destruct (digits36_spec _ _ (enough_digits (Z.to_N m))) as [Hvm Hdm].
  apply map_digit36_inj in Heq; [|done..].
  rewrite Heq in Hvn. lia.
Qed.

Lemma string_of_list_dashless cs :
  Forall (fun c => c <> "-"%char) cs -> dashless (string_of_list_ascii cs).
Proof. induction 1; by cbn. Qed.

Lemma toString36_dashless n : (0 <= n)%Z -> dashless (toString36 n).
Proof.
  intros Hn. rewrite toString36_digits by done.
  apply string_of_list_dashless, Forall_fmap.
  destruct (digits36_spec _ _ (enough_digits (Z.to_N n))) as [_ Hdigits].
  eapply Forall_impl; [exact Hdigits|]. intros d Hd. cbn.
  pose proof alphabet_dashless as Hall. rewrite Forall_lookup in Hall.
  by apply (Hall (N.to_nat d)), digit36_alphabet.
Qed.

(** The text before the first dash determines the text after it. *)
Lemma dash_prefix_inj (a b x y : string) :
  dashless a -> dashless b ->
  a ++ String "-" x = b ++ String "-" y -> a = b /\ x = y.
Proof.
  revert b. induction a as [|c a IH]; intros [|d b] Ha Hb Heq.
  - by injection Heq.
  - change (String "-" x = String d (b ++ String "-" y)) in Heq.
    injection Heq as <- _. by destruct Hb.
  - change (String c (a ++ String "-" x) = String "-" y) in Heq.
    injection Heq as -> _. by destruct Ha.
  - change (String c (a ++ String "-" x) = String d (b ++ String "-" y)) in Heq.
    injection Heq as -> Heq. destruct Ha as [_ Ha], Hb as [_ Hb].
    apply IH in Heq as [-> ->]; done.
Qed.

Lemma append_inv_head (prefix u v : string) : prefix ++ u = prefix ++ v -> u = v.
Proof.
  induction prefix as [|c prefix IH]; [done|]. intros Heq.
  change (String c (prefix ++ u) = String c (prefix ++ v)) in Heq.
  injection Heq as Heq. by apply IH.
Qed.

End Base36.

Section GeneratedIds.
Import JS Store Utils.

(** X14. Two ids generated with the same prefix are equal only when they
    were generated in the same millisecond with the same random suffix: ids
    generated at different instants never collide. A generated id is never
    the empty string (the operations of the persistence engine accept it as
    an id), and begins with the prefix. *)
Theorem generated_ids_differ now now' random random' prefix :
  (0 <= now)%Z -> (0 <= now')%Z ->
  (generateId now random prefix = generateId now' random' prefix ->
   now = now' /\ substring 2 9 random = substring 2 9 random') /\
  truthy (JStr (generateId now random prefix)) = true /\
  exists rest, generateId now random prefix = prefix ++ rest /\ rest <> EmptyString.
Proof.
  intros Hnow Hnow'. unfold generateId. split; [|split].
  - intros Heq. apply append_inv_head in Heq.
    change (toString36 now ++ String "-" (substring 2 9 random)
            = toString36 now' ++ String "-" (substring 2 9 random')) in Heq.
    apply dash_prefix_inj in Heq as [Heq ->]; [|by apply toString36_dashless..].
    split; [by apply toString36_inj | done].
  - cbn [truthy]. rewrite bool_decide_false; [done|].
    intros Hempty. destruct prefix; [|done].
    change (toString36 now ++ String "-" (substring 2 9 random) = EmptyString) in Hempty.
    by destruct (toString36 now).
  - eexists. split; [done|]. by destruct (toString36 now).
Qed.

End GeneratedIds.

(* ===================================================================== *)
(** * Paragraphs *)
(* ===================================================================== *)

Section Paragraphs.
Import Utils.

(** The text a piece and the pieces after it come from, when one blank line
    stands between two pieces. *)
Local Abbreviation glue := (fun pieces : string * list string =>
                              join blank_line (pieces.1 :: pieces.2)).

Lemma split_eq b text :
  split b text
  = match text with
    | EmptyString => (EmptyString, [])
    | String c rest =>
        if b && bool_decide (c = LF) then split true rest
        else
          match bool_decide (c = LF), rest with
          | true, String c' rest' =>
              if bool_decide (c' = LF) then
                let (piece, pieces) := split true rest' in (EmptyString, piece :: pieces)
              else
                let (piece, pieces) := split false rest in (String c piece, pieces)
          | _, _ =>
              let (piece, pieces) := split false rest in (String c piece, pieces)
          end
    end.
Proof. by destruct text. Qed.

Lemma collapse_eq b text :
  collapse b text
  = match text with
    | EmptyString => EmptyString
    | String c rest =>
        if b && bool_decide (c = LF) then collapse true rest
        else
          match bool_decide (c = LF), rest with
          | true, String c' rest' =>
              if bool_decide (c' = LF) then String LF (String LF (collapse true rest'))
              else String c (collapse false rest)
          | _, _ => String c (collapse false rest)
          end
    end.
Proof. by destruct text. Qed.

Lemma split_cons_other b c rest :
  c <> LF -> split b (String c rest) = (String c (split false rest).1, (split false rest).2).
Proof.
  intros Hc. rewrite split_eq. rewrite bool_decide_false by done. rewrite andb_false_r.
  by destruct (split false rest).
Qed.

Lemma split_separator_LF rest : split true (String LF rest) = split true rest.
Proof. rewrite split_eq. by rewrite bool_decide_true. Qed.

Lemma split_blank_line rest :
  split false (String LF (String LF rest)) = (EmptyString, (split true rest).1 :: (split true rest).2).
Proof.
  rewrite split_eq. cbn [andb]. rewrite !bool_decide_true by done.
  by destruct (split true rest).
Qed.

Lemma split_single_LF c rest :
  c <> LF ->
  split false (String LF (String c rest))
  = (String LF (split false (String c rest)).1, (split false (String c rest)).2).
Proof.
  intros Hc. rewrite (split_eq false (String LF _)). cbn [andb].
  rewrite bool_decide_true by done. rewrite (bool_decide_false (c = LF)) by done.
  by destruct (split false (String c rest)).
Qed.

Lemma split_last_LF : split false (String LF EmptyString) = (String LF EmptyString, []).
Proof. done. Qed.

Lemma collapse_cons_other b c rest :
  c <> LF -> collapse b (String c rest) = String c (collapse false rest).
Proof.
  intros Hc. rewrite collapse_eq. rewrite bool_decide_false by done. by rewrite andb_false_r.
Qed.

Lemma collapse_separator_LF rest : collapse true (String LF rest) = collapse true rest.
Proof. rewrite collapse_eq. by rewrite bool_decide_true. Qed.

Lemma collapse_blank_line rest :
  collapse false (String LF (String LF rest)) = String LF (String LF (collapse true rest)).
Proof. rewrite collapse_eq. cbn [andb]. by rewrite !bool_decide_true. Qed.

Lemma collapse_single_LF c rest :
  c <> LF ->
  collapse false (String LF (String c rest)) = String LF (collapse false (String c rest)).
Proof.
  intros Hc. rewrite (collapse_eq false (String LF _)). cbn [andb].
  rewrite bool_decide_true by done. by rewrite (bool_decide_false (c = LF)) by done.
Qed.

(** The cases of a text, as [split] and [collapse] tell them apart. *)
Lemma text_cases (b : bool) (text : string) :
  text = EmptyString \/
  (exists c rest, text = String c rest /\ c <> LF) \/
  (exists rest, text = String LF rest /\ b = true) \/
  (exists rest, text = String LF (String LF rest) /\ b = false) \/
  (exists c rest, text = String LF (String c rest) /\ c <> LF /\ b = false) \/
  (text = String LF EmptyString /\ b = false).
Proof.
  destruct text as [|c rest]; [by left|]. right.
  destruct (decide (c = LF)) as [->|Hc]; [|left; by eexists _, _].
  right. destruct b; [left; by eexists|]. right.
  destruct rest as [|c' rest']; [by right; right|].
  destruct (decide (c' = LF)) as [->|Hc']; [left; by eexists|].
  right. left. by eexists _, _.
Qed.

Lemma glue_cons c (pieces : string * list string) :
  glue (String c pieces.1, pieces.2) = String c (glue pieces).
Proof. destruct pieces as [piece [|next rest]]; done. Qed.

(** Gluing the pieces gives the text back, its runs of line feeds cut down
    to one blank line. *)
Lemma glue_split n : forall b text,
  String.length text <= n -> glue (split b text) = collapse b text.
Proof.
  induction n as [|n IH]; intros b text Hlen.
  { destruct text; [done | cbn in Hlen; lia]. }
  destruct (text_cases b text)
    as [-> | [(c & rest & -> & Hc) | [(rest & -> & ->) | [(rest & -> & ->)
        | [(c & rest & -> & Hc & ->) | [-> ->]]]]]]; cbn in Hlen.
  - done.
  - rewrite split_cons_other, collapse_cons_other by done.
    rewrite (glue_cons c (split false rest)). f_equal. apply IH. lia.
  - rewrite split_separator_LF, collapse_separator_LF. apply IH. lia.
  - rewrite split_blank_line, collapse_blank_line.
    change (String LF (String LF (glue (split true rest)))
            = String LF (String LF (collapse true rest))).
    do 2 f_equal. apply IH. lia.
  - rewrite split_single_LF, collapse_single_LF by done.
    rewrite (glue_cons LF (split false (String c rest))). f_equal. apply IH. cbn. lia.
  - by rewrite split_last_LF.
Qed.

(** Cutting the runs down does not change the pieces. *)
Lemma split_collapse n : forall b text,
  String.length text <= n -> split b (collapse b text) = split b text.
Proof.
  induction n as [|n IH]; intros b text Hlen.
  { destruct text; [done | cbn in Hlen; lia]. }
  destruct (text_cases b text)
    as [-> | [(c & rest & -> & Hc) | [(rest & -> & ->) | [(rest & -> & ->)
        | [(c & rest & -> & Hc & ->) | [-> ->]]]]]]; cbn in Hlen.
  - done.
  - rewrite collapse_cons_other, !split_cons_other by done. rewrite IH by lia. done.
  - rewrite collapse_separator_LF, split_separator_LF. apply IH. lia.
  - rewrite collapse_blank_line, !split_blank_line. rewrite IH by lia. done.
  - rewrite collapse_single_LF by done. rewrite (collapse_cons_other false c rest Hc).
    rewrite !split_single_LF by done.
    rewrite <- (collapse_cons_other false c rest Hc). rewrite IH by (cbn; lia). done.
  - done.
Qed.

Lemma collapse_no_triple n : forall b text,
  String.length text <= n ->
  no_triple_line_feed text -> (b = true -> forall rest, text <> String LF rest) ->
  collapse b text = text.
Proof.
  induction n as [|n IH]; intros b text Hlen Hfree Hstart.
  { destruct text; [done | cbn in Hlen; lia]. }
  destruct (text_cases b text)
    as [-> | [(c & rest & -> & Hc) | [(rest & -> & ->) | [(rest & -> & ->)
        | [(c & rest & -> & Hc & ->) | [-> ->]]]]]]; cbn in Hlen.
  - done.
  - rewrite collapse_cons_other by done. f_equal.
    apply IH; [lia | by destruct Hfree | done].
  - by destruct (Hstart eq_refl rest).
  - rewrite collapse_blank_line. do 2 f_equal.
    cbn [no_triple_line_feed] in Hfree. destruct Hfree as (Hhead & _ & Hfree).
    apply IH; [lia | done |]. intros _ rest' Heq. apply Hhead. exists rest'. by rewrite Heq.
  - rewrite collapse_single_LF by done. f_equal. destruct Hfree as [_ Hfree].
    apply IH; [cbn; lia | done | done].
  - done.
Qed.

(** A piece has no blank line, and begins as the text does when the text
    begins with another character than a line feed. *)
Lemma split_pieces n : forall b text,
  String.length text <= n ->
  no_blank_line (split b text).1 /\ Forall no_blank_line (split b text).2 /\
  (forall rest, (split b text).1 = String LF rest ->
     (b = false /\ exists c rest', text = String LF (String c rest') /\ c <> LF)
     \/ (b = false /\ text = String LF EmptyString)).
Proof.
  induction n as [|n IH]; intros b text Hlen.
  { destruct text; [by repeat split | cbn in Hlen; lia]. }
  destruct (text_cases b text)
    as [-> | [(c & rest & -> & Hc) | [(rest & -> & ->) | [(rest & -> & ->)
        | [(c & rest & -> & Hc & ->) | [-> ->]]]]]]; cbn in Hlen.
  - by repeat split.
  - rewrite split_cons_other by done. cbn [fst snd].
    destruct (IH false rest) as (Hp & Hps & Hhead); [lia|].
    split; [|split; [done|]].
    + split; [|done]. intros (rest' & Heq). by injection Heq.
    + intros rest' Heq. by injection Heq.
  - rewrite split_separator_LF.
    destruct (IH true rest) as (Hp & Hps & Hhead); [lia|].
    split; [done|]. split; [done|]. intros rest' Heq.
    destruct (Hhead rest' Heq) as [[? _] | [? _]]; done.
  - rewrite split_blank_line. cbn [fst snd].
    destruct (IH true rest) as (Hp & Hps & Hhead); [lia|].
    split; [done|]. split; [by constructor|]. done.
  - rewrite split_single_LF by done. cbn [fst snd].
    destruct (IH false (String c rest)) as (Hp & Hps & Hhead); [cbn; lia|].
    split; [|split; [done|]].
    + split; [|done]. intros (rest' & Heq). injection Heq as Heq.
      destruct (Hhead rest' Heq) as [[_ (c0 & rest0 & Hc0 & _)] | [_ Hc0]];
        injection Hc0 as Hc0; done.
    + intros rest' _. left. split; [done|]. by eexists _, _.
  - rewrite split_last_LF. cbn [fst snd]. split; [|split; [done|]].
    + split; [|done]. intros (rest' & Heq). done.
    + intros rest' _. by right.
Qed.

(** X15. The paragraphs of a text and the text the editor shows for them
    ([paragraphs.join("\n\n")]) agree: no paragraph holds a blank line;
    joining the paragraphs of a text gives the text back when it has no run
    of three line feeds; and splitting the joined paragraphs again gives the
    same paragraphs, for every text. The empty text has no paragraph. *)
Theorem paragraphs_round_trip text :
  Forall no_blank_line (splitIntoParagraphs text) /\
  (no_triple_line_feed text -> join blank_line (splitIntoParagraphs text) = text) /\
  splitIntoParagraphs (join blank_line (splitIntoParagraphs text)) = splitIntoParagraphs text /\
  (splitIntoParagraphs text = [] <-> text = EmptyString).
Proof.
  unfold splitIntoParagraphs. destruct (decide (text = EmptyString)) as [->|Hne].
  { by repeat split. }
  pose proof (split_pieces _ false text (le_n _)) as (Hp & Hps & _).
  pose proof (glue_split _ false text (le_n _)) as Hglue.
  destruct (split false text) as [piece pieces] eqn:Hsplit. cbn [fst snd] in *.
  split; [by constructor|]. split; [|split].
  - intros Hfree. rewrite Hglue. by apply (collapse_no_triple _ false text (le_n _)).
  - rewrite Hglue.
    assert (collapse false text <> EmptyString) as Hne'.
    { destruct (text_cases false text)
        as [-> | [(c & rest & -> & Hc) | [(rest & -> & ?) | [(rest & -> & _)
            | [(c & rest & -> & Hc & _) | [-> _]]]]]]; try done.
      - by rewrite collapse_cons_other.
      - by rewrite collapse_single_LF. }
    rewrite decide_False by done.
    by rewrite (split_collapse _ false text (le_n _)), Hsplit.
  - split; [done|]. intros ->. done.
Qed.

End Paragraphs.

(* ===================================================================== *)
(** * The debounced call *)
(* ===================================================================== *)

Section Debounce.
Import Utils.

Context {A : Type}.

(** The state after the events, from a fresh [debounce(func, wait)]. *)
Local Abbreviation after := (foldl (@react A) debounce).

(** What holds at every moment: a pending timer is the one in [timeout], it
    carries the arguments of the last call, and the calls of [func] so far
    took their arguments from the calls before that one, in their order. *)
Lemma debounced_invariant (events : list (event A)) :
  (forall id args, timers (after events) !! id = Some args ->
     timeout (after events) = Some id /\
     exists before, invoked events = (before ++ [args])%list /\
                    calls (after events) `sublist_of` before) /\
  calls (after events) `sublist_of` invoked events.
Proof.
  induction events as [|e events IH] using rev_ind.
  { split; [|done]. intros id args Hat. cbn in Hat. by rewrite lookup_empty in Hat. }
  destruct IH as [Hpending Hcalls]. rewrite foldl_app. cbn [foldl].
  unfold invoked. rewrite omap_app. fold (invoked events).
  destruct e as [args|id]; cbn [react omap invoked].
  - unfold invoke. cbn [timers timeout calls]. split.
    + intros id args' Hat.
      assert (id = next_timer (after events) /\ args' = args) as [-> ->].
      { apply lookup_insert_Some in Hat as [[<- <-] | [Hne Hat]]; [done|]. exfalso.
        destruct (timeout (after events)) as [old|] eqn:Htimeout.
        - apply lookup_delete_Some in Hat as [Hold Hat].
          apply Hpending in Hat as [Hat _]. congruence.
        - apply Hpending in Hat as [Hat _]. congruence. }
      split; [done|]. by exists (invoked events).
    + by apply sublist_inserts_r.
  - rewrite app_nil_r. unfold expire.
    destruct (timers (after events) !! id) as [args|] eqn:Hat; [|done].
    cbn [timers timeout calls].
    destruct (Hpending id args Hat) as (Htimeout & before & Hinvoked & Hbefore).
    split.
    + intros id' args' Hat'. apply lookup_delete_Some in Hat' as [Hne Hat'].
      apply Hpending in Hat' as [Hat' _]. congruence.
    + rewrite Hinvoked. by apply sublist_app.
Qed.

Lemma invoke_burst (d : Debounced A) (burst : list A) :
  calls (foldl react d (map Invoke burst)) = calls d.
Proof. revert d. induction burst as [|args burst IH]; intros d; [done|]. cbn. by rewrite IH. Qed.

(** X16. The debounced function calls [func] with the latest arguments, once
    per burst. After any history of calls and timer expiries: at most one
    timer is pending; the calls of [func] made so far took their arguments
    from the calls of the debounced function, in order and each at most once;
    a timer that was cleared calls nothing when it expires; and after a burst
    of calls, the expiry of the pending timer calls [func] exactly once, with
    the arguments of the last call of the burst. *)
Theorem debounce_calls_once_per_burst (events : list (event A)) :
  size (timers (after events)) <= 1 /\
  calls (after events) `sublist_of` invoked events /\
  (forall id, timers (after events) !! id = None ->
     after (events ++ [Expire id]) = after events) /\
  (forall burst last,
     exists id,
       timeout (after (events ++ map Invoke (burst ++ [last]))) = Some id /\
       calls (after (events ++ map Invoke (burst ++ [last]) ++ [Expire id]))
       = (calls (after events) ++ [last])%list).
Proof.
  destruct (debounced_invariant events) as [Hpending Hcalls].
  split; [|split; [done|split]].
  - destruct (map_choose_or_empty (timers (after events))) as [(id & args & Hat) | ->];
      [|rewrite map_size_empty; lia].
    assert (timers (after events) ⊆ {[id := args]}) as Hsub.
    { apply map_subseteq_spec. intros id' args' Hat'.
      destruct (Hpending id args Hat) as [Hid _].
      destruct (Hpending id' args' Hat') as [Hid' _].
      assert (id' = id) as -> by congruence.
      assert (args' = args) as -> by congruence. apply lookup_singleton_eq. }
    apply map_subseteq_size in Hsub. by rewrite map_size_singleton in Hsub.
  - intros id Hnone. rewrite foldl_app. cbn [foldl react]. unfold expire. by rewrite Hnone.
  - intros burst last. rewrite map_app. cbn [map].
    exists (next_timer (after (events ++ map Invoke burst))). split.
    + by rewrite app_assoc, foldl_app.
    + rewrite !app_assoc, foldl_app. cbn [foldl react].
      rewrite (foldl_app _ _ [Invoke last]). cbn [foldl react].
      unfold expire, invoke. cbn [timers]. rewrite lookup_insert_eq. cbn [calls].
      by rewrite foldl_app, invoke_burst.
Qed.

End Debounce.

(* ===================================================================== *)
(** * The scene builder and the analysis of its scenes *)
(* ===================================================================== *)

Section SceneFacts.
Import Analyzer SceneBuilder.

Lemma scene_at_delete scenes key other :
  scene_at (delete_scene scenes key) other
  = if decide (other = key) then None else scene_at scenes other.
Proof.
  unfold delete_scene. induction scenes as [|[k s] rest IH].
  - cbn. by case_decide.
  - rewrite filter_cons. cbn [fst]. destruct (decide (k <> key)) as [Hne|Heq].
    + cbn [scene_at]. rewrite IH. repeat case_decide; congruence.
    + apply dec_stable in Heq. subst k. rewrite IH. cbn [scene_at].
      repeat case_decide; congruence.
Qed.

Lemma delete_scene_keys scenes key :
  Object_keys (delete_scene scenes key) = filter (fun k => k <> key) (Object_keys scenes).
Proof.
  unfold delete_scene, Object_keys. induction scenes as [|[k s] rest IH]; [done|].
  cbn [map fst]. rewrite !filter_cons. cbn [fst].
  destruct (decide (k <> key)); [cbn [map fst]; by rewrite IH | done].
Qed.

Lemma is_Some_scene_at scenes key : is_Some (scene_at scenes key) <-> key ∈ Object_keys scenes.
Proof.
  rewrite <- not_eq_None_Some, scene_at_None.
  split; [apply dec_stable | by intros ? ?].
Qed.

Lemma set_scene_start scenes key scene :
  is_Some (scene_at scenes "start") -> is_Some (scene_at (set_scene scenes key scene) "start").
Proof.
  intros Hstart. destruct (decide ("start" = key)) as [<-|Hne].
  - rewrite scene_at_set_same. by eexists.
  - by rewrite scene_at_set_other.
Qed.

End SceneFacts.

Section SceneBuilderSession.
Import Analyzer SceneBuilder.

(** The scenes are those of an object, and ["start"] is one of them. *)
Local Abbreviation well_formed scenes :=
  (NoDup (Object_keys scenes) /\ is_Some (scene_at scenes "start")).

Lemma set_scene_well_formed scenes key scene :
  well_formed scenes -> well_formed (set_scene scenes key scene).
Proof. intros [? ?]. split; [by apply set_scene_NoDup | by apply set_scene_start]. Qed.

Lemma apply_edit_well_formed e scenes scenes' :
  apply_edit e scenes = Some scenes' -> well_formed scenes -> well_formed scenes'.
Proof.
  intros Hedit Hwf.
  destruct e as [newSceneId|sceneId|newSceneId sceneId|sceneId update|sceneId text|sceneId
                 |sceneId choiceIndex|sceneId choiceIndex update]; cbn [apply_edit] in Hedit.
  - injection Hedit as <-. by apply set_scene_well_formed.
  - injection Hedit as <-. unfold handleDeleteScene. case_decide as Hstart; [done|].
    destruct Hwf as [Hnodup Hsome]. split.
    + rewrite delete_scene_keys. by apply NoDup_filter.
    + rewrite scene_at_delete. by rewrite decide_False by done.
  - unfold handleDuplicateScene in Hedit.
    destruct (member_at scenes sceneId); simplify_eq; [by apply set_scene_well_formed | done].
  - unfold handleSceneChange in Hedit.
    destruct (member_at scenes sceneId); simplify_eq; [by apply set_scene_well_formed | done].
  - unfold handleTextChange, handleSceneChange in Hedit.
    destruct (member_at scenes sceneId); simplify_eq; [by apply set_scene_well_formed | done].
  - unfold handleAddChoice in Hedit.
    destruct (member_at scenes sceneId); simplify_eq; [by apply set_scene_well_formed | done].
  - unfold handleDeleteChoice in Hedit.
    destruct (member_at scenes sceneId); simplify_eq; [by apply set_scene_well_formed | done].
  - unfold handleChoiceChange in Hedit.
    destruct (member_at scenes sceneId) as [scene| |]; simplify_eq; [|done].
    destruct (choices scene !! choiceIndex); [|done]. injection Hedit as <-.
    by apply set_scene_well_formed.
Qed.

(** X17. Whatever the author does in the scene builder (adding, deleting,
    duplicating scenes, editing their fields, their text and their choices),
    the ["start"] scene stays: no sequence of edits removes it, and the scene
    ids stay distinct. Deleting ["start"] is refused, the scenes left as
    they are. *)
Theorem scene_builder_keeps_start edits scenes scenes' :
  NoDup (Object_keys scenes) -> is_Some (scene_at scenes "start") ->
  apply_edits edits scenes = Some scenes' ->
  NoDup (Object_keys scenes') /\ is_Some (scene_at scenes' "start") /\
  handleDeleteScene "start" scenes' = scenes'.
Proof.
  intros Hnodup Hstart Hedits.
  assert (well_formed scenes') as [? ?]; [|done].
  assert (well_formed scenes) as Hwf by done. clear Hnodup Hstart.
  revert scenes Hwf Hedits. induction edits as [|e edits IH]; intros scenes Hwf Hedits.
  - cbn in Hedits. by injection Hedits as <-.
  - cbn [apply_edits] in Hedits.
    destruct (apply_edit e scenes) as [scenes1|] eqn:Hedit; [|done].
    eapply IH; [|exact Hedits]. by eapply apply_edit_well_formed.
Qed.

End SceneBuilderSession.

Section BrokenLinkChanges.
Import Analyzer SceneBuilder.

Lemma broken_rows_app scenes (a b : list (string * Scene)) :
  broken_rows scenes (a ++ b) = (broken_rows scenes a ++ broken_rows scenes b)%list.
Proof. induction a as [|entry a IH]; [done|]. cbn [app broken_rows]. by rewrite IH, app_assoc. Qed.

(** The broken links of some choices depend on the scenes only through
    which targets read as [undefined]. *)
Lemma broken_from_ext scenes scenes' sceneId index cs :
  (forall choice, choice ∈ cs ->
     member_at scenes (nextScene choice) = Absent <->
     member_at scenes' (nextScene choice) = Absent) ->
  broken_from scenes sceneId index cs = broken_from scenes' sceneId index cs.
Proof.
  revert index. induction cs as [|c cs IH]; intros index Hsame; [done|].
  cbn [broken_from]. rewrite IH by (intros choice Hin; apply Hsame, elem_of_cons; by right).
  pose proof (Hsame c (proj2 (elem_of_cons _ _ _) (or_introl eq_refl))) as Hc.
  destruct (member_at scenes (nextScene c)) eqn:H1,
           (member_at scenes' (nextScene c)) eqn:H2; try done;
    solve [by pose proof (proj2 Hc eq_refl) | by pose proof (proj1 Hc eq_refl)].
Qed.

Lemma broken_rows_ext scenes scenes' entries :
  (forall entry choice, entry ∈ entries -> choice ∈ choices entry.2 ->
     member_at scenes (nextScene choice) = Absent <->
     member_at scenes' (nextScene choice) = Absent) ->
  broken_rows scenes entries = broken_rows scenes' entries.
Proof.
  induction entries as [|entry entries IH]; intros Hsame; [done|].
  cbn [broken_rows]. rewrite IH.
  - f_equal. apply broken_from_ext. intros choice Hin. apply (Hsame entry); [|done].
    apply elem_of_cons. by left.
  - intros e choice He Hin. apply (Hsame e); [|done]. apply elem_of_cons. by right.
Qed.

Lemma broken_from_nil scenes sceneId index cs :
  broken_from scenes sceneId index cs = [] <->
  forall choice, choice ∈ cs -> member_at scenes (nextScene choice) <> Absent.
Proof.
  revert index. induction cs as [|c cs IH]; intros index; cbn [broken_from].
  - split; [|done]. intros _ choice Hin. by apply elem_of_nil in Hin.
  - assert (member_at scenes (nextScene c) <> Absent ->
            (broken_from scenes sceneId (S index) cs = [] <->
             forall choice, choice ∈ c :: cs -> member_at scenes (nextScene choice) <> Absent))
      as Hkept.
    { intros Hc. rewrite IH. split.
      - intros Hall choice Hin. apply elem_of_cons in Hin as [->|Hin]; [done | by apply Hall].
      - intros Hall choice Hin. apply Hall, elem_of_cons. by right. }
    destruct (member_at scenes (nextScene c)) eqn:Hc; [by apply Hkept | by apply Hkept |].
    split; [done|]. intros Hall. exfalso.
    apply (Hall c); [apply elem_of_cons; by left | done].
Qed.

Lemma broken_rows_nil scenes entries :
  broken_rows scenes entries = [] <->
  forall entry choice, entry ∈ entries -> choice ∈ choices entry.2 ->
                       member_at scenes (nextScene choice) <> Absent.
Proof.
  induction entries as [|entry entries IH]; cbn [broken_rows].
  - split; [|done]. intros _ e choice Hin. by apply elem_of_nil in Hin.
  - rewrite app_nil, IH, broken_from_nil. split.
    + intros [Hfirst Hrest] e choice He Hin.
      apply elem_of_cons in He as [->|He]; [by apply Hfirst | by eapply Hrest].
    + intros Hall. split.
      * intros choice Hin. apply (Hall entry); [apply elem_of_cons; by left | done].
      * intros e choice He Hin. apply (Hall e); [apply elem_of_cons; by right | done].
Qed.

End BrokenLinkChanges.

Section FreshScene.
Import Analyzer SceneBuilder.

(** A scene put under an id that is no scene yet, that is no array index
    and that no choice leads to. *)
Variable scenes : Scenes.
Variable newSceneId : string.
Variable newScene : Scene.

Hypothesis Hfresh : newSceneId ∉ Object_keys scenes.
Hypothesis Hname : array_index newSceneId = None.
Hypothesis Huntargeted : ~ targeted scenes newSceneId.
Hypothesis Hstart : is_Some (scene_at scenes "start").

Lemma fresh_scene_scenes :
  set_scene scenes newSceneId newScene = (scenes ++ [(newSceneId, newScene)])%list.
Proof. by apply set_scene_fresh. Qed.

Lemma fresh_scene_not_start : newSceneId <> "start".
Proof. intros ->. by apply is_Some_scene_at in Hstart. Qed.

(** No path leads to the new scene, before or after. *)
Lemma fresh_scene_off_paths sceneId :
  path_from_start scenes sceneId -> sceneId <> newSceneId.
Proof.
  intros Hpath ->. inversion Hpath as [Heq | from scene choice _ Hat Hin Heq].
  - by apply fresh_scene_not_start.
  - apply Huntargeted. exists (from, scene), choice.
    split; [by apply scene_at_elem_of | done].
Qed.

Lemma fresh_scene_paths sceneId :
  path_from_start (set_scene scenes newSceneId newScene) sceneId <->
  path_from_start scenes sceneId.
Proof.
  split.
  - induction 1 as [|from scene choice Hpath IH Hat Hin]; [constructor|].
    rewrite scene_at_set_other in Hat by (by apply fresh_scene_off_paths).
    by eapply path_step.
  - induction 1 as [|from scene choice Hpath IH Hat Hin]; [constructor|].
    eapply path_step; [exact IH | | done].
    rewrite scene_at_set_other; [done|]. by apply fresh_scene_off_paths.
Qed.

Lemma fresh_scene_faultless :
  faultless (set_scene scenes newSceneId newScene) <-> faultless scenes.
Proof.
  split; intros Hfaultless name Hpath.
  - rewrite <- (member_at_set_other scenes newSceneId newScene)
      by (by apply fresh_scene_off_paths).
    apply Hfaultless. by apply fresh_scene_paths.
  - apply fresh_scene_paths in Hpath.
    rewrite member_at_set_other by (by apply fresh_scene_off_paths). by apply Hfaultless.
Qed.

(** The new scene is reported as unreachable, after the others, when the
    traversal returns; the search for it reads every name a path leads
    to. *)
Lemma fresh_scene_unreachable :
  (faultless scenes ->
   exists unreachable,
     findUnreachableScenes scenes = Returns unreachable /\
     findUnreachableScenes (set_scene scenes newSceneId newScene)
     = Returns (unreachable ++ [newSceneId])%list) /\
  (~ faultless scenes ->
   findUnreachableScenes (set_scene scenes newSceneId newScene) = ThrowsTypeError).
Proof.
  split.
  - intros Hfaultless.
    pose proof (proj2 fresh_scene_faultless Hfaultless) as Hfaultless'.
    assert (forall sceneId,
              isSceneReachable scenes sceneId = Returns false <->
              ~ path_from_start scenes sceneId) as Hold.
    { intros sceneId.
      destruct (isSceneReachable_path scenes sceneId Hfaultless) as (reachable & -> & Hiff).
      destruct reachable; [|naive_solver]. split; [done|]. intros []. by apply Hiff. }
    assert (forall sceneId,
              isSceneReachable (set_scene scenes newSceneId newScene) sceneId = Returns false <->
              ~ path_from_start scenes sceneId) as Hnew.
    { intros sceneId. rewrite <- fresh_scene_paths.
      destruct (isSceneReachable_path _ sceneId Hfaultless') as (reachable & -> & Hiff).
      destruct reachable; [|naive_solver]. split; [done|]. intros []. by apply Hiff. }
    eexists. split.
    + apply filter_unreachable_Returns. split; [|reflexivity].
      apply Forall_forall. intros key _.
      by destruct (isSceneReachable_path scenes key Hfaultless) as (reachable & -> & _).
    + apply filter_unreachable_Returns. split.
      * apply Forall_forall. intros key _.
        by destruct (isSceneReachable_path _ key Hfaultless') as (reachable & -> & _).
      * replace (Object_keys (set_scene scenes newSceneId newScene))
          with (Object_keys scenes ++ [newSceneId])%list
          by (rewrite fresh_scene_scenes; unfold Object_keys; by rewrite map_app).
        rewrite filter_app. f_equal.
        -- apply list_filter_iff. intros sceneId. by rewrite Hold, Hnew.
        -- rewrite filter_cons, filter_nil. rewrite decide_True; [done|].
           apply Hnew. intros Hpath. by apply fresh_scene_off_paths in Hpath.
  - intros Hfaulty. apply filter_unreachable_Throws, Exists_exists.
    exists newSceneId. split; [apply set_scene_keys; by left|].
    destruct (isSceneReachable (set_scene scenes newSceneId newScene) newSceneId)
      as [[|]|] eqn:Hcall; [| |done].
    + apply isSceneReachable_true, fresh_scene_paths in Hcall.
      by apply fresh_scene_off_paths in Hcall.
    + apply isSceneReachable_false in Hcall as [_ Hfaultless].
      by apply fresh_scene_faultless in Hfaultless.
Qed.

(** The broken links are those there were, then those of the new scene. *)
Lemma fresh_scene_broken :
  findBrokenLinks (set_scene scenes newSceneId newScene)
  = (findBrokenLinks scenes
     ++ broken_from (set_scene scenes newSceneId newScene) newSceneId 0 (choices newScene))%list.
Proof.
  rewrite (findBrokenLinks_rows (set_scene scenes newSceneId newScene)),
    (findBrokenLinks_rows scenes).
  replace (broken_rows (set_scene scenes newSceneId newScene)
                       (set_scene scenes newSceneId newScene))
    with (broken_rows (set_scene scenes newSceneId newScene)
                      (scenes ++ [(newSceneId, newScene)])%list)
    by (by rewrite <- fresh_scene_scenes).
  rewrite broken_rows_app. cbn [broken_rows fst snd]. rewrite app_nil_r. f_equal.
  apply broken_rows_ext. intros entry choice Hentry Hin.
  rewrite member_at_set_other; [done|]. intros Htarget. apply Huntargeted.
  by exists entry, choice.
Qed.

End FreshScene.

Section AddScene.
Import Analyzer SceneBuilder.

Variable scenes : Scenes.
Variable newSceneId : string.

Hypothesis Hfresh : newSceneId ∉ Object_keys scenes.
Hypothesis Hname : array_index newSceneId = None.
Hypothesis Huntargeted : ~ targeted scenes newSceneId.
Hypothesis Hstart : is_Some (scene_at scenes "start").

(** X18. A scene added by the builder under a fresh id (one that is no
    scene yet, no array index, and that no choice leads to), in an episode
    that has its ["start"] scene, adds no broken link, its one choice leading
    to ["start"]. On a graph where no path leads to a name inherited from
    [Object.prototype], the analysis reports the new scene as unreachable,
    after the scenes it reported before; on the other graphs the search for
    the new scene throws, whatever the analysis did before. *)
Theorem added_scene_is_unreachable :
  findBrokenLinks (handleAddScene newSceneId scenes) = findBrokenLinks scenes /\
  (faultless scenes ->
   exists unreachable,
     findUnreachableScenes scenes = Returns unreachable /\
     findUnreachableScenes (handleAddScene newSceneId scenes)
     = Returns (unreachable ++ [newSceneId])%list) /\
  (~ faultless scenes ->
   findUnreachableScenes (handleAddScene newSceneId scenes) = ThrowsTypeError).
Proof.
  unfold handleAddScene. split; [|by apply fresh_scene_unreachable].
  rewrite fresh_scene_broken by done. cbn [broken_from choices nextScene].
  unfold member_at.
  rewrite scene_at_set_other by (intros Heq; by eapply fresh_scene_not_start).
  destruct Hstart as [start ->]. apply app_nil_r.
Qed.

End AddScene.

Section DuplicateScene.
Import Analyzer SceneBuilder.

Variable scenes : Scenes.
Variables newSceneId sceneId : string.
Variable sourceScene : Scene.

Hypothesis Hnodup : NoDup (Object_keys scenes).
Hypothesis Hfresh : newSceneId ∉ Object_keys scenes.
Hypothesis Hname : array_index newSceneId = None.
Hypothesis Huntargeted : ~ targeted scenes newSceneId.
Hypothesis Hstart : is_Some (scene_at scenes "start").
Hypothesis Hsource : scene_at scenes sceneId = Some sourceScene.

(** X29. A duplicated scene is a copy nothing leads to. For a scene that
    exists, copied by the builder under a fresh id: the copy has the text and
    the choices of the source, and its title with [" (Copy)"] behind; every
    scene there was is as it was; the broken links are those there were,
    followed by one for each broken choice of the source, now under the id of
    the copy. On a graph where no path leads to a name inherited from
    [Object.prototype], the analysis reports the copy as unreachable, after
    the scenes it reported before; on the other graphs the search for the
    copy throws. Duplicating an id that reads as [undefined] changes
    nothing. *)
Theorem duplicated_scene_inherits_links :
  exists scenes',
    handleDuplicateScene newSceneId sceneId scenes = Some scenes' /\
    scene_at scenes' newSceneId
    = Some (mkScene newSceneId (scene_title sourceScene ++ " (Copy)")
                    (scene_text sourceScene) (choices sourceScene)) /\
    (forall other, other <> newSceneId -> scene_at scenes' other = scene_at scenes other) /\
    (exists copies,
       findBrokenLinks scenes' = (findBrokenLinks scenes ++ copies)%list /\
       forall link, link ∈ copies <->
                    link.1 = newSceneId /\ (sceneId, link.2) ∈ findBrokenLinks scenes) /\
    (faultless scenes ->
     exists unreachable,
       findUnreachableScenes scenes = Returns unreachable /\
       findUnreachableScenes scenes' = Returns (unreachable ++ [newSceneId])%list) /\
    (~ faultless scenes -> findUnreachableScenes scenes' = ThrowsTypeError) /\
    (forall ghost, member_at scenes ghost = Absent ->
       handleDuplicateScene newSceneId ghost scenes = Some scenes).
Proof.
  unfold handleDuplicateScene.
  rewrite (proj2 (member_at_Own scenes sceneId sourceScene) Hsource).
  eexists. split; [reflexivity|].
  split; [apply scene_at_set_same|]. split; [intros other Hother; by apply scene_at_set_other|].
  split; [|split; [by apply fresh_scene_unreachable|split; [by apply fresh_scene_unreachable|]]].
  - eexists. split; [by apply fresh_scene_broken|].
    intros link. cbn [choices]. rewrite elem_of_broken_from.
    rewrite elem_of_findBrokenLinks by done. cbn [fst snd]. split.
    + intros (Hid & _ & choice & Hat & Hnone). split; [done|].
      exists sourceScene, choice. split; [done|]. rewrite Nat.sub_0_r in Hat. split; [done|].
      rewrite member_at_set_other in Hnone; [done|]. intros Htarget. apply Huntargeted.
      exists (sceneId, sourceScene), choice. split; [by apply scene_at_elem_of|].
      split; [|done]. eapply list_elem_of_lookup_2. exact Hat.
    + intros (Hid & scene & choice & Hat & Hchoice & Hnone). simplify_eq.
      split; [done|]. split; [lia|]. exists choice. rewrite Nat.sub_0_r. split; [done|].
      rewrite member_at_set_other; [done|]. intros Htarget. apply Huntargeted.
      exists (sceneId, sourceScene), choice.
      split; [by apply scene_at_elem_of|]. split; [|done].
      eapply list_elem_of_lookup_2. exact Hchoice.
  - intros ghost Hghost. by rewrite Hghost.
Qed.

End DuplicateScene.

Section DeleteScene.
Import Analyzer SceneBuilder.

Variable scenes : Scenes.
Variable sceneId : string.

Hypothesis Hnodup : NoDup (Object_keys scenes).
Hypothesis Hother : sceneId <> "start".

Lemma deleted_scene_elem_of entry :
  entry ∈ handleDeleteScene sceneId scenes <-> entry ∈ scenes /\ entry.1 <> sceneId.
Proof.
  unfold handleDeleteScene. rewrite decide_False by done. unfold delete_scene.
  rewrite list_elem_of_filter. naive_solver.
Qed.

Lemma deleted_scene_at other :
  scene_at (handleDeleteScene sceneId scenes) other
  = if decide (other = sceneId) then None else scene_at scenes other.
Proof. unfold handleDeleteScene. rewrite decide_False by done. apply scene_at_delete. Qed.

Lemma deleted_scene_keys :
  Object_keys (handleDeleteScene sceneId scenes)
  = filter (fun k => k <> sceneId) (Object_keys scenes).
Proof. unfold handleDeleteScene. rewrite decide_False by done. apply delete_scene_keys. Qed.

Lemma deleted_scene_paths target :
  path_from_start (handleDeleteScene sceneId scenes) target -> path_from_start scenes target.
Proof.
  induction 1 as [|from scene choice Hpath IH Hat Hin]; [constructor|].
  rewrite deleted_scene_at in Hat. case_decide; [done|]. by eapply path_step.
Qed.

(** X19. Deleting a scene (any scene but ["start"]) in the builder leaves
    its incoming choices dangling: afterwards the links [findBrokenLinks]
    reports are exactly the choices of the remaining scenes that led to the
    deleted scene, or to no scene already, and whose target is not the name
    of a member of [Object.prototype]. The deleted scene is no scene any
    more, the other scenes keep their order, and a scene the traversal finds
    after the deletion was on a path from ["start"] before it. *)
Theorem deleted_scene_breaks_its_links :
  (forall link,
     link ∈ findBrokenLinks (handleDeleteScene sceneId scenes) <->
     link.1 <> sceneId /\
     exists scene choice,
       scene_at scenes link.1 = Some scene /\ choices scene !! link.2 = Some choice /\
       (nextScene choice ∉ prototype_members) /\
       (nextScene choice = sceneId \/ scene_at scenes (nextScene choice) = None)) /\
  Object_keys (handleDeleteScene sceneId scenes)
  = filter (fun k => k <> sceneId) (Object_keys scenes) /\
  (forall target,
     isSceneReachable (handleDeleteScene sceneId scenes) target = Returns true ->
     path_from_start scenes target /\ isSceneReachable scenes target <> Returns false).
Proof.
  assert (NoDup (Object_keys (handleDeleteScene sceneId scenes))) as Hnodup'.
  { rewrite deleted_scene_keys. by apply NoDup_filter. }
  assert (forall target,
            member_at (handleDeleteScene sceneId scenes) target = Absent <->
            (target ∉ prototype_members) /\
            (target = sceneId \/ scene_at scenes target = None)) as Habsent.
  { intros target. rewrite member_at_Absent, <- scene_at_None, deleted_scene_at.
    case_decide; naive_solver. }
  split; [|split].
  - intros [source index]. rewrite elem_of_findBrokenLinks by done. cbn [fst snd].
    rewrite deleted_scene_at. split.
    + intros (scene & choice & Hat & Hchoice & Hnone). case_decide; [done|].
      split; [done|]. exists scene, choice. split; [done|]. split; [done|]. by apply Habsent.
    + intros (Hne & scene & choice & Hat & Hchoice & Hplain & Htarget).
      exists scene, choice. rewrite decide_False by done. split; [done|]. split; [done|].
      by apply Habsent.
  - apply deleted_scene_keys.
  - intros target Hreach.
    assert (path_from_start scenes target) as Hpath
      by (by apply deleted_scene_paths, isSceneReachable_true).
    split; [done|]. intros Hfalse. by apply isSceneReachable_false in Hfalse as [Hnone _].
Qed.

End DeleteScene.

(* ===================================================================== *)
(** * The story tester plays the paths the analyzer finds *)
(* ===================================================================== *)

Section StoryTesterFacts.
Import Analyzer StoryTester.

Variable scenes : Scenes.

(** The state after the clicks. *)
Local Abbreviation play := (foldl (handleChoiceClick scenes)).

Lemma playable_app st clicks choice :
  playable scenes st (clicks ++ [choice]) <->
  playable scenes st clicks /\
  exists currentScene,
    scene_at scenes (currentSceneId (play st clicks)) = Some currentScene /\
    choice ∈ choices currentScene.
Proof.
  revert st. induction clicks as [|c clicks IH]; intros st; cbn [app playable foldl].
  - naive_solver.
  - rewrite IH. naive_solver.
Qed.

Lemma click_shown st choice currentScene :
  scene_at scenes (currentSceneId st) = Some currentScene ->
  handleChoiceClick scenes st choice
  = mkTester (nextScene choice) (history st ++ [(currentSceneId st, choice_text choice)]).
Proof.
  intros Hat. unfold handleChoiceClick.
  by rewrite (proj2 (member_at_Own scenes _ currentScene) Hat).
Qed.

Lemma played_path st clicks :
  path_from_start scenes (currentSceneId st) -> playable scenes st clicks ->
  path_from_start scenes (currentSceneId (play st clicks)) /\
  length (history (play st clicks)) = length (history st) + length clicks.
Proof.
  revert st. induction clicks as [|choice clicks IH]; intros st Hpath Hplayable.
  { cbn. split; [done | lia]. }
  cbn [playable] in Hplayable. destruct Hplayable as [(scene & Hat & Hin) Hrest].
  cbn [foldl]. destruct (IH (handleChoiceClick scenes st choice)) as [Hend Hlen].
  - rewrite (click_shown _ _ scene) by done. cbn [currentSceneId]. by eapply path_step.
  - done.
  - split; [done|]. rewrite Hlen. rewrite (click_shown _ _ scene) by done. cbn [history length].
    rewrite length_app. cbn. lia.
Qed.

Lemma path_played sceneId :
  path_from_start scenes sceneId ->
  exists clicks,
    playable scenes loaded clicks /\
    currentSceneId (play loaded clicks) = sceneId /\
    length (history (play loaded clicks)) = length clicks.
Proof.
  induction 1 as [|from scene choice Hpath (clicks & Hplayable & Hend & Hlen) Hat Hin].
  - by exists [].
  - exists (clicks ++ [choice])%list. split; [|split].
    + apply playable_app. split; [done|]. exists scene. by rewrite Hend.
    + rewrite foldl_app. cbn [foldl].
      rewrite (click_shown _ choice scene) by (by rewrite Hend). done.
    + rewrite foldl_app. cbn [foldl].
      rewrite (click_shown _ choice scene) by (by rewrite Hend).
      cbn [history]. rewrite !length_app, Hlen. done.
Qed.

(** X20. The story tester plays the paths of the graph: some sequence of
    clicks on the choices shown, from the loaded state, makes a scene id the
    current scene exactly when a path of choices leads to it from
    ["start"], and the history then has one entry per click. So every id
    for which [isSceneReachable] returns [true] can be played to, and for an
    id that can be played to [isSceneReachable] never returns [false]: it
    returns [true], or it throws on a name inherited from
    [Object.prototype] that it met first; on a graph where no path leads to
    such a name it returns [true]. *)
Theorem tester_plays_reachable_scenes sceneId :
  ((exists clicks,
      playable scenes loaded clicks /\
      currentSceneId (play loaded clicks) = sceneId /\
      length (history (play loaded clicks)) = length clicks) <->
   path_from_start scenes sceneId) /\
  (isSceneReachable scenes sceneId = Returns true -> path_from_start scenes sceneId) /\
  (path_from_start scenes sceneId -> isSceneReachable scenes sceneId <> Returns false) /\
  (faultless scenes ->
   (isSceneReachable scenes sceneId = Returns true <-> path_from_start scenes sceneId)).
Proof.
  split; [|split; [|split]].
  - split; [|apply path_played].
    intros (clicks & Hplayable & <- & _). apply played_path; [constructor | done].
  - apply isSceneReachable_true.
  - intros Hpath Hfalse. by apply isSceneReachable_false in Hfalse as [Hnone _].
  - intros Hfaultless.
    destruct (isSceneReachable_path scenes sceneId Hfaultless) as (reachable & -> & Hiff).
    rewrite <- Hiff. naive_solver.
Qed.

End StoryTesterFacts.

(* ===================================================================== *)
(** * The validation of the episode editor *)
(* ===================================================================== *)

Section EditorValidation.
Import Analyzer JS Db Schema EpisodeEditor.

Lemma scan_scene_true sceneIds brokenLinks cs :
  scan_scene sceneIds brokenLinks cs = true <->
  brokenLinks = true \/ exists choice, choice ∈ cs /\ nextScene choice ∉ sceneIds.
Proof.
  unfold scan_scene. revert brokenLinks. induction cs as [|c cs IH]; intros brokenLinks.
  - cbn. split; [by left|]. intros [|(choice & Hin & _)]; [done|]. by apply elem_of_nil in Hin.
  - cbn [foldl]. rewrite IH. setoid_rewrite elem_of_cons. case_decide; naive_solver.
Qed.

Lemma scan_scenes_from sceneIds brokenLinks (entries : list (string * Scene)) :
  foldl (fun brokenLinks entry => scan_scene sceneIds brokenLinks (choices entry.2))
        brokenLinks entries = true <->
  brokenLinks = true \/
  exists entry choice, entry ∈ entries /\ choice ∈ choices entry.2 /\
                       nextScene choice ∉ sceneIds.
Proof.
  revert brokenLinks. induction entries as [|entry entries IH]; intros brokenLinks.
  - cbn. split; [by left|]. intros [|(e & c & Hin & _)]; [done|]. by apply elem_of_nil in Hin.
  - cbn [foldl]. rewrite IH, scan_scene_true. setoid_rewrite elem_of_cons. naive_solver.
Qed.

(** The broken-links flag of the editor: some choice leads to an id that
    is no key of the scenes. *)
Lemma scan_scenes_true scenes :
  scan_scenes scenes = true <->
  exists entry choice, entry ∈ scenes /\ choice ∈ choices entry.2 /\
                       nextScene choice ∉ Analyzer.Object_keys scenes.
Proof.
  unfold scan_scenes. rewrite scan_scenes_from. setoid_rewrite elem_of_list_to_set.
  naive_solver.
Qed.

Lemma scan_scenes_false scenes :
  scan_scenes scenes = false <->
  forall entry choice, entry ∈ scenes -> choice ∈ choices entry.2 ->
                       nextScene choice ∈ Analyzer.Object_keys scenes.
Proof.
  rewrite <- not_true_iff_false, scan_scenes_true. split.
  - intros Hnone entry choice Hentry Hin.
    destruct (decide (nextScene choice ∈ Analyzer.Object_keys scenes)); [done|].
    exfalso. apply Hnone. by exists entry, choice.
  - intros Hall (entry & choice & Hentry & Hin & Hout). by apply Hout, (Hall entry).
Qed.

(** Scenes whose choices all lead to scenes: the analyzer has nothing to
    report and reads no inherited name. *)
Lemma closed_scenes_sound scenes :
  (forall entry choice, entry ∈ scenes -> choice ∈ choices entry.2 ->
                        nextScene choice ∈ Analyzer.Object_keys scenes) ->
  is_Some (scene_at scenes "start") ->
  findBrokenLinks scenes = [] /\ faultless scenes.
Proof.
  intros Hclosed Hstart. split.
  - rewrite findBrokenLinks_rows. apply broken_rows_nil. intros entry choice Hentry Hin.
    rewrite member_at_Absent. intros [Hout _]. by apply Hout, (Hclosed entry).
  - intros name Hpath. rewrite member_at_Inherited. intros [Hout _]. apply Hout.
    destruct Hpath as [|from scene choice _ Hat Hin]; [by apply is_Some_scene_at|].
    apply (Hclosed (from, scene)); [by apply scene_at_elem_of | done].
Qed.

Lemma elem_of_when (b : bool) (x y : string) :
  x ∈ (if b then [y] else []) <-> b = true /\ x = y.
Proof.
  destruct b; [rewrite list_elem_of_singleton; naive_solver|].
  split; [intros H; by apply elem_of_nil in H | by intros [? _]].
Qed.

Lemma when_nil (b : bool) (y : string) : (if b then [y] else []) = [] <-> b = false.
Proof. by destruct b. Qed.

Lemma scenes_empty (scenes : Scenes) :
  bool_decide (length (Analyzer.Object_keys scenes) = 0) = true <-> scenes = [].
Proof. rewrite bool_decide_eq_true. by destruct scenes. Qed.

(** [ep.scenes.start] reads an own property: ["start"] is no member of
    [Object.prototype]. *)
Lemma member_at_start scenes :
  member_at scenes "start" = match scene_at scenes "start" with
                             | Some scene => Own scene
                             | None => Absent
                             end.
Proof. apply member_at_plain. apply (bool_decide_unpack _). by vm_compute. Qed.

(** The errors, check by check. *)
Lemma validationErrors_eq ep :
  validationErrors ep
  = ((if blank (title ep) then ["Episode title is required"] else [])
     ++ (if blank (author ep) then ["Author name is required"] else [])
     ++ (if blank (description ep) then ["Episode description is required"] else [])
     ++ (if bool_decide (length (Analyzer.Object_keys (scenes ep)) = 0)
         then ["Episode must have at least one scene"]
         else (if bool_decide (scene_at (scenes ep) "start" = None)
               then ["Episode must have a 'start' scene"] else [])
              ++ (if scan_scenes (scenes ep)
                  then ["Episode contains broken scene links"] else [])))%list.
Proof.
  unfold validationErrors, push. rewrite member_at_start.
  destruct (blank (title ep)), (blank (author ep)), (blank (description ep)),
    (bool_decide (length (Analyzer.Object_keys (scenes ep)) = 0)); try done;
    destruct (scene_at (scenes ep) "start"), (scan_scenes (scenes ep)); done.
Qed.

(** X21. The episode editor's validation reports every violation it
    checks, not the first one only: each of its six messages is among the
    errors exactly when its condition holds, the one about broken links when
    some choice leads to an id that is no key of the scenes. So the editor
    lets an episode be saved, exported or tested exactly when the title, the
    author and the description are not blank, there is a scene, there is a
    ["start"] scene and every choice leads to a scene; for such an episode
    [findBrokenLinks] finds nothing and the traversal of the analyzer reads
    no inherited name. *)
Theorem editor_validation_lists_all ep :
  ("Episode title is required" ∈ validationErrors ep <-> blank (title ep) = true) /\
  ("Author name is required" ∈ validationErrors ep <-> blank (author ep) = true) /\
  ("Episode description is required" ∈ validationErrors ep <-> blank (description ep) = true) /\
  ("Episode must have at least one scene" ∈ validationErrors ep <-> scenes ep = []) /\
  ("Episode must have a 'start' scene" ∈ validationErrors ep <->
     scenes ep <> [] /\ scene_at (scenes ep) "start" = None) /\
  ("Episode contains broken scene links" ∈ validationErrors ep <->
     scenes ep <> [] /\
     exists entry choice, entry ∈ scenes ep /\ choice ∈ choices entry.2 /\
                          nextScene choice ∉ Analyzer.Object_keys (scenes ep)) /\
  (validateEpisode ep = true <->
     blank (title ep) = false /\ blank (author ep) = false /\ blank (description ep) = false /\
     scenes ep <> [] /\ is_Some (scene_at (scenes ep) "start") /\
     forall entry choice, entry ∈ scenes ep -> choice ∈ choices entry.2 ->
                          nextScene choice ∈ Analyzer.Object_keys (scenes ep)) /\
  (validateEpisode ep = true ->
     findBrokenLinks (scenes ep) = [] /\ faultless (scenes ep)).
Proof.
  pose proof (scan_scenes_true (scenes ep)) as Hflag.
  pose proof (scan_scenes_false (scenes ep)) as Hscan.
  pose proof (scenes_empty (scenes ep)) as Hnone.
  assert (validateEpisode ep = true <->
     blank (title ep) = false /\ blank (author ep) = false /\ blank (description ep) = false /\
     scenes ep <> [] /\ is_Some (scene_at (scenes ep) "start") /\
     forall entry choice, entry ∈ scenes ep -> choice ∈ choices entry.2 ->
                          nextScene choice ∈ Analyzer.Object_keys (scenes ep)) as Hvalid.
  { unfold validateEpisode.
    rewrite bool_decide_eq_true, length_zero_iff_nil, validationErrors_eq.
    destruct (bool_decide (length (Analyzer.Object_keys (scenes ep)) = 0)).
    - assert (scenes ep = []) as Hnil by (by apply Hnone).
      rewrite !app_nil. naive_solver.
    - assert (scenes ep <> []) as Hsome by (intros Hnil; by apply Hnone in Hnil).
      assert (bool_decide (scene_at (scenes ep) "start" = None) = false
              <-> is_Some (scene_at (scenes ep) "start")) as Hstart'.
      { rewrite bool_decide_eq_false, <- not_eq_None_Some. done. }
      rewrite !app_nil, !when_nil. rewrite Hstart', Hscan. naive_solver. }
  split; [|split; [|split; [|split; [|split; [|split; [|split; [exact Hvalid|]]]]]]].
  7:{ intros (_ & _ & _ & _ & Hstart & Hclosed)%Hvalid. by apply closed_scenes_sound. }
  all: rewrite validationErrors_eq;
    destruct (bool_decide (length (Analyzer.Object_keys (scenes ep)) = 0)) eqn:Hempty.
  all: try (assert (scenes ep = []) as Hnil by (by apply Hnone));
       try (assert (scenes ep <> []) as Hsome
              by (intros Hnil; apply Hnone in Hnil; congruence)).
  all: rewrite !elem_of_app, !elem_of_when, ?list_elem_of_singleton, ?bool_decide_eq_true.
  all: try rewrite Hflag.
  all: naive_solver.
Qed.

End EditorValidation.

(* ===================================================================== *)
(** * Validation of the typed documents *)
(* ===================================================================== *)

Section TypedValidation.
Import Analyzer JS Db Schema.

Lemma missing_or_blank_string s : missing_or_blank (JStr s) = Return (blank s).
Proof.
  unfold missing_or_blank, blank. cbn [truthy]. destruct s as [|c s]; [done|].
  by rewrite bool_decide_false.
Qed.

Lemma forEach_from_Return {A B} (f : A -> B) (body : B -> nat -> result unit)
    (Q : A -> Prop) items index :
  (forall item i, body (f item) i = Return tt <-> Q item) ->
  forEach_from index body (map f items) = Return tt <-> Forall Q items.
Proof.
  intros Hbody. revert index. induction items as [|item items IH]; intros index.
  - cbn. split; [by constructor | done].
  - cbn [map forEach_from]. rewrite Forall_cons, <- (Hbody item index), <- (IH (S index)).
    destruct (body (f item) index) as [[]|]; cbn; naive_solver.
Qed.

Lemma validateChoice_typed sceneId choice index :
  validateChoice sceneId (choice_value choice) index = Return tt <->
  blank (choice_text choice) = false /\ blank (nextScene choice) = false.
Proof.
  unfold validateChoice, choice_value. cbn [get bind].
  change (own_property _ "text") with (JStr (choice_text choice)).
  rewrite missing_or_blank_string. cbn [bind].
  destruct (blank (choice_text choice)); [naive_solver|].
  change (own_property _ "nextScene") with (JStr (nextScene choice)).
  rewrite missing_or_blank_string. cbn [bind].
  destruct (blank (nextScene choice)); naive_solver.
Qed.

Lemma validateScene_typed sceneId scene index :
  validateScene (sceneId, scene_value scene) index = Return tt <->
  blank (scene_id scene) = false /\ blank (scene_title scene) = false /\
  Forall (fun choice => blank (choice_text choice) = false /\ blank (nextScene choice) = false)
         (choices scene).
Proof.
  unfold validateScene, scene_value. cbn [fst snd get bind].
  change (own_property _ "id") with (JStr (scene_id scene)).
  rewrite missing_or_blank_string. cbn [bind].
  destruct (blank (scene_id scene)); [naive_solver|].
  change (own_property _ "title") with (JStr (scene_title scene)).
  rewrite missing_or_blank_string. cbn [bind].
  destruct (blank (scene_title scene)); [naive_solver|].
  change (own_property _ "text") with (JArr (map JStr (scene_text scene))).
  cbn [Array_isArray negb].
  change (own_property _ "choices") with (JArr (map choice_value (choices scene))).
  unfold forEach.
  rewrite (forEach_from_Return choice_value (validateChoice sceneId)
             (fun choice => blank (choice_text choice) = false /\
                            blank (nextScene choice) = false))
    by (intros; apply validateChoice_typed).
  naive_solver.
Qed.

Lemma own_property_scenes (scenes : Scenes) key :
  own_property (map (fun entry => (entry.1, scene_value entry.2)) scenes) key
  = match scene_at scenes key with
    | Some scene => scene_value scene
    | None => JUndefined
    end.
Proof.
  induction scenes as [|[k s] rest IH]; [done|]. cbn [map own_property scene_at fst snd].
  by case_decide.
Qed.

(** X22. What [validateEpisode] asks of a well-typed episode. An episode
    of the schema passes the validation of the persistence engine (the one
    that guards imports) exactly when its title is not blank, it has a scene,
    it has a ["start"] scene, and in every scene the id, the title, and the
    text and the target of every choice are not blank. Neither the author
    nor the description nor the links are looked at. *)
Theorem typed_episode_validation ep :
  Db.validateEpisode (episode_value ep) = Return tt <->
  blank (title ep) = false /\ scenes ep <> [] /\
  is_Some (scene_at (scenes ep) "start") /\
  forall entry, entry ∈ scenes ep ->
    blank (scene_id entry.2) = false /\ blank (scene_title entry.2) = false /\
    forall choice, choice ∈ choices entry.2 ->
      blank (choice_text choice) = false /\ blank (nextScene choice) = false.
Proof.
  unfold Db.validateEpisode, episode_value. cbn [get bind].
  change (own_property (episode_props ep) "title") with (JStr (title ep)).
  rewrite missing_or_blank_string. cbn [bind].
  destruct (blank (title ep)); [naive_solver|].
  change (own_property (episode_props ep) "scenes") with (scenes_value (scenes ep)).
  unfold scenes_value. cbn [truthy negb orb get bind Object_entries].
  unfold JS.Object_keys. cbn [Object_entries]. rewrite !length_map.
  destruct (scenes ep) as [|first rest] eqn:Hscenes; [cbn; naive_solver|].
  rewrite bool_decide_false by done. rewrite own_property_scenes.
  destruct (scene_at (first :: rest) "start") as [start|] eqn:Hstart; cbn [truthy negb].
  - change (negb (truthy (scene_value start))) with false. cbv iota. unfold forEach.
    rewrite (forEach_from_Return (fun entry : string * Scene => (entry.1, scene_value entry.2))
               validateScene
               (fun entry =>
                  blank (scene_id entry.2) = false /\ blank (scene_title entry.2) = false /\
                  Forall (fun choice => blank (choice_text choice) = false /\
                                        blank (nextScene choice) = false)
                         (choices entry.2)))
      by (intros [k s] i; apply validateScene_typed).
    rewrite Forall_forall. setoid_rewrite Forall_forall. naive_solver.
  - split; [done|]. intros (_ & _ & [? ?] & _). done.
Qed.

End TypedValidation.

(* ===================================================================== *)
(** * New documents and the save of the editor *)
(* ===================================================================== *)

Section Templates.
Import Analyzer JS Db Store Schema Utils.

(** X23. A new document is ready to be saved. The episode template, under
    the id [generateId("ep-")] gives it at any instant, passes the validation
    of the episode editor and the one of the persistence engine, has no broken
    link and no unreachable scene; the campaign template passes
    [validateCampaign]; and both ids are accepted by [saveEpisode] and
    [saveCampaign], which resolve with them when the storage layer opens and
    takes the record. *)
Theorem new_documents_are_ready P now random db :
  open_error P = None ->
  request_error P (Put EPISODES_STORE) = None ->
  request_error P (Put CAMPAIGNS_STORE) = None ->
  EpisodeEditor.validateEpisode (createNewEpisodeTemplate (generateId now random "ep-")) = true /\
  Db.validateEpisode (episode_value (createNewEpisodeTemplate (generateId now random "ep-")))
  = Return tt /\
  findBrokenLinks (scenes (createNewEpisodeTemplate (generateId now random "ep-"))) = [] /\
  findUnreachableScenes (scenes (createNewEpisodeTemplate (generateId now random "ep-")))
  = Returns [] /\
  validateCampaign (createNewCampaignTemplate (generateId now random "camp-")) = Return tt /\
  (saveEpisode P (episode_value (createNewEpisodeTemplate (generateId now random "ep-"))) db).1
  = Resolved (JStr (generateId now random "ep-")) /\
  (saveCampaign P (createNewCampaignTemplate (generateId now random "camp-")) db).1
  = Resolved (JStr (generateId now random "camp-")).
Proof.
  intros Hopen Hepisodes Hcampaigns.
  assert (forall prefix, truthy (JStr (generateId now random prefix)) = true) as Hid.
  { intros prefix. cbn [truthy]. rewrite bool_decide_false; [done|].
    unfold generateId. intros Hempty. destruct prefix; [|done].
    change (toString36 now ++ String "-" (substring 2 9 random) = EmptyString) in Hempty.
    by destruct (toString36 now). }
  split; [by vm_compute|]. split; [by vm_compute|]. split; [by vm_compute|].
  split; [by vm_compute|]. split; [by vm_compute|]. split.
  - unfold saveEpisode, episode_value.
    change (own_property (episode_props _) "id") with (JStr (generateId now random "ep-")).
    rewrite Hid. cbn [negb valid_key]. rewrite Hopen, Hepisodes.
    by destruct (add_snapshot _ _ _).
  - unfold saveCampaign, createNewCampaignTemplate.
    change (own_property _ "id") with (JStr (generateId now random "camp-")).
    rewrite Hid. cbn [negb valid_key]. by rewrite Hopen, Hcampaigns.
Qed.

End Templates.

Section EditorSave.
Import Analyzer JS Db Store Schema EpisodeEditor.

Variable P : Platform.
Hypothesis Hworks : storage_works P.

Lemma manual_id_not_auto (key : string) (now later : Z) :
  (0 <= now)%Z -> key ++ "-manual-" ++ pretty later <> key ++ "-" ++ pretty now.
Proof.
  intros Hnow Heq. apply append_inv_head in Heq.
  change (String "-" ("manual-" ++ pretty later) = String "-" (pretty now)) in Heq.
  injection Heq as Heq. pose proof (pretty_Z_dashless now Hnow) as Hdashless.
  rewrite <- Heq in Hdashless. cbn in Hdashless. naive_solver.
Qed.

(** X24. The save button of the episode editor. [handleSave] does nothing
    without an episode; it stores nothing when the editor's validation finds
    an error; for an episode that passes, with a working storage layer and
    free snapshot ids, it saves the episode and then takes a manual snapshot
    of the record just stored: afterwards the store holds the stamped episode
    and a manual save whose data is that very record. The debounced auto-save
    is [saveEpisode] without the validation: it stores the stamped episode
    whether the editor's validation passes it or not, as soon as the id is
    not empty and the id of the automatic snapshot is free. *)
Theorem editor_save_commits later ep db :
  handleSave P later None db = (Nothing, db) /\
  (EpisodeEditor.validateEpisode ep = false ->
   handleSave P later (Some ep) db = (ValidationError, db)) /\
  (EpisodeEditor.validateEpisode ep = true ->
   id ep <> EmptyString -> (0 <= now P)%Z ->
   snapshots db !! (id ep ++ "-" ++ pretty (now P)) = None ->
   snapshots db !! (id ep ++ "-manual-" ++ pretty later) = None ->
   exists db' manual,
     handleSave P later (Some ep) db = (Saved, db') /\
     episodes db' !! id ep = Some (stamped P (episode_props ep)) /\
     snapshots db' !! (id ep ++ "-manual-" ++ pretty later) = Some manual /\
     type manual = "manual-save" /\ episodeId manual = id ep /\ timestamp manual = later /\
     data manual = JSON_stringify P 0 (JObj (stamped P (episode_props ep)))) /\
  (id ep <> EmptyString ->
   snapshots db !! (id ep ++ "-" ++ pretty (now P)) = None ->
   episodes (autoSave P ep db) !! id ep = Some (stamped P (episode_props ep))).
Proof.
  assert (own_property (episode_props ep) "id" = JStr (id ep)) as Hown by done.
  split; [done|]. split; [|split].
  { intros Hinvalid. unfold handleSave. by rewrite Hinvalid. }
  2:{ intros Hid Hauto.
      pose proof (saveEpisode_works P Hworks (episode_props ep) (id ep) db Hown Hid Hauto)
        as Hsave.
      unfold autoSave, episode_value. rewrite Hsave. cbn [snd episodes].
      apply lookup_insert_eq. }
  intros Hvalid Hid Hnow Hauto Hmanual. pose proof Hworks as [Hopen Hrequests].
  pose proof (saveEpisode_works P Hworks (episode_props ep) (id ep) db Hown Hid Hauto) as Hsave.
  assert (foldl (fun (snaps : gmap string Snapshot) (s : SnapshotInfo) =>
                   delete (info_id s) snaps)
            (<[snapshot_id (auto_save P (id ep) (episode_props ep))
               := auto_save P (id ep) (episode_props ep)]> (snapshots db))
            (expired_auto_saves
               (<[snapshot_id (auto_save P (id ep) (episode_props ep))
                  := auto_save P (id ep) (episode_props ep)]> (snapshots db))
               (id ep))
          !! (id ep ++ "-manual-" ++ pretty later) = None) as Hfresh.
  { eapply lookup_weaken_None; [|apply fold_delete_subseteq].
    rewrite lookup_insert_ne; [done|]. cbn [snapshot_id auto_save].
    intros Heq. by apply (manual_id_not_auto (id ep) (now P) later). }
  eexists _, _. split; [|split; [|split; [|split; [|split; [|split]]]]].
  - unfold handleSave. rewrite Hvalid. cbn [negb]. unfold episode_value. rewrite Hsave.
    unfold createManualSnapshot, getEpisode. rewrite truthy_key by done.
    cbn [negb open_error at_time valid_key request_error episodes].
    rewrite Hopen, Hrequests, lookup_insert_eq. cbn [truthy negb].
    unfold add_snapshot. cbn [request_error at_time]. rewrite Hrequests.
    cbn [stores begin snapshots snapshot_id now at_time].
    rewrite Hfresh. done.
  - cbn [finish with_snapshots aborted begin stores episodes]. apply lookup_insert_eq.
  - cbn [finish with_snapshots aborted begin stores snapshots]. apply lookup_insert_eq.
  - done.
  - done.
  - done.
  - done.
Qed.

End EditorSave.

(* ===================================================================== *)
(** * The order of the episodes of a campaign *)
(* ===================================================================== *)

Section Renumbering.
Import JS CampaignManager.

Lemma renumber_other idx refs h ref :
  ref ∉ refs -> renumber idx refs h !! ref = h !! ref.
Proof.
  revert idx h. induction refs as [|r rest IH]; intros idx h Hout; [done|].
  apply not_elem_of_cons in Hout as [Hne Hout]. cbn [renumber].
  rewrite IH by done. by rewrite lookup_alter_ne.
Qed.

Lemma renumber_at idx refs h i ref :
  NoDup refs -> refs !! i = Some ref ->
  renumber idx refs h !! ref
  = (fun episode => set_property episode "order" (JNum (Z.of_nat (idx + i) + 1))) <$> h !! ref.
Proof.
  revert idx h i. induction refs as [|r rest IH]; intros idx h i Hnodup Hat; [done|].
  apply NoDup_cons in Hnodup as [Hr Hnodup]. cbn [renumber]. destruct i as [|i]; cbn in Hat.
  - injection Hat as ->. rewrite renumber_other by done.
    rewrite lookup_alter_eq, Nat.add_0_r. done.
  - rewrite (IH (S idx) _ i) by done.
    rewrite lookup_alter_ne by (intros ->; apply Hr; by eapply list_elem_of_lookup_2).
    by replace (S idx + i) with (idx + S i) by lia.
Qed.

Lemma renumber_is_Some idx refs h ref :
  is_Some (renumber idx refs h !! ref) <-> is_Some (h !! ref).
Proof.
  revert idx h. induction refs as [|r rest IH]; intros idx h; [done|].
  cbn [renumber]. rewrite IH. destruct (decide (r = ref)) as [->|Hne].
  - rewrite lookup_alter_eq. by rewrite fmap_is_Some.
  - by rewrite lookup_alter_ne.
Qed.


Lemma positions_lookup n i : i < n -> positions n !! i = Some (JNum (Z.of_nat i + 1)).
Proof. intros Hi. unfold positions. by rewrite list_lookup_fmap, lookup_seq_lt. Qed.

(** After the renumbering the episodes of the array carry their positions. *)
Lemma renumber_orders refs h :
  NoDup refs -> (forall ref, ref ∈ refs -> is_Some (h !! ref)) ->
  orders (renumber 0 refs h) refs = positions (length refs).
Proof.
  intros Hnodup Hheap. apply list_eq. intros i. unfold orders. rewrite list_lookup_fmap.
  destruct (refs !! i) as [ref|] eqn:Hat.
  - rewrite positions_lookup by (by eapply lookup_lt_Some). cbn. f_equal. unfold field.
    rewrite (renumber_at 0 refs h i ref) by done.
    destruct (Hheap ref) as [episode ->]; [by eapply list_elem_of_lookup_2|]. cbn.
    apply own_property_set_same.
  - apply lookup_ge_None in Hat. cbn. symmetry. apply lookup_ge_None.
    unfold positions. by rewrite length_map, length_seq.
Qed.

Lemma renumber_well_formed refs st :
  NoDup refs -> (forall ref, ref ∈ refs -> ref ∈ campaignEpisodes st) ->
  well_formed st -> well_formed (mkState (renumber 0 refs (heap st)) refs).
Proof.
  intros Hnodup Hsub [_ Hheap]. split; [done|]. cbn. intros ref Hin.
  apply renumber_is_Some, Hheap, Hsub, Hin.
Qed.

(** Two neighbours change places. *)
Lemma swap_neighbours {A} (l : list A) i a b :
  l !! i = Some a -> l !! S i = Some b ->
  <[S i := a]> (<[i := b]> l) ≡ₚ l.
Proof.
  revert l. induction i as [|i IH]; intros l Ha Hb.
  - destruct l as [|x [|y l]]; try done. cbn in Ha, Hb. simplify_eq. apply Permutation_swap.
  - destruct l as [|x l]; [done|]. cbn in Ha, Hb. cbn. constructor. by apply IH.
Qed.

End Renumbering.

Section ManagerTheorems.
Import JS CampaignManager.

Lemma moved_episodes index dir st st' :
  handleMoveEpisode index dir st = Some st' ->
  st' = st \/
  exists temp other,
    campaignEpisodes st !! index = Some temp /\
    campaignEpisodes st !! (match dir with up => index - 1 | down => index + 1 end)
    = Some other /\
    campaignEpisodes st' !! index = Some other /\
    campaignEpisodes st' !! (match dir with up => index - 1 | down => index + 1 end)
    = Some temp /\
    campaignEpisodes st' ≡ₚ campaignEpisodes st /\
    heap st' = renumber 0 (campaignEpisodes st') (heap st).
Proof.
  unfold handleMoveEpisode.
  destruct (match dir with up => _ | down => _ end) eqn:Hguard; cbv beta iota zeta.
  { intros Heq. left. by simplify_eq. }
  destruct (campaignEpisodes st !! index) as [temp|] eqn:Htemp; [|done].
  destruct (campaignEpisodes st !! match dir with up => index - 1 | down => index + 1 end)
    as [other|] eqn:Hother; [|done].
  intros [= <-].
  right. exists temp, other. cbn [campaignEpisodes heap].
  assert (index <> match dir with up => index - 1 | down => index + 1 end) as Hne.
  { destruct dir; [|lia]. apply bool_decide_eq_false in Hguard. lia. }
  split; [done|]. split; [done|]. split; [|split; [|split; [|done]]].
  - rewrite list_lookup_insert_ne by done.
    apply list_lookup_insert_eq. by eapply lookup_lt_Some.
  - apply list_lookup_insert_eq. rewrite length_insert. by eapply lookup_lt_Some.
  - destruct dir.
    + apply bool_decide_eq_false in Hguard. destruct index as [|index]; [done|].
      replace (S index - 1) with index in * by lia.
      rewrite list_insert_insert_ne by lia. by apply swap_neighbours.
    + replace (index + 1) with (S index) in * by lia. by apply swap_neighbours.
Qed.


(** X26. The handlers renumber the episode objects in place. The array the
    component was given shares its objects with the array passed on: read
    after [handleRemoveEpisode], every episode of the old array that stood
    behind the removed one shows an [order] one less than its position there,
    while the removed episode keeps the [order] it had. *)
Theorem manager_renumbers_in_place st index :
  well_formed st ->
  (forall i ref, campaignEpisodes st !! i = Some ref -> index < i ->
     field (heap (handleRemoveEpisode index st)) ref "order" = JNum (Z.of_nat i)) /\
  (forall i ref, campaignEpisodes st !! i = Some ref -> i < index ->
     field (heap (handleRemoveEpisode index st)) ref "order" = JNum (Z.of_nat i + 1)) /\
  (forall ref, campaignEpisodes st !! index = Some ref ->
     field (heap (handleRemoveEpisode index st)) ref "order" = field (heap st) ref "order").
Proof.
  intros [Hnodup Hheap].
  assert (NoDup (delete index (campaignEpisodes st))) as Hnodup'.
  { eapply sublist_NoDup; [done | apply sublist_delete]. }
  unfold handleRemoveEpisode. cbn [heap]. split; [|split].
  - intros i ref Hat Hi. destruct i as [|i]; [lia|].
    assert (delete index (campaignEpisodes st) !! i = Some ref) as Hat'
      by (rewrite list_lookup_delete_ge by lia; done).
    unfold field. rewrite (renumber_at 0 _ _ i ref) by done.
    destruct (Hheap ref) as [episode ->]; [by eapply list_elem_of_lookup_2|]. cbn.
    rewrite own_property_set_same. f_equal. lia.
  - intros i ref Hat Hi.
    assert (delete index (campaignEpisodes st) !! i = Some ref) as Hat'
      by (rewrite list_lookup_delete_lt by lia; done).
    unfold field. rewrite (renumber_at 0 _ _ i ref) by done.
    destruct (Hheap ref) as [episode ->]; [by eapply list_elem_of_lookup_2|]. cbn.
    by rewrite own_property_set_same.
  - intros ref Hat. unfold field. rewrite renumber_other; [done|].
    intros Hin. apply list_elem_of_lookup_1 in Hin as [j Hj].
    destruct (decide (j < index)) as [Hlt|Hge].
    + rewrite list_lookup_delete_lt in Hj by done.
      pose proof (NoDup_lookup _ _ _ _ Hnodup Hat Hj). lia.
    + rewrite list_lookup_delete_ge in Hj by lia.
      pose proof (NoDup_lookup _ _ _ _ Hnodup Hat Hj). lia.
Qed.

End ManagerTheorems.

Section ManagerSessions.
Import JS CampaignManager.

Lemma positions_S n : positions (S n) = (positions n ++ [JNum (Z.of_nat n + 1)])%list.
Proof. unfold positions. by rewrite seq_S, map_app. Qed.

Lemma orders_ext h h' refs :
  (forall ref, ref ∈ refs -> h' !! ref = h !! ref) -> orders h' refs = orders h refs.
Proof.
  intros Hsame. unfold orders. apply map_ext_in. intros ref Hin%list_elem_of_In.
  unfold field. by rewrite Hsame.
Qed.

(** An episode picked in the dialog goes to the end of the array as a new
    object, numbered after the others. *)
Lemma selected_numbered episodeId availableEpisodes st :
  well_formed st ->
  orders (heap st) (campaignEpisodes st) = positions (length (campaignEpisodes st)) ->
  well_formed (handleSelectEpisode episodeId availableEpisodes st) /\
  orders (heap (handleSelectEpisode episodeId availableEpisodes st))
         (campaignEpisodes (handleSelectEpisode episodeId availableEpisodes st))
  = positions (length (campaignEpisodes (handleSelectEpisode episodeId availableEpisodes st))).
Proof.
  intros [Hnodup Hheap] Horders. unfold handleSelectEpisode.
  destruct (find_episode episodeId availableEpisodes) as [episode|]; [|done].
  unfold well_formed. cbn [heap campaignEpisodes].
  assert (fresh (dom (heap st)) ∉ campaignEpisodes st) as Hfresh.
  { intros Hin. apply Hheap in Hin. apply elem_of_dom in Hin. by apply is_fresh in Hin. }
  split; [split|].
  - apply NoDup_app. split; [done|]. split; [|apply NoDup_singleton].
    intros ref Hin ->%list_elem_of_singleton. done.
  - intros ref [Hin| ->%list_elem_of_singleton]%elem_of_app.
    + rewrite lookup_insert_ne by (by intros <-). by apply Hheap.
    + by rewrite lookup_insert_eq.
  - rewrite length_app, Nat.add_1_r, positions_S. unfold orders at 1. rewrite map_app.
    f_equal.
    + etrans; [|exact Horders]. apply orders_ext. intros ref Hin.
      apply lookup_insert_ne. by intros <-.
    + cbn. unfold field. by rewrite lookup_insert_eq.
Qed.

Lemma removed_numbered index st :
  well_formed st ->
  well_formed (handleRemoveEpisode index st) /\
  orders (heap (handleRemoveEpisode index st)) (campaignEpisodes (handleRemoveEpisode index st))
  = positions (length (campaignEpisodes (handleRemoveEpisode index st))).
Proof.
  intros Hwf. pose proof Hwf as [Hnodup Hheap].
  assert (NoDup (delete index (campaignEpisodes st))) as Hnodup'.
  { eapply sublist_NoDup; [done | apply sublist_delete]. }
  assert (forall ref, ref ∈ delete index (campaignEpisodes st) -> ref ∈ campaignEpisodes st)
    as Hsub.
  { intros ref Hin. eapply elem_of_sublist; [exact Hin | apply sublist_delete]. }
  unfold handleRemoveEpisode. cbn [heap campaignEpisodes].
  split; [by apply renumber_well_formed|].
  apply renumber_orders; [done|]. intros ref Hin. by apply Hheap, Hsub.
Qed.

Lemma moved_numbered index dir st st' :
  well_formed st ->
  orders (heap st) (campaignEpisodes st) = positions (length (campaignEpisodes st)) ->
  handleMoveEpisode index dir st = Some st' ->
  well_formed st' /\
  orders (heap st') (campaignEpisodes st') = positions (length (campaignEpisodes st')).
Proof.
  intros Hwf Horders Hmove. pose proof Hwf as [Hnodup Hheap].
  destruct (moved_episodes index dir st st' Hmove)
    as [-> | (temp & other & _ & _ & _ & _ & Hperm & Hrenumber)]; [done|].
  assert (NoDup (campaignEpisodes st')) as Hnodup' by (by rewrite Hperm).
  assert (forall ref, ref ∈ campaignEpisodes st' -> is_Some (heap st !! ref)) as Hheap'.
  { intros ref Hin. apply Hheap. by rewrite <- Hperm. }
  split.
  - split; [done|]. intros ref Hin. rewrite Hrenumber. by apply renumber_is_Some, Hheap'.
  - rewrite Hrenumber. by apply renumber_orders.
Qed.

(** X27. The campaign manager keeps the episodes numbered by position.
    Whatever the user does in it (picking episodes in the dialog, removing
    rows, moving rows up and down), in any order: starting from a campaign
    whose episodes are distinct objects with the [order] fields 1, 2, ..., n
    (a campaign without episodes, say), the array passed on after every
    action is again one of distinct objects whose [order] fields are
    1, 2, ..., n. *)
Theorem manager_session_numbered actions st st' :
  well_formed st ->
  orders (heap st) (campaignEpisodes st) = positions (length (campaignEpisodes st)) ->
  run actions st = Some st' ->
  well_formed st' /\
  orders (heap st') (campaignEpisodes st') = positions (length (campaignEpisodes st')).
Proof.
  revert st. induction actions as [|a rest IH]; intros st Hwf Horders Hrun.
  - cbn in Hrun. by simplify_eq.
  - cbn [run] in Hrun. destruct (act a st) as [next|] eqn:Hact; [|done].
    assert (well_formed next /\
            orders (heap next) (campaignEpisodes next)
            = positions (length (campaignEpisodes next))) as [Hwf' Horders'].
    { destruct a as [episodeId availableEpisodes|index|index dir]; cbn [act] in Hact.
      - injection Hact as <-. by apply selected_numbered.
      - injection Hact as <-. by apply removed_numbered.
      - by eapply moved_numbered. }
    by eapply IH.
Qed.

End ManagerSessions.

(* ===================================================================== *)
(** * The further properties on concrete data *)
(* ===================================================================== *)

Section MoreConcrete.
Import JS Db Store Reference Samples.
Local Open Scope Z_scope.

Lemma sample_db_episodes :
  episodes sample_db = {["ep-1" := stamped (browser 1000) sample_props]}.
Proof. by vm_compute. Qed.

Lemma campaign_db_campaigns :
  campaigns campaign_db = {["camp-1" := stamped (browser 1500) sample_campaign_props]}.
Proof. by vm_compute. Qed.

Lemma sample_db_bounded : bounded_history sample_db.
Proof.
  intros episode. unfold count_snapshots.
  etrans; [apply map_subseteq_size, map_filter_subseteq|]. vm_compute. lia.
Qed.

Lemma empty_db_bounded : bounded_history empty_db.
Proof.
  intros episode. unfold count_snapshots.
  etrans; [apply map_subseteq_size, map_filter_subseteq|]. vm_compute. lia.
Qed.

End MoreConcrete.

Section MoreWitnesses.
Import JS Db Store Reference Samples.
Local Open Scope Z_scope.

(** X1 on the crowded store: the 18 snapshots of the sample episode are
    listed, newest first. *)
Lemma snapshots_listed_newest_first_witness :
  storage_works (browser 2000) /\
  keyed_by_id crowded_db /\
  "ep-1" <> EmptyString /\
  exists infos,
    getEpisodeSnapshots (browser 2000) (JStr "ep-1") crowded_db = Fulfilled infos /\
    StronglySorted not_older infos /\
    NoDup (map info_id infos).
Proof.
  assert ("ep-1" <> EmptyString) as Hkey by done.
  split; [apply browser_works|]. split; [apply crowded_db_keyed|]. split; [exact Hkey|].
  destruct (snapshots_listed_newest_first (browser 2000) (browser_works 2000) "ep-1"
              crowded_db crowded_db_keyed Hkey) as (infos & Hlist & Hsorted & Hnodup & _).
  exists infos. by repeat split.
Defined.

(** X2 on the sample database: a save, a rejected delete, a campaign and a
    restore of a broken backup. *)
Lemma session_keeps_history_bounded_witness :
  keyed_by_id sample_db /\
  bounded_history sample_db /\
  bounded_history
    (session [(browser 2000, SaveEpisode sample_episode);
              (browser 2100, DeleteEpisode (JStr EmptyString));
              (browser 2200, SaveCampaign sample_campaign);
              (browser 2300,
               RestoreFromBackup restore_clock (stringify 2 broken_backup))]
             sample_db).
Proof.
  split; [apply sample_db_keyed|]. split; [apply sample_db_bounded|].
  apply (session_keeps_history_bounded _ sample_db sample_db_keyed sample_db_bounded).
Defined.

(** X3 on the sample database: a delete with an empty id. *)
Lemma rejected_call_changes_nothing_witness :
  (forall clock backupJson,
     DeleteEpisode (JStr EmptyString) <> RestoreFromBackup clock backupJson) /\
  (perform (browser 2000) (DeleteEpisode (JStr EmptyString)) sample_db).2 = sample_db.
Proof.
  assert (forall clock backupJson,
            DeleteEpisode (JStr EmptyString) <> RestoreFromBackup clock backupJson)
    as Hop by done.
  split; [exact Hop|].
  assert (perform (browser 2000) (DeleteEpisode (JStr EmptyString)) sample_db
          = (Rejected (Error "Episode ID is required"),
             (perform (browser 2000) (DeleteEpisode (JStr EmptyString)) sample_db).2))
    as Hcall by (by vm_compute).
  exact (rejected_call_changes_nothing (browser 2000) _ sample_db _ _ Hop Hcall).
Defined.

(** X4 on the campaign database: saving the sample episode again. *)
Lemma save_spares_the_rest_witness :
  keyed_by_id campaign_db /\
  campaigns (saveEpisode (browser 2000) sample_episode campaign_db).2
  = campaigns campaign_db.
Proof.
  assert (keyed_by_id campaign_db) as Hkeyed.
  { eapply keyed_same_stores; [| |apply sample_db_keyed]; by vm_compute. }
  split; [exact Hkeyed|].
  apply (save_spares_the_rest (browser 2000) sample_episode campaign_db Hkeyed).
Defined.

(** X6 on the sample database: a manual snapshot taken at instant 2000 and
    restored at 3000. *)
Lemma manual_snapshot_restores_witness :
  storage_works (browser 2000) /\
  episodes sample_db !! "ep-1" = Some (stamped (browser 1000) sample_props) /\
  "ep-1" <> EmptyString /\
  snapshots sample_db !! ("ep-1" +:+ "-manual-" +:+ pretty (now (browser 2000))) = None /\
  exists snapshotId db' db'',
    createManualSnapshot (browser 2000) (JStr "ep-1") sample_db
    = (Resolved (JStr snapshotId), db') /\
    restoreEpisodeFromSnapshot (at_time (browser 2000) 3000) (JStr snapshotId) db'
    = (Resolved (JStr "ep-1"), db'') /\
    episodes db'' !! "ep-1"
    = Some (set_property (stamped (browser 1000) sample_props) "lastModified"
              (JStr (toISOString (browser 2000) 3000))).
Proof.
  assert ("ep-1" <> EmptyString) as Hkey by done.
  assert (episodes sample_db !! "ep-1" = Some (stamped (browser 1000) sample_props))
    as Hstored by (by vm_compute).
  assert (JSON_parse (browser 2000)
            (JSON_stringify (browser 2000) 0 (JObj (stamped (browser 1000) sample_props)))
          = Some (JObj (stamped (browser 1000) sample_props))) as Hcodec by (by vm_compute).
  assert (snapshots sample_db !! ("ep-1" +:+ "-manual-" +:+ pretty (now (browser 2000)))
          = None) as Hfresh by (by vm_compute).
  split; [apply browser_works|]. split; [exact Hstored|]. split; [exact Hkey|].
  split; [exact Hfresh|].
  destruct (manual_snapshot_restores (browser 2000) (browser_works 2000) sample_db "ep-1"
              (stamped (browser 1000) sample_props) 3000 Hstored eq_refl Hkey Hcodec Hfresh)
    as (snapshotId & saved & Hcreate & _ & _ & _ & Hrestore).
  eexists snapshotId, _, _. split; [exact Hcreate|]. split.
  - apply Hrestore. cbn [snapshots]. apply lookup_insert_eq.
  - cbn [episodes]. apply lookup_insert_eq.
Defined.

(** X7 on the empty database: the sample episode saved at instant 1000 and
    restored from its auto-save at 3000. *)
Lemma auto_save_restores_witness :
  storage_works (browser 1000) /\
  keyed_by_id empty_db /\
  "ep-1" <> EmptyString /\
  (count_snapshots (snapshots empty_db) "ep-1" "auto-save" < 10)%nat /\
  exists db' db'',
    saveEpisode (browser 1000) (JObj sample_props) empty_db = (Resolved (JStr "ep-1"), db') /\
    restoreEpisodeFromSnapshot (at_time (browser 1000) 3000)
      (JStr (snapshot_id (auto_save (browser 1000) "ep-1" sample_props))) db'
    = (Resolved (JStr "ep-1"), db'') /\
    episodes db'' !! "ep-1" = Some (stamped (at_time (browser 1000) 3000) sample_props).
Proof.
  assert ("ep-1" <> EmptyString) as Hkey by done.
  assert (JSON_parse (browser 1000)
            (JSON_stringify (browser 1000) 0 (JObj (stamped (browser 1000) sample_props)))
          = Some (JObj (stamped (browser 1000) sample_props))) as Hcodec by (by vm_compute).
  assert (snapshots empty_db !! snapshot_id (auto_save (browser 1000) "ep-1" sample_props)
          = None) as Hfresh by (by vm_compute).
  assert (count_snapshots (snapshots empty_db) "ep-1" "auto-save" < 10)%nat as Hfew
    by (vm_compute; lia).
  split; [apply browser_works|]. split; [apply empty_db_keyed|]. split; [exact Hkey|].
  split; [exact Hfew|].
  destruct (auto_save_restores (browser 1000) (browser_works 1000) empty_db "ep-1"
              sample_props 3000 empty_db_keyed eq_refl Hkey Hcodec Hfresh Hfew)
    as (db' & Hsave & Hkept & Hrestore).
  eexists db', _. split; [exact Hsave|]. split.
  - apply Hrestore, Hkept.
  - cbn [episodes]. apply lookup_insert_eq.
Defined.

(** X8 on the sample database: the sample campaign saved at instant 1500. *)
Lemma campaign_save_then_get_witness :
  storage_works (browser 1500) /\
  own_property sample_campaign_props "id" = JStr "camp-1" /\
  "camp-1" <> EmptyString /\
  exists db',
    saveCampaign (browser 1500) sample_campaign sample_db = (Resolved (JStr "camp-1"), db') /\
    getCampaign (browser 1500) (JStr "camp-1") db'
    = Resolved (JObj (stamped (browser 1500) sample_campaign_props)).
Proof.
  assert ("camp-1" <> EmptyString) as Hkey by done.
  split; [apply browser_works|]. split; [reflexivity|]. split; [exact Hkey|].
  destruct (campaign_save_then_get (browser 1500) (browser_works 1500) sample_db
              sample_campaign_props "camp-1" eq_refl Hkey) as (db' & Hsave & Hget & _).
  exists db'. by split.
Defined.

(** X9 on the campaign database: the sample campaign is exported at instant
    2000, imported at 3000 and exported again at 4000. *)
Lemma campaign_export_import_roundtrip_witness :
  storage_works (browser 2000) /\
  campaigns campaign_db !! "camp-1" = Some (stamped (browser 1500) sample_campaign_props) /\
  "camp-1" <> EmptyString /\
  validateCampaign (JObj (stamped (browser 1500) sample_campaign_props)) = Return tt /\
  exportCampaignToJSON (at_time (browser 2000) 4000) (JStr "camp-1")
    (importCampaignFromJSON (at_time (browser 2000) 3000)
       (JSON_stringify (browser 2000) 2
          (JObj (rest_without "lastModified" (stamped (browser 1500) sample_campaign_props))))
       campaign_db).2
  = exportCampaignToJSON (browser 2000) (JStr "camp-1") campaign_db.
Proof.
  assert ("camp-1" <> EmptyString) as Hkey by done.
  assert (campaigns campaign_db !! "camp-1"
          = Some (stamped (browser 1500) sample_campaign_props)) as Hstored by (by vm_compute).
  assert (JSON_parse (browser 2000)
            (JSON_stringify (browser 2000) 2
               (JObj (rest_without "lastModified"
                        (stamped (browser 1500) sample_campaign_props))))
          = Some (JObj (rest_without "lastModified"
                          (stamped (browser 1500) sample_campaign_props))))
    as Hcodec by (by vm_compute).
  assert (validateCampaign (JObj (stamped (browser 1500) sample_campaign_props))
          = Return tt) as Hvalid by (by vm_compute).
  split; [apply browser_works|]. split; [exact Hstored|]. split; [exact Hkey|].
  split; [exact Hvalid|].
  destruct (campaign_export_import_roundtrip (browser 2000) (browser_works 2000) campaign_db
              "camp-1" (stamped (browser 1500) sample_campaign_props) 3000 4000
              Hstored eq_refl Hkey Hcodec Hvalid) as (_ & Hfirst & _ & Hsecond).
  by rewrite Hfirst, Hsecond.
Defined.

(** X10 on the campaign database: its backup taken at instant 5000 and
    restored into the empty database. *)
Lemma backup_restores_witness :
  storage_works (browser 5000) /\
  (forall step, 0 <= restore_clock step) /\
  exists backupJson target',
    backupAllData (browser 5000) campaign_db = Resolved (JStr backupJson) /\
    restoreFromBackup (browser 5000) restore_clock backupJson empty_db
    = (Resolved JUndefined, target') /\
    (exists step,
       episodes target' !! "ep-1"
       = Some (stamped (at_time (browser 5000) (restore_clock step))
                 (stamped (browser 1000) sample_props))) /\
    (exists step,
       campaigns target' !! "camp-1"
       = Some (stamped (at_time (browser 5000) (restore_clock step))
                 (stamped (browser 1500) sample_campaign_props))).
Proof.
  assert (forall step, 0 <= restore_clock step) as Hclock
    by (intros step; unfold restore_clock; lia).
  assert (episodes campaign_db = {["ep-1" := stamped (browser 1000) sample_props]})
    as Hepisodes by apply sample_db_episodes.
  assert (forall k props, episodes campaign_db !! k = Some props ->
            k <> EmptyString /\ own_property props "id" = JStr k) as He.
  { intros k props. rewrite Hepisodes. intros [<- <-]%lookup_singleton_Some.
    split; [done|by vm_compute]. }
  assert (forall k props, campaigns campaign_db !! k = Some props ->
            k <> EmptyString /\ own_property props "id" = JStr k) as Hc.
  { intros k props. rewrite campaign_db_campaigns.
    intros [<- <-]%lookup_singleton_Some. split; [done|by vm_compute]. }
  assert (JSON_parse (browser 5000)
            (JSON_stringify (browser 5000) 2
               (backup_document (browser 5000) (JArr (getAll (episodes campaign_db)))
                  (JArr (getAll (campaigns campaign_db)))))
          = Some (backup_document (browser 5000) (JArr (getAll (episodes campaign_db)))
                    (JArr (getAll (campaigns campaign_db))))) as Hcodec by (by vm_compute).
  assert (forall (k : string) (step : nat), is_Some (episodes campaign_db !! k) ->
            snapshots empty_db !! (k +:+ "-" +:+ pretty (restore_clock step)) = None)
    as Hfresh by (intros k step _; apply lookup_empty).
  split; [apply browser_works|]. split; [exact Hclock|].
  destruct (backup_restores (browser 5000) (browser_works 5000) restore_clock Hclock
              campaign_db empty_db He Hc Hcodec Hfresh)
    as (backupJson & target' & Hbackup & Hrestore & Hes & Hcs & _).
  exists backupJson, target'. split; [exact Hbackup|]. split; [exact Hrestore|]. split.
  - apply Hes. by rewrite Hepisodes, lookup_singleton_eq.
  - apply Hcs. by rewrite campaign_db_campaigns, lookup_singleton_eq.
Defined.

(** X12 on the empty database: a backup whose second episode has no id. *)
Lemma restore_stops_at_first_failure_witness :
  storage_works (browser 5000) /\
  (forall step, 0 <= restore_clock step) /\
  JSON_parse (browser 5000) (stringify 2 broken_backup) = Some broken_backup /\
  exists db',
    restoreFromBackup (browser 5000) restore_clock (stringify 2 broken_backup) empty_db
    = (Rejected (Error "Failed to restore from backup: Invalid episode data: Missing ID"),
       db') /\
    episodes db' !! "ep-1"
    = Some (stamped (at_time (browser 5000) (restore_clock 0)) sample_props) /\
    campaigns db' = campaigns empty_db.
Proof.
  assert (forall step, 0 <= restore_clock step) as Hclock
    by (intros step; unfold restore_clock; lia).
  assert (JSON_parse (browser 5000) (stringify 2 broken_backup) = Some broken_backup)
    as Hparse by (by vm_compute).
  assert (NoDup (map fst [("ep-1", sample_props)])) as Hnodup
    by (apply NoDup_singleton).
  assert (forall r : string * list (string * jsval), r ∈ [("ep-1", sample_props)] ->
            r.1 <> EmptyString /\ own_property r.2 "id" = JStr r.1) as Hrecords
    by (by intros r ->%list_elem_of_singleton).
  assert (forall (i : nat) (r : string * list (string * jsval)),
            [("ep-1", sample_props)] !! i = Some r ->
            snapshots empty_db !! (r.1 +:+ "-" +:+ pretty (restore_clock i)) = None)
    as Hfresh by (intros i r _; apply lookup_empty).
  split; [apply browser_works|]. split; [exact Hclock|]. split; [exact Hparse|].
  destruct (restore_stops_at_first_failure (browser 5000) (browser_works 5000)
              restore_clock Hclock [("ep-1", sample_props)] (JObj [("title", JStr "No id")])
              [] [sample_campaign] (stringify 2 broken_backup) empty_db
              Hparse Hnodup Hrecords Hfresh eq_refl)
    as (db' & Hrestore & Hes & _ & Hcs).
  exists db'. split; [exact Hrestore|]. split; [|exact Hcs].
  exact (Hes 0%nat ("ep-1", sample_props) eq_refl).
Defined.

(** X13 on an empty settings store: the settings of the panel saved at
    instant 7000. *)
Lemma settings_save_then_get_witness :
  open_error (browser 7000) = None /\
  NoDup (map fst sample_settings) /\
  ("id" ∉ map fst sample_settings) /\
  exists record,
    saveSettings (browser 7000) None (JObj sample_settings) ∅
    = (Resolved JUndefined, {["app-settings" := record]}) /\
    own_property record "authorName" = JStr "A. Writer" /\
    own_property record "id" = JStr "app-settings".
Proof.
  assert (NoDup (map fst sample_settings)) as Hnodup
    by (apply (bool_decide_unpack _); by vm_compute).
  assert ("id" ∉ map fst sample_settings) as Hid
    by (apply (bool_decide_unpack _); by vm_compute).
  split; [reflexivity|]. split; [exact Hnodup|]. split; [exact Hid|].
  destruct (settings_save_then_get (browser 7000) eq_refl sample_settings ∅ Hnodup)
    as [Hsaved _].
  destruct (Hsaved (or_introl Hid)) as (record & Hsave & _ & Hown & _ & Hprops & _).
  exists record. split; [exact Hsave|]. split; [|exact Hown].
  rewrite Hprops; [done| |done]. apply (bool_decide_unpack _). by vm_compute.
Defined.

(** X14 at two instants: the ids differ whatever the random parts. *)
Lemma generated_ids_differ_witness :
  0 <= 1700000000000 /\
  0 <= 1700000000001 /\
  Utils.generateId 1700000000000 "0.4fzyo82mvyr" "ep-"
  <> Utils.generateId 1700000000001 "0.4fzyo82mvyr" "ep-".
Proof.
  split; [lia|]. split; [lia|].
  destruct (generated_ids_differ 1700000000000 1700000000001 "0.4fzyo82mvyr"
              "0.4fzyo82mvyr" "ep-" ltac:(lia) ltac:(lia)) as [Hinj _].
  intros Heq. by destruct (Hinj Heq).
Defined.

(** X17 on the cyclic graph: a session that tries to delete the [start]
    scene. *)
Lemma scene_builder_keeps_start_witness :
  NoDup (Analyzer.Object_keys Analyzer.cyclic_scenes) /\
  is_Some (Analyzer.scene_at Analyzer.cyclic_scenes "start") /\
  exists scenes',
    SceneBuilder.apply_edits sample_edits Analyzer.cyclic_scenes = Some scenes' /\
    is_Some (Analyzer.scene_at scenes' "start") /\
    Analyzer.Object_keys scenes' = ["start"; "A"; "island"; "scene-new"].
Proof.
  assert (NoDup (Analyzer.Object_keys Analyzer.cyclic_scenes)) as Hnodup
    by (apply (bool_decide_unpack _); by vm_compute).
  assert (is_Some (Analyzer.scene_at Analyzer.cyclic_scenes "start")) as Hstart
    by (by eexists).
  split; [exact Hnodup|]. split; [exact Hstart|].
  destruct (SceneBuilder.apply_edits sample_edits Analyzer.cyclic_scenes)
    as [scenes'|] eqn:Hedits; [|by vm_compute in Hedits].
  destruct (scene_builder_keeps_start sample_edits Analyzer.cyclic_scenes scenes'
              Hnodup Hstart Hedits) as (_ & Hkept & _).
  exists scenes'. split; [done|]. split; [exact Hkept|].
  vm_compute in Hedits. by injection Hedits as <-.
Defined.

(** X18 on the cyclic graph: a scene nothing leads to. *)
Lemma added_scene_is_unreachable_witness :
  ("scene-new" ∉ Analyzer.Object_keys Analyzer.cyclic_scenes) /\
  Analyzer.array_index "scene-new" = None /\
  ~ SceneBuilder.targeted Analyzer.cyclic_scenes "scene-new" /\
  is_Some (Analyzer.scene_at Analyzer.cyclic_scenes "start") /\
  Analyzer.findUnreachableScenes
    (SceneBuilder.handleAddScene "scene-new" Analyzer.cyclic_scenes)
  = Analyzer.Returns ["island"; "scene-new"].
Proof.
  assert ("scene-new" ∉ Analyzer.Object_keys Analyzer.cyclic_scenes) as Hfresh
    by (apply (bool_decide_unpack _); by vm_compute).
  assert (Analyzer.array_index "scene-new" = None) as Hname by (by vm_compute).
  assert (~ SceneBuilder.targeted Analyzer.cyclic_scenes "scene-new") as Huntargeted.
  { intros (entry & choice & Hentry & Hchoice & Hnext).
    unfold Analyzer.cyclic_scenes in Hentry.
    repeat (apply elem_of_cons in Hentry as [->|Hentry];
            [cbn in Hchoice;
             repeat (apply elem_of_cons in Hchoice as [->|Hchoice]; [done|]);
             by apply elem_of_nil in Hchoice|]).
    by apply elem_of_nil in Hentry. }
  assert (is_Some (Analyzer.scene_at Analyzer.cyclic_scenes "start")) as Hstart
    by (by eexists).
  assert (Analyzer.faultless Analyzer.cyclic_scenes) as Hfaultless.
  { apply (isSceneReachable_false Analyzer.cyclic_scenes "island"). by vm_compute. }
  split; [exact Hfresh|]. split; [exact Hname|]. split; [exact Huntargeted|].
  split; [exact Hstart|].
  destruct (added_scene_is_unreachable Analyzer.cyclic_scenes "scene-new"
              Hfresh Hname Huntargeted Hstart) as (_ & Hreported & _).
  destruct (Hreported Hfaultless) as (unreachable & Hbefore & ->).
  vm_compute in Hbefore. by injection Hbefore as <-.
Defined.

(** X19 on the cyclic graph: deleting scene [B] breaks the choice of [A]
    that led to it. *)
Lemma deleted_scene_breaks_its_links_witness :
  NoDup (Analyzer.Object_keys Analyzer.cyclic_scenes) /\
  "B" <> "start" /\
  ("A", 0%nat) ∈ Analyzer.findBrokenLinks
                   (SceneBuilder.handleDeleteScene "B" Analyzer.cyclic_scenes).
Proof.
  assert (NoDup (Analyzer.Object_keys Analyzer.cyclic_scenes)) as Hnodup
    by (apply (bool_decide_unpack _); by vm_compute).
  assert ("B" <> "start") as Hother by done.
  split; [exact Hnodup|]. split; [exact Hother|].
  destruct (deleted_scene_breaks_its_links Analyzer.cyclic_scenes "B" Hnodup Hother)
    as [Hlinks _].
  apply Hlinks. split; [done|]. eexists _, _. split; [reflexivity|].
  split; [reflexivity|]. split; [|by left].
  apply (bool_decide_unpack _). by vm_compute.
Defined.

(** X23 on a platform that answers: the templates of two fresh ids. *)
Lemma new_documents_are_ready_witness :
  open_error (browser 1700000000000) = None /\
  request_error (browser 1700000000000) (Put EPISODES_STORE) = None /\
  request_error (browser 1700000000000) (Put CAMPAIGNS_STORE) = None /\
  (saveEpisode (browser 1700000000000)
     (Schema.episode_value
        (Schema.createNewEpisodeTemplate
           (Utils.generateId 1700000000000 "0.4fzyo82mvyr" "ep-")))
     empty_db).1
  = Resolved (JStr "ep-loyw3v28-4fzyo82").
Proof.
  split; [reflexivity|]. split; [reflexivity|]. split; [reflexivity|].
  destruct (new_documents_are_ready (browser 1700000000000) 1700000000000 "0.4fzyo82mvyr"
              empty_db eq_refl eq_refl eq_refl) as (_ & _ & _ & _ & _ & -> & _).
  by vm_compute.
Defined.

(** X24 on the empty database: the template of a new episode saved from
    the editor at instant 2000, its manual snapshot taken at 2500; and the
    same template without a title, which the editor refuses to save and the
    auto-save stores. *)
Lemma editor_save_commits_witness :
  storage_works (browser 2000) /\
  EpisodeEditor.validateEpisode (Schema.createNewEpisodeTemplate "ep-new") = true /\
  (exists db',
     EpisodeEditor.handleSave (browser 2000) 2500
       (Some (Schema.createNewEpisodeTemplate "ep-new")) empty_db
     = (EpisodeEditor.Saved, db') /\
     is_Some (snapshots db' !! "ep-new-manual-2500")) /\
  EpisodeEditor.validateEpisode untitled_episode = false /\
  EpisodeEditor.handleSave (browser 2000) 2500 (Some untitled_episode) empty_db
  = (EpisodeEditor.ValidationError, empty_db) /\
  is_Some (episodes (EpisodeEditor.autoSave (browser 2000) untitled_episode empty_db)
           !! "ep-new").
Proof.
  assert (EpisodeEditor.validateEpisode (Schema.createNewEpisodeTemplate "ep-new") = true)
    as Hvalid by (by vm_compute).
  assert (EpisodeEditor.validateEpisode untitled_episode = false)
    as Hinvalid by (by vm_compute).
  split; [apply browser_works|]. split; [exact Hvalid|].
  destruct (editor_save_commits (browser 2000) (browser_works 2000) 2500
              (Schema.createNewEpisodeTemplate "ep-new") empty_db) as (_ & _ & Hsave & _).
  destruct (editor_save_commits (browser 2000) (browser_works 2000) 2500
              untitled_episode empty_db) as (_ & Hrefused & _ & Hauto).
  split; [|split; [exact Hinvalid|split; [by apply Hrefused|]]].
  - destruct (Hsave Hvalid) as (db' & manual & Hsaved & _ & Hmanual & _).
    + done.
    + by vm_compute.
    + apply lookup_empty.
    + apply lookup_empty.
    + exists db'. split; [exact Hsaved|]. exists manual.
      etrans; [|exact Hmanual]. f_equal.
  - eexists. apply Hauto; [done | apply lookup_empty].
Defined.


(** X26 on three episodes: the first is removed, the two others are
    renumbered where they are. *)
Lemma manager_renumbers_in_place_witness :
  CampaignManager.well_formed sample_manager /\
  CampaignManager.field
    (CampaignManager.heap (CampaignManager.handleRemoveEpisode 0 sample_manager))
    2%nat "order" = JNum 2.
Proof.
  assert (CampaignManager.well_formed sample_manager) as Hwf.
  { split; [apply (bool_decide_unpack _); by vm_compute|].
    intros ref Href. cbn in Href.
    repeat (apply elem_of_cons in Href as [->|Href]; [by eexists|]).
    by apply elem_of_nil in Href. }
  split; [exact Hwf|].
  destruct (manager_renumbers_in_place sample_manager 0 Hwf) as (Hafter & _).
  apply (Hafter 2%nat 2%nat); [done|lia].
Defined.

(** X27 on a campaign without episodes: three episodes are picked, one that
    is not offered is asked for, rows are moved and one is removed. *)
Lemma manager_session_numbered_witness :
  CampaignManager.well_formed CampaignManager.no_episodes /\
  exists st',
    CampaignManager.run sample_actions CampaignManager.no_episodes = Some st' /\
    map (fun ref => CampaignManager.field (CampaignManager.heap st') ref "episodeId")
        (CampaignManager.campaignEpisodes st')
    = [JStr "ep-2"; JStr "ep-3"] /\
    CampaignManager.orders (CampaignManager.heap st') (CampaignManager.campaignEpisodes st')
    = [JNum 1; JNum 2].
Proof.
  assert (CampaignManager.well_formed CampaignManager.no_episodes) as Hwf.
  { split; [apply NoDup_nil_2|]. by intros ref Hin%elem_of_nil. }
  split; [exact Hwf|].
  destruct (CampaignManager.run sample_actions CampaignManager.no_episodes)
    as [st'|] eqn:Hrun; [|by vm_compute in Hrun].
  destruct (manager_session_numbered sample_actions CampaignManager.no_episodes st'
              Hwf eq_refl Hrun) as [_ Horders].
  exists st'. split; [done|]. rewrite Horders.
  vm_compute in Hrun. injection Hrun as <-. by vm_compute.
Defined.

(** X28 on the sample database: its one episode is listed. *)
Lemma episodes_listed_as_stored_witness :
  storage_works (browser 2000) /\
  keyed_by_id sample_db /\
  exists items,
    getAllEpisodes (browser 2000) sample_db = Resolved (JArr items) /\
    length items = 1%nat /\
    JObj (stamped (browser 1000) sample_props) ∈ items.
Proof.
  split; [apply browser_works|]. split; [apply sample_db_keyed|].
  destruct (episodes_listed_as_stored (browser 2000) (browser_works 2000) sample_db
              sample_db_keyed) as (items & Hall & Hlength & Hget & _).
  exists items. split; [exact Hall|]. split.
  - rewrite Hlength. by vm_compute.
  - apply (Hget "ep-1"); [done|]. by vm_compute.
Defined.

(** X29 on the cyclic graph: scene [A], which has a dangling choice, is
    duplicated. *)
Lemma duplicated_scene_inherits_links_witness :
  NoDup (Analyzer.Object_keys Analyzer.cyclic_scenes) /\
  ("scene-copy" ∉ Analyzer.Object_keys Analyzer.cyclic_scenes) /\
  Analyzer.array_index "scene-copy" = None /\
  ~ SceneBuilder.targeted Analyzer.cyclic_scenes "scene-copy" /\
  is_Some (Analyzer.scene_at Analyzer.cyclic_scenes "start") /\
  exists scenes',
    SceneBuilder.handleDuplicateScene "scene-copy" "A" Analyzer.cyclic_scenes
    = Some scenes' /\
    ("scene-copy", 1%nat) ∈ Analyzer.findBrokenLinks scenes' /\
    Analyzer.findUnreachableScenes scenes' = Analyzer.Returns ["island"; "scene-copy"].
Proof.
  assert (NoDup (Analyzer.Object_keys Analyzer.cyclic_scenes)) as Hnodup
    by (apply (bool_decide_unpack _); by vm_compute).
  assert ("scene-copy" ∉ Analyzer.Object_keys Analyzer.cyclic_scenes) as Hfresh
    by (apply (bool_decide_unpack _); by vm_compute).
  assert (Analyzer.array_index "scene-copy" = None) as Hname by (by vm_compute).
  assert (~ SceneBuilder.targeted Analyzer.cyclic_scenes "scene-copy") as Huntargeted.
  { intros (entry & choice & Hentry & Hchoice & Hnext).
    unfold Analyzer.cyclic_scenes in Hentry.
    repeat (apply elem_of_cons in Hentry as [->|Hentry];
            [cbn in Hchoice;
             repeat (apply elem_of_cons in Hchoice as [->|Hchoice]; [done|]);
             by apply elem_of_nil in Hchoice|]).
    by apply elem_of_nil in Hentry. }
  assert (is_Some (Analyzer.scene_at Analyzer.cyclic_scenes "start")) as Hstart
    by (by eexists).
  assert (Analyzer.faultless Analyzer.cyclic_scenes) as Hfaultless.
  { apply (isSceneReachable_false Analyzer.cyclic_scenes "island"). by vm_compute. }
  split; [exact Hnodup|]. split; [exact Hfresh|]. split; [exact Hname|].
  split; [exact Huntargeted|]. split; [exact Hstart|].
  destruct (duplicated_scene_inherits_links Analyzer.cyclic_scenes "scene-copy" "A" _
              Hnodup Hfresh Hname Huntargeted Hstart eq_refl)
    as (scenes' & Hcopy & _ & _ & (copies & Hlinks & Hcopies) & Hreported & _).
  exists scenes'. split; [exact Hcopy|]. split.
  - rewrite Hlinks. apply elem_of_app. right. apply Hcopies. split; [done|].
    apply (bool_decide_unpack _). by vm_compute.
  - destruct (Hreported Hfaultless) as (unreachable & Hbefore & ->).
    vm_compute in Hbefore. by injection Hbefore as <-.
Defined.

End MoreWitnesses.
